(** * MULTILU: TAUCS's unsymmetric multifrontal LU solver

    A shallow embedding of [taucs_multilu.c] (symbolic analysis, the
    numeric factorization of a supercolumn, the sequential scheduler,
    the blocked solve) and the properties of its specification that can
    be settled on it.

    Conventions of the embedding.
    - A C [int] is a [Z], without wrap-around: indices are bounded by
      the matrix order and by the number of stored entries, and signed
      overflow is undefined in C (the sums and products of the overfill
      test may overflow for very large matrices; nothing below is about
      that).
    - A C array is a [list Z] (or a list of scalars) read with [get] and
      written with [upd].  Memory obtained from [taucs_malloc] is filled
      with one arbitrary value [garbage]; a read outside an array yields
      [garbage] as well and a write outside it is dropped.  The
      properties of the code hold for every value of [garbage]: none
      depends on a cell the code did not write (the worked inputs at the
      end take 0).
    - [assert] is modelled: a failed assertion ends the run with
      [AssertFailed].  A pointer to a structure that may be null is an
      [option]; dereferencing [None] ends the run with [NullDeref].
      Allocations succeed, except those of [allocate_factor_block],
      which an oracle decides; an array that was not obtained is the
      empty array.
    - [spawn]/[sync] (Cilk) are plain calls: the sequential elision. *)

From Stdlib Require Import ZArith Lia List Bool.
From stdpp Require Import base list.

Local Open Scope Z_scope.

(** ** Loops and assertions *)

(** [for (i = lo; i < hi; i++) s = body i s] *)
Fixpoint iter_from {St : Type} (k : nat) (i : Z) (body : Z -> St -> St) (s : St) : St :=
  match k with
  | O => s
  | S k' => iter_from k' (i + 1) body (body i s)
  end.

Definition for_ {St : Type} (lo hi : Z) (body : Z -> St -> St) (s : St) : St :=
  iter_from (Z.to_nat (hi - lo)) lo body s.

(** [for (i = hi - 1; i >= lo; i--) s = body i s] *)
Fixpoint iter_down {St : Type} (k : nat) (i : Z) (body : Z -> St -> St) (s : St) : St :=
  match k with
  | O => s
  | S k' => iter_down k' (i - 1) body (body i s)
  end.

Definition for_down {St : Type} (hi lo : Z) (body : Z -> St -> St) (s : St) : St :=
  iter_down (Z.to_nat (hi - lo + 1)) hi body s.

(** The assertions of the code, by routine. *)
Inductive assertion : Type :=
| assert_column_not_empty (col : Z)   (* elimination_analysis: colptr[org_col + 1] > colptr[org_col] *)
| assert_row_size_positive (col : Z)  (* elimination_analysis: row_size > 0 *)
| assert_vertex_below_root (v : Z)    (* df_postorder: stack_vertex[depth] < root *)
| assert_last_end (e : Z)             (* complete_symbolic: end_supercolumn[s - 1] == n - 1 *)
| assert_first_root                   (* numeric: etree.first_root != NONE *)
| assert_block_is_null (s : Z)        (* allocate_factor_block: F->blocks[s] == NULL *)
| assert_row_not_cleared (row : Z)    (* focus_*: !row_cleared[row] *)
| assert_column_not_cleared (c : Z)   (* focus_*: !column_cleared[column] *)
| assert_size_le_max (size : Z)       (* focus_*: size <= max_size *)
| assert_l_size_positive (s : Z)      (* factorize_l_portion: l_size > 0 *)
| assert_addto_row (i : Z)            (* align_add_rows: addto->rows[i_to_ind] == i_from *)
| assert_addto_column (j : Z).        (* align_add_rows/cols: addto->columns[j_to_ind] == j_from *)

(** How a run ends: it returns, an assertion fails, or a null pointer
    to a structure is dereferenced. *)
Inductive result (A : Type) : Type :=
| Ok (a : A)
| AssertFailed (w : assertion)
| NullDeref.
Arguments Ok {A} a.
Arguments AssertFailed {A} w.
Arguments NullDeref {A}.

Definition bind {A B : Type} (r : result A) (f : A -> result B) : result B :=
  match r with
  | Ok a => f a
  | AssertFailed w => AssertFailed w
  | NullDeref => NullDeref
  end.

(** stdpp's monad notation: [x ← c; k] is [bind c (fun x => k)]. *)
#[global] Instance result_bind : MBind result := fun A B f r => bind r f.
#[global] Instance result_ret : MRet result := fun A a => Ok a.

(** A [for] loop whose body may fail an assertion. *)
Fixpoint iterM_from {St : Type} (k : nat) (i : Z) (body : Z -> St -> result St) (s : St)
  : result St :=
  match k with
  | O => Ok s
  | S k' => bind (body i s) (iterM_from k' (i + 1) body)
  end.

Definition forM {St : Type} (lo hi : Z) (body : Z -> St -> result St) (s : St) : result St :=
  iterM_from (Z.to_nat (hi - lo)) lo body s.


Section Multilu.

(** The value found in memory that was allocated and not written. *)
Variable garbage : Z.

(** ** Arrays *)

Definition get (a : list Z) (i : Z) : Z :=
  if i <? 0 then garbage else default garbage (a !! Z.to_nat i).

Definition upd (a : list Z) (i v : Z) : list Z :=
  if i <? 0 then a else <[Z.to_nat i := v]> a.

Definition malloc (n : Z) : list Z := replicate (Z.to_nat n) garbage.

Definition calloc (n : Z) : list Z := replicate (Z.to_nat n) 0.

(** ** Constants *)

Definition MULTILU_SYMBOLIC_NONE : Z := -1.
Definition TRUE : Z := 1.
Definition FALSE : Z := 0.
Definition MULTILU_MAX_SUPERCOL_SIZE : Z := -1.
Definition MULTILU_MAX_OVERFILL_RATIO : Z := 2.
Definition MULTILU_RELAX_RULE_SIZE : Z := 20.
Definition MULTILU_EAN_BUFFER : Z := 2.

(** ** The input matrix (compressed columns) *)

(** Scalars are kept abstract: the factorization runs over four scalar
    kinds and no property below depends on their arithmetic. *)
Variable T : Type.

Record taucs_ccs_matrix : Type := {
  ccs_m : Z;
  ccs_n : Z;
  ccs_flags : Z;
  ccs_colptr : list Z;
  ccs_rowind : list Z;
  ccs_values : list T
}.

(** ** Union-find (compiled without [_UF_UNION_BY_RANK]) *)

Definition uf_make_sets (sets_num : Z) : list Z :=
  map Z.of_nat (seq 0 (Z.to_nat sets_num)).

(** [if (x != sets[x]) sets[x] = uf_find(sets, sets[x]); return sets[x];]
    The recursion of the code is unbounded; the model follows parent
    links for at most [fuel] calls. *)
Fixpoint uf_find_rec (fuel : nat) (sets : list Z) (x : Z) : list Z * Z :=
  match fuel with
  | O => (sets, get sets x)
  | S fuel' =>
      if x =? get sets x then (sets, get sets x)
      else
        let '(sets1, r) := uf_find_rec fuel' sets (get sets x) in
        let sets2 := upd sets1 x r in
        (sets2, get sets2 x)
  end.

Definition uf_find (sets : list Z) (x : Z) : list Z * Z :=
  uf_find_rec (S (length sets)) sets x.

(** [sets[x] = y; return y;] *)
Definition uf_union (sets : list Z) (x y : Z) : list Z * Z := (upd sets x y, y).


(** ** Local arrays of the symbolic routines

    The work arrays of [elimination_analysis], [df_postorder] and
    [detect_supercol] are kept in a store indexed by their C names. *)

Inductive array_name : Type :=
| Firstcol | Root | Rdegs | Rnums | Sets | Col_cleared | Row_cleared | Col_mmb
| Row_workspace | Rows_start | Rows_size | Parent | L_size | U_size
| Stack_vertex | Stack_child | Postorder | Desc_count
| Map_col_supercol | Lastcol | Sc_size | Sc_parent.

#[local] Instance array_name_eq_dec : EqDecision array_name.
Proof. solve_decision. Defined.

Definition store : Type := array_name -> list Z.

Definition empty_store : store := fun _ => [].

Definition put (f : array_name) (v : list Z) (s : store) : store :=
  fun f' => if decide (f = f') then v else s f'.

(** [a[i] = v] on the array named [f]. *)
Definition put_at (f : array_name) (i v : Z) (s : store) : store :=
  put f (upd (s f) i v) s.

(** ** Row pool with garbage collection *)

(** [qsort] on the live elements, keyed by [el_start].  The order in
    which [qsort] leaves equal keys is unspecified; the model keeps them
    in index order (insertion sort). *)
Fixpoint insert_el (e : Z * Z) (l : list (Z * Z)) : list (Z * Z) :=
  match l with
  | [] => [e]
  | h :: t => if fst e <=? fst h then e :: h :: t else h :: insert_el e t
  end.

Definition sort_el (l : list (Z * Z)) : list (Z * Z) :=
  fold_right insert_el [] l.

(** [memcpy(workspace + dst, workspace + src, len * sizeof(int))], copied
    upwards (the destination is never above the source here). *)
Definition memcpy_within (workspace : list Z) (dst src len : Z) : list Z :=
  for_ 0 len (fun k w => upd w (dst + k) (get w (src + k))) workspace.

Definition garbage_collect (workspace el_start el_size el_cleared : list Z) (el_num : Z)
  : list Z * list Z * Z :=
  (* Set order of elements *)
  let el_loc :=
    for_ 0 el_num (fun i acc =>
      if get el_cleared i =? 0 then acc ++ [(get el_start i, i)] else acc) [] in
  let el_loc := sort_el el_loc in
  (* Now do the defragment *)
  let '(workspace, el_loc, loc) :=
    fold_left (fun '(w, done, loc) '(start, number) =>
      (memcpy_within w loc start (get el_size number),
       done ++ [(loc, number)],
       loc + get el_size number)) el_loc (workspace, [], 0) in
  (* Now correct locations *)
  let el_start :=
    fold_left (fun es '(start, number) => upd es number start) el_loc el_start in
  (workspace, el_start, loc).

(** ** Elimination analysis *)

(** The loop shared by the two branches of the row scan: append to the
    row under construction (at [row_start], [row_size] entries so far)
    the columns of the stored row [x] that are neither cleared nor
    already members. *)
Definition append_pattern (x row_start : Z) (sr : store * Z) : store * Z :=
  for_ 0 (get (fst sr Rows_size) x) (fun j '(s, row_size) =>
    let col := get (s Row_workspace) (get (s Rows_start) x + j) in
    if (get (s Col_cleared) col =? 0) && (get (s Col_mmb) col =? 0) then
      (put_at Col_mmb col TRUE (put_at Row_workspace (row_start + row_size) col s),
       row_size + 1)
    else (s, row_size)) sr.

(** One nonzero [row] of the pivot column [col]; the state is the store,
    the size of the row under construction and the current set [cset]. *)
Definition ea_nonzero (n col row_start row : Z) (st : store * Z * Z) : store * Z * Z :=
  let '(s, row_size, cset) := st in
  let fcol := get (s Firstcol) row in
  if fcol =? n then
    let s := put_at Firstcol row col s in
    let s := put_at Rdegs cset (get (s Rdegs) cset + 1) s in
    let '(s, row_size) := append_pattern row row_start (s, row_size) in
    let s := put_at Row_cleared row TRUE s in
    (s, row_size, cset)
  else
    let '(sets1, rset) := uf_find (s Sets) fcol in
    let s := put Sets sets1 s in
    let rroot := get (s Root) rset in
    if negb (rroot =? col) then
      let rnum := get (s Rnums) rset in
      let '(s, row_size) := append_pattern rnum row_start (s, row_size) in
      let s := put_at Row_cleared rnum TRUE s in
      let s := put_at Parent rroot col s in
      let cset_old := cset in
      let '(sets2, cset) := uf_union (s Sets) cset rset in
      let s := put Sets sets2 s in
      let s := put_at Rdegs cset (get (s Rdegs) cset_old + get (s Rdegs) rset) s in
      let s := put_at Root cset col s in
      (s, row_size, cset)
    else (s, row_size, cset).

(** "Do garbage collection if needed"; the state is the store and
    [next_row]. *)
Definition ea_collect (A : taucs_ccs_matrix) (col : Z) (st : store * Z) : store * Z :=
  let '(s, next_row) := st in
  let n := ccs_n A in
  let nnz := get (ccs_colptr A) n in
  if next_row + n - col >? nnz + MULTILU_EAN_BUFFER * n then
    let '(w, es, loc) :=
      garbage_collect (s Row_workspace) (s Rows_start) (s Rows_size) (s Row_cleared)
        (ccs_m A) in
    (put Rows_start es (put Row_workspace w s), loc)
  else (s, next_row).

(** A pivot step after its first assertion. *)
Definition ea_pivot (A : taucs_ccs_matrix) (column_order : list Z) (col : Z)
    (st : store * Z) : result (store * Z) :=
  let '(s, next_row) := st in
  let n := ccs_n A in
  let row_start := next_row in
  let row_size := 0 in
  let org_col := get column_order col in
  let cset := col in
  (* This is the actual values for this column *)
  let nnz_column := get (ccs_colptr A) (org_col + 1) - get (ccs_colptr A) org_col in
  let rowind_column := fun i => get (ccs_rowind A) (get (ccs_colptr A) org_col + i) in
  (* Initilization for this column *)
  let s := put_at Root cset col s in
  let s := put_at Parent col n s in
  let s := put_at Rdegs cset 0 s in
  (* Go over non-zeros of this column *)
  let '(s, row_size, cset) :=
    for_ 0 nnz_column (fun i st => ea_nonzero n col row_start (rowind_column i) st)
      (s, row_size, cset) in
  let s := put_at L_size col (get (s Rdegs) cset) s in
  if negb (row_size >? 0) then AssertFailed (assert_row_size_positive col)
  else
    let s := put_at U_size col row_size s in
    let s := put_at Rdegs cset (Z.max 0 (get (s Rdegs) cset - 1)) s in
    (* Give a "real" number to the united row *)
    let s := put_at Rnums cset (rowind_column 0) s in
    let s := put_at Rows_start (get (s Rnums) cset) row_start s in
    let s := put_at Rows_size (get (s Rnums) cset) row_size s in
    let s := put_at Row_cleared (get (s Rnums) cset) FALSE s in
    (* Clear the column member indication *)
    let s := for_ 0 row_size (fun j s =>
               put_at Col_mmb (get (s Row_workspace) (row_start + j)) FALSE s) s in
    (* Set where to put the next row *)
    let next_row := row_start + row_size in
    (* Mark this column as cleared (using orginal col numbers) *)
    let s := put_at Col_cleared org_col TRUE s in
    Ok (s, next_row).

(** One pivot step; the state is the store and [next_row]. *)
Definition ea_column (A : taucs_ccs_matrix) (column_order : list Z) (col : Z)
    (st : store * Z) : result (store * Z) :=
  let st := ea_collect A col st in
  let org_col := get column_order col in
  (* TODO: Handle the case of empty column. *)
  if negb (get (ccs_colptr A) (org_col + 1) >? get (ccs_colptr A) org_col)
  then AssertFailed (assert_column_not_empty col)
  else ea_pivot A column_order col st.

(** The state of [elimination_analysis] before the loop over the columns. *)
Definition ea_init (A : taucs_ccs_matrix) (parent l_size u_size : list Z) : store * Z :=
  let m := ccs_m A in
  let n := ccs_n A in
  let nnz := get (ccs_colptr A) n in
  let s := put Parent parent (put L_size l_size (put U_size u_size empty_store)) in
  let s := put Firstcol (malloc m) s in
  let s := put Root (malloc n) s in
  let s := put Rdegs (malloc n) s in
  let s := put Rnums (malloc n) s in
  let s := put Sets (uf_make_sets n) s in
  let s := put Col_cleared (calloc n) s in
  let s := put Row_cleared (calloc m) s in
  let s := put Col_mmb (calloc n) s in
  let s := put Row_workspace (malloc (nnz + MULTILU_EAN_BUFFER * n)) s in
  let s := put Rows_start (malloc m) s in
  let s := put Rows_size (calloc m) s in
  (* Initilizations *)
  let s := for_ 0 m (fun i s => put_at Firstcol i n s) s in
  let s := for_ 0 nnz (fun i s =>
             let r := get (ccs_rowind A) i in
             put_at Rows_size r (get (s Rows_size) r + 1) s) s in
  let s := put_at Rows_start 0 0 s in
  let s := for_ 1 m (fun i s =>
             put_at Rows_start i (get (s Rows_start) (i - 1) + get (s Rows_size) (i - 1)) s) s in
  (* Now put values and indexs into the new matrix *)
  let s := put Rows_size (replicate (length (s Rows_size)) 0) s in
  let s := for_ 0 n (fun i s =>
             for_ (get (ccs_colptr A) i) (get (ccs_colptr A) (i + 1)) (fun j s =>
               let row := get (ccs_rowind A) j in
               let index := get (s Rows_start) row + get (s Rows_size) row in
               let s := put_at Row_workspace index i s in
               put_at Rows_size row (get (s Rows_size) row + 1) s) s) s in
  (s, nnz).

(** [elimination_analysis]: the column etree ([parent], with [n] for a
    root) and the bounds [l_size], [u_size] of every pivot step. *)
Definition elimination_analysis (A : taucs_ccs_matrix) (column_order : list Z)
    (parent l_size u_size : list Z) : result (list Z * list Z * list Z) :=
  bind (forM 0 (ccs_n A) (ea_column A column_order) (ea_init A parent l_size u_size))
    (fun '(s, _) => Ok (s Parent, s L_size, s U_size)).


(** ** Depth-first postorder *)

(** [for (child = first_child[vertex]; child != NONE; child = next_child[child])
      desc_count[vertex] += desc_count[child];]
    The list of children is followed for at most [fuel] links. *)
Fixpoint dfp_sum_children (fuel : nat) (next_child : list Z) (vertex child : Z)
    (desc_count : list Z) : list Z :=
  match fuel with
  | O => desc_count
  | S fuel' =>
      if child =? MULTILU_SYMBOLIC_NONE then desc_count
      else
        dfp_sum_children fuel' next_child vertex (get next_child child)
          (upd desc_count vertex (get desc_count vertex + get desc_count child))
  end.

(** One turn of the [while (depth >= 0)] loop; the state is the store,
    [postnum] and [depth]. *)
Definition dfp_step (first_child next_child : list Z) (root : Z) (st : store * Z * Z)
  : result (store * Z * Z) :=
  let '(s, postnum, depth) := st in
  if negb (get (s Stack_child) depth =? MULTILU_SYMBOLIC_NONE) then
    let s := put_at Stack_vertex (depth + 1) (get (s Stack_child) depth) s in
    let s := put_at Stack_child (depth + 1)
               (get first_child (get (s Stack_vertex) (depth + 1))) s in
    Ok (s, postnum, depth + 1)
  else
    bind
      (* If not "root" then we put it in the postorder *)
      (if negb (get (s Stack_vertex) depth =? root) then
         let vertex := get (s Stack_vertex) depth in
         if negb (vertex <? root) then AssertFailed (assert_vertex_below_root vertex)
         else
           let s := put_at Postorder postnum vertex s in
           let s := put_at Desc_count vertex 1 s in
           let s := put Desc_count
                      (dfp_sum_children (Z.to_nat root + 1) next_child vertex
                         (get first_child vertex) (s Desc_count)) s in
           Ok (s, postnum + 1)
       else Ok (s, postnum))
      (fun '(s, postnum) =>
         let depth := depth - 1 in
         let s := if depth >=? 0
                  then put_at Stack_child depth (get next_child (get (s Stack_child) depth)) s
                  else s in
         Ok (s, postnum, depth)).

Fixpoint dfp_while (fuel : nat) (first_child next_child : list Z) (root : Z)
    (st : store * Z * Z) : result (store * Z * Z) :=
  match fuel with
  | O => Ok st
  | S fuel' =>
      if snd st >=? 0
      then bind (dfp_step first_child next_child root st)
                (dfp_while fuel' first_child next_child root)
      else Ok st
  end.

(** [df_postorder]: every vertex is pushed once and popped once, so the
    loop is given [2 * (root + 1)] turns. *)
Definition df_postorder (first_child next_child : list Z) (root : Z)
    (postorder desc_count : list Z) : result (list Z * list Z) :=
  let s := put Postorder postorder (put Desc_count desc_count empty_store) in
  let s := put Stack_vertex (malloc (root + 1)) s in
  let s := put Stack_child (malloc (root + 1)) s in
  let postnum := 0 in
  let depth := 0 in
  let s := put_at Stack_vertex depth root s in
  let s := put_at Stack_child depth (get first_child (get (s Stack_vertex) depth)) s in
  bind (dfp_while (2 * (Z.to_nat root + 1)) first_child next_child root (s, postnum, depth))
    (fun '(s, _, _) => Ok (s Postorder, s Desc_count)).

(** ** Supercolumn detection and relaxation *)

(** The scalars of the loop over the columns. *)
Record dsc_scalars : Type := {
  fsc_num : Z;
  max_lsize : Z;
  max_usize : Z;
  sc_lsize : Z;
  sc_usize : Z
}.

(** One nonzero [row] of column [col]; the state is the store and [cset]. *)
Definition dsc_nonzero (n col row : Z) (st : store * Z) : store * Z :=
  let '(s, cset) := st in
  let fcol := get (s Firstcol) row in
  if fcol =? n then (put_at Firstcol row col s, cset)
  else
    let '(sets1, rset) := uf_find (s Sets) fcol in
    let s := put Sets sets1 s in
    let rroot := get (s Root) rset in
    if negb (rroot =? col) then
      let s := put_at Sc_parent (get (s Map_col_supercol) rroot) col s in
      let '(sets2, cset) := uf_union (s Sets) cset rset in
      let s := put Sets sets2 s in
      let s := put_at Root cset col s in
      (s, cset)
    else (s, cset).

Definition dsc_column (A : taucs_ccs_matrix)
    (column_order one_child l_size u_size postorder : list Z) (col : Z)
    (st : store * dsc_scalars) : store * dsc_scalars :=
  let '(s, v) := st in
  let n := ccs_n A in
  let org_col := get column_order col in
  let cset := col in
  (* If not one child then automatically new supercol *)
  let new_supercol :=
    (get one_child col =? 0)
    || (get (s Sc_size) (fsc_num v) =? MULTILU_MAX_SUPERCOL_SIZE) in
  (* This is the actual values for this column *)
  let nnz_column := get (ccs_colptr A) (org_col + 1) - get (ccs_colptr A) org_col in
  let rowind_column := fun i => get (ccs_rowind A) (get (ccs_colptr A) org_col + i) in
  (* Initilization for this column *)
  let s := put_at Root cset col s in
  (* Go over non-zeros of this column *)
  let '(s, cset) :=
    for_ 0 nnz_column (fun i st => dsc_nonzero n col (rowind_column i) st) (s, cset) in
  let lp := get l_size (get postorder col) in
  let up := get u_size (get postorder col) in
  (* If we are in a chain check to see if we break supercolumn *)
  let '(new_supercol, v) :=
    if negb new_supercol then
      let inc_sc_size := get (s Sc_size) (fsc_num v) + 1 in
      let max_l := max_lsize v + lp in
      let max_u := max_usize v + up in
      let sc_l := Z.max (sc_lsize v) (lp + get (s Sc_size) (fsc_num v)) in
      let sc_u := Z.max (sc_usize v) (up + get (s Sc_size) (fsc_num v)) in
      ((sc_l * inc_sc_size >? MULTILU_MAX_OVERFILL_RATIO * max_l)
       || (sc_u * inc_sc_size >? MULTILU_MAX_OVERFILL_RATIO * max_u),
       {| fsc_num := fsc_num v; max_lsize := max_l; max_usize := max_u;
          sc_lsize := sc_l; sc_usize := sc_u |})
    else (new_supercol, v) in
  (* Take care of supercolumns *)
  if new_supercol then
    let f := fsc_num v + 1 in
    let s := put_at Sc_size f 1 s in
    let s := put_at Lastcol f col s in
    let s := put_at Map_col_supercol col f s in
    (s, {| fsc_num := f; max_lsize := lp; max_usize := up; sc_lsize := lp; sc_usize := up |})
  else
    let f := fsc_num v in
    let s := put_at Sc_size f (get (s Sc_size) f + 1) s in
    let s := put_at Lastcol f col s in
    let s := put_at Map_col_supercol col f s in
    (s, v).

(** The first half of [detect_supercol]: the fundamental supercolumns
    and their parents.  Yields the store and their number. *)
Definition detect_fundamental (A : taucs_ccs_matrix)
    (column_order one_child l_size u_size postorder : list Z)
    (sc_size sc_parent : list Z) : store * Z :=
  let m := ccs_m A in
  let n := ccs_n A in
  let s := put Sc_size sc_size (put Sc_parent sc_parent empty_store) in
  let s := put Firstcol (malloc m) s in
  let s := put Map_col_supercol (malloc n) s in
  let s := put Lastcol (malloc n) s in
  let s := put Root (malloc n) s in
  let s := put Sets (uf_make_sets n) s in
  (* Initilizations *)
  let s := for_ 0 m (fun i s => put_at Firstcol i n s) s in
  let s := for_ 0 n (fun i s => put_at Sc_size i 0 s) s in
  let s := for_ 0 n (fun i s => put_at Sc_parent i MULTILU_SYMBOLIC_NONE s) s in
  let v := {| fsc_num := -1; max_lsize := 0; max_usize := 0; sc_lsize := 0; sc_usize := 0 |} in
  (* Go over columns in order... *)
  let '(s, v) :=
    for_ 0 n (dsc_column A column_order one_child l_size u_size postorder) (s, v) in
  (* Close last supercolumn *)
  let fsc := fsc_num v + 1 in
  (* Correct mapping of sc_parent from columns to supercolumns *)
  let s := for_ 0 fsc (fun i s =>
             let s := if negb (get (s Sc_parent) i =? MULTILU_SYMBOLIC_NONE)
                      then put_at Sc_parent i
                             (get (s Map_col_supercol) (get (s Sc_parent) i)) s
                      else s in
             (* Second way that it is a root - parent is itself *)
             if get (s Sc_parent) i =? i
             then put_at Sc_parent i MULTILU_SYMBOLIC_NONE s
             else s) s in
  (s, fsc).

(** Whether the fundamental supercolumn [i] closes the relaxed
    supercolumn under construction. *)
Definition relax_closes (desc_count : list Z) (s : store) (i : Z) : bool :=
  negb (get (s Sc_parent) i =? MULTILU_SYMBOLIC_NONE)
  && (get desc_count (get (s Lastcol) (get (s Sc_parent) i)) >=? MULTILU_RELAX_RULE_SIZE).

(** One turn of the relaxation loop; the state is the store, [*sc_num]
    and [cscs].  [map_fsc_rsc] is the array [map_col_supercol] itself. *)
Definition relax_step (desc_count : list Z) (i : Z) (st : store * Z * Z) : store * Z * Z :=
  let '(s, sc_num, cscs) := st in
  let cscs := cscs + get (s Sc_size) i in
  let s := put_at Map_col_supercol i sc_num s in
  let s := put_at Lastcol sc_num i s in
  if relax_closes desc_count s i then
    (put_at Sc_size sc_num cscs s, sc_num + 1, 0)
  else (s, sc_num, cscs).

(** The relaxation pass of [detect_supercol]
    ([MULTILU_RELAX_RULE_SIZE > 1]). *)
Definition relax_supercol (desc_count : list Z) (s : store) (fsc : Z) : store * Z :=
  let '(s, sc_num, cscs) := for_ 0 fsc (relax_step desc_count) (s, 0, 0) in
  let s := put_at Sc_size sc_num cscs s in
  let sc_num := sc_num + 1 in
  (* Correct parent again *)
  let s := for_ 0 sc_num (fun i s =>
             let org_parent := get (s Sc_parent) (get (s Lastcol) i) in
             if negb (org_parent =? MULTILU_SYMBOLIC_NONE)
             then put_at Sc_parent i (get (s Map_col_supercol) org_parent) s
             else put_at Sc_parent i MULTILU_SYMBOLIC_NONE s) s in
  (s, sc_num).

(** [detect_supercol]: yields [*sc_num], [sc_size] and [sc_parent]. *)
Definition detect_supercol (A : taucs_ccs_matrix)
    (column_order one_child desc_count l_size u_size postorder : list Z)
    (sc_size sc_parent : list Z) : Z * list Z * list Z :=
  let '(s, fsc) :=
    detect_fundamental A column_order one_child l_size u_size postorder sc_size sc_parent in
  let '(s, sc_num) := relax_supercol desc_count s fsc in
  (sc_num, s Sc_size, s Sc_parent).


(** ** The symbolic structure *)

Record taucs_multilu_etree : Type := {
  first_root : Z;
  parent : list Z;
  first_child : list Z;
  next_child : list Z;
  first_desc_index : list Z;
  last_desc_index : list Z
}.

Record taucs_multilu_symbolic : Type := {
  sym_n : Z;
  columns : list Z;
  number_supercolumns : Z;
  start_supercolumn : list Z;
  end_supercolumn : list Z;
  supercolumn_size : list Z;
  supercolumn_covered_columns : list Z;
  sym_l_size : list Z;
  sym_u_size : list Z;
  etree : taucs_multilu_etree
}.

(** [allocate_symbolic]: every array has [n + 1] cells, not written. *)
Definition allocate_symbolic (n : Z) : taucs_multilu_symbolic :=
  {| sym_n := n;
     columns := malloc (n + 1);
     number_supercolumns := garbage;
     start_supercolumn := malloc (n + 1);
     end_supercolumn := malloc (n + 1);
     supercolumn_size := malloc (n + 1);
     supercolumn_covered_columns := malloc (n + 1);
     sym_l_size := malloc (n + 1);
     sym_u_size := malloc (n + 1);
     etree := {| first_root := garbage;
                 parent := malloc (n + 1);
                 first_child := malloc (n + 1);
                 next_child := malloc (n + 1);
                 first_desc_index := malloc (n + 1);
                 last_desc_index := malloc (n + 1) |} |}.

(** ** Symbolic result assembly *)

(** "Build child list and find root": the state is [first_root],
    [first_child], [next_child]. *)
Definition cs_link (parent : list Z) (i : Z) (st : Z * list Z * list Z)
  : Z * list Z * list Z :=
  let '(froot, fchild, nchild) := st in
  let child := i in
  let p := get parent child in
  if p =? MULTILU_SYMBOLIC_NONE
  then (child, fchild, upd nchild child froot)
  else (froot, upd fchild p child, upd nchild child (get fchild p)).

(** "Make the desc sets using indexes in the order": the state is
    [first_desc_index], [last_desc_index]. *)
Definition cs_desc (parent : list Z) (i : Z) (st : list Z * list Z) : list Z * list Z :=
  let '(fdesc, ldesc) := st in
  let p := get parent i in
  (* If the column has descendents then end one column before *)
  let ldesc := if negb (get fdesc i =? MULTILU_SYMBOLIC_NONE)
               then upd ldesc i (i - 1) else ldesc in
  (* We update the first desc of the parent *)
  if negb (p =? MULTILU_SYMBOLIC_NONE) then
    let fdesc :=
      if (get fdesc p =? MULTILU_SYMBOLIC_NONE) && (get fdesc i =? MULTILU_SYMBOLIC_NONE)
      then upd fdesc p i else fdesc in
    let fdesc :=
      if (get fdesc p =? MULTILU_SYMBOLIC_NONE)
         && negb (get fdesc i =? MULTILU_SYMBOLIC_NONE)
      then upd fdesc p (get fdesc i) else fdesc in
    (fdesc, ldesc)
  else (fdesc, ldesc).

(** "Calculate the number of covered columns at each supercolumn". *)
Definition cs_cover (parent size : list Z) (i : Z) (cov : list Z) : list Z :=
  let p := get parent i in
  let cov := upd cov i (get cov i + get size i) in
  if negb (p =? MULTILU_SYMBOLIC_NONE)
  then upd cov p (get cov p + get cov i)
  else cov.

Definition complete_symbolic (symbolic : taucs_multilu_symbolic)
  : result taucs_multilu_symbolic :=
  let et := etree symbolic in
  let s := number_supercolumns symbolic in
  let size := supercolumn_size symbolic in
  (* Fill in supercolumn start and end *)
  let start_sc := upd (start_supercolumn symbolic) 0 0 in
  let end_sc := upd (end_supercolumn symbolic) 0 (get size 0 - 1) in
  let '(start_sc, end_sc) :=
    for_ 1 s (fun i '(st, en) =>
      let st := upd st i (get en (i - 1) + 1) in
      let en := upd en i (get st i + get size i - 1) in
      (st, en)) (start_sc, end_sc) in
  if negb (get end_sc (s - 1) =? sym_n symbolic - 1)
  then AssertFailed (assert_last_end (get end_sc (s - 1)))
  else
    (* Initlize all elements before filling them *)
    let clear := fun a => for_ 0 s (fun i a => upd a i MULTILU_SYMBOLIC_NONE) a in
    let froot := MULTILU_SYMBOLIC_NONE in
    let fchild := clear (first_child et) in
    let nchild := clear (next_child et) in
    let fdesc := clear (first_desc_index et) in
    let ldesc := clear (last_desc_index et) in
    (* Build child list and find root *)
    let '(froot, fchild, nchild) :=
      for_ 0 s (cs_link (parent et)) (froot, fchild, nchild) in
    (* Make the desc sets using indexes in the order. *)
    let '(fdesc, ldesc) := for_ 0 s (cs_desc (parent et)) (fdesc, ldesc) in
    (* Calculate the number of covered columns at each supercolumn *)
    let cov := for_ 0 s (fun i a => upd a i 0) (supercolumn_covered_columns symbolic) in
    let cov := for_ 0 s (cs_cover (parent et) size) cov in
    Ok {| sym_n := sym_n symbolic;
          columns := columns symbolic;
          number_supercolumns := s;
          start_supercolumn := start_sc;
          end_supercolumn := end_sc;
          supercolumn_size := size;
          supercolumn_covered_columns := cov;
          sym_l_size := sym_l_size symbolic;
          sym_u_size := sym_u_size symbolic;
          etree := {| first_root := froot;
                      parent := parent et;
                      first_child := fchild;
                      next_child := nchild;
                      first_desc_index := fdesc;
                      last_desc_index := ldesc |} |}.

(** ** Symbolic factorization *)

(** "Find l_size and u_size of supercolumns", the branch compiled with
    [MULTILU_RELAX_RULE_SIZE = 20]: the state is [firstcol_ind] and the
    two arrays of the symbolic structure. *)
Definition sym_sizes (l_size u_size postorder size : list Z) (i : Z)
    (st : Z * list Z * list Z) : Z * list Z * list Z :=
  let '(firstcol_ind, sl, su) := st in
  let sl := upd sl i 0 in
  let su := upd su i 0 in
  let '(sl, su) :=
    for_ 0 (get size i) (fun j '(sl, su) =>
      (upd sl i (Z.max (get sl i) (get l_size (get postorder (firstcol_ind + j)) + j)),
       upd su i (Z.max (get su i) (get u_size (get postorder (firstcol_ind + j)) + j))))
      (sl, su) in
  (firstcol_ind + get size i, sl, su).

Definition taucs_ccs_factor_lu_symbolic (A : taucs_ccs_matrix) (column_order : list Z)
  : result taucs_multilu_symbolic :=
  let n := ccs_n A in
  (* Preallocate memory *)
  let symbolic := allocate_symbolic n in
  let l_size := malloc (n + 1) in
  let u_size := malloc (n + 1) in
  let postorder := malloc n in
  let desc_count_org := malloc n in
  let one_child := calloc n in
  let desc_count := malloc n in
  (* Do elimination analysis *)
  bind (elimination_analysis A column_order (parent (etree symbolic)) l_size u_size)
    (fun '(parent_, l_size, u_size) =>
  (* Create the tree in first_child, next_child form *)
  let fchild := for_ 0 (n + 1) (fun i a => upd a i MULTILU_SYMBOLIC_NONE)
                  (first_child (etree symbolic)) in
  let '(fchild, nchild) :=
    for_down (n - 1) 0 (fun i '(fc, nc) =>
      let p := get parent_ i in
      (upd fc p i, upd nc i (get fc p))) (fchild, next_child (etree symbolic)) in
  (* Reorder the columns by depth-first postorder *)
  bind (df_postorder fchild nchild n postorder desc_count_org)
    (fun '(postorder, desc_count_org) =>
  (* Determine for each node whether it has one child exactly *)
  let one_child :=
    for_ 0 n (fun i oc =>
      let col := get postorder i in
      if negb (get fchild col =? MULTILU_SYMBOLIC_NONE)
         && (get nchild (get fchild col) =? MULTILU_SYMBOLIC_NONE)
      then upd oc i TRUE else oc) one_child in
  (* Apply the ordering to columns and desc_count *)
  let '(cols, desc_count) :=
    for_ 0 n (fun i '(c, d) =>
      (upd c i (get column_order (get postorder i)),
       upd d i (get desc_count_org (get postorder i))))
      (columns symbolic, desc_count) in
  (* Detect supercols by redoing the elimination process *)
  let '(sc_num, sc_size, sc_parent) :=
    detect_supercol A cols one_child desc_count l_size u_size postorder
      (supercolumn_size symbolic) parent_ in
  (* Find l_size and u_size of supercolumns *)
  let '(_, sl, su) :=
    for_ 0 sc_num (sym_sizes l_size u_size postorder sc_size)
      (0, sym_l_size symbolic, sym_u_size symbolic) in
  (* Complete the rest of symbolic data *)
  complete_symbolic
    {| sym_n := n;
       columns := cols;
       number_supercolumns := sc_num;
       start_supercolumn := start_supercolumn symbolic;
       end_supercolumn := end_supercolumn symbolic;
       supercolumn_size := sc_size;
       supercolumn_covered_columns := supercolumn_covered_columns symbolic;
       sym_l_size := sl;
       sym_u_size := su;
       etree := {| first_root := first_root (etree symbolic);
                   parent := sc_parent;
                   first_child := fchild;
                   next_child := nchild;
                   first_desc_index := first_desc_index (etree symbolic);
                   last_desc_index := last_desc_index (etree symbolic) |} |})).





(** ** Scalars and the dense kernels

    The scalar type, its arithmetic and the dense kernels are external
    to [taucs_multilu.c]; they are parameters of the model. *)

(** The content of a scalar cell that was allocated and not written. *)
Variable tgarbage : T.
Variable taucs_zero : T.
Variable taucs_add : T -> T -> T.

(** [taucs_double], with the test [thresh < 1.0]. *)
Variable taucs_double : Type.
Variable thresh_below_one : taucs_double -> bool.

Definition getT (a : list T) (i : Z) : T :=
  if i <? 0 then tgarbage else default tgarbage (a !! Z.to_nat i).

Definition updT (a : list T) (i : Z) (v : T) : list T :=
  if i <? 0 then a else <[Z.to_nat i := v]> a.

Definition mallocT (n : Z) : list T := replicate (Z.to_nat n) tgarbage.

(** [taucs_realloc(a, n * sizeof)]: the first [n] cells are kept. *)
Definition realloc (a : list Z) (n : Z) : list Z :=
  take (Z.to_nat n) a ++ replicate (Z.to_nat n - length a)%nat garbage.

Definition reallocT (a : list T) (n : Z) : list T :=
  take (Z.to_nat n) a ++ replicate (Z.to_nat n - length a)%nat tgarbage.

(** A dense matrix handed to a kernel: the array, the offset of its
    first entry and its leading dimension. *)
Record matrix_ref : Type := {
  mr_data : list T;
  mr_off : Z;
  mr_ld : Z
}.

(** The [m] x [n] block at offset [off] of [a], leading dimension [ld],
    as the list of its columns; and writing such a block back. *)
Definition read_cols (a : list T) (off ld m n : Z) : list (list T) :=
  map (fun c => map (fun j => getT a (off + j + c * ld)) (seqZ 0 m)) (seqZ 0 n).

Definition write_col (off ld : Z) (a : list T) (c : Z) (col : list T) : list T :=
  fst (fold_left (fun '(a, j) v => (updT a (off + j + c * ld) v, j + 1)) col (a, 0)).

Definition write_cols (a : list T) (off ld : Z) (cols : list (list T)) : list T :=
  fst (fold_left (fun '(a, c) col => (write_col off ld a c col, c + 1)) cols (a, 0)).

(** Dense LU with threshold partial pivoting, [S_LU] ([false]) and
    [C_LU] ([true]): [LU(A, m, n, ld, thresh, degrees, rows, scratch)]
    overwrites [A] and permutes [rows]. *)
Variable taucs_LU :
  bool -> list T -> Z -> Z -> Z -> taucs_double -> list Z -> list Z -> list T * list Z.

(** [UnitLowerRightTriSolve(m, n, L, ld_L, B, ld_B)] overwrites [B]. *)
Variable taucs_UnitLowerRightTriSolve :
  bool -> Z -> Z -> list T -> Z -> list T -> Z -> list T.

(** [CaddMABT(m, n, k, A, ld_A, B, ld_B, C, ld_C)] overwrites [C]. *)
Variable taucs_CaddMABT :
  bool -> Z -> Z -> Z -> matrix_ref -> matrix_ref -> matrix_ref -> list T.

(** [SwapLines(A, m, n, rows, k1, k2)] overwrites [A]. *)
Variable taucs_SwapLines : list T -> Z -> Z -> list Z -> Z -> Z -> list T.

(** The kernels of the solve phase act on the right-hand sides, given
    and returned as the list of their columns. *)
Variable taucs_UnitLowerLeftTriSolve : Z -> Z -> matrix_ref -> list (list T) -> list (list T).
Variable taucs_UpperLeftTriSolve : Z -> Z -> matrix_ref -> list (list T) -> list (list T).
(** [CaddMAB(m, n, k, A, ld_A, B, ld_B, C, ld_C)]: [C <- C - A * B]. *)
Variable taucs_CaddMAB :
  Z -> Z -> Z -> matrix_ref -> list (list T) -> list (list T) -> list (list T).
(** [CaddMATB(m, n, k, A, ld_A, B, ld_B, C, ld_C)]: [C <- C - A' * B]. *)
Variable taucs_CaddMATB :
  Z -> Z -> Z -> matrix_ref -> list (list T) -> list (list T) -> list (list T).

(** [taucs_ccs_transpose]. *)
Variable taucs_ccs_transpose : taucs_ccs_matrix -> taucs_ccs_matrix.

(** [TAUCS_DOUBLE | TAUCS_SINGLE | TAUCS_SCOMPLEX | TAUCS_DCOMPLEX]: the
    flags of [taucs.h] that name the scalar kind. *)
Variable TAUCS_SCALAR_KINDS : Z.

(** Whether [taucs_malloc] obtains the array of [allocate_factor_block]
    for supercolumn [s]: [0] is [pivot_cols], [1] is [pivot_rows], [2] is
    [LU1], [3] is [Ut2]. *)
Variable taucs_malloc_ok : Z -> Z -> bool.

(** ** Contribution blocks and factor blocks *)

Record multilu_contrib_block : Type := {
  cb_m : Z;
  cb_n : Z;
  cb_ld : Z;
  cb_columns : list Z;
  cb_col_loc : list Z;
  cb_rows : list Z;
  cb_row_loc : list Z;
  cb_values : list T;
  num_cols_in_parent : Z;
  L_member : Z;
  U_member : Z
}.

Definition set_cb_m (v : Z) (r : multilu_contrib_block) : multilu_contrib_block :=
  {| cb_m := v; cb_n := cb_n r; cb_ld := cb_ld r; cb_columns := cb_columns r;
     cb_col_loc := cb_col_loc r; cb_rows := cb_rows r; cb_row_loc := cb_row_loc r;
     cb_values := cb_values r; num_cols_in_parent := num_cols_in_parent r;
     L_member := L_member r; U_member := U_member r |}.
Definition set_cb_n (v : Z) (r : multilu_contrib_block) : multilu_contrib_block :=
  {| cb_m := cb_m r; cb_n := v; cb_ld := cb_ld r; cb_columns := cb_columns r;
     cb_col_loc := cb_col_loc r; cb_rows := cb_rows r; cb_row_loc := cb_row_loc r;
     cb_values := cb_values r; num_cols_in_parent := num_cols_in_parent r;
     L_member := L_member r; U_member := U_member r |}.
Definition set_cb_ld (v : Z) (r : multilu_contrib_block) : multilu_contrib_block :=
  {| cb_m := cb_m r; cb_n := cb_n r; cb_ld := v; cb_columns := cb_columns r;
     cb_col_loc := cb_col_loc r; cb_rows := cb_rows r; cb_row_loc := cb_row_loc r;
     cb_values := cb_values r; num_cols_in_parent := num_cols_in_parent r;
     L_member := L_member r; U_member := U_member r |}.
Definition set_cb_columns (v : list Z) (r : multilu_contrib_block) : multilu_contrib_block :=
  {| cb_m := cb_m r; cb_n := cb_n r; cb_ld := cb_ld r; cb_columns := v;
     cb_col_loc := cb_col_loc r; cb_rows := cb_rows r; cb_row_loc := cb_row_loc r;
     cb_values := cb_values r; num_cols_in_parent := num_cols_in_parent r;
     L_member := L_member r; U_member := U_member r |}.
Definition set_cb_col_loc (v : list Z) (r : multilu_contrib_block) : multilu_contrib_block :=
  {| cb_m := cb_m r; cb_n := cb_n r; cb_ld := cb_ld r; cb_columns := cb_columns r;
     cb_col_loc := v; cb_rows := cb_rows r; cb_row_loc := cb_row_loc r;
     cb_values := cb_values r; num_cols_in_parent := num_cols_in_parent r;
     L_member := L_member r; U_member := U_member r |}.
Definition set_cb_rows (v : list Z) (r : multilu_contrib_block) : multilu_contrib_block :=
  {| cb_m := cb_m r; cb_n := cb_n r; cb_ld := cb_ld r; cb_columns := cb_columns r;
     cb_col_loc := cb_col_loc r; cb_rows := v; cb_row_loc := cb_row_loc r;
     cb_values := cb_values r; num_cols_in_parent := num_cols_in_parent r;
     L_member := L_member r; U_member := U_member r |}.
Definition set_cb_row_loc (v : list Z) (r : multilu_contrib_block) : multilu_contrib_block :=
  {| cb_m := cb_m r; cb_n := cb_n r; cb_ld := cb_ld r; cb_columns := cb_columns r;
     cb_col_loc := cb_col_loc r; cb_rows := cb_rows r; cb_row_loc := v;
     cb_values := cb_values r; num_cols_in_parent := num_cols_in_parent r;
     L_member := L_member r; U_member := U_member r |}.
Definition set_cb_values (v : list T) (r : multilu_contrib_block) : multilu_contrib_block :=
  {| cb_m := cb_m r; cb_n := cb_n r; cb_ld := cb_ld r; cb_columns := cb_columns r;
     cb_col_loc := cb_col_loc r; cb_rows := cb_rows r; cb_row_loc := cb_row_loc r;
     cb_values := v; num_cols_in_parent := num_cols_in_parent r; L_member := L_member r;
     U_member := U_member r |}.
Definition set_num_cols_in_parent (v : Z) (r : multilu_contrib_block) : multilu_contrib_block :=
  {| cb_m := cb_m r; cb_n := cb_n r; cb_ld := cb_ld r; cb_columns := cb_columns r;
     cb_col_loc := cb_col_loc r; cb_rows := cb_rows r; cb_row_loc := cb_row_loc r;
     cb_values := cb_values r; num_cols_in_parent := v; L_member := L_member r;
     U_member := U_member r |}.
Definition set_L_member (v : Z) (r : multilu_contrib_block) : multilu_contrib_block :=
  {| cb_m := cb_m r; cb_n := cb_n r; cb_ld := cb_ld r; cb_columns := cb_columns r;
     cb_col_loc := cb_col_loc r; cb_rows := cb_rows r; cb_row_loc := cb_row_loc r;
     cb_values := cb_values r; num_cols_in_parent := num_cols_in_parent r; L_member := v;
     U_member := U_member r |}.
Definition set_U_member (v : Z) (r : multilu_contrib_block) : multilu_contrib_block :=
  {| cb_m := cb_m r; cb_n := cb_n r; cb_ld := cb_ld r; cb_columns := cb_columns r;
     cb_col_loc := cb_col_loc r; cb_rows := cb_rows r; cb_row_loc := cb_row_loc r;
     cb_values := cb_values r; num_cols_in_parent := num_cols_in_parent r;
     L_member := L_member r; U_member := v |}.

(** [non_pivot_rows], [non_pivot_cols] and [L2] point into [pivot_rows],
    [pivot_cols] and [LU1]: they are kept as offsets into these arrays. *)
Record multilu_factor_block : Type := {
  valid : Z;
  row_pivots_number : Z;
  col_pivots_number : Z;
  pivot_rows : list Z;
  pivot_cols : list Z;
  non_pivot_rows_number : Z;
  non_pivot_cols_number : Z;
  non_pivot_rows : Z;
  non_pivot_cols : Z;
  fb_l_size : Z;
  LU1 : list T;
  L2 : Z;
  Ut2 : list T;
  contrib_block : option multilu_contrib_block
}.

Definition set_valid (v : Z) (r : multilu_factor_block) : multilu_factor_block :=
  {| valid := v; row_pivots_number := row_pivots_number r;
     col_pivots_number := col_pivots_number r; pivot_rows := pivot_rows r;
     pivot_cols := pivot_cols r; non_pivot_rows_number := non_pivot_rows_number r;
     non_pivot_cols_number := non_pivot_cols_number r; non_pivot_rows := non_pivot_rows r;
     non_pivot_cols := non_pivot_cols r; fb_l_size := fb_l_size r; LU1 := LU1 r;
     L2 := L2 r; Ut2 := Ut2 r; contrib_block := contrib_block r |}.
Definition set_row_pivots_number (v : Z) (r : multilu_factor_block) : multilu_factor_block :=
  {| valid := valid r; row_pivots_number := v; col_pivots_number := col_pivots_number r;
     pivot_rows := pivot_rows r; pivot_cols := pivot_cols r;
     non_pivot_rows_number := non_pivot_rows_number r;
     non_pivot_cols_number := non_pivot_cols_number r; non_pivot_rows := non_pivot_rows r;
     non_pivot_cols := non_pivot_cols r; fb_l_size := fb_l_size r; LU1 := LU1 r;
     L2 := L2 r; Ut2 := Ut2 r; contrib_block := contrib_block r |}.
Definition set_col_pivots_number (v : Z) (r : multilu_factor_block) : multilu_factor_block :=
  {| valid := valid r; row_pivots_number := row_pivots_number r; col_pivots_number := v;
     pivot_rows := pivot_rows r; pivot_cols := pivot_cols r;
     non_pivot_rows_number := non_pivot_rows_number r;
     non_pivot_cols_number := non_pivot_cols_number r; non_pivot_rows := non_pivot_rows r;
     non_pivot_cols := non_pivot_cols r; fb_l_size := fb_l_size r; LU1 := LU1 r;
     L2 := L2 r; Ut2 := Ut2 r; contrib_block := contrib_block r |}.
Definition set_pivot_rows (v : list Z) (r : multilu_factor_block) : multilu_factor_block :=
  {| valid := valid r; row_pivots_number := row_pivots_number r;
     col_pivots_number := col_pivots_number r; pivot_rows := v; pivot_cols := pivot_cols r;
     non_pivot_rows_number := non_pivot_rows_number r;
     non_pivot_cols_number := non_pivot_cols_number r; non_pivot_rows := non_pivot_rows r;
     non_pivot_cols := non_pivot_cols r; fb_l_size := fb_l_size r; LU1 := LU1 r;
     L2 := L2 r; Ut2 := Ut2 r; contrib_block := contrib_block r |}.
Definition set_pivot_cols (v : list Z) (r : multilu_factor_block) : multilu_factor_block :=
  {| valid := valid r; row_pivots_number := row_pivots_number r;
     col_pivots_number := col_pivots_number r; pivot_rows := pivot_rows r; pivot_cols := v;
     non_pivot_rows_number := non_pivot_rows_number r;
     non_pivot_cols_number := non_pivot_cols_number r; non_pivot_rows := non_pivot_rows r;
     non_pivot_cols := non_pivot_cols r; fb_l_size := fb_l_size r; LU1 := LU1 r;
     L2 := L2 r; Ut2 := Ut2 r; contrib_block := contrib_block r |}.
Definition set_non_pivot_rows_number (v : Z) (r : multilu_factor_block) : multilu_factor_block :=
  {| valid := valid r; row_pivots_number := row_pivots_number r;
     col_pivots_number := col_pivots_number r; pivot_rows := pivot_rows r;
     pivot_cols := pivot_cols r; non_pivot_rows_number := v;
     non_pivot_cols_number := non_pivot_cols_number r; non_pivot_rows := non_pivot_rows r;
     non_pivot_cols := non_pivot_cols r; fb_l_size := fb_l_size r; LU1 := LU1 r;
     L2 := L2 r; Ut2 := Ut2 r; contrib_block := contrib_block r |}.
Definition set_non_pivot_cols_number (v : Z) (r : multilu_factor_block) : multilu_factor_block :=
  {| valid := valid r; row_pivots_number := row_pivots_number r;
     col_pivots_number := col_pivots_number r; pivot_rows := pivot_rows r;
     pivot_cols := pivot_cols r; non_pivot_rows_number := non_pivot_rows_number r;
     non_pivot_cols_number := v; non_pivot_rows := non_pivot_rows r;
     non_pivot_cols := non_pivot_cols r; fb_l_size := fb_l_size r; LU1 := LU1 r;
     L2 := L2 r; Ut2 := Ut2 r; contrib_block := contrib_block r |}.
Definition set_non_pivot_rows (v : Z) (r : multilu_factor_block) : multilu_factor_block :=
  {| valid := valid r; row_pivots_number := row_pivots_number r;
     col_pivots_number := col_pivots_number r; pivot_rows := pivot_rows r;
     pivot_cols := pivot_cols r; non_pivot_rows_number := non_pivot_rows_number r;
     non_pivot_cols_number := non_pivot_cols_number r; non_pivot_rows := v;
     non_pivot_cols := non_pivot_cols r; fb_l_size := fb_l_size r; LU1 := LU1 r;
     L2 := L2 r; Ut2 := Ut2 r; contrib_block := contrib_block r |}.
Definition set_non_pivot_cols (v : Z) (r : multilu_factor_block) : multilu_factor_block :=
  {| valid := valid r; row_pivots_number := row_pivots_number r;
     col_pivots_number := col_pivots_number r; pivot_rows := pivot_rows r;
     pivot_cols := pivot_cols r; non_pivot_rows_number := non_pivot_rows_number r;
     non_pivot_cols_number := non_pivot_cols_number r; non_pivot_rows := non_pivot_rows r;
     non_pivot_cols := v; fb_l_size := fb_l_size r; LU1 := LU1 r; L2 := L2 r; Ut2 := Ut2 r;
     contrib_block := contrib_block r |}.
Definition set_fb_l_size (v : Z) (r : multilu_factor_block) : multilu_factor_block :=
  {| valid := valid r; row_pivots_number := row_pivots_number r;
     col_pivots_number := col_pivots_number r; pivot_rows := pivot_rows r;
     pivot_cols := pivot_cols r; non_pivot_rows_number := non_pivot_rows_number r;
     non_pivot_cols_number := non_pivot_cols_number r; non_pivot_rows := non_pivot_rows r;
     non_pivot_cols := non_pivot_cols r; fb_l_size := v; LU1 := LU1 r; L2 := L2 r;
     Ut2 := Ut2 r; contrib_block := contrib_block r |}.
Definition set_LU1 (v : list T) (r : multilu_factor_block) : multilu_factor_block :=
  {| valid := valid r; row_pivots_number := row_pivots_number r;
     col_pivots_number := col_pivots_number r; pivot_rows := pivot_rows r;
     pivot_cols := pivot_cols r; non_pivot_rows_number := non_pivot_rows_number r;
     non_pivot_cols_number := non_pivot_cols_number r; non_pivot_rows := non_pivot_rows r;
     non_pivot_cols := non_pivot_cols r; fb_l_size := fb_l_size r; LU1 := v; L2 := L2 r;
     Ut2 := Ut2 r; contrib_block := contrib_block r |}.
Definition set_L2 (v : Z) (r : multilu_factor_block) : multilu_factor_block :=
  {| valid := valid r; row_pivots_number := row_pivots_number r;
     col_pivots_number := col_pivots_number r; pivot_rows := pivot_rows r;
     pivot_cols := pivot_cols r; non_pivot_rows_number := non_pivot_rows_number r;
     non_pivot_cols_number := non_pivot_cols_number r; non_pivot_rows := non_pivot_rows r;
     non_pivot_cols := non_pivot_cols r; fb_l_size := fb_l_size r; LU1 := LU1 r; L2 := v;
     Ut2 := Ut2 r; contrib_block := contrib_block r |}.
Definition set_Ut2 (v : list T) (r : multilu_factor_block) : multilu_factor_block :=
  {| valid := valid r; row_pivots_number := row_pivots_number r;
     col_pivots_number := col_pivots_number r; pivot_rows := pivot_rows r;
     pivot_cols := pivot_cols r; non_pivot_rows_number := non_pivot_rows_number r;
     non_pivot_cols_number := non_pivot_cols_number r; non_pivot_rows := non_pivot_rows r;
     non_pivot_cols := non_pivot_cols r; fb_l_size := fb_l_size r; LU1 := LU1 r;
     L2 := L2 r; Ut2 := v; contrib_block := contrib_block r |}.
Definition set_contrib_block (v : option multilu_contrib_block) (r : multilu_factor_block) : multilu_factor_block :=
  {| valid := valid r; row_pivots_number := row_pivots_number r;
     col_pivots_number := col_pivots_number r; pivot_rows := pivot_rows r;
     pivot_cols := pivot_cols r; non_pivot_rows_number := non_pivot_rows_number r;
     non_pivot_cols_number := non_pivot_cols_number r; non_pivot_rows := non_pivot_rows r;
     non_pivot_cols := non_pivot_cols r; fb_l_size := fb_l_size r; LU1 := LU1 r;
     L2 := L2 r; Ut2 := Ut2 r; contrib_block := v |}.

Record taucs_multilu_factor : Type := {
  num_blocks : Z;
  blocks : list (option multilu_factor_block);
  F_m : Z;
  F_n : Z;
  F_type : Z
}.

Definition set_blocks (v : list (option multilu_factor_block)) (r : taucs_multilu_factor)
  : taucs_multilu_factor :=
  {| num_blocks := num_blocks r; blocks := v; F_m := F_m r; F_n := F_n r;
     F_type := F_type r |}.

(** ** The factor context *)

Record multilu_context : Type := {
  ctx_F : taucs_multilu_factor;
  ctx_A : taucs_ccs_matrix;
  ctx_At : taucs_ccs_matrix;
  row_cleared : list Z;
  column_cleared : list Z;
  ctx_symbolic : taucs_multilu_symbolic;
  thresh : taucs_double;
  map_rows : list Z;
  ctx_map_cols : list Z;
  nproc : Z;
  LU_rows_scratch : list Z;
  LU_degrees_scratch : list Z
}.

Definition set_ctx_F (v : taucs_multilu_factor) (r : multilu_context) : multilu_context :=
  {| ctx_F := v; ctx_A := ctx_A r; ctx_At := ctx_At r; row_cleared := row_cleared r;
     column_cleared := column_cleared r; ctx_symbolic := ctx_symbolic r;
     thresh := thresh r; map_rows := map_rows r; ctx_map_cols := ctx_map_cols r;
     nproc := nproc r; LU_rows_scratch := LU_rows_scratch r;
     LU_degrees_scratch := LU_degrees_scratch r |}.
Definition set_ctx_A (v : taucs_ccs_matrix) (r : multilu_context) : multilu_context :=
  {| ctx_F := ctx_F r; ctx_A := v; ctx_At := ctx_At r; row_cleared := row_cleared r;
     column_cleared := column_cleared r; ctx_symbolic := ctx_symbolic r;
     thresh := thresh r; map_rows := map_rows r; ctx_map_cols := ctx_map_cols r;
     nproc := nproc r; LU_rows_scratch := LU_rows_scratch r;
     LU_degrees_scratch := LU_degrees_scratch r |}.
Definition set_ctx_At (v : taucs_ccs_matrix) (r : multilu_context) : multilu_context :=
  {| ctx_F := ctx_F r; ctx_A := ctx_A r; ctx_At := v; row_cleared := row_cleared r;
     column_cleared := column_cleared r; ctx_symbolic := ctx_symbolic r;
     thresh := thresh r; map_rows := map_rows r; ctx_map_cols := ctx_map_cols r;
     nproc := nproc r; LU_rows_scratch := LU_rows_scratch r;
     LU_degrees_scratch := LU_degrees_scratch r |}.
Definition set_row_cleared (v : list Z) (r : multilu_context) : multilu_context :=
  {| ctx_F := ctx_F r; ctx_A := ctx_A r; ctx_At := ctx_At r; row_cleared := v;
     column_cleared := column_cleared r; ctx_symbolic := ctx_symbolic r;
     thresh := thresh r; map_rows := map_rows r; ctx_map_cols := ctx_map_cols r;
     nproc := nproc r; LU_rows_scratch := LU_rows_scratch r;
     LU_degrees_scratch := LU_degrees_scratch r |}.
Definition set_column_cleared (v : list Z) (r : multilu_context) : multilu_context :=
  {| ctx_F := ctx_F r; ctx_A := ctx_A r; ctx_At := ctx_At r; row_cleared := row_cleared r;
     column_cleared := v; ctx_symbolic := ctx_symbolic r; thresh := thresh r;
     map_rows := map_rows r; ctx_map_cols := ctx_map_cols r; nproc := nproc r;
     LU_rows_scratch := LU_rows_scratch r; LU_degrees_scratch := LU_degrees_scratch r |}.
Definition set_ctx_symbolic (v : taucs_multilu_symbolic) (r : multilu_context) : multilu_context :=
  {| ctx_F := ctx_F r; ctx_A := ctx_A r; ctx_At := ctx_At r; row_cleared := row_cleared r;
     column_cleared := column_cleared r; ctx_symbolic := v; thresh := thresh r;
     map_rows := map_rows r; ctx_map_cols := ctx_map_cols r; nproc := nproc r;
     LU_rows_scratch := LU_rows_scratch r; LU_degrees_scratch := LU_degrees_scratch r |}.
Definition set_thresh (v : taucs_double) (r : multilu_context) : multilu_context :=
  {| ctx_F := ctx_F r; ctx_A := ctx_A r; ctx_At := ctx_At r; row_cleared := row_cleared r;
     column_cleared := column_cleared r; ctx_symbolic := ctx_symbolic r; thresh := v;
     map_rows := map_rows r; ctx_map_cols := ctx_map_cols r; nproc := nproc r;
     LU_rows_scratch := LU_rows_scratch r; LU_degrees_scratch := LU_degrees_scratch r |}.
Definition set_map_rows (v : list Z) (r : multilu_context) : multilu_context :=
  {| ctx_F := ctx_F r; ctx_A := ctx_A r; ctx_At := ctx_At r; row_cleared := row_cleared r;
     column_cleared := column_cleared r; ctx_symbolic := ctx_symbolic r;
     thresh := thresh r; map_rows := v; ctx_map_cols := ctx_map_cols r; nproc := nproc r;
     LU_rows_scratch := LU_rows_scratch r; LU_degrees_scratch := LU_degrees_scratch r |}.
Definition set_ctx_map_cols (v : list Z) (r : multilu_context) : multilu_context :=
  {| ctx_F := ctx_F r; ctx_A := ctx_A r; ctx_At := ctx_At r; row_cleared := row_cleared r;
     column_cleared := column_cleared r; ctx_symbolic := ctx_symbolic r;
     thresh := thresh r; map_rows := map_rows r; ctx_map_cols := v; nproc := nproc r;
     LU_rows_scratch := LU_rows_scratch r; LU_degrees_scratch := LU_degrees_scratch r |}.
Definition set_nproc (v : Z) (r : multilu_context) : multilu_context :=
  {| ctx_F := ctx_F r; ctx_A := ctx_A r; ctx_At := ctx_At r; row_cleared := row_cleared r;
     column_cleared := column_cleared r; ctx_symbolic := ctx_symbolic r;
     thresh := thresh r; map_rows := map_rows r; ctx_map_cols := ctx_map_cols r;
     nproc := v; LU_rows_scratch := LU_rows_scratch r;
     LU_degrees_scratch := LU_degrees_scratch r |}.
Definition set_LU_rows_scratch (v : list Z) (r : multilu_context) : multilu_context :=
  {| ctx_F := ctx_F r; ctx_A := ctx_A r; ctx_At := ctx_At r; row_cleared := row_cleared r;
     column_cleared := column_cleared r; ctx_symbolic := ctx_symbolic r;
     thresh := thresh r; map_rows := map_rows r; ctx_map_cols := ctx_map_cols r;
     nproc := nproc r; LU_rows_scratch := v; LU_degrees_scratch := LU_degrees_scratch r |}.
Definition set_LU_degrees_scratch (v : list Z) (r : multilu_context) : multilu_context :=
  {| ctx_F := ctx_F r; ctx_A := ctx_A r; ctx_At := ctx_At r; row_cleared := row_cleared r;
     column_cleared := column_cleared r; ctx_symbolic := ctx_symbolic r;
     thresh := thresh r; map_rows := map_rows r; ctx_map_cols := ctx_map_cols r;
     nproc := nproc r; LU_rows_scratch := LU_rows_scratch r; LU_degrees_scratch := v |}.

(** [mcontext->F->blocks[i]] as a pointer, and dereferenced. *)
Definition block_ptr (ctx : multilu_context) (i : Z) : option multilu_factor_block :=
  if i <? 0 then None else default None (blocks (ctx_F ctx) !! Z.to_nat i).

Definition deref {A : Type} (p : option A) : result A :=
  match p with
  | Some a => Ok a
  | None => NullDeref
  end.

Definition block_at (ctx : multilu_context) (i : Z) : result multilu_factor_block :=
  deref (block_ptr ctx i).

(** [*mcontext->F->blocks[i] = b] and [mcontext->F->blocks[i] = p]. *)
Definition set_block_ptr (i : Z) (p : option multilu_factor_block) (ctx : multilu_context)
  : multilu_context :=
  if i <? 0 then ctx
  else set_ctx_F (set_blocks (<[Z.to_nat i := p]> (blocks (ctx_F ctx))) (ctx_F ctx)) ctx.

Definition set_block (i : Z) (b : multilu_factor_block) (ctx : multilu_context)
  : multilu_context :=
  set_block_ptr i (Some b) ctx.

(** Shorthands for the symbolic data of the context. *)
Definition sym (ctx : multilu_context) : taucs_multilu_symbolic := ctx_symbolic ctx.
Definition et (ctx : multilu_context) : taucs_multilu_etree := etree (ctx_symbolic ctx).

(** [is_member]: the first location of [x] among the first [n] cells of
    [S], or -1. *)
Fixpoint is_member_from (k : nat) (i x : Z) (S : list Z) : Z :=
  match k with
  | O => -1
  | Datatypes.S k' => if get S i =? x then i else is_member_from k' (i + 1) x S
  end.

Definition is_member (x : Z) (S : list Z) (n : Z) : Z :=
  is_member_from (Z.to_nat n) 0 x S.

(** [multilu_context_create].  When [nproc > 1] the column map and the
    two scratch arrays are allocated by the Cilk and pfunc variants
    only: without them the three pointers are left as they were, which
    is an array of no cell here. *)
Definition multilu_context_create (A : taucs_ccs_matrix)
    (symbolic : taucs_multilu_symbolic) (th : taucs_double) (np : Z)
    (F0 : taucs_multilu_factor) : multilu_context :=
  {| ctx_F := F0;
     ctx_A := A;
     ctx_At := taucs_ccs_transpose A;
     row_cleared := calloc (ccs_m A);
     column_cleared := calloc (ccs_n A);
     ctx_symbolic := symbolic;
     thresh := th;
     map_rows := replicate (Z.to_nat (ccs_m A)) (-1);
     ctx_map_cols := if np <=? 1 then replicate (Z.to_nat (ccs_n A)) (-1) else [];
     nproc := np;
     LU_rows_scratch := if np <=? 1 then malloc (ccs_m A) else [];
     LU_degrees_scratch := if np <=? 1 then malloc (ccs_m A) else [] |}.

(** [allocate_factor]: the array of blocks is obtained with [calloc],
    every block pointer is null. *)
Definition allocate_factor (m n supercolumns_number type : Z) : taucs_multilu_factor :=
  {| num_blocks := supercolumns_number;
     blocks := replicate (Z.to_nat supercolumns_number) None;
     F_m := m;
     F_n := n;
     F_type := type |}.

(** [allocate_factor_block]. *)
Definition allocate_factor_block (ctx : multilu_context) (pivot_supercol : Z)
  : result multilu_context :=
  let s := get (supercolumn_size (sym ctx)) pivot_supercol in
  let mu_size := get (sym_u_size (sym ctx)) pivot_supercol in
  let ml_size := get (sym_l_size (sym ctx)) pivot_supercol in
  match block_ptr ctx pivot_supercol with
  | Some _ => AssertFailed (assert_block_is_null pivot_supercol)
  | None =>
      let ok := taucs_malloc_ok pivot_supercol in
      let pc := if (mu_size >? 0) && ok 0 then malloc mu_size else [] in
      let pc := for_ 0 s (fun i a =>
                  upd a i (get (columns (sym ctx))
                             (get (start_supercolumn (sym ctx)) pivot_supercol + i))) pc in
      let pr := if (ml_size >? 0) && ok 1 then malloc ml_size else [] in
      let lu := if (ml_size >? 0) && ok 2 then mallocT (ml_size * s) else [] in
      let lu := for_ 0 (ml_size * s) (fun i a => updT a i taucs_zero) lu in
      let ut := if (mu_size >? 0) && ok 3 then mallocT (mu_size * s) else [] in
      (* Check that allocation were successful *)
      let failed :=
        ((mu_size >? 0) && negb (ok 0)) || ((ml_size >? 0) && negb (ok 1))
        || ((ml_size >? 0) && negb (ok 2)) || ((mu_size >? 0) && negb (ok 3)) in
      Ok (set_block pivot_supercol
            {| valid := if failed then FALSE else TRUE;
               row_pivots_number := garbage;
               col_pivots_number := garbage;
               pivot_rows := pr;
               pivot_cols := pc;
               non_pivot_rows_number := garbage;
               non_pivot_cols_number := garbage;
               non_pivot_rows := garbage;
               non_pivot_cols := s;
               fb_l_size := 0;
               LU1 := lu;
               L2 := garbage;
               Ut2 := ut;
               contrib_block := None |} ctx)
  end.

(** [f] applied to the block [mcontext->F->blocks[i]] points to. *)
Definition upd_block (i : Z) (f : multilu_factor_block -> multilu_factor_block)
    (ctx : multilu_context) : multilu_context :=
  match block_ptr ctx i with
  | Some b => set_block i (f b) ctx
  | None => ctx
  end.

(** ** Column focus *)

(** The state of the focus loops: the contribution block read (and
    whether it was freed, which leaves the loop), the rows and values of
    the front, [map_rows], [column_cleared], [size] and the offset of
    [values] in [LU1]. *)
Record focus_state : Type := {
  fs_contrib : multilu_contrib_block;
  fs_freed : bool;
  fs_pivot_rows : list Z;
  fs_LU1 : list T;
  fs_map_rows : list Z;
  fs_column_cleared : list Z;
  fs_size : Z;
  fs_values : Z
}.

(** "If we can we assemble to know row, otherwise we add the new row". *)
Definition assemble_row (row : Z) (val : T) (st : focus_state) : focus_state :=
  let mr := fs_map_rows st in
  let lu := fs_LU1 st in
  let voff := fs_values st in
  if negb (get mr row =? -1) then
    {| fs_contrib := fs_contrib st; fs_freed := fs_freed st;
       fs_pivot_rows := fs_pivot_rows st;
       fs_LU1 := updT lu (voff + get mr row) (taucs_add (getT lu (voff + get mr row)) val);
       fs_map_rows := mr; fs_column_cleared := fs_column_cleared st;
       fs_size := fs_size st; fs_values := voff |}
  else
    let size := fs_size st in
    {| fs_contrib := fs_contrib st; fs_freed := fs_freed st;
       fs_pivot_rows := upd (fs_pivot_rows st) size row;
       fs_LU1 := updT lu (voff + size) val;
       fs_map_rows := upd mr row size; fs_column_cleared := fs_column_cleared st;
       fs_size := size + 1; fs_values := voff |}.

Definition fs_next_column (max_size : Z) (st : focus_state) : result focus_state :=
  if negb (fs_size st <=? max_size) then AssertFailed (assert_size_le_max (fs_size st))
  else Ok {| fs_contrib := fs_contrib st; fs_freed := fs_freed st;
             fs_pivot_rows := fs_pivot_rows st; fs_LU1 := fs_LU1 st;
             fs_map_rows := fs_map_rows st; fs_column_cleared := fs_column_cleared st;
             fs_size := fs_size st; fs_values := fs_values st + max_size |}.

Definition fs_with_contrib (cb : multilu_contrib_block) (freed : bool) (st : focus_state)
  : focus_state :=
  {| fs_contrib := cb; fs_freed := freed;
     fs_pivot_rows := fs_pivot_rows st; fs_LU1 := fs_LU1 st;
     fs_map_rows := fs_map_rows st; fs_column_cleared := fs_column_cleared st;
     fs_size := fs_size st; fs_values := fs_values st |}.

Definition fs_with_column_cleared (cc : list Z) (st : focus_state) : focus_state :=
  {| fs_contrib := fs_contrib st; fs_freed := fs_freed st;
     fs_pivot_rows := fs_pivot_rows st; fs_LU1 := fs_LU1 st;
     fs_map_rows := fs_map_rows st; fs_column_cleared := cc;
     fs_size := fs_size st; fs_values := fs_values st |}.

(** One column [col_c] of the supercolumn, looked up in the
    contribution block. *)
Definition fsc_contrib_column (ctx : multilu_context) (supercol max_size col_c : Z)
    (st : focus_state) : result focus_state :=
  if fs_freed st then Ok st
  else
    let dcb := fs_contrib st in
    let column := get (columns (sym ctx))
                    (get (start_supercolumn (sym ctx)) supercol + col_c) in
    let loc_arr := is_member column (cb_columns dcb) (cb_n dcb) in
    if negb (loc_arr =? -1) then
      (* This location in columns array maps to location in values array... *)
      let loc_val := get (cb_col_loc dcb) loc_arr in
      st ← forM 0 (cb_m dcb) (fun j st =>
             let row := get (cb_rows dcb) j in
             if negb (get (row_cleared ctx) row =? 0)
             then AssertFailed (assert_row_not_cleared row)
             else
               let j_loc := get (cb_row_loc dcb) j in
               let val := getT (cb_values dcb) (loc_val * cb_ld dcb + j_loc) in
               Ok (assemble_row row val st)) st;
      (* Make contribution block smaller. If we can - kill it *)
      let n' := cb_n dcb - 1 in
      if n' =? 0 then
        Ok (fs_with_contrib (set_cb_m 0 (set_cb_n 0 dcb)) true st)
      else
        let dcb := set_cb_n n' dcb in
        let dcb := set_cb_columns (upd (cb_columns dcb) loc_arr (get (cb_columns dcb) n')) dcb in
        let dcb := set_cb_col_loc (upd (cb_col_loc dcb) loc_arr (get (cb_col_loc dcb) n')) dcb in
        (* Mark as U_member *)
        let dcb := set_U_member TRUE dcb in
        fs_next_column max_size (fs_with_contrib dcb false st)
    else fs_next_column max_size st.

(** [focus_supercolumn_from_contrib]. *)
Definition focus_supercolumn_from_contrib (ctx : multilu_context) (supercol contrib : Z)
  : result multilu_context :=
  desc_factor_block ← block_at ctx contrib;
  match contrib_block desc_factor_block with
  | None => Ok ctx
  | Some dcb =>
      let max_size := get (sym_l_size (sym ctx)) supercol in
      factor_block ← block_at ctx supercol;
      st ← forM 0 (get (supercolumn_size (sym ctx)) supercol)
             (fsc_contrib_column ctx supercol max_size)
             {| fs_contrib := dcb; fs_freed := false;
                fs_pivot_rows := pivot_rows factor_block; fs_LU1 := LU1 factor_block;
                fs_map_rows := map_rows ctx; fs_column_cleared := column_cleared ctx;
                fs_size := fb_l_size factor_block; fs_values := 0 |};
      let ctx := upd_block contrib
                   (set_contrib_block (if fs_freed st then None else Some (fs_contrib st)))
                   ctx in
      let ctx := upd_block supercol
                   (fun b => set_fb_l_size (fs_size st)
                               (set_LU1 (fs_LU1 st) (set_pivot_rows (fs_pivot_rows st) b)))
                   ctx in
      Ok (set_map_rows (fs_map_rows st) ctx)
  end.

(** [focus_supercolumn_from_child]. *)
Definition focus_supercolumn_from_child (ctx : multilu_context) (supercol child : Z)
  : result multilu_context :=
  ctx ← (if negb (get (first_desc_index (et ctx)) child =? MULTILU_SYMBOLIC_NONE)
         then forM (get (first_desc_index (et ctx)) child) child
                (fun i ctx => focus_supercolumn_from_contrib ctx supercol i) ctx
         else Ok ctx);
  focus_supercolumn_from_contrib ctx supercol child.

(** One column [col_c] of the supercolumn, read in [A]. *)
Definition fsc_A_column (ctx : multilu_context) (factor_block : multilu_factor_block)
    (max_size col_c : Z) (st : focus_state) : result focus_state :=
  let A := ctx_A ctx in
  let column := get (pivot_cols factor_block) col_c in
  if negb (get (fs_column_cleared st) column =? 0)
  then AssertFailed (assert_column_not_cleared column)
  else
    (* First assemble from the matrix *)
    let st := for_ (get (ccs_colptr A) column) (get (ccs_colptr A) (column + 1))
                (fun i st =>
                   let row := get (ccs_rowind A) i in
                   if negb (get (row_cleared ctx) row =? 0) then st
                   else assemble_row row (getT (ccs_values A) i) st) st in
    (* Mark column as cleared *)
    let st := fs_with_column_cleared (upd (fs_column_cleared st) column TRUE) st in
    fs_next_column max_size st.

(** [focus_supercolumn_from_A]. *)
Definition focus_supercolumn_from_A (ctx : multilu_context) (supercol : Z)
  : result multilu_context :=
  let max_size := get (sym_l_size (sym ctx)) supercol in
  factor_block ← block_at ctx supercol;
  st ← forM 0 (get (supercolumn_size (sym ctx)) supercol)
         (fsc_A_column ctx factor_block max_size)
         {| fs_contrib := {| cb_m := 0; cb_n := 0; cb_ld := 0; cb_columns := [];
                             cb_col_loc := []; cb_rows := []; cb_row_loc := [];
                             cb_values := []; num_cols_in_parent := 0;
                             L_member := FALSE; U_member := FALSE |};
            fs_freed := false;
            fs_pivot_rows := pivot_rows factor_block; fs_LU1 := LU1 factor_block;
            fs_map_rows := map_rows ctx; fs_column_cleared := column_cleared ctx;
            fs_size := fb_l_size factor_block; fs_values := 0 |};
  let ctx := upd_block supercol
               (fun b => set_fb_l_size (fs_size st)
                           (set_LU1 (fs_LU1 st) (set_pivot_rows (fs_pivot_rows st) b)))
               ctx in
  Ok (set_column_cleared (fs_column_cleared st) (set_map_rows (fs_map_rows st) ctx)).

(** ** The L portion of a supercolumn *)

Definition memcpyT_within (a : list T) (dst src len : Z) : list T :=
  for_ 0 len (fun k w => updT w (dst + k) (getT w (src + k))) a.

(** [compress_values_block]: an [m] x [n] block of leading dimension
    [ld] is packed to leading dimension [m]. *)
Definition compress_values_block (values : list T) (m n ld : Z) : list T :=
  if (m =? 0) || (n =? 0) then []
  else
    let v := for_ 1 n (fun i v => memcpyT_within v (i * m) (i * ld) m) values in
    reallocT v (m * n).

(** [prepare_degree_array]. *)
Definition prepare_degree_array (ctx : multilu_context) (supercol : Z) (rows : list Z)
    (size : Z) (degrees : list Z) : result (list Z) :=
  let At := ctx_At ctx in
  let degrees := for_ 0 size (fun i d => upd d i 0) degrees in
  (* Add leftover from original rows *)
  let degrees :=
    for_ 0 size (fun i d =>
      for_ (get (ccs_colptr At) (get rows i)) (get (ccs_colptr At) (get rows i + 1))
        (fun j d =>
           if get (column_cleared ctx) (get (ccs_rowind At) j) =? 0
           then upd d i (get d i + 1) else d) d) degrees in
  (* Add size of updates *)
  if negb (get (first_desc_index (et ctx)) supercol =? MULTILU_SYMBOLIC_NONE) then
    forM (get (first_desc_index (et ctx)) supercol) supercol (fun i d =>
      desc_factor_block ← block_at ctx i;
      match contrib_block desc_factor_block with
      | None => Ok d
      | Some dcb =>
          Ok (for_ 0 (cb_m dcb) (fun j d =>
                let row := get (cb_rows dcb) j in
                if negb (get (map_rows ctx) row =? -1)
                then upd d (get (map_rows ctx) row) (get d (get (map_rows ctx) row) + cb_n dcb)
                else d) d)
      end) degrees
  else Ok degrees.

(** The part of a child's Schur update that [factorize_l_portion] and
    [factorize_supercolumn] complete for an only child ([nproc > 1]):
    columns [from, from + count) of the child's contribution block. *)
Definition child_CaddMABT (child_factor_block : multilu_factor_block)
    (ccb : multilu_contrib_block) (from count : Z) : multilu_contrib_block :=
  let ld_L := row_pivots_number child_factor_block
              + non_pivot_rows_number child_factor_block in
  set_cb_values
    (taucs_CaddMABT true (cb_m ccb) count (col_pivots_number child_factor_block)
       {| mr_data := LU1 child_factor_block; mr_off := L2 child_factor_block;
          mr_ld := ld_L |}
       {| mr_data := Ut2 child_factor_block; mr_off := from;
          mr_ld := non_pivot_cols_number child_factor_block |}
       {| mr_data := cb_values ccb; mr_off := from * cb_ld ccb; mr_ld := cb_ld ccb |})
    ccb.

(** [factorize_l_portion]; its argument [map_cols] is not used. *)
Definition factorize_l_portion (ctx : multilu_context) (pivot_supercol : Z)
    (dense_spawn one_child : bool) : result multilu_context :=
  (* If one_child need to complete the focused part and do the focus *)
  ctx ← (if one_child && (nproc ctx >? 1) then
           let child := get (first_child (et ctx)) pivot_supercol in
           child_factor_block ← block_at ctx child;
           let ctx :=
             match contrib_block child_factor_block with
             | Some ccb =>
                 if num_cols_in_parent ccb >? 0
                 then upd_block child
                        (set_contrib_block
                           (Some (child_CaddMABT child_factor_block ccb 0
                                    (num_cols_in_parent ccb)))) ctx
                 else ctx
             | None => ctx
             end in
           ctx ← allocate_factor_block ctx pivot_supercol;
           ctx ← focus_supercolumn_from_child ctx pivot_supercol child;
           focus_supercolumn_from_A ctx pivot_supercol
         else Ok ctx);
  factor_block ← block_at ctx pivot_supercol;
  if valid factor_block =? 0 then Ok ctx
  else
    (* Take the sizes *)
    let ml_size := get (sym_l_size (sym ctx)) pivot_supercol in
    let l_size := fb_l_size factor_block in
    if negb (l_size >? 0) then AssertFailed (assert_l_size_positive pivot_supercol)
    else
      let col_b_size := get (supercolumn_size (sym ctx)) pivot_supercol in
      let row_b_size := Z.min l_size col_b_size in
      (* Compress the memory beacuse we have redundent space. *)
      let pr := realloc (pivot_rows factor_block) l_size in
      let lu := compress_values_block (LU1 factor_block) l_size col_b_size ml_size in
      (* Define scratchs, preallocated or not *)
      let degrees_scratch :=
        if nproc ctx >? 1
        then (if thresh_below_one (thresh ctx) then malloc l_size else [])
        else LU_degrees_scratch ctx in
      (* If threshold is bellow 1.0 then prepare degrees array. *)
      degrees_scratch ←
        (if thresh_below_one (thresh ctx)
         then prepare_degree_array ctx pivot_supercol pr l_size degrees_scratch
         else Ok degrees_scratch);
      (* Do the LU factorization of the upper part *)
      let '(lu, pr) :=
        taucs_LU dense_spawn lu l_size col_b_size l_size (thresh ctx) degrees_scratch pr in
      let ctx := if nproc ctx >? 1 then ctx
                 else set_LU_degrees_scratch degrees_scratch ctx in
      Ok (upd_block pivot_supercol
            (fun b => set_L2 row_b_size
                        (set_LU1 lu (set_non_pivot_rows row_b_size (set_pivot_rows pr b))))
            ctx).

(** ** Row focus *)

(** The state of [focus_rows]: the array [pivot_cols] (in which [ind]
    starts at [non_pivot_cols]), the values of [Ut2], [map_cols],
    [row_cleared], [size], the offset of [values] in [Ut2], and the
    contribution block being read (and whether it was freed, which
    leaves the loop over the rows). *)
Record rows_state : Type := {
  rs_pivot_cols : list Z;
  rs_Ut2 : list T;
  rs_map_cols : list Z;
  rs_row_cleared : list Z;
  rs_size : Z;
  rs_values : Z;
  rs_contrib : multilu_contrib_block;
  rs_freed : bool
}.

Definition rs_with_contrib (cb : multilu_contrib_block) (freed : bool) (st : rows_state)
  : rows_state :=
  {| rs_pivot_cols := rs_pivot_cols st; rs_Ut2 := rs_Ut2 st;
     rs_map_cols := rs_map_cols st; rs_row_cleared := rs_row_cleared st;
     rs_size := rs_size st; rs_values := rs_values st;
     rs_contrib := cb; rs_freed := freed |}.

Definition rs_with_values (voff : Z) (st : rows_state) : rows_state :=
  {| rs_pivot_cols := rs_pivot_cols st; rs_Ut2 := rs_Ut2 st;
     rs_map_cols := rs_map_cols st; rs_row_cleared := rs_row_cleared st;
     rs_size := rs_size st; rs_values := voff;
     rs_contrib := rs_contrib st; rs_freed := rs_freed st |}.

Definition rs_with_row_cleared (rc : list Z) (st : rows_state) : rows_state :=
  {| rs_pivot_cols := rs_pivot_cols st; rs_Ut2 := rs_Ut2 st;
     rs_map_cols := rs_map_cols st; rs_row_cleared := rc;
     rs_size := rs_size st; rs_values := rs_values st;
     rs_contrib := rs_contrib st; rs_freed := rs_freed st |}.

(** The value [val] of column [col] goes to the row under assembly:
    to the location of the column if it has one ([combine] the old value
    with the new), else to a new location recorded in [ind] and
    [map_cols]. *)
Definition assemble_col (ind : Z) (combine : T -> T -> T) (col : Z) (val : T)
    (st : rows_state) : rows_state :=
  let mc := rs_map_cols st in
  let ut := rs_Ut2 st in
  let voff := rs_values st in
  if negb (get mc col =? -1) then
    {| rs_pivot_cols := rs_pivot_cols st;
       rs_Ut2 := updT ut (voff + get mc col) (combine (getT ut (voff + get mc col)) val);
       rs_map_cols := mc; rs_row_cleared := rs_row_cleared st;
       rs_size := rs_size st; rs_values := voff;
       rs_contrib := rs_contrib st; rs_freed := rs_freed st |}
  else
    let size := rs_size st in
    {| rs_pivot_cols := upd (rs_pivot_cols st) (ind + size) col;
       rs_Ut2 := updT ut (voff + size) val;
       rs_map_cols := upd mc col size; rs_row_cleared := rs_row_cleared st;
       rs_size := size + 1; rs_values := voff;
       rs_contrib := rs_contrib st; rs_freed := rs_freed st |}.

Definition rs_next_row (max_size : Z) (st : rows_state) : result rows_state :=
  if negb (rs_size st <=? max_size) then AssertFailed (assert_size_le_max (rs_size st))
  else Ok (rs_with_values (rs_values st + max_size) st).

(** One pivot row, read in the transpose of [A]. *)
Definition fr_At_row (ctx : multilu_context) (rows : list Z) (ind max_size row_ind : Z)
    (st : rows_state) : result rows_state :=
  let At := ctx_At ctx in
  let row := get rows row_ind in
  if negb (get (rs_row_cleared st) row =? 0) then AssertFailed (assert_row_not_cleared row)
  else
    (* First assemble from the matrix (use matrix transpose) *)
    let st := for_ (get (ccs_colptr At) row) (get (ccs_colptr At) (row + 1))
                (fun i st =>
                   let column := get (ccs_rowind At) i in
                   if negb (get (column_cleared ctx) column =? 0) then st
                   else assemble_col ind (fun _ v => v) column (getT (ccs_values At) i) st)
                st in
    (* Mark row as cleared *)
    let st := rs_with_row_cleared (upd (rs_row_cleared st) row TRUE) st in
    rs_next_row max_size st.

(** One pivot row, looked up in the contribution block of a descendant. *)
Definition fr_contrib_row (ctx : multilu_context) (rows : list Z) (ind max_size row_ind : Z)
    (st : rows_state) : result rows_state :=
  if rs_freed st then Ok st
  else
    let dcb := rs_contrib st in
    let row := get rows row_ind in
    let loc_arr := is_member row (cb_rows dcb) (cb_m dcb) in
    if negb (loc_arr =? -1) then
      (* This location in rows array maps to location in values array... *)
      let loc_val := get (cb_row_loc dcb) loc_arr in
      st ← forM 0 (cb_n dcb) (fun i st =>
             let col := get (cb_columns dcb) i in
             if negb (get (column_cleared ctx) col =? 0)
             then AssertFailed (assert_column_not_cleared col)
             else
               let i_loc := get (cb_col_loc dcb) i in
               let val := getT (cb_values dcb) (i_loc * cb_ld dcb + loc_val) in
               Ok (assemble_col ind taucs_add col val st)) st;
      (* Make contribution block smaller. If we can - kill it *)
      let m' := cb_m dcb - 1 in
      if m' =? 0 then
        Ok (rs_with_contrib (set_cb_m 0 (set_cb_n 0 dcb)) true st)
      else
        let dcb := set_cb_m m' dcb in
        let dcb := set_cb_rows (upd (cb_rows dcb) loc_arr (get (cb_rows dcb) m')) dcb in
        let dcb := set_cb_row_loc (upd (cb_row_loc dcb) loc_arr (get (cb_row_loc dcb) m')) dcb in
        (* Mark as L_member *)
        let dcb := set_L_member TRUE dcb in
        rs_next_row max_size (rs_with_contrib dcb false st)
    else rs_next_row max_size st.

(** The empty contribution block, where a state needs one and none is read. *)
Definition no_contrib : multilu_contrib_block :=
  {| cb_m := 0; cb_n := 0; cb_ld := 0; cb_columns := []; cb_col_loc := [];
     cb_rows := []; cb_row_loc := []; cb_values := []; num_cols_in_parent := 0;
     L_member := FALSE; U_member := FALSE |}.

(** [focus_rows]: [rows] and [number] are the pivot rows, [ind] is the
    offset of [non_pivot_cols] in [pivot_cols_arr], [values] is [Ut2].
    Yields the context, [pivot_cols_arr], [values], [map_cols] and the
    number of columns found. *)
Definition focus_rows (ctx : multilu_context) (rows : list Z) (number pivot_supercol : Z)
    (pivot_cols_arr : list Z) (ind : Z) (values : list T) (max_size : Z)
    (map_cols : list Z)
  : result (multilu_context * list Z * list T * list Z * Z) :=
  (* Initilze to zero, because will have holes... *)
  let values := for_ 0 (max_size * number) (fun i a => updT a i taucs_zero) values in
  let st := {| rs_pivot_cols := pivot_cols_arr; rs_Ut2 := values;
               rs_map_cols := map_cols; rs_row_cleared := row_cleared ctx;
               rs_size := 0; rs_values := 0;
               rs_contrib := no_contrib; rs_freed := false |} in
  (* Go over each row. *)
  st ← forM 0 number (fr_At_row ctx rows ind max_size) st;
  let ctx := set_row_cleared (rs_row_cleared st) ctx in
  (* Assemble from contribution blocks *)
  '(ctx, st) ←
    (if negb (get (first_desc_index (et ctx)) pivot_supercol =? MULTILU_SYMBOLIC_NONE)
     then
       forM (get (first_desc_index (et ctx)) pivot_supercol) pivot_supercol
         (fun c '(ctx, st) =>
            desc_factor_block ← block_at ctx c;
            match contrib_block desc_factor_block with
            | None => Ok (ctx, st)
            | Some dcb =>
                st ← forM 0 number (fr_contrib_row ctx rows ind max_size)
                       (rs_with_values 0 (rs_with_contrib dcb false st));
                Ok (upd_block c
                      (set_contrib_block
                         (if rs_freed st then None else Some (rs_contrib st))) ctx,
                    st)
            end) (ctx, st)
     else Ok (ctx, st));
  Ok (ctx, rs_pivot_cols st, rs_Ut2 st, rs_map_cols st, rs_size st).

(** [rearrange_non_pivot_cols]: the state of its loop is [pivot_cols_arr]
    (the non-pivot columns start at [ind]), [map_cols], [scratch] and
    [num_inparent]. *)
Definition rearrange_step (ctx : multilu_context) (parent_supercol ind col_c : Z)
    (st : list Z * list Z * list Z * Z) : list Z * list Z * list Z * Z :=
  let '(pc, mc, scratch, num_inparent) := st in
  let column := get (columns (sym ctx))
                  (get (start_supercolumn (sym ctx)) parent_supercol + col_c) in
  if negb (get mc column =? -1) then
    let scratch := upd scratch num_inparent (get mc column + 1) in
    let switched_column := get pc (ind + num_inparent) in
    let column_location := get mc column in
    (* Switch in non_pivot_cols *)
    let pc := upd pc (ind + num_inparent) column in
    let pc := upd pc (ind + column_location) switched_column in
    (* Swithc in map_cols *)
    let mc := upd mc switched_column column_location in
    let mc := upd mc column num_inparent in
    (pc, mc, scratch, num_inparent + 1)
  else st.

Definition rearrange_non_pivot_cols (ctx : multilu_context) (pivot_supercol : Z)
    (pivot_cols_arr : list Z) (ind : Z) (values : list T) (row_b_size ru_size : Z)
    (map_cols scratch : list Z) : list Z * list T * list Z * Z :=
  let parent_supercol := get (parent (et ctx)) pivot_supercol in
  if parent_supercol =? MULTILU_SYMBOLIC_NONE then (pivot_cols_arr, values, map_cols, 0)
  else
    let '(pc, mc, scratch, num_inparent) :=
      for_ 0 (get (supercolumn_size (sym ctx)) parent_supercol)
        (rearrange_step ctx parent_supercol ind) (pivot_cols_arr, map_cols, scratch, 0) in
    (* Do swap lines *)
    let values := if num_inparent >? 0
                  then taucs_SwapLines values row_b_size ru_size scratch 0 num_inparent
                  else values in
    (pc, values, mc, num_inparent).

(** ** Align-add *)

Definition MULTILU_ALIGN_ADD_SMALL : Z := 80.
Definition MULTILU_MIN_SIZE_DENSE_SPAWN : Z := -1.

(** [allocate_contrib_block]. *)
Definition allocate_contrib_block (l_size u_size : Z) : multilu_contrib_block :=
  {| cb_m := l_size; cb_n := u_size; cb_ld := l_size;
     cb_columns := malloc u_size; cb_col_loc := malloc u_size;
     cb_rows := malloc l_size; cb_row_loc := malloc l_size;
     cb_values := mallocT (l_size * u_size);
     num_cols_in_parent := 0; L_member := FALSE; U_member := FALSE |}.

(** The subdivision shared by [align_add], [align_add_rows] and
    [align_add_cols] when [nproc > 1]: halve the columns, then the rows,
    while a side has more than [MULTILU_ALIGN_ADD_SMALL] entries; the two
    halves run one after the other. *)
Fixpoint align_split {St : Type} (fuel : nat) (np : Z)
    (leaf : Z -> Z -> Z -> Z -> St -> result St) (m0 m1 n0 n1 : Z) (st : St)
  : result St :=
  match fuel with
  | O => leaf m0 m1 n0 n1 st
  | S fuel' =>
      if (np >? 1) && (n1 - n0 >? MULTILU_ALIGN_ADD_SMALL) then
        let nhalf := (n0 + n1) ÷ 2 in
        st ← align_split fuel' np leaf m0 m1 n0 nhalf st;
        align_split fuel' np leaf m0 m1 nhalf n1 st
      else if (np >? 1) && (m1 - m0 >? MULTILU_ALIGN_ADD_SMALL) then
        let mhalf := (m0 + m1) ÷ 2 in
        st ← align_split fuel' np leaf m0 mhalf n0 n1 st;
        align_split fuel' np leaf mhalf m1 n0 n1 st
      else leaf m0 m1 n0 n1 st
  end.

Definition split_fuel (m0 m1 n0 n1 : Z) : nat := Z.to_nat (m1 - m0) + Z.to_nat (n1 - n0).

(** The states of the three scatters: the values of [addto] and the
    block [addfrom]. *)
Definition align_add_leaf (ctx : multilu_context) (addto : multilu_contrib_block)
    (map_cols : list Z) (m0 m1 n0 n1 : Z) (st : list T * multilu_contrib_block)
  : result (list T * multilu_contrib_block) :=
  let '(v, addfrom) := st in
  let v :=
    for_ n0 n1 (fun j v =>
      (* Get column that we are adding and map it to column in new block *)
      let j_from := get (cb_columns addfrom) j in
      let j_loc := get (cb_col_loc addfrom) j in
      let j_to_ind := get map_cols j_from in
      for_ m0 m1 (fun i v =>
        (* Get row that we are adding and map it to row in new block *)
        let i_from := get (cb_rows addfrom) i in
        let i_loc := get (cb_row_loc addfrom) i in
        let i_to_ind := get (map_rows ctx) i_from in
        updT v (j_to_ind * cb_ld addto + i_to_ind)
          (taucs_add (getT v (j_to_ind * cb_ld addto + i_to_ind))
             (getT (cb_values addfrom) (j_loc * cb_ld addfrom + i_loc)))) v) v in
  (* Mark the contrib block as empty *)
  Ok (v, set_cb_n 0 addfrom).

Definition align_add (ctx : multilu_context) (addto : multilu_contrib_block)
    (map_cols : list Z) (m0 m1 n0 n1 : Z) (st : list T * multilu_contrib_block)
  : result (list T * multilu_contrib_block) :=
  align_split (split_fuel m0 m1 n0 n1) (nproc ctx) (align_add_leaf ctx addto map_cols)
    m0 m1 n0 n1 st.

Definition align_add_rows_leaf (ctx : multilu_context) (addto : multilu_contrib_block)
    (map_cols : list Z) (m0 m1 n0 n1 : Z) (st : list T * multilu_contrib_block)
  : result (list T * multilu_contrib_block) :=
  let '(v, addfrom) := st in
  v ← forM m0 m1 (fun i v =>
        (* Get row that we are adding *)
        let i_from := get (cb_rows addfrom) i in
        let i_loc := get (cb_row_loc addfrom) i in
        let i_to_ind := get (map_rows ctx) i_from in
        (* Check if not a member *)
        if i_to_ind =? -1 then Ok v
        else if negb (get (cb_rows addto) i_to_ind =? i_from)
        then AssertFailed (assert_addto_row i)
        else
          (* Now do the actual assembly of the row *)
          forM n0 n1 (fun j v =>
            let j_from := get (cb_columns addfrom) j in
            let j_loc := get (cb_col_loc addfrom) j in
            let j_to_ind := get map_cols j_from in
            if negb (get (cb_columns addto) j_to_ind =? j_from)
            then AssertFailed (assert_addto_column j)
            else
              Ok (updT v (j_to_ind * cb_ld addto + i_to_ind)
                    (taucs_add (getT v (j_to_ind * cb_ld addto + i_to_ind))
                       (getT (cb_values addfrom) (j_loc * cb_ld addfrom + i_loc))))) v) v;
  Ok (v, addfrom).

Definition align_add_rows (ctx : multilu_context) (addto : multilu_contrib_block)
    (map_cols : list Z) (m0 m1 n0 n1 : Z) (st : list T * multilu_contrib_block)
  : result (list T * multilu_contrib_block) :=
  align_split (split_fuel m0 m1 n0 n1) (nproc ctx) (align_add_rows_leaf ctx addto map_cols)
    m0 m1 n0 n1 st.

Definition align_add_cols_leaf (ctx : multilu_context) (addto : multilu_contrib_block)
    (map_cols : list Z) (m0 m1 n0 n1 : Z) (st : list T * multilu_contrib_block)
  : result (list T * multilu_contrib_block) :=
  let '(v, addfrom) := st in
  let v :=
    for_ n0 n1 (fun j v =>
      (* Get column that we are adding *)
      let j_from := get (cb_columns addfrom) j in
      let j_loc := get (cb_col_loc addfrom) j in
      let j_to_ind := get map_cols j_from in
      (* Check if not a member *)
      if j_to_ind =? -1 then v
      else
        (* Now do the actual assembly of the column *)
        for_ m0 m1 (fun i v =>
          let i_from := get (cb_rows addfrom) i in
          let i_loc := get (cb_row_loc addfrom) i in
          let i_to_ind := get (map_rows ctx) i_from in
          updT v (j_to_ind * cb_ld addto + i_to_ind)
            (taucs_add (getT v (j_to_ind * cb_ld addto + i_to_ind))
               (getT (cb_values addfrom) (j_loc * cb_ld addfrom + i_loc)))) v) v in
  Ok (v, addfrom).

Definition align_add_cols (ctx : multilu_context) (addto : multilu_contrib_block)
    (map_cols : list Z) (m0 m1 n0 n1 : Z) (st : list T * multilu_contrib_block)
  : result (list T * multilu_contrib_block) :=
  align_split (split_fuel m0 m1 n0 n1) (nproc ctx) (align_add_cols_leaf ctx addto map_cols)
    m0 m1 n0 n1 st.

(** "Correct contribution block's row mapping (take off removed)":
    [for (i = 0; i < m; i++) if (map[idx[i]] != -1) { m--; idx[i] = idx[m];
    loc[i] = loc[m]; i--; }].  Every turn advances [i] or lowers [m]. *)
Fixpoint take_off_removed (fuel : nat) (map : list Z) (i m : Z) (idx loc : list Z)
  : Z * list Z * list Z :=
  match fuel with
  | O => (m, idx, loc)
  | S fuel' =>
      if i <? m then
        if negb (get map (get idx i) =? -1) then
          let m := m - 1 in
          take_off_removed fuel' map i m (upd idx i (get idx m)) (upd loc i (get loc m))
        else take_off_removed fuel' map (i + 1) m idx loc
      else (m, idx, loc)
  end.

(** [align_add_from]: the descendant is given by its index [desc]. *)
Definition align_add_from (ctx : multilu_context) (addto : multilu_contrib_block)
    (desc : Z) (map_cols : list Z) : result (multilu_context * multilu_contrib_block) :=
  desc_factor_block ← block_at ctx desc;
  dcb ← deref (contrib_block desc_factor_block);
  let is_L := negb (L_member dcb =? 0) in
  let is_U := negb (U_member dcb =? 0) in
  (* LUSon *)
  '(v, dcb) ← (if is_L && is_U
               then align_add ctx addto map_cols 0 (cb_m dcb) 0 (cb_n dcb)
                      (cb_values addto, dcb)
               else Ok (cb_values addto, dcb));
  let addto := set_cb_values v addto in
  (* Lson *)
  '(v, dcb) ← (if is_L && negb is_U then
                 '(v, dcb) ← align_add_rows ctx addto map_cols 0 (cb_m dcb) 0 (cb_n dcb)
                               (cb_values addto, dcb);
                 (* Correct contribution block's row mapping (take off removed) *)
                 let '(m, rows, row_loc) :=
                   take_off_removed (Z.to_nat (cb_m dcb)) (map_rows ctx) 0 (cb_m dcb)
                     (cb_rows dcb) (cb_row_loc dcb) in
                 Ok (v, set_cb_row_loc row_loc (set_cb_rows rows (set_cb_m m dcb)))
               else Ok (cb_values addto, dcb));
  let addto := set_cb_values v addto in
  (* Uson *)
  '(v, dcb) ← (if negb is_L && is_U then
                 '(v, dcb) ← align_add_cols ctx addto map_cols 0 (cb_m dcb) 0 (cb_n dcb)
                               (cb_values addto, dcb);
                 (* Correct contribution block's col mapping (take off removed) *)
                 let '(n, cols, col_loc) :=
                   take_off_removed (Z.to_nat (cb_n dcb)) map_cols 0 (cb_n dcb)
                     (cb_columns dcb) (cb_col_loc dcb) in
                 Ok (v, set_cb_col_loc col_loc (set_cb_columns cols (set_cb_n n dcb)))
               else Ok (cb_values addto, dcb));
  let addto := set_cb_values v addto in
  (* If we can kill the contribution block. Otherwise unmark it *)
  let ctx :=
    if (cb_n dcb =? 0) || (cb_m dcb =? 0)
    then upd_block desc (set_contrib_block None) ctx
    else upd_block desc
           (set_contrib_block (Some (set_U_member FALSE (set_L_member FALSE dcb)))) ctx in
  Ok (ctx, addto).

(** [for (child = first; child != NONE; child = next_child[child]) body],
    followed for at most [fuel] links. *)
Definition forM_children {St : Type} (fuel : nat) (next_child_ : list Z)
    (body : Z -> St -> result St) : Z -> St -> result St :=
  (fix go (k : nat) (child : Z) (st : St) : result St :=
     match k with
     | O => Ok st
     | S k' =>
         if child =? MULTILU_SYMBOLIC_NONE then Ok st
         else st' ← body child st; go k' (get next_child_ child) st'
     end) fuel.

(** [align_add_subtree]: the recursion over the subtree is given [fuel]
    levels. *)
Fixpoint align_add_subtree (fuel : nat) (map_cols : list Z) (subtree_root : Z)
    (st : multilu_context * multilu_contrib_block)
  : result (multilu_context * multilu_contrib_block) :=
  match fuel with
  | O => Ok st
  | S fuel' =>
      (* First assemble from children's subtree then assemble from me *)
      st ← forM_children (S fuel') (next_child (et (fst st)))
             (align_add_subtree fuel' map_cols)
             (get (first_child (et (fst st))) subtree_root) st;
      let '(ctx, addto) := st in
      desc_factor_block ← block_at ctx subtree_root;
      match contrib_block desc_factor_block with
      | Some _ => align_add_from ctx addto subtree_root map_cols
      | None => Ok (ctx, addto)
      end
  end.

(** ** Numeric factorization of a supercolumn *)

(** "Has exactly one child". *)
Definition has_one_child (ctx : multilu_context) (s : Z) : bool :=
  negb (get (first_child (et ctx)) s =? MULTILU_SYMBOLIC_NONE)
  && (get (next_child (et ctx)) (get (first_child (et ctx)) s) =? MULTILU_SYMBOLIC_NONE).

(** The new contribution block of [factorize_supercolumn], before the
    contributions are added. *)
Definition new_contrib (factor_block : multilu_factor_block) (l_size row_b_size ru_size : Z)
    (num_in_parent : Z) : multilu_contrib_block :=
  let cb := allocate_contrib_block (l_size - row_b_size) ru_size in
  let cb := set_num_cols_in_parent num_in_parent cb in
  let cb := set_cb_values
              (for_ 0 (cb_n cb * cb_m cb) (fun i a => updT a i taucs_zero) (cb_values cb))
              cb in
  let cb := set_cb_rows
              (for_ 0 (l_size - row_b_size) (fun i a =>
                 upd a i (get (pivot_rows factor_block) (non_pivot_rows factor_block + i)))
                 (cb_rows cb)) cb in
  let cb := set_cb_row_loc
              (for_ 0 (l_size - row_b_size) (fun i a => upd a i i) (cb_row_loc cb)) cb in
  let cb := set_cb_columns
              (for_ 0 ru_size (fun i a =>
                 upd a i (get (pivot_cols factor_block) (non_pivot_cols factor_block + i)))
                 (cb_columns cb)) cb in
  set_cb_col_loc (for_ 0 ru_size (fun i a => upd a i i) (cb_col_loc cb)) cb.

(** "Add contributions from descendent". *)
Definition add_contributions (ctx : multilu_context) (pivot_supercol : Z)
    (map_cols : list Z) (addto : multilu_contrib_block)
  : result (multilu_context * multilu_contrib_block) :=
  if negb (get (first_desc_index (et ctx)) pivot_supercol =? MULTILU_SYMBOLIC_NONE) then
    if nproc ctx >? 1 then
      forM (get (first_desc_index (et ctx)) pivot_supercol) pivot_supercol
        (fun desc '(ctx, addto) =>
           desc_factor_block ← block_at ctx desc;
           match contrib_block desc_factor_block with
           | Some dcb =>
               if negb (L_member dcb =? 0) || negb (U_member dcb =? 0)
               then align_add_from ctx addto desc map_cols
               else Ok (ctx, addto)
           | None => Ok (ctx, addto)
           end) (ctx, addto)
    else
      forM_children (Z.to_nat (number_supercolumns (sym ctx)) + 1) (next_child (et ctx))
        (align_add_subtree (Z.to_nat (number_supercolumns (sym ctx)) + 1) map_cols)
        (get (first_child (et ctx)) pivot_supercol) (ctx, addto)
  else Ok (ctx, addto).

(** "Remove _member indication when no contribution block". *)
Definition remove_member_indication (ctx : multilu_context) (pivot_supercol : Z)
  : result multilu_context :=
  if negb (get (first_desc_index (et ctx)) pivot_supercol =? MULTILU_SYMBOLIC_NONE) then
    forM (get (first_desc_index (et ctx)) pivot_supercol) pivot_supercol
      (fun desc ctx =>
         desc_factor_block ← block_at ctx desc;
         match contrib_block desc_factor_block with
         | Some dcb =>
             Ok (upd_block desc
                   (set_contrib_block (Some (set_U_member FALSE (set_L_member FALSE dcb))))
                   ctx)
         | None => Ok ctx
         end) ctx
  else Ok ctx.

(** "Clear the row and col indication": the last three loops of
    [factorize_supercolumn]. *)
Definition clear_indication (factor_block : multilu_factor_block)
    (map_rows_ map_cols : list Z) : list Z * list Z :=
  let mr := for_ 0 (row_pivots_number factor_block) (fun i a =>
              upd a (get (pivot_rows factor_block) i) (-1)) map_rows_ in
  let mr := for_ 0 (non_pivot_rows_number factor_block) (fun i a =>
              upd a (get (pivot_rows factor_block) (non_pivot_rows factor_block + i)) (-1))
              mr in
  let mc := for_ 0 (non_pivot_cols_number factor_block) (fun i a =>
              upd a (get (pivot_cols factor_block) (non_pivot_cols factor_block + i)) (-1))
              map_cols in
  (mr, mc).

(** The U part and the contribution block of [factorize_supercolumn]:
    the branch [l_size > 0].  Yields the context, [map_cols] and
    [ru_size]. *)
Definition factorize_u_portion (ctx : multilu_context) (pivot_supercol : Z)
    (map_cols : list Z) (only_child parent_has_job dense_spawn : bool)
  : result (multilu_context * list Z * Z) :=
  factor_block ← block_at ctx pivot_supercol;
  let mu_size := get (sym_u_size (sym ctx)) pivot_supercol in
  let l_size := fb_l_size factor_block in
  let col_b_size := get (supercolumn_size (sym ctx)) pivot_supercol in
  let row_b_size := Z.min l_size col_b_size in
  (* Focus on the remainning part of the U block *)
  '(ctx, pc, ut, map_cols, ru_size) ←
    focus_rows ctx (pivot_rows factor_block) row_b_size pivot_supercol
      (pivot_cols factor_block) (non_pivot_cols factor_block) (Ut2 factor_block)
      mu_size map_cols;
  (* Compress the memory beacuse we have redundent space. *)
  let pc := realloc pc (col_b_size + ru_size) in
  let ut := compress_values_block ut ru_size row_b_size mu_size in
  let ctx := upd_block pivot_supercol
               (fun b => set_Ut2 ut (set_non_pivot_cols col_b_size (set_pivot_cols pc b)))
               ctx in
  (* OK we have a U part. Two things left: apply the pivots and create
     contribution block *)
  if ru_size >? 0 then
    (* In cilk mode and when only child - rearrange columns so that parent's
       columns are first *)
    '(ctx, map_cols, num_in_parent) ←
      (if only_child && parent_has_job && (nproc ctx >? 1) then
         factor_block ← block_at ctx pivot_supercol;
         let '(pc, ut, mc, num) :=
           rearrange_non_pivot_cols ctx pivot_supercol (pivot_cols factor_block)
             (non_pivot_cols factor_block) (Ut2 factor_block) row_b_size ru_size
             map_cols (malloc ru_size) in
         Ok (upd_block pivot_supercol (fun b => set_Ut2 ut (set_pivot_cols pc b)) ctx,
             mc, num)
       else Ok (ctx, map_cols, 0));
    (* Here is the applying of the pivots. *)
    let ctx := upd_block pivot_supercol
                 (fun b => set_Ut2 (taucs_UnitLowerRightTriSolve dense_spawn ru_size
                                      row_b_size (LU1 b) l_size (Ut2 b) ru_size) b) ctx in
    factor_block ← block_at ctx pivot_supercol;
    (* Correct row mapping *)
    let ctx := set_map_rows
                 (for_ 0 (l_size - row_b_size) (fun i a =>
                    upd a (get (pivot_rows factor_block) (non_pivot_rows factor_block + i)) i)
                    (map_rows ctx)) ctx in
    (* If l_size is biger the row_b_size we have a contribution block. *)
    if l_size - row_b_size >? 0 then
      (* Initilize contribution block *)
      let new_contrib_block :=
        new_contrib factor_block l_size row_b_size ru_size num_in_parent in
      let ctx := upd_block pivot_supercol (set_contrib_block (Some new_contrib_block)) ctx in
      (* Add contributions from descendent *)
      '(ctx, new_contrib_block) ←
        add_contributions ctx pivot_supercol map_cols new_contrib_block;
      (* Now we can add current contribution (if not only child, if so we delay) *)
      let new_contrib_block :=
        if negb only_child || negb parent_has_job then
          set_cb_values
            (taucs_CaddMABT dense_spawn (cb_m new_contrib_block) (cb_n new_contrib_block)
               col_b_size
               {| mr_data := LU1 factor_block; mr_off := L2 factor_block; mr_ld := l_size |}
               {| mr_data := Ut2 factor_block; mr_off := 0; mr_ld := ru_size |}
               {| mr_data := cb_values new_contrib_block; mr_off := 0;
                  mr_ld := cb_m new_contrib_block |})
            new_contrib_block
        else new_contrib_block in
      Ok (upd_block pivot_supercol (set_contrib_block (Some new_contrib_block)) ctx,
          map_cols, ru_size)
    else Ok (ctx, map_cols, ru_size)
  else Ok (ctx, map_cols, ru_size).

(** [factorize_supercolumn].  When [nproc <= 1] the code reads
    [only_child] and [parent_has_job] without having written them: the
    values it finds are the arguments [only_child0], [parent_has_job0]. *)
Definition factorize_supercolumn (ctx : multilu_context) (pivot_supercol : Z)
    (map_cols : list Z) (only_child0 parent_has_job0 : bool)
  : result (multilu_context * list Z) :=
  let par := get (parent (et ctx)) pivot_supercol in
  let only_child :=
    if nproc ctx >? 1 then
      negb (par =? MULTILU_SYMBOLIC_NONE)
      && (get (first_child (et ctx)) par =? pivot_supercol)
      && (get (next_child (et ctx)) pivot_supercol =? MULTILU_SYMBOLIC_NONE)
    else only_child0 in
  let parent_has_job :=
    if nproc ctx >? 1 then
      negb (par =? MULTILU_SYMBOLIC_NONE) && (get (sym_l_size (sym ctx)) par >? 0)
    else parent_has_job0 in
  let dense_spawn :=
    if nproc ctx >? 1
    then get (supercolumn_size (sym ctx)) pivot_supercol >=? MULTILU_MIN_SIZE_DENSE_SPAWN
    else false in
  let one_child := has_one_child ctx pivot_supercol in
  (* Factorize the L porition *)
  ctx ← factorize_l_portion ctx pivot_supercol dense_spawn one_child;
  (* If one child then we must now compelte a portion of the child's multiply *)
  ctx ← (if one_child && (nproc ctx >? 1) then
           let child := get (first_child (et ctx)) pivot_supercol in
           child_factor_block ← block_at ctx child;
           Ok match contrib_block child_factor_block with
              | Some ccb =>
                  let num_inparent := num_cols_in_parent ccb in
                  if non_pivot_cols_number child_factor_block - num_inparent >? 0
                  then upd_block child
                         (set_contrib_block
                            (Some (child_CaddMABT child_factor_block ccb num_inparent
                                     (non_pivot_cols_number child_factor_block
                                      - num_inparent)))) ctx
                  else ctx
              | None => ctx
              end
         else Ok ctx);
  (* Intilize varaibles *)
  factor_block ← block_at ctx pivot_supercol;
  if valid factor_block =? 0 then Ok (ctx, map_cols)
  else
    let l_size := fb_l_size factor_block in
    let col_b_size := get (supercolumn_size (sym ctx)) pivot_supercol in
    let row_b_size := Z.min l_size col_b_size in
    (* The rest... *)
    '(ctx, map_cols, ru_size) ←
      (if l_size >? 0
       then factorize_u_portion ctx pivot_supercol map_cols only_child parent_has_job
              dense_spawn
       else Ok (ctx, map_cols, 0));
    (* Write sizes into factor block *)
    let ctx := upd_block pivot_supercol
                 (fun b => set_non_pivot_cols_number ru_size
                             (set_non_pivot_rows_number (l_size - row_b_size)
                                (set_row_pivots_number row_b_size
                                   (set_col_pivots_number col_b_size b)))) ctx in
    factor_block ← block_at ctx pivot_supercol;
    (* Remove _member indication when no contribution block *)
    ctx ← (if (non_pivot_rows_number factor_block =? 0)
              || (non_pivot_cols_number factor_block =? 0)
           then remove_member_indication ctx pivot_supercol
           else Ok ctx);
    (* Clear the row and col indication *)
    let '(mr, map_cols) := clear_indication factor_block (map_rows ctx) map_cols in
    Ok (set_map_rows mr ctx, map_cols).

(** ** The sequential scheduler and the top-level call *)

(** [get_map_cols] and [release_map_cols] when [nproc <= 1]: the one
    array of the context is handed out, and nothing is done on release. *)
Definition get_map_cols (ctx : multilu_context) : list Z := ctx_map_cols ctx.

Definition release_map_cols (ctx : multilu_context) (map_cols : list Z) : multilu_context :=
  set_ctx_map_cols map_cols ctx.

(** One supercolumn of the sequential loop; [uninit i] are the values
    found in the two variables [factorize_supercolumn] does not write. *)
Definition numeric_supercolumn (uninit : Z -> bool * bool) (i : Z) (ctx : multilu_context)
  : result multilu_context :=
  (* Maybe we know that this supercolumn is empty beforehand and can skip it? *)
  if get (sym_l_size (sym ctx)) i =? 0 then Ok ctx
  else
    (* Prepare the factor block and assemble the supercolumn to it *)
    ctx ← allocate_factor_block ctx i;
    ctx ← forM_children (Z.to_nat (number_supercolumns (sym ctx)) + 1)
            (next_child (et ctx))
            (fun child ctx => focus_supercolumn_from_child ctx i child)
            (get (first_child (et ctx)) i) ctx;
    ctx ← focus_supercolumn_from_A ctx i;
    (* Now we can factorize the supercolumn *)
    let map_cols := get_map_cols ctx in
    '(ctx, map_cols) ←
      factorize_supercolumn ctx i map_cols (fst (uninit i)) (snd (uninit i));
    Ok (release_map_cols ctx map_cols).

(** [free_factor_block] reads the fields of the block it is given. *)
Definition free_factor_block (block : option multilu_factor_block) : result unit :=
  _ ← deref block; Ok tt.

(** [taucs_multilu_factor_free]. *)
Definition taucs_multilu_factor_free (F : option taucs_multilu_factor) : result unit :=
  match F with
  | None => Ok tt
  | Some F =>
      forM 0 (num_blocks F) (fun i _ =>
        free_factor_block (if i <? 0 then None else default None (blocks F !! Z.to_nat i)))
        tt
  end.

(** "Make sure that all the factor blocks are valid (if not we failed)":
    whether some block is null or not valid. *)
Fixpoint first_bad_block (bs : list (option multilu_factor_block)) : bool :=
  match bs with
  | [] => false
  | None :: _ => true
  | Some b :: bs' => if valid b =? 0 then true else first_bad_block bs'
  end.

(** [taucs_dtl(ccs_factor_lu_numeric_maxdepth)].  When [nproc > 1] the
    supercolumns are left to the recursive scheduler of the Cilk or
    pfunc variant; without them that branch is empty and no supercolumn
    is factorized.  Otherwise the supercolumns are factorized in order
    ([max_depth] is not used then).  [None] is the null pointer. *)
Definition taucs_ccs_factor_lu_numeric_maxdepth (uninit : Z -> bool * bool)
    (A : taucs_ccs_matrix) (symbolic : option taucs_multilu_symbolic)
    (th : taucs_double) (np : Z) : result (option taucs_multilu_factor) :=
  (* Basic sanity check for the symbolic structure *)
  match symbolic with
  | None => Ok None
  | Some symbolic =>
      (* Data preparation *)
      let F0 := allocate_factor (ccs_m A) (ccs_n A) (number_supercolumns symbolic)
                  (Z.land (ccs_flags A) TAUCS_SCALAR_KINDS) in
      let ctx := multilu_context_create A symbolic th np F0 in
      ctx ← (if nproc ctx >? 1 then Ok ctx
             else
               (* Otherewise use a sequential algorithm - factorize each node by order *)
               if first_root (etree symbolic) =? MULTILU_SYMBOLIC_NONE
               then AssertFailed assert_first_root
               else forM 0 (number_supercolumns symbolic) (numeric_supercolumn uninit) ctx);
      (* Keep factor and free rest of context *)
      let F := ctx_F ctx in
      (* Make sure that all the factor blocks are valid (if not we failed) *)
      if first_bad_block (take (Z.to_nat (num_blocks F)) (blocks F)) then
        _ ← taucs_multilu_factor_free (Some F); Ok None
      else Ok (Some F)
  end.

(** ** Blocked solve *)

(** The arrays of the solve phase: the caller's [X] and [B], and the
    three arrays [taucs_dtl(multilu_solve_many)] allocates. *)
Inductive buffer : Type := Buf_X | Buf_B | Buf_B_Copy | Buf_Y | Buf_T.

#[local] Instance buffer_eq_dec : EqDecision buffer.
Proof. solve_decision. Defined.

Definition memory : Type := buffer -> list T.

Definition mem_put (b : buffer) (v : list T) (mem : memory) : memory :=
  fun b' => if decide (b = b') then v else mem b'.

(** [b[i] = v] and [b[i]]. *)
Definition poke (b : buffer) (i : Z) (v : T) (mem : memory) : memory :=
  mem_put b (updT (mem b) i v) mem.

Definition peek (mem : memory) (b : buffer) (i : Z) : T := getT (mem b) i.

(** [for (c = 0; c < n; c++) for (j = 0; j < rows; j++)
      dst[doff + dj j + c * ld_dst] = src[sj j + c * ld_src];] *)
Definition copy_rows (n rows : Z) (dst : buffer) (dj : Z -> Z) (ld_dst : Z)
    (src : buffer) (sj : Z -> Z) (ld_src : Z) (mem : memory) : memory :=
  for_ 0 n (fun c mem =>
    for_ 0 rows (fun j mem =>
      poke dst (dj j + c * ld_dst) (peek mem src (sj j + c * ld_src)) mem) mem) mem.

Definition block_of (F : taucs_multilu_factor) (i : Z) : result multilu_factor_block :=
  deref (if i <? 0 then None else default None (blocks F !! Z.to_nat i)).

Fixpoint iterM_down {St : Type} (k : nat) (i : Z) (body : Z -> St -> result St) (s : St)
  : result St :=
  match k with
  | O => Ok s
  | S k' => s' ← body i s; iterM_down k' (i - 1) body s'
  end.

(** [for (i = hi; i >= lo; i--)] with a body that may fail. *)
Definition forM_down {St : Type} (hi lo : Z) (body : Z -> St -> result St) (s : St)
  : result St :=
  iterM_down (Z.to_nat (hi - lo + 1)) hi body s.

(** One block of [solve_blocked_L]; the state is the memory and the
    offset of the pointer [X] in its array. *)
Definition solve_L_block (F : taucs_multilu_factor) (X B Tb : buffer) (n ld_B ld_X : Z)
    (i : Z) (st : memory * Z) : result (memory * Z) :=
  let '(mem, xoff) := st in
  let ld_T := F_n F in
  block ← block_of F i;
  let rp := row_pivots_number block in
  let npr := non_pivot_rows_number block in
  (* Copy to X the corresponding part of B *)
  let mem := copy_rows n rp X (fun j => xoff + j) ld_X
               B (fun j => get (pivot_rows block) j) ld_B mem in
  (* Solve L1X0 = B0 (X0 and B0 are the relevent parts of X and B) *)
  let mem := mem_put X
               (write_cols (mem X) xoff ld_X
                  (taucs_UnitLowerLeftTriSolve rp n
                     {| mr_data := LU1 block; mr_off := 0; mr_ld := rp + npr |}
                     (read_cols (mem X) xoff ld_X rp n))) mem in
  (* Updates to the rest of the solution vector *)
  let mem :=
    if npr >? 0 then
      (* Copy to T the relevent parts of B *)
      let mem := copy_rows n npr Tb (fun j => j) ld_T
                   B (fun j => get (pivot_rows block) (non_pivot_rows block + j)) ld_B mem in
      (* T = T - L2X *)
      let mem := mem_put Tb
                   (write_cols (mem Tb) 0 ld_T
                      (taucs_CaddMAB npr n rp
                         {| mr_data := LU1 block; mr_off := L2 block; mr_ld := rp + npr |}
                         (read_cols (mem X) xoff ld_X rp n)
                         (read_cols (mem Tb) 0 ld_T npr n))) mem in
      (* Copy back from T to B *)
      copy_rows n npr B (fun j => get (pivot_rows block) (non_pivot_rows block + j)) ld_B
        Tb (fun j => j) ld_T mem
    else mem in
  Ok (mem, xoff + rp).

(** [solve_blocked_L]: solves [L X = P B]. *)
Definition solve_blocked_L (F : taucs_multilu_factor) (X B Tb : buffer) (n ld_B ld_X : Z)
    (mem : memory) : result memory :=
  '(mem, _) ← forM 0 (num_blocks F) (solve_L_block F X B Tb n ld_B ld_X) (mem, 0);
  Ok mem.

(** One block of [solve_blocked_U]; the state is the memory and the
    offset of the pointer [B] in its array. *)
Definition solve_U_block (F : taucs_multilu_factor) (X B Tb : buffer) (n ld_B ld_X : Z)
    (i : Z) (st : memory * Z) : result (memory * Z) :=
  let '(mem, boff) := st in
  let ld_T := F_n F in
  block ← block_of F i;
  let rp := row_pivots_number block in
  let npr := non_pivot_rows_number block in
  let cp := col_pivots_number block in
  let npc := non_pivot_cols_number block in
  let boff := boff - cp in
  (* Update B if need to *)
  let mem :=
    if npc >? 0 then
      let mem := copy_rows n npc Tb (fun j => j) ld_T
                   X (fun j => get (pivot_cols block) (non_pivot_cols block + j)) ld_X mem in
      mem_put B
        (write_cols (mem B) boff ld_B
           (taucs_CaddMATB cp n npc
              {| mr_data := Ut2 block; mr_off := 0; mr_ld := npc |}
              (read_cols (mem Tb) 0 ld_T npc n)
              (read_cols (mem B) boff ld_B cp n))) mem
    else mem in
  (* Find the solution for this part of X *)
  let mem := mem_put B
               (write_cols (mem B) boff ld_B
                  (taucs_UpperLeftTriSolve cp n
                     {| mr_data := LU1 block; mr_off := 0; mr_ld := rp + npr |}
                     (read_cols (mem B) boff ld_B cp n))) mem in
  (* Distribute the results in X *)
  let mem := copy_rows n cp X (fun j => get (pivot_cols block) j) ld_X
               B (fun j => boff + j) ld_B mem in
  Ok (mem, boff).

(** [solve_blocked_U]: solves [U inv(Q) X = B]. *)
Definition solve_blocked_U (F : taucs_multilu_factor) (X B Tb : buffer) (n ld_B ld_X : Z)
    (mem : memory) : result memory :=
  '(mem, _) ← forM_down (num_blocks F - 1) 0 (solve_U_block F X B Tb n ld_B ld_X)
                (mem, F_n F);
  Ok mem.

(** [taucs_dtl(multilu_solve_many)]: the caller's arrays are [Buf_X] and
    [Buf_B] of the memory. *)
Definition multilu_solve_many (F : taucs_multilu_factor) (n ld_X ld_B : Z) (mem : memory)
  : result memory :=
  (* Allocate memory *)
  let mem := mem_put Buf_B_Copy (mallocT (n * ld_B)) mem in
  let mem := mem_put Buf_Y (mallocT (n * F_n F)) mem in
  let mem := mem_put Buf_T (mallocT (n * F_n F)) mem in
  (* B_Copy will hold a copy of B *)
  let mem := for_ 0 (n * ld_B) (fun i mem => poke Buf_B_Copy i (peek mem Buf_B i) mem) mem in
  (* Solve LY = PB *)
  mem ← solve_blocked_L F Buf_Y Buf_B_Copy Buf_T n ld_B (F_n F) mem;
  (* Solve Uinv(Q)X = Y *)
  solve_blocked_U F Buf_X Buf_Y Buf_T n (F_n F) ld_X mem.

(** [taucs_dtl(multilu_solve)]: one right-hand side, through
    [taucs_multilu_solve_many(F, 1, x, F->m, b, F->m)]. *)
Definition multilu_solve (F : taucs_multilu_factor) (mem : memory) : result memory :=
  multilu_solve_many F 1 (F_m F) (F_m F) mem.

(** * Properties *)

(** ** Arrays and loops *)

Lemma length_upd (a : list Z) (i v : Z) : length (upd a i v) = length a.
Proof. unfold upd. destruct (i <? 0); [reflexivity | apply length_insert]. Qed.

Lemma get_upd_eq (a : list Z) (i v : Z) :
  0 <= i < Z.of_nat (length a) -> get (upd a i v) i = v.
Proof.
  intros H. unfold get, upd.
  destruct (i <? 0) eqn:E; [lia |].
  rewrite list_lookup_insert_eq by lia. reflexivity.
Qed.

Lemma get_upd_ne (a : list Z) (i j v : Z) : i <> j -> get (upd a i v) j = get a j.
Proof.
  intros H. unfold get, upd.
  destruct (j <? 0) eqn:Ej; [reflexivity |].
  destruct (i <? 0) eqn:Ei; [reflexivity |].
  rewrite list_lookup_insert_ne by lia. reflexivity.
Qed.

Lemma get_upd (a : list Z) (i j v : Z) :
  get (upd a i v) j =
  if (i =? j) && (0 <=? i) && (i <? Z.of_nat (length a)) then v else get a j.
Proof.
  destruct (Z.eqb_spec i j) as [-> | Hne]; simpl.
  - destruct (Z.leb_spec 0 j); simpl.
    + destruct (Z.ltb_spec j (Z.of_nat (length a))).
      * apply get_upd_eq. lia.
      * unfold get, upd. destruct (j <? 0); [reflexivity |].
        rewrite list_insert_ge by lia. reflexivity.
    + unfold get, upd. destruct (Z.ltb_spec j 0); [reflexivity | lia].
  - apply get_upd_ne. exact Hne.
Qed.

Lemma get_in_range (a : list Z) (i : Z) :
  0 <= i < Z.of_nat (length a) -> a !! Z.to_nat i = Some (get a i).
Proof.
  intros H. unfold get. destruct (Z.ltb_spec i 0); [lia |].
  destruct (a !! Z.to_nat i) eqn:E; [reflexivity |].
  apply lookup_ge_None in E. lia.
Qed.

Lemma iter_from_inv {St : Type} (P : Z -> St -> Prop) (body : Z -> St -> St) :
  forall (k : nat) (i : Z) (s : St),
    P i s ->
    (forall j t, i <= j < i + Z.of_nat k -> P j t -> P (j + 1) (body j t)) ->
    P (i + Z.of_nat k) (iter_from k i body s).
Proof.
  induction k as [| k IH]; intros i s H0 Hstep; simpl.
  - replace (i + Z.of_nat 0) with i by lia. exact H0.
  - replace (i + Z.of_nat (S k)) with ((i + 1) + Z.of_nat k) by lia.
    apply IH.
    + apply Hstep; [lia | exact H0].
    + intros j t Hj. apply Hstep. lia.
Qed.

(** The invariant rule of [for (i = lo; i < hi; i++)]. *)
Lemma for_inv {St : Type} (P : Z -> St -> Prop) (lo hi : Z) (body : Z -> St -> St) (s : St) :
  lo <= hi ->
  P lo s ->
  (forall j t, lo <= j < hi -> P j t -> P (j + 1) (body j t)) ->
  P hi (for_ lo hi body s).
Proof.
  intros Hle H0 Hstep. unfold for_.
  replace hi with (lo + Z.of_nat (Z.to_nat (hi - lo))) at 1 by lia.
  apply iter_from_inv; [exact H0 |].
  intros j t Hj. apply Hstep. lia.
Qed.

Lemma for_empty {St : Type} (lo hi : Z) (body : Z -> St -> St) (s : St) :
  hi <= lo -> for_ lo hi body s = s.
Proof.
  intros H. unfold for_. replace (Z.to_nat (hi - lo)) with O by lia. reflexivity.
Qed.

(** An invariant that does not mention the index. *)
Lemma for_preserves {St : Type} (P : St -> Prop) (lo hi : Z) (body : Z -> St -> St) (s : St) :
  P s -> (forall j t, lo <= j < hi -> P t -> P (body j t)) -> P (for_ lo hi body s).
Proof.
  intros H0 Hstep.
  destruct (Z.le_gt_cases lo hi) as [Hle | Hgt].
  - apply (for_inv (fun _ t => P t)); auto.
  - rewrite for_empty by lia. exact H0.
Qed.

Lemma iterM_from_inv {St : Type} (P : Z -> St -> Prop) (body : Z -> St -> result St) :
  forall (k : nat) (i : Z) (s s' : St),
    P i s ->
    (forall j t t', i <= j < i + Z.of_nat k -> P j t -> body j t = Ok t' -> P (j + 1) t') ->
    iterM_from k i body s = Ok s' ->
    P (i + Z.of_nat k) s'.
Proof.
  induction k as [| k IH]; intros i s s' H0 Hstep Hrun; simpl in Hrun.
  - injection Hrun as <-. replace (i + Z.of_nat 0) with i by lia. exact H0.
  - destruct (body i s) as [t | w |] eqn:Hb; simpl in Hrun; try discriminate.
    replace (i + Z.of_nat (S k)) with ((i + 1) + Z.of_nat k) by lia.
    apply (IH (i + 1) t s'); [| | exact Hrun].
    + apply (Hstep i s t); [lia | exact H0 | exact Hb].
    + intros j u u' Hj. apply Hstep. lia.
Qed.

(** The invariant rule of a [for] loop whose body may fail. *)
Lemma forM_inv {St : Type} (P : Z -> St -> Prop) (lo hi : Z) (body : Z -> St -> result St)
    (s s' : St) :
  lo <= hi ->
  P lo s ->
  (forall j t t', lo <= j < hi -> P j t -> body j t = Ok t' -> P (j + 1) t') ->
  forM lo hi body s = Ok s' ->
  P hi s'.
Proof.
  intros Hle H0 Hstep Hrun. unfold forM in Hrun.
  replace hi with (lo + Z.of_nat (Z.to_nat (hi - lo))) at 1 by lia.
  apply (iterM_from_inv P body _ lo s s'); [exact H0 | | exact Hrun].
  intros j t t' Hj. apply Hstep. lia.
Qed.

Lemma forM_empty {St : Type} (lo hi : Z) (body : Z -> St -> result St) (s : St) :
  hi <= lo -> forM lo hi body s = Ok s.
Proof.
  intros H. unfold forM. replace (Z.to_nat (hi - lo)) with O by lia. reflexivity.
Qed.

Lemma forM_preserves {St : Type} (P : St -> Prop) (lo hi : Z) (body : Z -> St -> result St)
    (s s' : St) :
  P s ->
  (forall j t t', lo <= j < hi -> P t -> body j t = Ok t' -> P t') ->
  forM lo hi body s = Ok s' ->
  P s'.
Proof.
  intros H0 Hstep Hrun.
  destruct (Z.le_gt_cases lo hi) as [Hle | Hgt].
  - apply (forM_inv (fun _ t => P t) lo hi body s s'); auto.
  - rewrite forM_empty in Hrun by lia. injection Hrun as <-. exact H0.
Qed.

Lemma bind_Ok {A B : Type} (r : result A) (f : A -> result B) (b : B) :
  (x ← r; f x) = Ok b -> exists a, r = Ok a /\ f a = Ok b.
Proof. destruct r as [a | w |]; simpl; intros H; try discriminate. eauto. Qed.

(** ** Elimination analysis and its assertions *)

Lemma iterM_from_failed {St : Type} (body : Z -> St -> result St) (w : assertion) :
  forall (k : nat) (i : Z) (s : St),
    iterM_from k i body s = AssertFailed w ->
    exists j t, i <= j < i + Z.of_nat k /\ body j t = AssertFailed w.
Proof.
  induction k as [| k IH]; intros i s Hrun; simpl in Hrun; [discriminate |].
  destruct (body i s) as [t | w' |] eqn:Hb; simpl in Hrun; try discriminate.
  - destruct (IH (i + 1) t Hrun) as (j & u & Hj & Hu).
    exists j, u. split; [lia | exact Hu].
  - injection Hrun as ->. exists i, s. split; [lia | exact Hb].
Qed.

Lemma iterM_from_no_null {St : Type} (body : Z -> St -> result St) :
  (forall j t, body j t <> NullDeref) ->
  forall (k : nat) (i : Z) (s : St), iterM_from k i body s <> NullDeref.
Proof.
  intros Hb. induction k as [| k IH]; intros i s; simpl; [discriminate |].
  destruct (body i s) as [t | w |] eqn:E; simpl.
  - apply IH.
  - discriminate.
  - exfalso. exact (Hb i s E).
Qed.

(** A loop one of whose turns always fails does not return. *)
Lemma iterM_from_stuck {St : Type} (body : Z -> St -> result St) (j : Z) :
  (forall t u, body j t <> Ok u) ->
  forall (k : nat) (i : Z) (s u : St),
    i <= j < i + Z.of_nat k -> iterM_from k i body s <> Ok u.
Proof.
  intros Hj. induction k as [| k IH]; intros i s u Hr; simpl; [lia |].
  destruct (body i s) as [t | w |] eqn:E; simpl; try discriminate.
  destruct (Z.eq_dec i j) as [-> | Hne].
  - exfalso. exact (Hj s t E).
  - apply IH. lia.
Qed.

Lemma ea_pivot_cases (A : taucs_ccs_matrix) (column_order : list Z) (col : Z)
    (st : store * Z) :
  (exists st', ea_pivot A column_order col st = Ok st')
  \/ ea_pivot A column_order col st = AssertFailed (assert_row_size_positive col).
Proof.
  unfold ea_pivot. destruct st as [s next_row].
  destruct (for_ 0 _ _ _) as [[s1 row_size] cset].
  destruct (negb (row_size >? 0)); [right; reflexivity | left; eauto].
Qed.

Lemma ea_column_empty_iff (A : taucs_ccs_matrix) (column_order : list Z) (col c : Z)
    (st : store * Z) :
  ea_column A column_order col st = AssertFailed (assert_column_not_empty c) ->
  c = col
  /\ get (ccs_colptr A) (get column_order col + 1) <= get (ccs_colptr A) (get column_order col).
Proof.
  unfold ea_column.
  destruct (Z.gtb_spec (get (ccs_colptr A) (get column_order col + 1))
              (get (ccs_colptr A) (get column_order col))) as [Hgt | Hle]; simpl.
  - destruct (ea_pivot_cases A column_order col (ea_collect A col st)) as [[st' ->] | ->];
      discriminate.
  - intros H. injection H as <-. split; [reflexivity | lia].
Qed.

(** Claim C8.  Elimination analysis assumes that no column is empty.
    Stated for the columns the order names: when each of them has a stored entry
    the assertion on the column never fails, and when one of them is
    empty the run ends in a failed assertion. *)
Theorem elimination_analysis_empty_column (A : taucs_ccs_matrix)
    (column_order parent_ l_size u_size : list Z) :
  ((forall j, 0 <= j < ccs_n A ->
      get (ccs_colptr A) (j + 1) > get (ccs_colptr A) j) ->
   (forall col, 0 <= col < ccs_n A -> 0 <= get column_order col < ccs_n A) ->
   forall col,
     elimination_analysis A column_order parent_ l_size u_size
     <> AssertFailed (assert_column_not_empty col))
  /\
  (forall col, 0 <= col < ccs_n A ->
     get (ccs_colptr A) (get column_order col + 1)
     <= get (ccs_colptr A) (get column_order col) ->
     exists w,
       elimination_analysis A column_order parent_ l_size u_size = AssertFailed w).
Proof.
  split.
  - intros Hcols Horder col Hfail.
    unfold elimination_analysis, forM in Hfail.
    destruct (iterM_from _ _ _ _) as [[s nr] | w |] eqn:Hrun; simpl in Hfail;
      try discriminate.
    injection Hfail as ->.
    apply iterM_from_failed in Hrun. destruct Hrun as (j & t & Hj & Hb).
    apply ea_column_empty_iff in Hb. destruct Hb as [-> Hle].
    assert (Hr : 0 <= j < ccs_n A) by lia.
    specialize (Hcols _ (Horder j Hr)). lia.
  - intros col Hcol Hempty.
    unfold elimination_analysis, forM.
    destruct (iterM_from _ _ _ _) as [[s nr] | w |] eqn:Hrun; simpl.
    + exfalso. revert Hrun.
      apply (iterM_from_stuck (ea_column A column_order) col); [| lia].
      intros t u. unfold ea_column.
      destruct (Z.gtb_spec (get (ccs_colptr A) (get column_order col + 1))
                  (get (ccs_colptr A) (get column_order col))) as [Hgt | Hle]; simpl;
        [lia | discriminate].
    + eauto.
    + exfalso. revert Hrun. apply iterM_from_no_null.
      intros j t. unfold ea_column.
      destruct (negb _); [discriminate |].
      destruct (ea_pivot_cases A column_order j (ea_collect A j t)) as [[st' ->] | ->];
        discriminate.
Qed.

(** ** Stores *)

Lemma put_same (f : array_name) (v : list Z) (s : store) : put f v s f = v.
Proof. unfold put. destruct (decide (f = f)); [reflexivity | contradiction]. Qed.

Lemma put_other (f f' : array_name) (v : list Z) (s : store) :
  f <> f' -> put f v s f' = s f'.
Proof. intros H. unfold put. destruct (decide (f = f')); [contradiction | reflexivity]. Qed.

Lemma put_at_same (f : array_name) (i v : Z) (s : store) :
  put_at f i v s f = upd (s f) i v.
Proof. unfold put_at. apply put_same. Qed.

Lemma put_at_other (f f' : array_name) (i v : Z) (s : store) :
  f <> f' -> put_at f i v s f' = s f'.
Proof. intros H. unfold put_at. apply put_other. exact H. Qed.

(** ** The relaxation pass *)

(** The rule the relaxation loop applies, read on the store it starts
    from: the relaxed supercolumn of [i + 1] is that of [i], or the next
    one when [i] closes. *)
Definition relax_rule (desc_count : list Z) (s s' : store) (fsc : Z) : Prop :=
  forall i, 0 <= i -> i + 1 < fsc ->
    get (s' Map_col_supercol) (i + 1) =
    get (s' Map_col_supercol) i + (if relax_closes desc_count s i then 1 else 0).

(** The invariant of the relaxation loop before turn [i]. *)
Definition relax_inv (desc_count : list Z) (s : store) (i : Z) (st : store * Z * Z) : Prop :=
  let '(t, sc_num, _) := st in
  0 <= sc_num <= i
  /\ t Sc_parent = s Sc_parent
  /\ length (t Map_col_supercol) = length (s Map_col_supercol)
  /\ length (t Lastcol) = length (s Lastcol)
  /\ (forall k, i <= k -> get (t Lastcol) k = get (s Lastcol) k)
  /\ (forall j, 0 <= j -> j + 1 < i ->
        get (t Map_col_supercol) (j + 1) =
        get (t Map_col_supercol) j + (if relax_closes desc_count s j then 1 else 0))
  /\ (1 <= i ->
        sc_num = get (t Map_col_supercol) (i - 1)
                 + (if relax_closes desc_count s (i - 1) then 1 else 0)).

Lemma relax_step_inv (desc_count : list Z) (s : store) (fsc i : Z) (st : store * Z * Z) :
  fsc <= Z.of_nat (length (s Map_col_supercol)) ->
  fsc <= Z.of_nat (length (s Lastcol)) ->
  (forall j, 0 <= j < fsc ->
     get (s Sc_parent) j = MULTILU_SYMBOLIC_NONE \/ j < get (s Sc_parent) j) ->
  0 <= i < fsc ->
  relax_inv desc_count s i st ->
  relax_inv desc_count s (i + 1) (relax_step desc_count i st).
Proof.
  intros Hlm Hll Hpar Hi Hinv.
  destruct st as [[t sc_num] cscs].
  destruct Hinv as (Hsc & Hp & Hlen_m & Hlen_l & Hlast & Hmap & Hnum).
  assert (Hcl : relax_closes desc_count
                  (put_at Lastcol sc_num i (put_at Map_col_supercol i sc_num t)) i
                = relax_closes desc_count s i).
  { unfold relax_closes.
    rewrite !put_at_other by discriminate.
    rewrite put_at_same, put_at_other by discriminate.
    rewrite Hp.
    destruct (Hpar i Hi) as [Hnone | Hgt].
    - rewrite Hnone. reflexivity.
    - rewrite get_upd_ne by lia. rewrite Hlast by lia. reflexivity. }
  assert (Hmi : get (upd (t Map_col_supercol) i sc_num) i = sc_num).
  { apply get_upd_eq. lia. }
  unfold relax_step. rewrite Hcl.
  assert (Hgoal : forall u c,
            u Sc_parent = t Sc_parent ->
            u Map_col_supercol = upd (t Map_col_supercol) i sc_num ->
            u Lastcol = upd (t Lastcol) sc_num i ->
            relax_inv desc_count s (i + 1)
              (u, sc_num + (if relax_closes desc_count s i then 1 else 0), c)).
  { intros u c Hup Hum Hul. unfold relax_inv.
    rewrite Hup, Hum, Hul, !length_upd.
    repeat split; try assumption; try lia.
    - destruct (relax_closes desc_count s i); lia.
    - destruct (relax_closes desc_count s i); lia.
    - intros k Hk. rewrite get_upd_ne by lia. apply Hlast. lia.
    - intros j Hj0 Hj.
      destruct (Z.eq_dec (j + 1) i) as [Heq | Hne].
      + rewrite Heq, Hmi. rewrite get_upd_ne by lia.
        rewrite Hnum by lia. replace (i - 1) with j by lia. reflexivity.
      + rewrite !get_upd_ne by lia. apply Hmap; lia.
    - intros _. replace (i + 1 - 1) with i by lia. rewrite Hmi. reflexivity. }
  destruct (relax_closes desc_count s i).
  - apply Hgoal.
    + rewrite !put_at_other by discriminate. reflexivity.
    + rewrite !put_at_other by discriminate. apply put_at_same.
    + rewrite put_at_other by discriminate. rewrite put_at_same.
      rewrite put_at_other by discriminate. reflexivity.
  - replace sc_num with (sc_num + 0) at 3 by lia. apply Hgoal.
    + rewrite !put_at_other by discriminate. reflexivity.
    + rewrite !put_at_other by discriminate. apply put_at_same.
    + rewrite put_at_same. rewrite put_at_other by discriminate. reflexivity.
Qed.

(** Claim C5, as the code has it.  In the relaxation pass a fundamental
    supercolumn closes the relaxed supercolumn under construction
    exactly when it has a parent whose last column has at least
    [MULTILU_RELAX_RULE_SIZE] descendants; otherwise the relaxed
    supercolumn stays open and the next fundamental supercolumn joins
    it. *)
Theorem relax_supercol_rule (desc_count : list Z) (s : store) (fsc : Z) :
  fsc <= Z.of_nat (length (s Map_col_supercol)) ->
  fsc <= Z.of_nat (length (s Lastcol)) ->
  (forall j, 0 <= j < fsc ->
     get (s Sc_parent) j = MULTILU_SYMBOLIC_NONE \/ j < get (s Sc_parent) j) ->
  relax_rule desc_count s (fst (relax_supercol desc_count s fsc)) fsc.
Proof.
  intros Hlm Hll Hpar. unfold relax_supercol.
  destruct (Z.le_gt_cases 0 fsc) as [Hfsc | Hneg];
    [| intros i Hi0 Hi; lia].
  pose proof (for_inv (relax_inv desc_count s) 0 fsc (relax_step desc_count) (s, 0, 0) Hfsc)
    as Hloop.
  destruct (for_ 0 fsc (relax_step desc_count) (s, 0, 0)) as [[t sc_num] cscs].
  assert (Hinv : relax_inv desc_count s fsc (t, sc_num, cscs)).
  { apply Hloop.
    - unfold relax_inv. repeat split; try reflexivity; try lia.
    - intros j u Hj Hu. apply (relax_step_inv desc_count s fsc); assumption. }
  destruct Hinv as (_ & _ & _ & _ & _ & Hmap & _).
  simpl.
  assert (Hkeep : forall (k : Z) (u : store),
            for_ 0 k (fun i s0 =>
              if negb (get (s0 Sc_parent) (get (s0 Lastcol) i) =? MULTILU_SYMBOLIC_NONE)
              then put_at Sc_parent i
                     (get (s0 Map_col_supercol) (get (s0 Sc_parent) (get (s0 Lastcol) i))) s0
              else put_at Sc_parent i MULTILU_SYMBOLIC_NONE s0) u Map_col_supercol
            = u Map_col_supercol).
  { intros k u.
    apply (for_preserves (fun v => v Map_col_supercol = u Map_col_supercol));
      [reflexivity |].
    intros j v _ Hv.
    destruct (negb _); rewrite put_at_other by discriminate; exact Hv. }
  intros i Hi0 Hi. rewrite Hkeep. rewrite !put_at_other by discriminate.
  apply Hmap; assumption.
Qed.

(** ** The supercolumn etree and its descendant ranges *)

(** [c] is a proper descendant of [s] in the forest of parent pointers
    [par]. *)
Inductive descendant (par : list Z) : Z -> Z -> Prop :=
| descendant_child (c : Z) :
    get par c <> MULTILU_SYMBOLIC_NONE -> descendant par c (get par c)
| descendant_step (c s : Z) :
    get par c <> MULTILU_SYMBOLIC_NONE ->
    descendant par (get par c) s -> descendant par c s.

(** The parent pointers of the first [S] nodes number a forest in
    postorder: a parent comes after its child, and the nodes between a
    child and its parent hang below that parent. *)
Definition postordered (par : list Z) (S : Z) : Prop :=
  forall i, 0 <= i < S ->
    get par i = MULTILU_SYMBOLIC_NONE
    \/ (i < get par i < S
        /\ forall j, i < j < get par i ->
             get par j <> MULTILU_SYMBOLIC_NONE /\ get par j <= get par i).

(** [f] is the first descendant of [q]. *)
Definition first_descendant (par : list Z) (S q f : Z) : Prop :=
  descendant par f q /\ 0 <= f < S
  /\ forall c, 0 <= c < S -> descendant par c q -> f <= c.

Section Forest.

Variable par : list Z.
Variable S : Z.
Hypothesis Hpost : postordered par S.

Lemma parent_above (i : Z) :
  0 <= i < S -> get par i <> MULTILU_SYMBOLIC_NONE -> i < get par i < S.
Proof. intros Hi Hp. destruct (Hpost i Hi) as [H | [H _]]; [contradiction | exact H]. Qed.

Lemma descendant_trans (a b c : Z) :
  descendant par a b -> descendant par b c -> descendant par a c.
Proof.
  intros Hab Hbc. induction Hab as [a Ha | a b Ha Hab IH].
  - apply descendant_step; assumption.
  - apply descendant_step; [exact Ha | apply IH; exact Hbc].
Qed.

(** The first step of a descent stays below its end. *)
Lemma descendant_above (c s : Z) :
  descendant par c s -> 0 <= c < S -> c < get par c /\ get par c <= s /\ s < S.
Proof.
  intros H. induction H as [c Hc | c s Hc H IH]; intros Hr.
  - pose proof (parent_above c Hr Hc). lia.
  - pose proof (parent_above c Hr Hc) as Hp.
    assert (Hr' : 0 <= get par c < S) by lia.
    specialize (IH Hr'). lia.
Qed.

Lemma descendant_lt (c s : Z) : descendant par c s -> 0 <= c < S -> c < s < S.
Proof. intros H Hr. pose proof (descendant_above c s H Hr). lia. Qed.

(** The last step of a descent: the child of [s] it goes through. *)
Lemma descendant_last (c s : Z) :
  descendant par c s ->
  exists c', (c = c' \/ descendant par c c') /\ get par c' = s.
Proof.
  intros H. induction H as [c Hc | c s Hc H IH].
  - exists c. split; [left; reflexivity | reflexivity].
  - destruct IH as (c' & [Heq | Hd] & Hp); exists c'; split; try exact Hp; right.
    + rewrite <- Heq. apply descendant_child. exact Hc.
    + apply descendant_step; assumption.
Qed.

Lemma descendant_child_of (c p : Z) :
  get par c = p -> p <> MULTILU_SYMBOLIC_NONE -> descendant par c p.
Proof. intros <- H. apply descendant_child. exact H. Qed.

(** The nodes between a child and its parent descend from the parent. *)
Lemma interval_below (i p : Z) :
  0 <= i < S -> get par i = p -> p <> MULTILU_SYMBOLIC_NONE ->
  forall j, i < j < p -> descendant par j p.
Proof.
  intros Hi Hp Hnone.
  assert (Hnc : p < S /\ forall j, i < j < p ->
                  get par j <> MULTILU_SYMBOLIC_NONE /\ get par j <= p).
  { destruct (Hpost i Hi) as [H | [H1 H2]]; [congruence |].
    rewrite Hp in *. split; [lia | exact H2]. }
  destruct Hnc as [HpS Hnc].
  assert (H : forall (n : nat) (j : Z),
            (Z.to_nat (p - j) <= n)%nat -> i < j < p -> descendant par j p).
  { induction n as [| n IH]; intros j Hn Hj; [lia |].
    destruct (Hnc j Hj) as [Hq Hqp].
    assert (Hjq : j < get par j < S) by (apply parent_above; [lia | exact Hq]).
    destruct (Z.eq_dec (get par j) p) as [Heq | Hne].
    - apply descendant_child_of; assumption.
    - apply descendant_step; [exact Hq |]. apply IH; lia. }
  intros j Hj. apply (H (Z.to_nat (p - j))); [lia | exact Hj].
Qed.

(** The descendants of a node reach up to the node. *)
Lemma range_below (c s : Z) :
  descendant par c s -> 0 <= c < S -> forall j, c <= j < s -> descendant par j s.
Proof.
  intros H. induction H as [c Hc | c s Hc H IH]; intros Hr j Hj.
  - destruct (Z.eq_dec j c) as [-> | Hne].
    + apply descendant_child. exact Hc.
    + apply (interval_below c); [exact Hr | reflexivity | exact Hc | lia].
  - pose proof (parent_above c Hr Hc) as Hp.
    destruct (Z.eq_dec j c) as [-> | Hne].
    + apply descendant_step; assumption.
    + destruct (Z_lt_le_dec j (get par c)) as [Hlt | Hge].
      * apply (descendant_trans j (get par c) s); [| exact H].
        apply (interval_below c); [exact Hr | reflexivity | exact Hc | lia].
      * apply IH; lia.
Qed.

(** Below the first child of [p], the descendants of [p] are those of
    that child. *)
Lemma first_child_min (i p : Z) :
  0 <= i < S -> get par i = p -> p <> MULTILU_SYMBOLIC_NONE ->
  (forall c, 0 <= c < i -> get par c <> p) ->
  forall d, 0 <= d < i -> descendant par d p -> descendant par d i.
Proof.
  intros Hi Hp Hnone Hfirst d Hd Hdp.
  destruct (descendant_last d p Hdp) as (c' & Hdc & Hc').
  assert (Hc'r : d <= c' < S).
  { destruct Hdc as [<- | Hdc]; [lia |].
    pose proof (descendant_lt d c' Hdc). lia. }
  assert (Hge : i <= c').
  { destruct (Z_lt_le_dec c' i) as [Hlt | Hge]; [| exact Hge].
    exfalso. apply (Hfirst c'); [lia | exact Hc']. }
  assert (Hdc' : descendant par d c').
  { destruct Hdc as [Heq | Hdc]; [lia | exact Hdc]. }
  destruct (Z.eq_dec c' i) as [-> | Hne]; [exact Hdc' |].
  exfalso.
  assert (Hic : descendant par i c').
  { apply (range_below d c'); [exact Hdc' | lia | lia]. }
  pose proof (descendant_above i c' Hic Hi) as Ha.
  assert (Hc'p : c' < get par c' < S).
  { apply parent_above; [lia | congruence]. }
  lia.
Qed.

Lemma leaf_no_descendant (i : Z) :
  0 <= i < S -> (forall c, 0 <= c < i -> get par c <> i) ->
  forall d, 0 <= d < S -> ~ descendant par d i.
Proof.
  intros Hi Hleaf d Hd Hdi.
  destruct (descendant_last d i Hdi) as (c' & Hdc & Hc').
  assert (Hc'r : 0 <= c' < S).
  { destruct Hdc as [<- | Hdc]; [lia |].
    pose proof (descendant_lt d c' Hdc). lia. }
  assert (Hlt : c' < get par c' < S).
  { apply parent_above; [lia |]. rewrite Hc'. unfold MULTILU_SYMBOLIC_NONE. lia. }
  apply (Hleaf c'); [lia | exact Hc'].
Qed.

(** The invariant of the loop that makes the descendant ranges, before
    turn [i]: the first descendant of a node is known as soon as one of
    its children has been visited, and the last one when the node has. *)
Definition cs_desc_inv (nf nl : nat) (i : Z) (st : list Z * list Z) : Prop :=
  let '(fdesc, ldesc) := st in
  length fdesc = nf /\ length ldesc = nl
  /\ (forall q, 0 <= q < S ->
        (get fdesc q = MULTILU_SYMBOLIC_NONE /\ forall c, 0 <= c < i -> get par c <> q)
        \/ (first_descendant par S q (get fdesc q)
            /\ exists c, 0 <= c < i /\ get par c = q))
  /\ (forall q, 0 <= q < i ->
        get fdesc q <> MULTILU_SYMBOLIC_NONE -> get ldesc q = q - 1).

Lemma first_descendant_not_none (q f : Z) :
  first_descendant par S q f -> f <> MULTILU_SYMBOLIC_NONE.
Proof. intros (_ & H & _). unfold MULTILU_SYMBOLIC_NONE. lia. Qed.

Lemma cs_desc_step (nf nl : nat) (i : Z) (st : list Z * list Z) :
  S <= Z.of_nat nf -> S <= Z.of_nat nl ->
  0 <= i < S ->
  cs_desc_inv nf nl i st -> cs_desc_inv nf nl (i + 1) (cs_desc par i st).
Proof.
  intros Hnf Hnl Hi Hinv. destruct st as [fd ld].
  destruct Hinv as (Hlf & Hll & Hfd & Hld).
  unfold cs_desc.
  set (p := get par i).
  (* the node itself: its first descendant is settled *)
  assert (Hself : (get fd i = MULTILU_SYMBOLIC_NONE
                   /\ forall d, 0 <= d < S -> ~ descendant par d i)
                  \/ first_descendant par S i (get fd i)).
  { destruct (Hfd i Hi) as [[Hn Hc] | [Hf _]]; [left | right; exact Hf].
    split; [exact Hn |]. apply leaf_no_descendant; assumption. }
  set (ld' := if negb (get fd i =? MULTILU_SYMBOLIC_NONE) then upd ld i (i - 1) else ld).
  assert (Hld' : length ld' = nl
                 /\ forall q, 0 <= q < i + 1 ->
                      get fd q <> MULTILU_SYMBOLIC_NONE -> get ld' q = q - 1).
  { subst ld'. destruct (Z.eqb_spec (get fd i) MULTILU_SYMBOLIC_NONE) as [He | Hne]; simpl.
    - split; [exact Hll |]. intros q Hq Hn.
      destruct (Z.eq_dec q i) as [-> | Hqi]; [contradiction | apply Hld; [lia | exact Hn]].
    - rewrite length_upd. split; [exact Hll |]. intros q Hq Hn.
      destruct (Z.eq_dec q i) as [-> | Hqi].
      + apply get_upd_eq. lia.
      + rewrite get_upd_ne by lia. apply Hld; [lia | exact Hn]. }
  destruct Hld' as [Hll' Hld'].
  destruct (Z.eqb_spec p MULTILU_SYMBOLIC_NONE) as [Hpn | Hpn]; simpl.
  - (* a root: nothing to tell a parent *)
    unfold cs_desc_inv. repeat split; try assumption.
    intros q Hq. destruct (Hfd q Hq) as [[Hn Hc] | [Hf (c & Hc & Hcq)]].
    + left. split; [exact Hn |]. intros c Hc'.
      destruct (Z.eq_dec c i) as [-> | Hci]; [| apply Hc; lia].
      fold p. rewrite Hpn. unfold MULTILU_SYMBOLIC_NONE. lia.
    + right. split; [exact Hf |]. exists c. split; [lia | exact Hcq].
  - pose proof (parent_above i Hi Hpn) as Hp. fold p in Hp.
    (* the value the parent receives when it has none *)
    set (lo := if get fd i =? MULTILU_SYMBOLIC_NONE then i else get fd i).
    assert (Hlo : (forall c, 0 <= c < i -> get par c <> p) ->
                  first_descendant par S p lo).
    { intros Hfirst. subst lo.
      destruct Hself as [[Hn Hleaf] | (Hd & Hf0 & Hmin)].
      - rewrite Hn, Z.eqb_refl. repeat split.
        + apply descendant_child_of; [reflexivity | exact Hpn].
        + lia.
        + lia.
        + intros c Hc Hcp. destruct (Z_lt_le_dec c i) as [Hlt | Hge]; [| exact Hge].
          exfalso. apply (Hleaf c Hc).
          apply (first_child_min i p); try assumption; [reflexivity | lia].
      - destruct (Z.eqb_spec (get fd i) MULTILU_SYMBOLIC_NONE) as [He | Hne].
        + exfalso. unfold MULTILU_SYMBOLIC_NONE in He. lia.
        + repeat split.
          * apply (descendant_trans _ i); [exact Hd |].
            apply descendant_child_of; [reflexivity | exact Hpn].
          * lia.
          * lia.
          * intros c Hc Hcp. destruct (Z_lt_le_dec c i) as [Hlt | Hge].
            -- apply Hmin; [exact Hc |].
               apply (first_child_min i p); try assumption; [reflexivity | lia].
            -- pose proof (descendant_lt _ _ Hd Hf0). lia. }
    (* the two tests of the code write [lo] when the parent has no value *)
    set (fd1 := if (get fd p =? MULTILU_SYMBOLIC_NONE) && (get fd i =? MULTILU_SYMBOLIC_NONE)
                then upd fd p i else fd).
    assert (Hfd' : (if (get fd1 p =? MULTILU_SYMBOLIC_NONE)
                       && negb (get fd1 i =? MULTILU_SYMBOLIC_NONE)
                    then upd fd1 p (get fd1 i) else fd1)
                   = if get fd p =? MULTILU_SYMBOLIC_NONE then upd fd p lo else fd).
    { subst fd1 lo.
      destruct (Z.eqb_spec (get fd p) MULTILU_SYMBOLIC_NONE) as [Hp0 | Hp0]; simpl.
      - destruct (Z.eqb_spec (get fd i) MULTILU_SYMBOLIC_NONE) as [Hi0 | Hi0]; simpl.
        + rewrite get_upd_eq by lia.
          destruct (Z.eqb_spec i MULTILU_SYMBOLIC_NONE) as [E | E]; simpl;
            [unfold MULTILU_SYMBOLIC_NONE in E; lia | reflexivity].
        + rewrite Hp0, Z.eqb_refl. simpl.
          destruct (Z.eqb_spec (get fd i) MULTILU_SYMBOLIC_NONE); [contradiction |].
          reflexivity.
      - destruct (Z.eqb_spec (get fd p) MULTILU_SYMBOLIC_NONE); [contradiction |].
        reflexivity. }
    rewrite Hfd'. clear Hfd' fd1.
    destruct (Z.eqb_spec (get fd p) MULTILU_SYMBOLIC_NONE) as [Hp0 | Hp0].
    + (* the parent learns its first descendant *)
      assert (Hfirst : forall c, 0 <= c < i -> get par c <> p).
      { destruct (Hfd p) as [[_ Hc] | [Hf _]]; [lia | exact Hc |].
        exfalso. exact (first_descendant_not_none _ _ Hf Hp0). }
      specialize (Hlo Hfirst).
      unfold cs_desc_inv. rewrite length_upd. repeat split; try assumption.
      * intros q Hq. destruct (Z.eq_dec q p) as [-> | Hqp].
        -- right. rewrite get_upd_eq by lia. split; [exact Hlo |].
           exists i. split; [lia | reflexivity].
        -- rewrite get_upd_ne by lia.
           destruct (Hfd q Hq) as [[Hn Hc] | [Hf (c & Hc & Hcq)]].
           ++ left. split; [exact Hn |]. intros c Hc'.
              destruct (Z.eq_dec c i) as [-> | Hci]; [fold p; lia | apply Hc; lia].
           ++ right. split; [exact Hf |]. exists c. split; [lia | exact Hcq].
      * intros q Hq. rewrite get_upd_ne by lia. apply Hld'. exact Hq.
    + unfold cs_desc_inv. repeat split; try assumption.
      intros q Hq. destruct (Hfd q Hq) as [[Hn Hc] | [Hf (c & Hc & Hcq)]].
      * left. split; [exact Hn |]. intros c Hc'.
        destruct (Z.eq_dec c i) as [-> | Hci]; [| apply Hc; lia].
        fold p. intros E. rewrite E in Hp0. contradiction.
      * right. split; [exact Hf |]. exists c. split; [lia | exact Hcq].
Qed.

(** The descendant ranges the loop ends with. *)
Lemma cs_desc_loop (fd ld : list Z) :
  S <= Z.of_nat (length fd) -> S <= Z.of_nat (length ld) ->
  (forall q, 0 <= q < S -> get fd q = MULTILU_SYMBOLIC_NONE) ->
  forall s, 0 <= s < S ->
    let fdesc := fst (for_ 0 S (cs_desc par) (fd, ld)) in
    let ldesc := snd (for_ 0 S (cs_desc par) (fd, ld)) in
    ((exists c, 0 <= c < S /\ get par c = s) ->
       get ldesc s = s - 1
       /\ forall c, 0 <= c < S -> (descendant par c s <-> get fdesc s <= c <= s - 1))
    /\ ((forall c, 0 <= c < S -> get par c <> s) -> get fdesc s = MULTILU_SYMBOLIC_NONE)
    /\ (forall c, 0 <= c < S -> descendant par c s -> c < s).
Proof.
  intros Hlf Hll Hnone s Hs. simpl.
  assert (HS : 0 <= S) by lia.
  pose proof (for_inv (cs_desc_inv (length fd) (length ld)) 0 S (cs_desc par) (fd, ld) HS)
    as Hloop.
  destruct (for_ 0 S (cs_desc par) (fd, ld)) as [fd' ld']. simpl.
  assert (Hinv : cs_desc_inv (length fd) (length ld) S (fd', ld')).
  { apply Hloop.
    - unfold cs_desc_inv. repeat split; try reflexivity.
      + intros q Hq. left. split; [apply Hnone; exact Hq | intros c Hc; lia].
      + intros q Hq. lia.
    - intros j t Hj Ht. apply cs_desc_step; assumption. }
  destruct Hinv as (_ & _ & Hfd & Hld).
  split; [| split].
  - intros (c0 & Hc0 & Hcs).
    destruct (Hfd s Hs) as [[_ Hno] | [Hf _]]; [exfalso; exact (Hno c0 Hc0 Hcs) |].
    split.
    + apply Hld; [exact Hs | exact (first_descendant_not_none _ _ Hf)].
    + destruct Hf as (Hdf & Hfr & Hmin).
      intros c Hc. split.
      * intros Hd. split; [apply Hmin; assumption |].
        pose proof (descendant_lt c s Hd Hc). lia.
      * intros [Hge Hle].
        apply (range_below (get fd' s) s); [exact Hdf | exact Hfr | lia].
  - intros Hleaf. destruct (Hfd s Hs) as [[Hn _] | [_ (c & Hc & Hcs)]]; [exact Hn |].
    exfalso. exact (Hleaf c Hc Hcs).
  - intros c Hc Hd. pose proof (descendant_lt c s Hd Hc). lia.
Qed.

End Forest.

Lemma clear_loop (a : list Z) (s : Z) :
  s <= Z.of_nat (length a) ->
  let a' := for_ 0 s (fun i a => upd a i MULTILU_SYMBOLIC_NONE) a in
  length a' = length a /\ forall q, 0 <= q < s -> get a' q = MULTILU_SYMBOLIC_NONE.
Proof.
  intros Hs. simpl.
  destruct (Z.le_gt_cases 0 s) as [H0 | Hneg].
  - apply (for_inv (fun i b => length b = length a
                               /\ forall q, 0 <= q < i -> get b q = MULTILU_SYMBOLIC_NONE));
      [exact H0 | split; [reflexivity | intros q Hq; lia] |].
    intros j b Hj [Hlen Hb]. rewrite length_upd. split; [exact Hlen |].
    intros q Hq. destruct (Z.eq_dec q j) as [-> | Hne].
    + apply get_upd_eq. lia.
    + rewrite get_upd_ne by lia. apply Hb. lia.
  - rewrite for_empty by lia. split; [reflexivity | intros q Hq; lia].
Qed.

(** What [complete_symbolic] leaves in the descendant indices. *)
Lemma complete_symbolic_desc (symbolic symbolic' : taucs_multilu_symbolic) :
  complete_symbolic symbolic = Ok symbolic' ->
  let s := number_supercolumns symbolic in
  let clear := fun a => for_ 0 s (fun i a => upd a i MULTILU_SYMBOLIC_NONE) a in
  let r := for_ 0 s (cs_desc (parent (etree symbolic)))
             (clear (first_desc_index (etree symbolic)),
              clear (last_desc_index (etree symbolic))) in
  first_desc_index (etree symbolic') = fst r
  /\ last_desc_index (etree symbolic') = snd r
  /\ parent (etree symbolic') = parent (etree symbolic)
  /\ number_supercolumns symbolic' = s.
Proof.
  unfold complete_symbolic. intros H.
  destruct (for_ 1 _ _ _) as [start_sc end_sc].
  destruct (negb _); [discriminate |].
  destruct (for_ 0 _ (cs_link _) _) as [[froot fchild] nchild].
  destruct (for_ 0 _ (cs_desc _) _) as [fdesc ldesc] eqn:E.
  injection H as <-.
  cbn [first_desc_index last_desc_index parent etree number_supercolumns].
  cbv zeta. auto.
Qed.


(** ** Supercolumn detection: parents come after their children *)

Ltac store_simpl :=
  repeat first
    [ rewrite put_same | rewrite put_at_same
    | rewrite put_other by discriminate
    | rewrite put_at_other by discriminate ].

(** [uf_find] stays among the first [K] sets when their links do. *)
Lemma uf_find_rec_closed (K : Z) :
  forall (fuel : nat) (sets : list Z) (x : Z),
    K <= Z.of_nat (length sets) ->
    (forall y, 0 <= y < K -> 0 <= get sets y < K) ->
    0 <= x < K ->
    0 <= snd (uf_find_rec fuel sets x) < K
    /\ length (fst (uf_find_rec fuel sets x)) = length sets
    /\ (forall y, 0 <= y < K -> 0 <= get (fst (uf_find_rec fuel sets x)) y < K)
    /\ (forall y, K <= y -> get (fst (uf_find_rec fuel sets x)) y = get sets y).
Proof.
  induction fuel as [| fuel IH]; intros sets x HK Hcl Hx; simpl.
  - split; [apply Hcl; exact Hx |]. split; [reflexivity |]. split; auto.
  - destruct (Z.eqb_spec x (get sets x)) as [He | Hne]; simpl.
    + split; [apply Hcl; exact Hx |]. split; [reflexivity |]. split; auto.
    + specialize (IH sets (get sets x) HK Hcl (Hcl x Hx)).
      destruct (uf_find_rec fuel sets (get sets x)) as [sets1 r]. simpl in *.
      destruct IH as (Hr & Hlen & Hcl1 & Hout).
      rewrite length_upd, get_upd_eq by lia.
      split; [lia |]. split; [exact Hlen |]. split.
      * intros y Hy. rewrite get_upd.
        destruct ((x =? y) && (0 <=? x) && (x <? Z.of_nat (length sets1)));
          [lia | apply Hcl1; exact Hy].
      * intros y Hy. rewrite get_upd_ne by lia. apply Hout. exact Hy.
Qed.

Section Detect.

Variable A : taucs_ccs_matrix.
Variables column_order one_child l_size u_size postorder : list Z.

Let n := ccs_n A.
Let m := ccs_m A.

Hypothesis Hn : 1 <= n.
Hypothesis Hm : 0 <= m.
(** The stored row indices of every column of the order are rows of [A]. *)
Hypothesis Hrows :
  forall col, 0 <= col < n ->
    forall i, 0 <= i < get (ccs_colptr A) (get column_order col + 1)
                       - get (ccs_colptr A) (get column_order col) ->
      0 <= get (ccs_rowind A) (get (ccs_colptr A) (get column_order col) + i) < m.
(** The first column of a postorder is a leaf. *)
Hypothesis Hleaf : get one_child 0 = 0.

(** What [sc_parent[i]] may hold while column [col] is scanned: nothing,
    a column scanned before, whose supercolumn is not before [i], or
    the column [col] itself, when [i] is not after the current
    supercolumn. *)
Definition parent_ok (col fsc : Z) (map : list Z) (i p : Z) : Prop :=
  p = MULTILU_SYMBOLIC_NONE
  \/ (0 <= p < col /\ i <= get map p)
  \/ (p = col /\ i <= fsc).

Definition dsc_inner_inv (col fsc : Z) (s0 : store) (st : store * Z) : Prop :=
  let '(s, cset) := st in
  Z.of_nat (length (s Firstcol)) = m
  /\ Z.of_nat (length (s Sets)) = n
  /\ Z.of_nat (length (s Root)) = n
  /\ n <= Z.of_nat (length (s Sc_parent))
  /\ s Map_col_supercol = s0 Map_col_supercol
  /\ s Sc_size = s0 Sc_size
  /\ s Lastcol = s0 Lastcol
  /\ (forall row, 0 <= row < m ->
        get (s Firstcol) row = n \/ 0 <= get (s Firstcol) row <= col)
  /\ (forall x, 0 <= x <= col ->
        0 <= get (s Sets) x <= col /\ 0 <= get (s Root) x <= col)
  /\ (forall x, col < x < n -> get (s Sets) x = x)
  /\ 0 <= cset <= col
  /\ (forall i, 0 <= i < n ->
        parent_ok col fsc (s0 Map_col_supercol) i (get (s Sc_parent) i)).

Lemma dsc_nonzero_inv (col fsc row : Z) (s0 : store) (st : store * Z) :
  0 <= col < n -> fsc < n ->
  0 <= row < m ->
  (forall c, 0 <= c < col -> 0 <= get (s0 Map_col_supercol) c <= fsc) ->
  dsc_inner_inv col fsc s0 st ->
  dsc_inner_inv col fsc s0 (dsc_nonzero n col row st).
Proof.
  intros Hcol Hfsc Hrow Hmap Hinv. destruct st as [s cset].
  destruct Hinv as (Lf & Ls & Lr & Lp & Em & Es & El & Hfc & Hcl & Hid & Hcs & Hpar).
  unfold dsc_nonzero.
  destruct (Z.eqb_spec (get (s Firstcol) row) n) as [Hnew | Hseen].
  - (* first appearance of the row *)
    unfold dsc_inner_inv. store_simpl.
    rewrite length_upd.
    repeat split; try assumption; try lia; try (apply Hcl; assumption).
    intros r Hr. rewrite get_upd.
    destruct ((row =? r) && (0 <=? row) && (row <? Z.of_nat (length (s Firstcol))));
      [right; lia | apply Hfc; exact Hr].
  - (* the row was seen in the column [fcol] *)
    assert (Hfcol : 0 <= get (s Firstcol) row < col + 1).
    { destruct (Hfc row Hrow); [contradiction | lia]. }
    pose proof (uf_find_rec_closed (col + 1) (S (length (s Sets))) (s Sets)
                  (get (s Firstcol) row)) as Hfind.
    unfold uf_find.
    destruct (uf_find_rec (S (length (s Sets))) (s Sets) (get (s Firstcol) row))
      as [sets1 rset]. simpl in Hfind.
    destruct Hfind as (Hr & Hlen1 & Hcl1 & Hout1); [lia | | lia |].
    { intros y Hy. assert (Hy' : 0 <= y <= col) by lia.
      destruct (Hcl y Hy'). lia. }
    store_simpl.
    assert (Hroot : 0 <= get (s Root) rset <= col).
    { apply Hcl. lia. }
    destruct (Z.eqb_spec (get (s Root) rset) col) as [Hsame | Hdiff]; simpl.
    + (* already united *)
      unfold dsc_inner_inv. store_simpl.
      repeat split; try assumption; try lia.
      * specialize (Hcl1 x). lia.
      * specialize (Hcl1 x). lia.
      * apply Hcl. assumption.
      * apply Hcl. assumption.
      * intros x Hx. rewrite Hout1 by lia. apply Hid. exact Hx.
    + (* unite *)
      unfold uf_union. unfold dsc_inner_inv. store_simpl.
      rewrite !length_upd.
      assert (Hmi : 0 <= get (s Map_col_supercol) (get (s Root) rset) <= fsc).
      { rewrite Em. apply Hmap. lia. }
      repeat split; try assumption; try lia.
      * rewrite get_upd. destruct (_ && _); [lia | specialize (Hcl1 x); lia].
      * rewrite get_upd. destruct (_ && _); [lia | specialize (Hcl1 x); lia].
      * rewrite get_upd. destruct (_ && _); [lia | apply Hcl; assumption].
      * rewrite get_upd. destruct (_ && _); [lia | apply Hcl; assumption].
      * intros x Hx. rewrite get_upd_ne by lia. rewrite Hout1 by lia.
        apply Hid. exact Hx.
      * intros i Hi. rewrite get_upd.
        destruct (_ && _) eqn:E; [| apply Hpar; exact Hi].
        right. right. split; [reflexivity |].
        apply andb_prop in E. destruct E as [E _].
        apply andb_prop in E. destruct E as [E _].
        apply Z.eqb_eq in E. lia.
Qed.

Definition dsc_outer_inv (col : Z) (st : store * dsc_scalars) : Prop :=
  let '(s, v) := st in
  Z.of_nat (length (s Firstcol)) = m
  /\ Z.of_nat (length (s Sets)) = n
  /\ Z.of_nat (length (s Root)) = n
  /\ n <= Z.of_nat (length (s Sc_parent))
  /\ Z.of_nat (length (s Map_col_supercol)) = n
  /\ Z.of_nat (length (s Lastcol)) = n
  /\ (col = 0 -> fsc_num v = -1)
  /\ (0 < col -> 0 <= fsc_num v < col)
  /\ (forall row, 0 <= row < m ->
        get (s Firstcol) row = n \/ 0 <= get (s Firstcol) row < col)
  /\ (forall x, 0 <= x < col ->
        0 <= get (s Sets) x < col /\ 0 <= get (s Root) x < col)
  /\ (forall x, col <= x < n -> get (s Sets) x = x)
  /\ (forall c, 0 <= c < col -> 0 <= get (s Map_col_supercol) c <= fsc_num v)
  /\ (forall i, 0 <= i < n ->
        get (s Sc_parent) i = MULTILU_SYMBOLIC_NONE
        \/ (0 <= get (s Sc_parent) i < col
            /\ i <= get (s Map_col_supercol) (get (s Sc_parent) i))).

(** Closing the scan of column [col] into the supercolumn [f]. *)
Lemma dsc_close (col fsc f a : Z) (s0 s1 : store) (cset : Z) (v' : dsc_scalars) :
  0 <= col < n ->
  Z.of_nat (length (s0 Map_col_supercol)) = n ->
  Z.of_nat (length (s0 Lastcol)) = n ->
  (forall c, 0 <= c < col -> 0 <= get (s0 Map_col_supercol) c <= fsc) ->
  dsc_inner_inv col fsc s0 (s1, cset) ->
  fsc <= f <= fsc + 1 -> 0 <= f <= col ->
  fsc_num v' = f ->
  dsc_outer_inv (col + 1)
    (put_at Map_col_supercol col f (put_at Lastcol f col (put_at Sc_size f a s1)), v').
Proof.
  intros Hcol Lm Ll Hmap Hinv Hf Hf0 Hv.
  destruct Hinv as (Lf & Ls & Lr & Lp & Em & Es & El & Hfc & Hcl & Hid & Hcs & Hpar).
  unfold dsc_outer_inv. store_simpl. rewrite !length_upd, Hv, Em, El.
  split; [exact Lf |]. split; [exact Ls |]. split; [exact Lr |].
  split; [exact Lp |]. split; [exact Lm |]. split; [exact Ll |].
  split; [lia |]. split; [lia |]. split.
  { intros row Hrow. destruct (Hfc row Hrow); [left; assumption | right; lia]. }
  split.
  { intros x Hx. assert (Hx' : 0 <= x <= col) by lia.
    destruct (Hcl x Hx'). lia. }
  split.
  { intros x Hx. apply Hid. lia. }
  split.
  { intros c Hc. destruct (Z.eq_dec c col) as [-> | Hne].
    - rewrite get_upd_eq by lia. lia.
    - rewrite get_upd_ne by lia. assert (Hc' : 0 <= c < col) by lia.
      specialize (Hmap c Hc'). lia. }
  intros i Hi. destruct (Hpar i Hi) as [Hnone | [[Hp Hle] | [Hp Hle]]].
  - left. exact Hnone.
  - right. split; [lia |]. rewrite get_upd_ne by lia. exact Hle.
  - right. split; [lia |]. rewrite Hp, get_upd_eq by lia. lia.
Qed.

Lemma dsc_column_inv (col : Z) (st : store * dsc_scalars) :
  0 <= col < n ->
  dsc_outer_inv col st ->
  dsc_outer_inv (col + 1)
    (dsc_column A column_order one_child l_size u_size postorder col st).
Proof.
  intros Hcol Hinv. destruct st as [s v].
  destruct Hinv as (Lf & Ls & Lr & Lp & Lm & Ll & Hf0 & Hf1 & Hfc & Hcl & Hid & Hmap & Hpar).
  unfold dsc_column. fold n.
  set (nnz := get (ccs_colptr A) (get column_order col + 1)
              - get (ccs_colptr A) (get column_order col)).
  assert (Hinner : dsc_inner_inv col (fsc_num v) s
            (for_ 0 nnz
               (fun i st => dsc_nonzero n col
                  (get (ccs_rowind A) (get (ccs_colptr A) (get column_order col) + i)) st)
               (put_at Root col col s, col))).
  { apply for_preserves.
    - unfold dsc_inner_inv. store_simpl. rewrite length_upd.
      split; [exact Lf |]. split; [exact Ls |]. split; [exact Lr |].
      split; [exact Lp |]. split; [reflexivity |]. split; [reflexivity |].
      split; [reflexivity |]. split.
      { intros row Hrow. destruct (Hfc row Hrow); [left; assumption | right; lia]. }
      split.
      { intros x Hx. destruct (Z.eq_dec x col) as [-> | Hne].
        - rewrite get_upd_eq by lia. rewrite Hid by lia. lia.
        - rewrite get_upd_ne by lia. assert (Hx' : 0 <= x < col) by lia.
          destruct (Hcl x Hx'). lia. }
      split.
      { intros x Hx. apply Hid. lia. }
      split; [lia |].
      intros i Hi. destruct (Hpar i Hi) as [Hnone | Hp];
        [left; exact Hnone | right; left; exact Hp].
    - intros j t Hj Ht. apply dsc_nonzero_inv;
        [exact Hcol | destruct (Z.eq_dec col 0); lia
        | apply Hrows; [exact Hcol | exact Hj] | exact Hmap | exact Ht]. }
  destruct (for_ 0 nnz _ (put_at Root col col s, col)) as [s1 cset1].
  assert (Hup : fsc_num v <= fsc_num v + 1 <= fsc_num v + 1) by lia.
  assert (Hup0 : 0 <= fsc_num v + 1 <= col) by (destruct (Z.eq_dec col 0); lia).
  destruct (Z.eqb_spec (get one_child col) 0) as [Hone | Hone]; cbn [orb negb].
  { apply (dsc_close col (fsc_num v) (fsc_num v + 1) 1 s s1 cset1); auto. }
  assert (Hpos : 0 < col).
  { destruct (Z.eq_dec col 0) as [-> | Hne]; [contradiction | lia]. }
  assert (Hsame : fsc_num v <= fsc_num v <= fsc_num v + 1) by lia.
  assert (Hsame0 : 0 <= fsc_num v <= col) by lia.
  destruct (get (s Sc_size) (fsc_num v) =? MULTILU_MAX_SUPERCOL_SIZE); cbn [orb negb].
  { apply (dsc_close col (fsc_num v) (fsc_num v + 1) 1 s s1 cset1); auto. }
  destruct (_ || _); cbn [fsc_num].
  - apply (dsc_close col (fsc_num v) (fsc_num v + 1) 1 s s1 cset1); auto.
  - apply (dsc_close col (fsc_num v) (fsc_num v) _ s s1 cset1); auto.
Qed.

(** Filling the first [k] cells of an array of the store. *)
Lemma fill_loop (F : array_name) (v k : Z) (s : store) :
  let s' := for_ 0 k (fun i s => put_at F i v s) s in
  (forall F', F <> F' -> s' F' = s F')
  /\ length (s' F) = length (s F)
  /\ (forall q, 0 <= q < k -> q < Z.of_nat (length (s F)) -> get (s' F) q = v).
Proof.
  simpl. destruct (Z.le_gt_cases 0 k) as [H0 | Hneg].
  - apply (for_inv (fun i t => (forall F', F <> F' -> t F' = s F')
                               /\ length (t F) = length (s F)
                               /\ forall q, 0 <= q < i -> q < Z.of_nat (length (s F)) ->
                                    get (t F) q = v));
      [exact H0 | split; [reflexivity | split; [reflexivity | intros; lia]] |].
    intros j t Hj (Hoth & Hlen & Hq). split; [| split].
    + intros F' HF. rewrite put_at_other by exact HF. apply Hoth. exact HF.
    + rewrite put_at_same, length_upd. exact Hlen.
    + intros q Hq1 Hq2. rewrite put_at_same.
      destruct (Z.eq_dec q j) as [-> | Hne].
      * apply get_upd_eq. lia.
      * rewrite get_upd_ne by lia. apply Hq; lia.
  - rewrite for_empty by lia.
    split; [reflexivity | split; [reflexivity | intros; lia]].
Qed.

Lemma uf_make_sets_lookup :
  forall (k start i : nat), (i < k)%nat ->
    map Z.of_nat (seq start k) !! i = Some (Z.of_nat (start + i)).
Proof.
  induction k as [| k IH]; intros start i Hi; [lia |].
  destruct i as [| i]; simpl.
  - f_equal. lia.
  - rewrite IH by lia. f_equal. lia.
Qed.

Lemma uf_make_sets_length (k : Z) : 0 <= k -> Z.of_nat (length (uf_make_sets k)) = k.
Proof.
  intros Hk. unfold uf_make_sets. rewrite length_map, length_seq. lia.
Qed.

Lemma uf_make_sets_get (k x : Z) : 0 <= x < k -> get (uf_make_sets k) x = x.
Proof.
  intros Hx. unfold get, uf_make_sets.
  destruct (Z.ltb_spec x 0); [lia |].
  rewrite uf_make_sets_lookup by lia. simpl. lia.
Qed.

Lemma length_malloc (k : Z) : 0 <= k -> Z.of_nat (length (malloc k)) = k.
Proof. intros Hk. unfold malloc. rewrite length_replicate. lia. Qed.

(** A parent among the first [k] supercolumns, after its child. *)
Definition parent_above_or_none (k i p : Z) : Prop :=
  p = MULTILU_SYMBOLIC_NONE \/ i < p < k.

(** The fundamental supercolumns: each parent comes after its child. *)
Lemma detect_fundamental_parents (sc_size sc_parent : list Z) :
  n <= Z.of_nat (length sc_parent) ->
  let s := fst (detect_fundamental A column_order one_child l_size u_size postorder
                  sc_size sc_parent) in
  let fsc := snd (detect_fundamental A column_order one_child l_size u_size postorder
                    sc_size sc_parent) in
  1 <= fsc <= n
  /\ Z.of_nat (length (s Map_col_supercol)) = n
  /\ Z.of_nat (length (s Lastcol)) = n
  /\ n <= Z.of_nat (length (s Sc_parent))
  /\ forall i, 0 <= i < fsc -> parent_above_or_none fsc i (get (s Sc_parent) i).
Proof.
  intros Lp. unfold detect_fundamental. fold n m.
  set (s0 := put Sets (uf_make_sets n) _).
  pose proof (fill_loop Firstcol n m s0) as Hfill1.
  set (s1 := for_ 0 m (fun i s => put_at Firstcol i n s) s0) in *.
  pose proof (fill_loop Sc_size 0 n s1) as Hfill2.
  set (s2 := for_ 0 n (fun i s => put_at Sc_size i 0 s) s1) in *.
  pose proof (fill_loop Sc_parent MULTILU_SYMBOLIC_NONE n s2) as Hfill3.
  set (s3 := for_ 0 n (fun i s => put_at Sc_parent i MULTILU_SYMBOLIC_NONE s) s2) in *.
  simpl in Hfill1, Hfill2, Hfill3.
  destruct Hfill1 as (O1 & L1 & G1).
  destruct Hfill2 as (O2 & L2 & G2).
  destruct Hfill3 as (O3 & L3 & G3).
  assert (E0f : s0 Firstcol = malloc m) by (unfold s0; store_simpl; reflexivity).
  assert (E0s : s0 Sets = uf_make_sets n) by (unfold s0; store_simpl; reflexivity).
  assert (E0r : s0 Root = malloc n) by (unfold s0; store_simpl; reflexivity).
  assert (E0m : s0 Map_col_supercol = malloc n) by (unfold s0; store_simpl; reflexivity).
  assert (E0l : s0 Lastcol = malloc n) by (unfold s0; store_simpl; reflexivity).
  assert (E0p : s0 Sc_parent = sc_parent) by (unfold s0; store_simpl; reflexivity).
  assert (Hstart : dsc_outer_inv 0
            (s3, {| fsc_num := -1; max_lsize := 0; max_usize := 0;
                    sc_lsize := 0; sc_usize := 0 |})).
  { unfold dsc_outer_inv. cbn [fsc_num].
    rewrite (O3 Firstcol), (O2 Firstcol) by discriminate.
    rewrite (O3 Sets), (O2 Sets), (O1 Sets) by discriminate.
    rewrite (O3 Root), (O2 Root), (O1 Root) by discriminate.
    rewrite (O3 Map_col_supercol), (O2 Map_col_supercol), (O1 Map_col_supercol)
      by discriminate.
    rewrite (O3 Lastcol), (O2 Lastcol), (O1 Lastcol) by discriminate.
    rewrite L3, (O2 Sc_parent), (O1 Sc_parent) by discriminate.
    rewrite L1, E0f, E0s, E0r, E0m, E0l, E0p.
    rewrite !length_malloc, uf_make_sets_length by lia.
    split; [reflexivity |]. split; [reflexivity |]. split; [reflexivity |].
    split; [exact Lp |]. split; [reflexivity |]. split; [reflexivity |].
    split; [reflexivity |]. split; [lia |]. split.
    { intros row Hrow. left. apply G1; [exact Hrow |].
      rewrite E0f, length_malloc; lia. }
    split; [intros; lia |]. split.
    { intros x Hx. apply uf_make_sets_get. lia. }
    split; [intros; lia |].
    intros i Hi. left. apply G3; [exact Hi |].
    rewrite O2, O1, E0p by discriminate. lia. }
  pose proof (for_inv dsc_outer_inv 0 n
                (dsc_column A column_order one_child l_size u_size postorder) _
                ltac:(lia) Hstart
                (fun j t Hj Ht => dsc_column_inv j t Hj Ht)) as Hend.
  destruct (for_ 0 n (dsc_column A column_order one_child l_size u_size postorder) _)
    as [s4 v4].
  destruct Hend as (Lf & Ls & Lr & Lp4 & Lm & Ll & _ & Hf1 & _ & _ & _ & Hmap & Hpar).
  specialize (Hf1 ltac:(lia)).
  cbn [fst snd].
  set (fsc := fsc_num v4 + 1).
  set (body := fun i s => _).
  assert (Hloop :
    (forall F, Sc_parent <> F -> for_ 0 fsc body s4 F = s4 F)
    /\ length (for_ 0 fsc body s4 Sc_parent) = length (s4 Sc_parent)
    /\ (forall j, 0 <= j < fsc ->
          parent_above_or_none fsc j (get (for_ 0 fsc body s4 Sc_parent) j))
    /\ (forall j, fsc <= j -> get (for_ 0 fsc body s4 Sc_parent) j = get (s4 Sc_parent) j)).
  { apply (for_inv (fun i t =>
        (forall F, Sc_parent <> F -> t F = s4 F)
        /\ length (t Sc_parent) = length (s4 Sc_parent)
        /\ (forall j, 0 <= j < i -> parent_above_or_none fsc j (get (t Sc_parent) j))
        /\ (forall j, i <= j -> get (t Sc_parent) j = get (s4 Sc_parent) j)));
      [unfold fsc; lia
      | split; [reflexivity | split; [reflexivity | split; [intros; lia | reflexivity]]] |].
    intros i t Hi (Hoth & Hlen & Hdone & Htodo). unfold body.
    pose proof (Htodo i ltac:(lia)) as Hpi.
    assert (Hi' : 0 <= i < n) by (unfold fsc in Hi; lia).
    destruct (Hpar i Hi') as [Hnone | [Hp Hle]].
    - (* no parent *)
      rewrite Hpi, Hnone, Z.eqb_refl. cbn [negb].
      rewrite Hpi, Hnone.
      destruct (Z.eqb_spec MULTILU_SYMBOLIC_NONE i) as [He | _];
        [unfold MULTILU_SYMBOLIC_NONE in He; lia |].
      split; [exact Hoth |]. split; [exact Hlen |]. split.
      + intros j Hj. destruct (Z.eq_dec j i) as [-> | Hne].
        * left. rewrite Hpi. exact Hnone.
        * apply Hdone. lia.
      + intros j Hj. apply Htodo. lia.
    - (* a parent column *)
      rewrite Hpi.
      destruct (Z.eqb_spec (get (s4 Sc_parent) i) MULTILU_SYMBOLIC_NONE) as [He | _];
        [unfold MULTILU_SYMBOLIC_NONE in He; lia |].
      cbn [negb]. store_simpl.
      rewrite (Hoth Map_col_supercol) by discriminate.
      pose proof (Hmap _ Hp) as Hmp.
      rewrite get_upd_eq by lia.
      destruct (Z.eqb_spec (get (s4 Map_col_supercol) (get (s4 Sc_parent) i)) i)
        as [Hroot | Hnroot].
      + store_simpl. rewrite !length_upd.
        split; [intros F HF; store_simpl; rewrite put_at_other by exact HF;
                rewrite put_at_other by exact HF; apply Hoth; exact HF |].
        split; [exact Hlen |]. split.
        * intros j Hj. destruct (Z.eq_dec j i) as [-> | Hne].
          -- left. rewrite get_upd_eq by (rewrite length_upd; lia). reflexivity.
          -- rewrite !get_upd_ne by lia. apply Hdone. lia.
        * intros j Hj. rewrite !get_upd_ne by lia. apply Htodo. lia.
      + store_simpl. rewrite !length_upd.
        split; [intros F HF; rewrite put_at_other by exact HF; apply Hoth; exact HF |].
        split; [exact Hlen |]. split.
        * intros j Hj. destruct (Z.eq_dec j i) as [-> | Hne].
          -- right. rewrite get_upd_eq by lia. unfold fsc. lia.
          -- rewrite !get_upd_ne by lia. apply Hdone. lia.
        * intros j Hj. rewrite !get_upd_ne by lia. apply Htodo. lia. }
  destruct Hloop as (Hoth & Hlen & Hdone & _).
  split; [unfold fsc; lia |].
  rewrite !Hoth by discriminate. rewrite Hlen.
  split; [exact Lm |]. split; [exact Ll |]. split; [exact Lp4 |]. exact Hdone.
Qed.

End Detect.

(** *** The relaxed supercolumns *)

Section Relax.

Variable desc_count : list Z.
Variable s : store.
Variable fsc : Z.

Hypothesis Hfsc : 1 <= fsc.
Hypothesis Hlm : fsc <= Z.of_nat (length (s Map_col_supercol)).
Hypothesis Hll : fsc <= Z.of_nat (length (s Lastcol)).
Hypothesis Hlp : fsc <= Z.of_nat (length (s Sc_parent)).
Hypothesis Hpar :
  forall j, 0 <= j < fsc -> parent_above_or_none fsc j (get (s Sc_parent) j).

Lemma Hpar_weak :
  forall j, 0 <= j < fsc ->
    get (s Sc_parent) j = MULTILU_SYMBOLIC_NONE \/ j < get (s Sc_parent) j.
Proof.
  intros j Hj. destruct (Hpar j Hj) as [Hnone | Hgt]; [left; exact Hnone | right; lia].
Qed.

(** What one turn of the relaxation loop writes. *)
Lemma relax_step_shape (i : Z) (t : store) (sc_num cscs : Z) :
  0 <= i < fsc ->
  relax_inv desc_count s i (t, sc_num, cscs) ->
  exists u c,
    relax_step desc_count i (t, sc_num, cscs)
    = (u, sc_num + (if relax_closes desc_count s i then 1 else 0), c)
    /\ u Sc_parent = t Sc_parent
    /\ u Map_col_supercol = upd (t Map_col_supercol) i sc_num
    /\ u Lastcol = upd (t Lastcol) sc_num i.
Proof.
  intros Hi (Hsc & Hp & Hlen_m & Hlen_l & Hlast & Hmap & Hnum).
  assert (Hcl : relax_closes desc_count
                  (put_at Lastcol sc_num i (put_at Map_col_supercol i sc_num t)) i
                = relax_closes desc_count s i).
  { unfold relax_closes. store_simpl. rewrite Hp.
    destruct (Hpar_weak i Hi) as [Hnone | Hgt].
    - rewrite Hnone. reflexivity.
    - rewrite get_upd_ne by lia. rewrite Hlast by lia. reflexivity. }
  unfold relax_step. rewrite Hcl.
  destruct (relax_closes desc_count s i).
  - eexists. eexists. split; [reflexivity |]. store_simpl. auto.
  - eexists. eexists. split; [rewrite Z.add_0_r; reflexivity |]. store_simpl. auto.
Qed.

(** The clusters of the relaxation loop before turn [i]: every closed
    relaxed supercolumn [k] ends at a fundamental supercolumn that has a
    parent, and all later ones lie in later relaxed supercolumns. *)
Definition relax_tree_inv (i : Z) (st : store * Z * Z) : Prop :=
  let '(t, sc_num, _) := st in
  (forall j, 0 <= j < i -> 0 <= get (t Map_col_supercol) j <= sc_num
                           /\ get (t Map_col_supercol) j <= j)
  /\ (forall k, 0 <= k < sc_num ->
        k <= get (t Lastcol) k < i
        /\ get (s Sc_parent) (get (t Lastcol) k) <> MULTILU_SYMBOLIC_NONE
        /\ forall j, get (t Lastcol) k < j < i -> k < get (t Map_col_supercol) j)
  /\ (1 <= i -> relax_closes desc_count s (i - 1) = false ->
        get (t Lastcol) sc_num = i - 1).

Lemma relax_tree_step (i : Z) (st : store * Z * Z) :
  0 <= i < fsc ->
  relax_inv desc_count s i st ->
  relax_tree_inv i st ->
  relax_tree_inv (i + 1) (relax_step desc_count i st).
Proof.
  intros Hi Hinv Htree. destruct st as [[t sc_num] cscs].
  destruct (relax_step_shape i t sc_num cscs Hi Hinv) as (u & c & -> & Hup & Hum & Hul).
  destruct Hinv as (Hsc & Hp & Hlen_m & Hlen_l & Hlast & _ & Hnum).
  destruct Htree as (Hmap & Hclosed & Hopen).
  unfold relax_tree_inv. rewrite Hum, Hul.
  assert (Hb : 0 <= (if relax_closes desc_count s i then 1 else 0) <= 1)
    by (destruct (relax_closes desc_count s i); lia).
  split; [| split].
  - intros j Hj. destruct (Z.eq_dec j i) as [-> | Hne].
    + rewrite get_upd_eq by lia. lia.
    + rewrite get_upd_ne by lia. specialize (Hmap j ltac:(lia)). lia.
  - intros k Hk. destruct (Z.eq_dec k sc_num) as [-> | Hne].
    + (* the supercolumn that [i] closes *)
      destruct (relax_closes desc_count s i) eqn:Ecl; [| lia].
      rewrite get_upd_eq by lia.
      split; [lia |]. split; [| intros j Hj; lia].
      unfold relax_closes in Ecl. apply andb_prop in Ecl. destruct Ecl as [Ecl _].
      intros Hnone. rewrite Hnone in Ecl. rewrite Z.eqb_refl in Ecl. discriminate.
    + rewrite get_upd_ne by lia.
      destruct (Hclosed k ltac:(lia)) as (Hk1 & Hk2 & Hk3).
      split; [lia |]. split; [exact Hk2 |].
      intros j Hj. destruct (Z.eq_dec j i) as [-> | Hne'].
      * rewrite get_upd_eq by lia. lia.
      * rewrite get_upd_ne by lia. apply Hk3. lia.
  - intros _ Ecl. replace (i + 1 - 1) with i in * by lia.
    rewrite Ecl, Z.add_0_r. apply get_upd_eq. lia.
Qed.

(** The relaxed supercolumns: each parent comes after its child. *)
Lemma relax_supercol_parents :
  let r := relax_supercol desc_count s fsc in
  forall k, 0 <= k < snd r ->
    parent_above_or_none (snd r) k (get (fst r Sc_parent) k).
Proof.
  unfold relax_supercol.
  assert (Hboth : relax_inv desc_count s fsc (for_ 0 fsc (relax_step desc_count) (s, 0, 0))
                  /\ relax_tree_inv fsc (for_ 0 fsc (relax_step desc_count) (s, 0, 0))).
  { apply (for_inv (fun i st => relax_inv desc_count s i st /\ relax_tree_inv i st));
      [lia | |].
    - split.
      + unfold relax_inv. repeat split; try reflexivity; try lia.
      + unfold relax_tree_inv. split; [intros; lia | split; intros; lia].
    - intros j t Hj [H1 H2]. split.
      + apply (relax_step_inv desc_count s fsc); auto using Hpar_weak.
      + apply relax_tree_step; assumption. }
  destruct (for_ 0 fsc (relax_step desc_count) (s, 0, 0)) as [[t sc_num] cscs].
  destruct Hboth as [(Hsc & Hp & Hlen_m & Hlen_l & _ & _ & Hnum) (Hmap & Hclosed & Hopen)].
  (* the last fundamental supercolumn is a root *)
  assert (Hroot : get (s Sc_parent) (fsc - 1) = MULTILU_SYMBOLIC_NONE).
  { destruct (Hpar (fsc - 1) ltac:(lia)) as [Hnone | Hgt]; [exact Hnone | lia]. }
  assert (Hncl : relax_closes desc_count s (fsc - 1) = false).
  { unfold relax_closes. rewrite Hroot, Z.eqb_refl. reflexivity. }
  specialize (Hopen ltac:(lia) Hncl). specialize (Hnum ltac:(lia)).
  rewrite Hncl, Z.add_0_r in Hnum.
  assert (Hsc' : sc_num <= fsc - 1).
  { specialize (Hmap (fsc - 1) ltac:(lia)). lia. }
  cbn [fst snd].
  set (t5 := put_at Sc_size sc_num cscs t).
  set (body := fun i s0 => _).
  assert (Hloop :
    forall j, 0 <= j < sc_num + 1 ->
      parent_above_or_none (sc_num + 1) j (get (for_ 0 (sc_num + 1) body t5 Sc_parent) j)).
  { apply (for_inv (fun k u =>
        (forall F, Sc_parent <> F -> u F = t F \/ F = Sc_size)
        /\ length (u Sc_parent) = length (s Sc_parent)
        /\ (forall j, k <= j -> get (u Sc_parent) j = get (s Sc_parent) j)
        /\ forall j, 0 <= j < k ->
             parent_above_or_none (sc_num + 1) j (get (u Sc_parent) j))
        0 (sc_num + 1) body t5); [lia | |].
    - split; [| split; [| split]].
      + intros F HF. destruct (decide (F = Sc_size)) as [-> | Hne]; [right; reflexivity |].
        left. unfold t5. apply put_at_other. congruence.
      + unfold t5. rewrite put_at_other by discriminate. rewrite Hp. reflexivity.
      + intros j _. unfold t5. rewrite put_at_other by discriminate.
        rewrite Hp. reflexivity.
      + intros; lia.
    - intros k u Hk (Hoth & Hlen & Htodo & Hdone). unfold body.
      assert (El : u Lastcol = t Lastcol).
      { destruct (Hoth Lastcol ltac:(discriminate)) as [E | E]; [exact E | discriminate]. }
      assert (Em : u Map_col_supercol = t Map_col_supercol).
      { destruct (Hoth Map_col_supercol ltac:(discriminate)) as [E | E];
          [exact E | discriminate]. }
      rewrite El, Em.
      assert (Hframe : forall p,
        (forall F, Sc_parent <> F -> put_at Sc_parent k p u F = t F \/ F = Sc_size)
        /\ length (put_at Sc_parent k p u Sc_parent) = length (s Sc_parent)
        /\ (forall j, k + 1 <= j ->
              get (put_at Sc_parent k p u Sc_parent) j = get (s Sc_parent) j)).
      { intros p. split; [| split].
        - intros F HF. rewrite put_at_other by exact HF. apply Hoth. exact HF.
        - rewrite put_at_same, length_upd. exact Hlen.
        - intros j Hj. rewrite put_at_same, get_upd_ne by lia. apply Htodo. lia. }
      destruct (Z.eq_dec k sc_num) as [-> | Hne].
      + (* the last relaxed supercolumn *)
        rewrite Hopen, Htodo by lia. rewrite Hroot, Z.eqb_refl. cbn [negb].
        destruct (Hframe MULTILU_SYMBOLIC_NONE) as (F1 & F2 & F3).
        split; [exact F1 |]. split; [exact F2 |]. split; [exact F3 |].
        intros j Hj. rewrite put_at_same.
        destruct (Z.eq_dec j sc_num) as [-> | Hne].
        * left. apply get_upd_eq. lia.
        * rewrite get_upd_ne by lia. apply Hdone. lia.
      + destruct (Hclosed k ltac:(lia)) as (Hk1 & Hk2 & Hk3).
        rewrite Htodo by lia.
        destruct (Z.eqb_spec (get (s Sc_parent) (get (t Lastcol) k)) MULTILU_SYMBOLIC_NONE)
          as [He | _]; [contradiction |].
        cbn [negb].
        destruct (Hframe (get (t Map_col_supercol)
                            (get (s Sc_parent) (get (t Lastcol) k)))) as (F1 & F2 & F3).
        split; [exact F1 |]. split; [exact F2 |]. split; [exact F3 |].
        intros j Hj. rewrite put_at_same.
        destruct (Z.eq_dec j k) as [-> | Hne'].
        * right. rewrite get_upd_eq by lia.
          destruct (Hpar (get (t Lastcol) k) ltac:(lia)) as [Hnone | Hgt];
            [contradiction |].
          specialize (Hk3 (get (s Sc_parent) (get (t Lastcol) k)) ltac:(lia)).
          specialize (Hmap (get (s Sc_parent) (get (t Lastcol) k)) ltac:(lia)). lia.
        * rewrite get_upd_ne by lia. apply Hdone. lia. }
  exact Hloop.
Qed.

End Relax.

(** In the supercolumn etree that [detect_supercol] builds, a
    supercolumn that is not a root has its parent at a greater index
    (and among the supercolumns).  The matrix has at least one column,
    every stored row index of the ordered columns is a row of the
    matrix, and the first column of the postorder is not an only
    child. *)
Lemma detect_supercol_parent_above (A : taucs_ccs_matrix)
    (column_order one_child desc_count l_size u_size postorder sc_size sc_parent : list Z) :
  1 <= ccs_n A -> 0 <= ccs_m A ->
  (forall col, 0 <= col < ccs_n A ->
     forall i, 0 <= i < get (ccs_colptr A) (get column_order col + 1)
                        - get (ccs_colptr A) (get column_order col) ->
       0 <= get (ccs_rowind A) (get (ccs_colptr A) (get column_order col) + i) < ccs_m A) ->
  get one_child 0 = 0 ->
  ccs_n A <= Z.of_nat (length sc_parent) ->
  let r := detect_supercol A column_order one_child desc_count l_size u_size postorder
             sc_size sc_parent in
  forall s, 0 <= s < fst (fst r) ->
    get (snd r) s <> MULTILU_SYMBOLIC_NONE ->
    s < get (snd r) s < fst (fst r).
Proof.
  intros Hn Hm Hrows Hleaf Hlen. unfold detect_supercol.
  pose proof (detect_fundamental_parents A column_order one_child l_size u_size postorder
                Hn Hm Hrows Hleaf sc_size sc_parent Hlen) as Hfund.
  destruct (detect_fundamental A column_order one_child l_size u_size postorder
              sc_size sc_parent) as [s1 fsc].
  cbn [fst snd] in Hfund. destruct Hfund as (Hfsc & Lm & Ll & Lp & Hpar).
  pose proof (relax_supercol_parents desc_count s1 fsc ltac:(lia) ltac:(lia) ltac:(lia)
                ltac:(lia) Hpar) as Hrel.
  destruct (relax_supercol desc_count s1 fsc) as [s2 sc_num].
  cbn [fst snd] in *. intros s Hs Hnone.
  destruct (Hrel s Hs) as [Habs | Hgt]; [contradiction | exact Hgt].
Qed.

(** ** The column etree of the elimination analysis

    Every column gets a parent behind it, or [n] when it is a root;
    this needs nothing of the sets of the union-find structure. *)

(** The parents of the columns before [k] in the array [par]. *)
Definition parents_behind (n k : Z) (par : list Z) : Prop :=
  forall j, 0 <= j < k -> j < get par j <= n.

Lemma append_pattern_parent (x row_start : Z) (sr : store * Z) :
  fst (append_pattern x row_start sr) Parent = fst sr Parent.
Proof.
  unfold append_pattern.
  apply (for_preserves (fun t : store * Z => fst t Parent = fst sr Parent)); [reflexivity |].
  intros j [s row_size] _ Ht. cbn [fst] in *.
  destruct (_ && _); cbn [fst]; [| exact Ht]. store_simpl. exact Ht.
Qed.

Lemma ea_nonzero_parent (n col row_start row : Z) (st : store * Z * Z) :
  col < n ->
  parents_behind n (col + 1) (fst (fst st) Parent) ->
  parents_behind n (col + 1) (fst (fst (ea_nonzero n col row_start row st)) Parent)
  /\ length (fst (fst (ea_nonzero n col row_start row st)) Parent)
     = length (fst (fst st) Parent).
Proof.
  intros Hcol Hpar. destruct st as [[s row_size] cset]. unfold ea_nonzero. cbn [fst] in *.
  destruct (get (s Firstcol) row =? n).
  - match goal with
    | |- context [append_pattern ?x ?rs ?sr] =>
        pose proof (append_pattern_parent x rs sr) as Hap;
        destruct (append_pattern x rs sr) as [s1 row_size1]
    end.
    cbn [fst] in *. store_simpl. rewrite Hap. store_simpl. split; [exact Hpar | reflexivity].
  - destruct (uf_find (s Sets) (get (s Firstcol) row)) as [sets1 rset].
    store_simpl.
    destruct (Z.eqb_spec (get (s Root) rset) col) as [Heq | Hne]; cbn [negb fst].
    + split; [exact Hpar | reflexivity].
    + match goal with
      | |- context [append_pattern ?x ?rs ?sr] =>
          pose proof (append_pattern_parent x rs sr) as Hap;
          destruct (append_pattern x rs sr) as [s1 row_size1]
      end.
      cbn [fst uf_union] in *. store_simpl. rewrite Hap. store_simpl.
      rewrite length_upd. split; [| reflexivity].
      intros j Hj. rewrite get_upd.
      destruct (Z.eqb_spec (get (s Root) rset) j) as [E | _]; cbn [andb];
        [| apply Hpar; exact Hj].
      destruct (_ && _); [lia | apply Hpar; exact Hj].
Qed.

Lemma ea_collect_parent (A : taucs_ccs_matrix) (col : Z) (st : store * Z) :
  fst (ea_collect A col st) Parent = fst st Parent.
Proof.
  unfold ea_collect. destruct st as [s next_row].
  destruct (_ >? _); [| reflexivity].
  destruct (garbage_collect _ _ _ _ _) as [[w es] loc]. cbn [fst]. store_simpl. reflexivity.
Qed.

Lemma ea_pivot_parent (A : taucs_ccs_matrix) (column_order : list Z) (col : Z)
    (st st' : store * Z) :
  0 <= col < ccs_n A ->
  col < Z.of_nat (length (fst st Parent)) ->
  parents_behind (ccs_n A) col (fst st Parent) ->
  ea_pivot A column_order col st = Ok st' ->
  parents_behind (ccs_n A) (col + 1) (fst st' Parent)
  /\ length (fst st' Parent) = length (fst st Parent).
Proof.
  intros Hcol Hlen Hpar Hrun. destruct st as [s next_row]. unfold ea_pivot in Hrun.
  cbn [fst] in *.
  match type of Hrun with
  | context [for_ 0 ?k ?body ?s0] =>
      assert (Hloop : parents_behind (ccs_n A) (col + 1) (fst (fst (for_ 0 k body s0)) Parent)
                      /\ length (fst (fst (for_ 0 k body s0)) Parent) = length (s Parent));
        [| destruct (for_ 0 k body s0) as [[s1 row_size] cset]]
  end.
  { apply (for_preserves
             (fun t : store * Z * Z =>
                parents_behind (ccs_n A) (col + 1) (fst (fst t) Parent)
                /\ length (fst (fst t) Parent) = length (s Parent))).
    - cbn [fst]. store_simpl. rewrite length_upd. split; [| reflexivity].
      intros j Hj. destruct (Z.eq_dec j col) as [-> | Hne].
      + rewrite get_upd_eq by lia. lia.
      + rewrite get_upd_ne by lia. apply Hpar. lia.
    - intros i t _ [Ht Lt].
      destruct (ea_nonzero_parent (ccs_n A) col next_row
                  (get (ccs_rowind A) (get (ccs_colptr A) (get column_order col) + i)) t)
        as [H1 H2]; [lia | exact Ht |].
      split; [exact H1 | congruence]. }
  cbn [fst] in Hloop. destruct Hloop as [Hp1 L1].
  destruct (negb (row_size >? 0)); [discriminate |].
  injection Hrun as <-. cbn [fst]. store_simpl.
  match goal with
  | |- context [for_ 0 ?k ?body ?s0] =>
      assert (Hmmb : for_ 0 k body s0 Parent = s1 Parent)
  end.
  { apply (for_preserves (fun t : store => t Parent = s1 Parent)).
    - store_simpl. reflexivity.
    - intros j t _ Ht. store_simpl. exact Ht. }
  rewrite Hmmb. split; assumption.
Qed.

Lemma ea_column_parent (A : taucs_ccs_matrix) (column_order : list Z) (col : Z)
    (st st' : store * Z) :
  0 <= col < ccs_n A ->
  col < Z.of_nat (length (fst st Parent)) ->
  parents_behind (ccs_n A) col (fst st Parent) ->
  ea_column A column_order col st = Ok st' ->
  parents_behind (ccs_n A) (col + 1) (fst st' Parent)
  /\ length (fst st' Parent) = length (fst st Parent).
Proof.
  intros Hcol Hlen Hpar Hrun. unfold ea_column in Hrun.
  destruct (negb _); [discriminate |].
  pose proof (ea_collect_parent A col st) as Hc.
  apply ea_pivot_parent in Hrun; [| exact Hcol | | ]; rewrite Hc in *; assumption.
Qed.

(** A loop that leaves the array [f] as it is at every turn. *)
Lemma for_frame (f : array_name) (lo hi : Z) (body : Z -> store -> store) (s : store) :
  (forall j t, body j t f = t f) -> for_ lo hi body s f = s f.
Proof.
  intros Hbody. apply (for_preserves (fun t : store => t f = s f)); [reflexivity |].
  intros j t _ Ht. rewrite Hbody. exact Ht.
Qed.

Lemma ea_init_parent (A : taucs_ccs_matrix) (parent_ l_size u_size : list Z) :
  fst (ea_init A parent_ l_size u_size) Parent = parent_.
Proof.
  unfold ea_init. cbn [fst].
  repeat first
    [ progress store_simpl
    | rewrite for_frame
        by (intros; first [ store_simpl; reflexivity
                          | apply for_frame; intros; store_simpl; reflexivity ]) ].
  reflexivity.
Qed.

(** The parents [elimination_analysis] leaves: each is behind its
    column, at most at [n]. *)
Lemma elimination_analysis_parents (A : taucs_ccs_matrix)
    (column_order parent_ l_size u_size parent' l_size' u_size' : list Z) :
  ccs_n A <= Z.of_nat (length parent_) ->
  elimination_analysis A column_order parent_ l_size u_size = Ok (parent', l_size', u_size') ->
  length parent' = length parent_ /\ parents_behind (ccs_n A) (ccs_n A) parent'.
Proof.
  intros Hlen Hrun. unfold elimination_analysis in Hrun.
  apply bind_Ok in Hrun. destruct Hrun as ([s next_row] & Hloop & Hrun).
  injection Hrun as <- _ _.
  destruct (Z.le_gt_cases 0 (ccs_n A)) as [Hn | Hneg].
  - assert (Hinv : parents_behind (ccs_n A) (ccs_n A) (fst (s, next_row) Parent)
                   /\ length (fst (s, next_row) Parent) = length parent_).
    { apply (forM_inv
               (fun col (st : store * Z) =>
                  parents_behind (ccs_n A) col (fst st Parent)
                  /\ length (fst st Parent) = length parent_)
               0 (ccs_n A) (ea_column A column_order)
               (ea_init A parent_ l_size u_size) (s, next_row) Hn); [| | exact Hloop].
      - rewrite ea_init_parent. split; [| reflexivity]. intros j Hj. lia.
      - intros j t t' Hj [Ht Lt] Hb.
        apply ea_column_parent in Hb; [| exact Hj | lia | exact Ht].
        destruct Hb as [H1 H2]. split; [exact H1 | congruence]. }
    cbn [fst] in Hinv. destruct Hinv as [Hp Hl]. split; [exact Hl | exact Hp].
  - rewrite forM_empty in Hloop by lia.
    pose proof (f_equal (fun r : result (store * Z) =>
                           match r with Ok x => fst x Parent | _ => parent_ end) Hloop)
      as Hs.
    cbv beta iota in Hs. rewrite ea_init_parent in Hs. cbn [fst] in Hs.
    rewrite <- Hs. split; [reflexivity |]. intros j Hj. lia.
Qed.

(** ** The column etree as lists of children *)

Lemma iter_down_inv {St : Type} (P : Z -> St -> Prop) (body : Z -> St -> St) :
  forall (k : nat) (i : Z) (s : St),
    P i s ->
    (forall j t, i - Z.of_nat k < j <= i -> P j t -> P (j - 1) (body j t)) ->
    P (i - Z.of_nat k) (iter_down k i body s).
Proof.
  induction k as [| k IH]; intros i s H0 Hstep.
  - cbn [iter_down]. replace (i - Z.of_nat 0) with i by lia. exact H0.
  - cbn [iter_down]. replace (i - Z.of_nat (S k)) with (i - 1 - Z.of_nat k) by lia.
    apply IH.
    + apply Hstep; [lia | exact H0].
    + intros j t Hj. apply Hstep. lia.
Qed.

(** The first child of a vertex is before the vertex, and the root [n]
    has a child. *)
Definition children_before (n : Z) (fc : list Z) : Prop :=
  (forall v, 0 <= v <= n ->
     get fc v = MULTILU_SYMBOLIC_NONE \/ 0 <= get fc v < v)
  /\ get fc n <> MULTILU_SYMBOLIC_NONE.

(** The loop that links every column to its parent. *)
Lemma link_children_before (parent_ : list Z) (n : Z) (fc nc : list Z) :
  1 <= n -> n < Z.of_nat (length fc) ->
  parents_behind n n parent_ ->
  (forall v, 0 <= v <= n -> get fc v = MULTILU_SYMBOLIC_NONE) ->
  children_before n
    (fst (for_down (n - 1) 0 (fun i '(fc, nc) =>
            let p := get parent_ i in
            (upd fc p i, upd nc i (get fc p))) (fc, nc))).
Proof.
  intros Hn Hlen Hpar Hnone. unfold for_down.
  pose proof (iter_down_inv
                (fun i (st : list Z * list Z) =>
                   length (fst st) = length fc
                   /\ (forall v, 0 <= v <= n ->
                         get (fst st) v = MULTILU_SYMBOLIC_NONE \/ i < get (fst st) v < v)
                   /\ (i < n - 1 -> get (fst st) n <> MULTILU_SYMBOLIC_NONE))
                (fun i '(fc, nc) =>
                   let p := get parent_ i in (upd fc p i, upd nc i (get fc p)))
                (Z.to_nat (n - 1 - 0 + 1)) (n - 1) (fc, nc)) as Hinv.
  cbn [fst] in Hinv. destruct Hinv as (_ & Hall & Hroot).
  - split; [reflexivity |]. split; [| lia]. intros v Hv. left. apply Hnone. exact Hv.
  - intros j [fc1 nc1] Hj (L1 & H1 & R1). cbn [fst] in *.
    assert (Hp : j < get parent_ j <= n) by (apply Hpar; lia).
    rewrite length_upd. split; [exact L1 |]. split.
    + intros v Hv. destruct (Z.eq_dec v (get parent_ j)) as [-> | Hne].
      * right. rewrite get_upd_eq by lia. lia.
      * rewrite get_upd_ne by lia.
        destruct (H1 v Hv) as [E | E]; [left; exact E | right; lia].
    + intros _. destruct (Z.eq_dec n (get parent_ j)) as [E | Hne].
      * rewrite <- E. rewrite get_upd_eq by lia. unfold MULTILU_SYMBOLIC_NONE. lia.
      * rewrite get_upd_ne by lia. apply R1.
        destruct (Z.eq_dec j (n - 1)) as [-> | ?]; [lia | lia].
  - split.
    + intros v Hv. destruct (Hall v Hv) as [E | E]; [left; exact E | right; lia].
    + apply Hroot. lia.
Qed.

(** ** The first vertex of the postorder is a leaf *)

Section Postorder.

Variables first_child next_child : list Z.
Variable root : Z.
Variable lp : nat.
Hypothesis Hroot : 1 <= root.
Hypothesis Hlp : (1 <= lp)%nat.
Hypothesis Hchildren : children_before root first_child.

(** While the search goes down from the root nothing is numbered: the
    vertex on top of the stack is one whose children are all to
    visit. *)
Definition going_down (st : store * Z * Z) : Prop :=
  let '(s, postnum, depth) := st in
  let v := get (s Stack_vertex) depth in
  postnum = 0 /\ 0 <= depth /\ 0 <= v <= root /\ depth + v <= root
  /\ (depth = 0 -> v = root) /\ (0 < depth -> v < root)
  /\ get (s Stack_child) depth = get first_child v
  /\ Z.of_nat (length (s Stack_vertex)) = root + 1
  /\ Z.of_nat (length (s Stack_child)) = root + 1
  /\ length (s Postorder) = lp.

(** Once a vertex is numbered the first of the postorder is a leaf. *)
Definition first_is_leaf (st : store * Z * Z) : Prop :=
  let '(s, postnum, _) := st in
  1 <= postnum /\ length (s Postorder) = lp
  /\ get first_child (get (s Postorder) 0) = MULTILU_SYMBOLIC_NONE.

Lemma dfp_step_down (st st' : store * Z * Z) :
  going_down st ->
  dfp_step first_child next_child root st = Ok st' ->
  (going_down st'
   /\ get (fst (fst st') Stack_vertex) (snd st')
      < get (fst (fst st) Stack_vertex) (snd st))
  \/ first_is_leaf st'.
Proof.
  destruct st as [[s postnum] depth].
  intros (Hpn & Hd & Hv & Hroom & H0 & Hpos & Hsc & Lv & Lc & Lp) Hrun.
  unfold dfp_step in Hrun. cbn [fst snd].
  set (v := get (s Stack_vertex) depth) in *.
  destruct Hchildren as [Hbefore Hhas].
  destruct (Z.eqb_spec (get (s Stack_child) depth) MULTILU_SYMBOLIC_NONE) as [Hnone | Hsome];
    cbn [negb] in Hrun.
  - (* the vertex on top has no child: it is numbered *)
    right. rewrite Hsc in Hnone.
    assert (Hdepth : 0 < depth).
    { destruct (Z.eq_dec depth 0) as [E | ?]; [| lia].
      exfalso. apply Hhas. rewrite <- (H0 E). exact Hnone. }
    specialize (Hpos Hdepth).
    destruct (Z.eqb_spec v root) as [E | _]; [lia |]. cbn [negb] in Hrun.
    destruct (Z.ltb_spec v root) as [_ | ?]; [| lia]. cbn [negb bind] in Hrun.
    destruct (Z.geb_spec (depth - 1) 0) as [_ | ?]; [| lia].
    injection Hrun as <-. unfold first_is_leaf. store_simpl.
    rewrite length_upd, Hpn. split; [lia |]. split; [exact Lp |].
    rewrite get_upd_eq by lia. exact Hnone.
  - (* its first child is pushed *)
    left. injection Hrun as <-. cbn [fst snd].
    rewrite Hsc in *. destruct (Hbefore v Hv) as [E | Hc]; [contradiction |].
    unfold going_down. store_simpl. rewrite !length_upd.
    rewrite !get_upd_eq by lia.
    repeat split; try assumption; lia.
Qed.

Lemma dfp_step_leaf (st st' : store * Z * Z) :
  first_is_leaf st ->
  dfp_step first_child next_child root st = Ok st' ->
  first_is_leaf st'.
Proof.
  destruct st as [[s postnum] depth]. intros (Hpn & Lp & Hleaf) Hrun.
  unfold dfp_step in Hrun.
  destruct (negb (get (s Stack_child) depth =? MULTILU_SYMBOLIC_NONE)).
  - injection Hrun as <-. unfold first_is_leaf. store_simpl.
    split; [exact Hpn |]. split; assumption.
  - assert (Hkeep : forall t : store, t Postorder = s Postorder \/
                      t Postorder = upd (s Postorder) postnum
                                      (get (s Stack_vertex) depth) ->
                    length (t Postorder) = lp
                    /\ get first_child (get (t Postorder) 0) = MULTILU_SYMBOLIC_NONE).
    { intros t [E | E]; rewrite E; [split; assumption |].
      rewrite length_upd, get_upd_ne by lia. split; assumption. }
    destruct (negb (get (s Stack_vertex) depth =? root)).
    + destruct (negb (get (s Stack_vertex) depth <? root)); [discriminate |].
      cbn [bind] in Hrun.
      destruct (depth - 1 >=? 0); injection Hrun as <-; unfold first_is_leaf;
        (split; [lia |]); apply Hkeep; right; store_simpl; reflexivity.
    + cbn [bind] in Hrun.
      destruct (depth - 1 >=? 0); injection Hrun as <-; unfold first_is_leaf;
        (split; [lia |]); apply Hkeep; left; store_simpl; reflexivity.
Qed.

Lemma dfp_while_leaf :
  forall (fuel : nat) (st st' : store * Z * Z),
    first_is_leaf st ->
    dfp_while fuel first_child next_child root st = Ok st' ->
    first_is_leaf st'.
Proof.
  induction fuel as [| fuel IH]; intros st st' Hst Hrun; cbn [dfp_while] in Hrun.
  - injection Hrun as <-. exact Hst.
  - destruct (snd st >=? 0); [| injection Hrun as <-; exact Hst].
    destruct (dfp_step first_child next_child root st) as [st1 | w |] eqn:Hstep;
      cbn [bind] in Hrun; try discriminate.
    apply (IH st1 st'); [| exact Hrun]. apply (dfp_step_leaf st st1 Hst Hstep).
Qed.

Lemma dfp_while_down :
  forall (fuel : nat) (st st' : store * Z * Z),
    going_down st ->
    get (fst (fst st) Stack_vertex) (snd st) + 1 <= Z.of_nat fuel ->
    dfp_while fuel first_child next_child root st = Ok st' ->
    first_is_leaf st'.
Proof.
  induction fuel as [| fuel IH]; intros st st' Hst Hfuel Hrun; cbn [dfp_while] in Hrun.
  - exfalso. destruct st as [[s postnum] depth]. cbn [fst snd] in Hfuel.
    destruct Hst as (_ & _ & Hv & _). lia.
  - assert (Hdepth : (snd st >=? 0) = true).
    { destruct st as [[s postnum] depth]. destruct Hst as (_ & Hd & _). cbn [snd].
      destruct (Z.geb_spec depth 0); [reflexivity | lia]. }
    rewrite Hdepth in Hrun.
    destruct (dfp_step first_child next_child root st) as [st1 | w |] eqn:Hstep;
      cbn [bind] in Hrun; try discriminate.
    destruct (dfp_step_down st st1 Hst Hstep) as [[Hdown Hless] | Hleaf].
    + apply (IH st1 st'); [exact Hdown | lia | exact Hrun].
    + apply (dfp_while_leaf fuel st1 st' Hleaf Hrun).
Qed.

(** [df_postorder] numbers a leaf first. *)
Lemma df_postorder_first_leaf (postorder desc_count postorder' desc_count' : list Z) :
  length postorder = lp ->
  df_postorder first_child next_child root postorder desc_count
  = Ok (postorder', desc_count') ->
  get first_child (get postorder' 0) = MULTILU_SYMBOLIC_NONE.
Proof.
  intros Lp Hrun. unfold df_postorder in Hrun.
  match type of Hrun with
  | bind (dfp_while ?fuel _ _ _ ?st0) _ = _ =>
      destruct (dfp_while fuel first_child next_child root st0)
        as [[[s' postnum'] depth'] | w |] eqn:Hwhile;
        cbn [bind] in Hrun; try discriminate;
        apply dfp_while_down in Hwhile
  end.
  - injection Hrun as <- _. apply Hwhile.
  - unfold going_down. store_simpl.
    assert (Lm : Z.of_nat (length (malloc (root + 1))) = root + 1)
      by (unfold malloc; rewrite length_replicate; lia).
    rewrite !length_upd. rewrite !get_upd_eq by lia.
    repeat split; try assumption; try lia.
  - cbn [fst snd]. store_simpl.
    assert (Lm : Z.of_nat (length (malloc (root + 1))) = root + 1)
      by (unfold malloc; rewrite length_replicate; lia).
    rewrite get_upd_eq by lia. lia.
Qed.

End Postorder.

(** ** The parents of the symbolic factorization *)

Lemma length_fill_columns (f : Z -> Z) (k : Z) (a : list Z) :
  length (for_ 0 k (fun i a => upd a i (f i)) a) = length a.
Proof.
  apply (for_preserves (fun w => length w = length a)); [reflexivity |].
  intros j w _ Hw. rewrite length_upd. exact Hw.
Qed.

(** The first column of the postorder, a leaf, is not an only child's
    parent: its cell of [one_child] keeps the 0 of [calloc]. *)
Lemma one_child_first (fchild nchild postorder : list Z) (n : Z) :
  1 <= n ->
  get fchild (get postorder 0) = MULTILU_SYMBOLIC_NONE ->
  get (for_ 0 n (fun i oc =>
         let col := get postorder i in
         if negb (get fchild col =? MULTILU_SYMBOLIC_NONE)
            && (get nchild (get fchild col) =? MULTILU_SYMBOLIC_NONE)
         then upd oc i TRUE else oc) (calloc n)) 0 = 0.
Proof.
  intros Hn Hleaf.
  apply (for_inv (fun (_ : Z) oc => get oc 0 = 0)); [lia | |].
  - unfold get, calloc. cbn [Z.ltb Z.compare Z.to_nat].
    rewrite lookup_replicate_2 by lia. reflexivity.
  - intros j oc Hj Hoc. cbv zeta.
    destruct (Z.eq_dec j 0) as [-> | Hne].
    + rewrite Hleaf, Z.eqb_refl. exact Hoc.
    + destruct (_ && _); [| exact Hoc]. rewrite get_upd_ne by lia. exact Hoc.
Qed.

Lemma complete_symbolic_columns (symbolic symbolic' : taucs_multilu_symbolic) :
  complete_symbolic symbolic = Ok symbolic' ->
  columns symbolic' = columns symbolic.
Proof.
  unfold complete_symbolic. intros H.
  destruct (for_ 1 _ _ _) as [start_sc end_sc].
  destruct (negb _); [discriminate |].
  destruct (for_ 0 _ (cs_link _) _) as [[froot fchild] nchild].
  destruct (for_ 0 _ (cs_desc _) _) as [fdesc ldesc].
  injection H as <-. reflexivity.
Qed.

(** Claim C7.  In the supercolumn etree of a symbolic factorization, a
    supercolumn that is not a root has its parent at a greater index
    (and among the supercolumns).  The matrix has at least one column,
    and every row index stored in the columns that the result orders is
    a row of the matrix. *)
Theorem symbolic_parent_above (A : taucs_ccs_matrix) (column_order : list Z)
    (symbolic : taucs_multilu_symbolic) :
  1 <= ccs_n A -> 0 <= ccs_m A ->
  taucs_ccs_factor_lu_symbolic A column_order = Ok symbolic ->
  (forall col, 0 <= col < ccs_n A ->
     forall i, 0 <= i < get (ccs_colptr A) (get (columns symbolic) col + 1)
                        - get (ccs_colptr A) (get (columns symbolic) col) ->
       0 <= get (ccs_rowind A) (get (ccs_colptr A) (get (columns symbolic) col) + i)
       < ccs_m A) ->
  forall s, 0 <= s < number_supercolumns symbolic ->
    get (parent (etree symbolic)) s <> MULTILU_SYMBOLIC_NONE ->
    s < get (parent (etree symbolic)) s < number_supercolumns symbolic.
Proof.
  intros Hn Hm Hrun Hrows. unfold taucs_ccs_factor_lu_symbolic in Hrun.
  set (n := ccs_n A) in *.
  assert (Lm : forall k, 0 <= k -> Z.of_nat (length (malloc k)) = k)
    by (intros k Hk; unfold malloc; rewrite length_replicate; lia).
  (* the column etree *)
  destruct (elimination_analysis A column_order _ _ _) as [[[parent_ l_size] u_size] | w |]
    eqn:Hea; cbn [bind] in Hrun; try discriminate.
  apply elimination_analysis_parents in Hea;
    [| cbn [parent etree allocate_symbolic]; rewrite Lm; fold n; lia].
  destruct Hea as [Lpar Hpar]. cbn [parent etree allocate_symbolic] in Lpar.
  fold n in Hpar.
  (* its lists of children *)
  match type of Hrun with
  | context [for_down (n - 1) 0 ?body (?fc0, ?nc0)] =>
      pose proof (link_children_before parent_ n fc0 nc0 Hn) as Hlink;
      destruct (for_down (n - 1) 0 body (fc0, nc0)) as [fchild nchild]
  end.
  cbn [fst] in Hlink.
  assert (Hchildren : children_before n fchild).
  { cbn [first_child etree allocate_symbolic] in Hlink.
    destruct (clear_loop (malloc (n + 1)) (n + 1)) as [Lc Hc]; [rewrite Lm; lia |].
    apply Hlink; [rewrite Lc, Lm; lia | exact Hpar |].
    intros v Hv. apply Hc. lia. }
  clear Hlink.
  (* the postorder *)
  destruct (df_postorder fchild nchild n _ _) as [[postorder desc_count_org] | w |]
    eqn:Hdfp; cbn [bind] in Hrun; try discriminate.
  apply (df_postorder_first_leaf fchild nchild n (length (malloc n))) in Hdfp;
    [| exact Hn | | exact Hchildren | reflexivity].
  2: { apply Nat2Z.inj_le. rewrite Lm; lia. }
  pose proof (one_child_first fchild nchild postorder n Hn Hdfp) as Hleaf.
  (* the supercolumns *)
  match type of Hrun with
  | context [for_ 0 n ?body (columns ?sy, ?d)] =>
      destruct (for_ 0 n body (columns sy, d)) as [cols desc_count]
  end.
  match type of Hrun with
  | context [detect_supercol A cols ?oc desc_count l_size u_size postorder ?sz parent_] =>
      pose proof (detect_supercol_parent_above A cols oc desc_count l_size u_size
                    postorder sz parent_ Hn Hm) as Hdet;
      destruct (detect_supercol A cols oc desc_count l_size u_size postorder sz parent_)
        as [[sc_num sc_size] sc_parent]
  end.
  cbn [fst snd] in Hdet.
  destruct (for_ 0 sc_num _ _) as [[firstcol_ind sl] su].
  pose proof (complete_symbolic_columns _ _ Hrun) as Hcols.
  apply complete_symbolic_desc in Hrun. destruct Hrun as (_ & _ & Hparent & Hnum).
  cbn [columns parent etree number_supercolumns] in Hcols, Hparent, Hnum.
  rewrite Hparent, Hnum. apply Hdet.
  - rewrite <- Hcols. exact Hrows.
  - exact Hleaf.
  - rewrite Lpar, Lm; lia.
Qed.

(** ** The solve phase *)

Lemma mem_put_same (b : buffer) (v : list T) (mem : memory) : mem_put b v mem b = v.
Proof. unfold mem_put. destruct (decide (b = b)); [reflexivity | contradiction]. Qed.

Lemma mem_put_other (b b' : buffer) (v : list T) (mem : memory) :
  b <> b' -> mem_put b v mem b' = mem b'.
Proof. intros H. unfold mem_put. destruct (decide (b = b')); [contradiction | reflexivity]. Qed.

Lemma poke_other (b b' : buffer) (i : Z) (v : T) (mem : memory) :
  b <> b' -> poke b i v mem b' = mem b'.
Proof. intros H. unfold poke. apply mem_put_other. exact H. Qed.

(** A copy loop writes to its destination only. *)
Lemma copy_rows_other (n rows : Z) (dst : buffer) (dj : Z -> Z) (ld_dst : Z)
    (src : buffer) (sj : Z -> Z) (ld_src : Z) (mem : memory) (b : buffer) :
  dst <> b ->
  copy_rows n rows dst dj ld_dst src sj ld_src mem b = mem b.
Proof.
  intros Hb. unfold copy_rows.
  apply (for_preserves (fun t : memory => t b = mem b)); [reflexivity |].
  intros c t _ Ht.
  apply (for_preserves (fun u : memory => u b = mem b)); [exact Ht |].
  intros j u _ Hu. rewrite poke_other by exact Hb. exact Hu.
Qed.

Lemma iterM_down_preserves {St : Type} (P : St -> Prop) (body : Z -> St -> result St) :
  (forall j t t', P t -> body j t = Ok t' -> P t') ->
  forall (k : nat) (i : Z) (s s' : St),
    P s -> iterM_down k i body s = Ok s' -> P s'.
Proof.
  intros Hstep. induction k as [| k IH]; intros i s s' H0 Hrun; simpl in Hrun.
  - injection Hrun as <-. exact H0.
  - destruct (body i s) as [t | w |] eqn:Hb; simpl in Hrun; try discriminate.
    apply (IH (i - 1) t s'); [| exact Hrun].
    apply (Hstep i s t); [exact H0 | exact Hb].
Qed.

Lemma iterM_from_total {St : Type} (body : Z -> St -> result St) :
  forall (k : nat) (i : Z) (s : St),
    (forall j t, i <= j < i + Z.of_nat k -> exists t', body j t = Ok t') ->
    exists s', iterM_from k i body s = Ok s'.
Proof.
  induction k as [| k IH]; intros i s Hb; simpl.
  - exists s. reflexivity.
  - destruct (Hb i s ltac:(lia)) as [t Ht]. rewrite Ht. simpl.
    apply IH. intros j u Hj. apply Hb. lia.
Qed.

Lemma iterM_down_total {St : Type} (body : Z -> St -> result St) :
  forall (k : nat) (i : Z) (s : St),
    (forall j t, i - Z.of_nat k < j <= i -> exists t', body j t = Ok t') ->
    exists s', iterM_down k i body s = Ok s'.
Proof.
  induction k as [| k IH]; intros i s Hb; simpl.
  - exists s. reflexivity.
  - destruct (Hb i s ltac:(lia)) as [t Ht]. rewrite Ht. simpl.
    apply IH. intros j u Hj. apply Hb. lia.
Qed.

(** One block of the forward solve writes to [X], [B] and [T] only. *)
Lemma solve_L_block_frame (F : taucs_multilu_factor) (X B Tb : buffer) (n ld_B ld_X i : Z)
    (st st' : memory * Z) (b : buffer) :
  X <> b -> B <> b -> Tb <> b ->
  solve_L_block F X B Tb n ld_B ld_X i st = Ok st' ->
  fst st' b = fst st b.
Proof.
  intros HX HB HT Hrun. destruct st as [mem xoff]. unfold solve_L_block in Hrun.
  apply bind_Ok in Hrun. destruct Hrun as (block & _ & Hrun).
  injection Hrun as <-. cbn [fst].
  destruct (non_pivot_rows_number block >? 0).
  - rewrite copy_rows_other by exact HB. rewrite mem_put_other by exact HT.
    rewrite copy_rows_other by exact HT. rewrite mem_put_other by exact HX.
    apply copy_rows_other. exact HX.
  - rewrite mem_put_other by exact HX. apply copy_rows_other. exact HX.
Qed.

(** One block of the backward solve writes to [X], [B] and [T] only. *)
Lemma solve_U_block_frame (F : taucs_multilu_factor) (X B Tb : buffer) (n ld_B ld_X i : Z)
    (st st' : memory * Z) (b : buffer) :
  X <> b -> B <> b -> Tb <> b ->
  solve_U_block F X B Tb n ld_B ld_X i st = Ok st' ->
  fst st' b = fst st b.
Proof.
  intros HX HB HT Hrun. destruct st as [mem boff]. unfold solve_U_block in Hrun.
  apply bind_Ok in Hrun. destruct Hrun as (block & _ & Hrun).
  injection Hrun as <-. cbn [fst].
  rewrite copy_rows_other by exact HX. rewrite mem_put_other by exact HB.
  destruct (non_pivot_cols_number block >? 0).
  - rewrite mem_put_other by exact HB. apply copy_rows_other. exact HT.
  - reflexivity.
Qed.

Lemma solve_blocked_L_frame (F : taucs_multilu_factor) (X B Tb : buffer) (n ld_B ld_X : Z)
    (mem mem' : memory) (b : buffer) :
  X <> b -> B <> b -> Tb <> b ->
  solve_blocked_L F X B Tb n ld_B ld_X mem = Ok mem' ->
  mem' b = mem b.
Proof.
  intros HX HB HT Hrun. unfold solve_blocked_L in Hrun.
  apply bind_Ok in Hrun. destruct Hrun as ([mem1 xoff] & Hloop & Hrun).
  injection Hrun as <-.
  apply (forM_preserves (fun st : memory * Z => fst st b = mem b)
           0 (num_blocks F) (solve_L_block F X B Tb n ld_B ld_X) (mem, 0) (mem1, xoff));
    [reflexivity | | exact Hloop].
  intros j t t' _ Ht Hb.
  rewrite (solve_L_block_frame F X B Tb n ld_B ld_X j t t' b HX HB HT Hb). exact Ht.
Qed.

Lemma solve_blocked_U_frame (F : taucs_multilu_factor) (X B Tb : buffer) (n ld_B ld_X : Z)
    (mem mem' : memory) (b : buffer) :
  X <> b -> B <> b -> Tb <> b ->
  solve_blocked_U F X B Tb n ld_B ld_X mem = Ok mem' ->
  mem' b = mem b.
Proof.
  intros HX HB HT Hrun. unfold solve_blocked_U in Hrun.
  apply bind_Ok in Hrun. destruct Hrun as ([mem1 boff] & Hloop & Hrun).
  injection Hrun as <-. unfold forM_down in Hloop.
  apply (iterM_down_preserves (fun st : memory * Z => fst st b = mem b)
           (solve_U_block F X B Tb n ld_B ld_X)) with (3 := Hloop); [| reflexivity].
  intros j t t' Ht Hb.
  rewrite (solve_U_block_frame F X B Tb n ld_B ld_X j t t' b HX HB HT Hb). exact Ht.
Qed.

Lemma solve_L_block_total (F : taucs_multilu_factor) (X B Tb : buffer) (n ld_B ld_X i : Z)
    (st : memory * Z) :
  (exists block, block_of F i = Ok block) ->
  exists st', solve_L_block F X B Tb n ld_B ld_X i st = Ok st'.
Proof.
  intros [block Hblock]. destruct st as [mem xoff]. unfold solve_L_block.
  rewrite Hblock. simpl. eexists. reflexivity.
Qed.

Lemma solve_U_block_total (F : taucs_multilu_factor) (X B Tb : buffer) (n ld_B ld_X i : Z)
    (st : memory * Z) :
  (exists block, block_of F i = Ok block) ->
  exists st', solve_U_block F X B Tb n ld_B ld_X i st = Ok st'.
Proof.
  intros [block Hblock]. destruct st as [mem boff]. unfold solve_U_block.
  rewrite Hblock. simpl. eexists. reflexivity.
Qed.

Lemma solve_blocked_L_total (F : taucs_multilu_factor) (X B Tb : buffer) (n ld_B ld_X : Z)
    (mem : memory) :
  (forall i, 0 <= i < num_blocks F -> exists block, block_of F i = Ok block) ->
  exists mem', solve_blocked_L F X B Tb n ld_B ld_X mem = Ok mem'.
Proof.
  intros Hblocks. unfold solve_blocked_L, forM.
  destruct (iterM_from_total (solve_L_block F X B Tb n ld_B ld_X)
              (Z.to_nat (num_blocks F - 0)) 0 (mem, 0)) as [[mem1 xoff] Hrun].
  { intros j t Hj. apply solve_L_block_total. apply Hblocks. lia. }
  rewrite Hrun. simpl. eexists. reflexivity.
Qed.

Lemma solve_blocked_U_total (F : taucs_multilu_factor) (X B Tb : buffer) (n ld_B ld_X : Z)
    (mem : memory) :
  (forall i, 0 <= i < num_blocks F -> exists block, block_of F i = Ok block) ->
  exists mem', solve_blocked_U F X B Tb n ld_B ld_X mem = Ok mem'.
Proof.
  intros Hblocks. unfold solve_blocked_U, forM_down.
  destruct (iterM_down_total (solve_U_block F X B Tb n ld_B ld_X)
              (Z.to_nat (num_blocks F - 1 - 0 + 1)) (num_blocks F - 1) (mem, F_n F))
    as [[mem1 boff] Hrun].
  { intros j t Hj. apply solve_U_block_total. apply Hblocks. lia. }
  rewrite Hrun. simpl. eexists. reflexivity.
Qed.

(** The solve returns when every block of the factor is present. *)
Lemma multilu_solve_many_total (F : taucs_multilu_factor) (n ld_X ld_B : Z)
    (mem : memory) :
  (forall i, 0 <= i < num_blocks F -> exists block, block_of F i = Ok block) ->
  exists mem', multilu_solve_many F n ld_X ld_B mem = Ok mem'.
Proof.
  intros Hblocks. unfold multilu_solve_many.
  destruct (solve_blocked_L_total F Buf_Y Buf_B_Copy Buf_T n ld_B (F_n F)
              (for_ 0 (n * ld_B)
                 (fun i mem => poke Buf_B_Copy i (peek mem Buf_B i) mem)
                 (mem_put Buf_T (mallocT (n * F_n F))
                    (mem_put Buf_Y (mallocT (n * F_n F))
                       (mem_put Buf_B_Copy (mallocT (n * ld_B)) mem)))) Hblocks)
    as [mem1 H1].
  rewrite H1. simpl.
  apply solve_blocked_U_total. exact Hblocks.
Qed.

(** Claim C10.  [multilu_solve_many] leaves the caller's right-hand
    side as it found it: whenever it returns, the array [B] holds what
    it held at the call; and it does return when every block of the
    factor is present.  (The arrays [X] and [B] of the caller are two
    arrays.) *)
Theorem multilu_solve_many_keeps_B (F : taucs_multilu_factor) (n ld_X ld_B : Z)
    (mem : memory) :
  (forall mem', multilu_solve_many F n ld_X ld_B mem = Ok mem' ->
     mem' Buf_B = mem Buf_B)
  /\ ((forall i, 0 <= i < num_blocks F -> exists block, block_of F i = Ok block) ->
      exists mem', multilu_solve_many F n ld_X ld_B mem = Ok mem').
Proof.
  split; [| apply multilu_solve_many_total].
  unfold multilu_solve_many. intros mem' Hrun.
  apply bind_Ok in Hrun. destruct Hrun as (mem1 & HL & HU).
  apply solve_blocked_U_frame with (b := Buf_B) in HU; try discriminate.
  apply solve_blocked_L_frame with (b := Buf_B) in HL; try discriminate.
  rewrite HU, HL.
  transitivity (mem_put Buf_T (mallocT (n * F_n F))
                  (mem_put Buf_Y (mallocT (n * F_n F))
                     (mem_put Buf_B_Copy (mallocT (n * ld_B)) mem)) Buf_B).
  - apply (for_preserves (fun t : memory => t Buf_B = _)); [reflexivity |].
    intros j t _ Ht. rewrite poke_other by discriminate. exact Ht.
  - rewrite !mem_put_other by discriminate. reflexivity.
Qed.

(** ** The final scan of the numeric factorization *)

Lemma iterM_from_null {St : Type} (body : Z -> St -> result St) :
  (forall j t, body j t = NullDeref \/ exists t', body j t = Ok t') ->
  forall (k : nat) (i : Z) (s : St),
    (exists j, i <= j < i + Z.of_nat k /\ forall t, body j t = NullDeref) ->
    iterM_from k i body s = NullDeref.
Proof.
  intros Hbody. induction k as [| k IH]; intros i s (j & Hj & Hnull); [lia |].
  simpl. destruct (Hbody i s) as [E | [t' E]]; rewrite E; simpl; [reflexivity |].
  apply IH. exists j. split; [| exact Hnull].
  destruct (Z.eq_dec j i) as [-> | Hne]; [| lia].
  rewrite Hnull in E. discriminate.
Qed.

(** Freeing a factor that misses a block dereferences the null
    pointer. *)
Lemma factor_free_missing_block (F : taucs_multilu_factor) (i : Z) :
  0 <= i < num_blocks F ->
  blocks F !! Z.to_nat i = None \/ blocks F !! Z.to_nat i = Some None ->
  taucs_multilu_factor_free (Some F) = NullDeref.
Proof.
  intros Hi Hmiss. unfold taucs_multilu_factor_free, forM.
  apply iterM_from_null.
  - intros j t. unfold free_factor_block.
    destruct (if j <? 0 then None else default None (blocks F !! Z.to_nat j)) as [b |];
      simpl; [right; exists tt; reflexivity | left; reflexivity].
  - exists i. split; [lia |]. intros t. unfold free_factor_block.
    destruct (Z.ltb_spec i 0); [reflexivity |].
    destruct Hmiss as [-> | ->]; reflexivity.
Qed.

Lemma first_bad_block_missing (bs : list (option multilu_factor_block)) (i : nat) :
  bs !! i = Some None -> first_bad_block bs = true.
Proof.
  revert i. induction bs as [| b bs IH]; intros i Hi; [discriminate |].
  destruct i as [| i]; simpl in *.
  - injection Hi as ->. reflexivity.
  - destruct b as [b |]; [| reflexivity].
    destruct (valid b =? 0); [reflexivity | apply (IH i Hi)].
Qed.

(** When the loop over the supercolumns ends and leaves a block of the
    factor null, the call ends by dereferencing the null pointer. *)
Lemma numeric_missing_block (uninit : Z -> bool * bool) (A : taucs_ccs_matrix)
    (symbolic : taucs_multilu_symbolic) (th : taucs_double) (np : Z)
    (ctx : multilu_context) (i : Z) :
  np <= 1 ->
  first_root (etree symbolic) <> MULTILU_SYMBOLIC_NONE ->
  forM 0 (number_supercolumns symbolic) (numeric_supercolumn uninit)
    (multilu_context_create A symbolic th np
       (allocate_factor (ccs_m A) (ccs_n A) (number_supercolumns symbolic)
          (Z.land (ccs_flags A) TAUCS_SCALAR_KINDS))) = Ok ctx ->
  0 <= i < num_blocks (ctx_F ctx) ->
  blocks (ctx_F ctx) !! Z.to_nat i = Some None ->
  taucs_ccs_factor_lu_numeric_maxdepth uninit A (Some symbolic) th np = NullDeref.
Proof.
  intros Hseq Hroot Hrun Hi Hmiss. unfold taucs_ccs_factor_lu_numeric_maxdepth.
  cbv zeta. cbn [nproc multilu_context_create].
  destruct (Z.gtb_spec np 1) as [Hgt | _]; [lia |].
  destruct (Z.eqb_spec (first_root (etree symbolic)) MULTILU_SYMBOLIC_NONE) as [E | _];
    [contradiction |].
  rewrite Hrun. cbn [mbind result_bind bind].
  rewrite (first_bad_block_missing _ (Z.to_nat i)).
  - rewrite (factor_free_missing_block (ctx_F ctx) i Hi); [reflexivity |].
    right. exact Hmiss.
  - rewrite lookup_take_lt by lia. exact Hmiss.
Qed.

(** ** The column map of a supercolumn *)

(** What most steps of the numeric factorization of a supercolumn leave
    as it is in a factor block that exists: whether it is valid, the
    array of its columns, where its non-pivot columns start and their
    number. *)
Definition block_cols (b : multilu_factor_block) : Z * list Z * Z * Z :=
  (valid b, pivot_cols b, non_pivot_cols b, non_pivot_cols_number b).

(** The array of the block pointers: the number of blocks of the factor
    and the cells of the array. *)
Definition F_shape (ctx : multilu_context) : Z * nat :=
  (num_blocks (ctx_F ctx), length (blocks (ctx_F ctx))).

Definition same_frame (ctx ctx' : multilu_context) : Prop :=
  ctx_symbolic ctx' = ctx_symbolic ctx
  /\ nproc ctx' = nproc ctx
  /\ ctx_At ctx' = ctx_At ctx
  /\ F_shape ctx' = F_shape ctx
  /\ forall i, option_map block_cols (block_ptr ctx' i)
               = option_map block_cols (block_ptr ctx i).

Lemma same_frame_refl (ctx : multilu_context) : same_frame ctx ctx.
Proof. repeat split. Qed.

Lemma same_frame_trans (ctx1 ctx2 ctx3 : multilu_context) :
  same_frame ctx1 ctx2 -> same_frame ctx2 ctx3 -> same_frame ctx1 ctx3.
Proof.
  intros (S1 & N1 & A1 & F1 & B1) (S2 & N2 & A2 & F2 & B2).
  split; [congruence |]. split; [congruence |]. split; [congruence |].
  split; [congruence |].
  intros i. rewrite B2. apply B1.
Qed.

Lemma block_ptr_set_block_ptr (ctx : multilu_context) (i j : Z)
    (p : option multilu_factor_block) :
  block_ptr (set_block_ptr i p ctx) j
  = if (i =? j) && (0 <=? i) && (i <? Z.of_nat (length (blocks (ctx_F ctx))))
    then p else block_ptr ctx j.
Proof.
  unfold set_block_ptr, block_ptr.
  destruct (Z.ltb_spec i 0) as [Hneg | Hpos].
  - destruct (Z.eqb_spec i j); simpl; [| reflexivity].
    destruct (Z.leb_spec 0 i); [lia | reflexivity].
  - cbn [ctx_F set_ctx_F blocks set_blocks].
    destruct (Z.eqb_spec i j) as [<- | Hne]; simpl.
    + destruct (Z.ltb_spec i 0); [lia |].
      destruct (Z.leb_spec 0 i); [| lia]. simpl.
      destruct (Z.ltb_spec i (Z.of_nat (length (blocks (ctx_F ctx))))).
      * rewrite list_lookup_insert_eq by lia. reflexivity.
      * rewrite list_insert_ge by lia. reflexivity.
    + destruct (Z.ltb_spec j 0); [reflexivity |].
      rewrite list_lookup_insert_ne by lia. reflexivity.
Qed.

Lemma block_ptr_in_range (ctx : multilu_context) (i : Z) (b : multilu_factor_block) :
  block_ptr ctx i = Some b -> 0 <= i < Z.of_nat (length (blocks (ctx_F ctx))).
Proof.
  unfold block_ptr. destruct (Z.ltb_spec i 0); [discriminate |].
  destruct (blocks (ctx_F ctx) !! Z.to_nat i) eqn:E; [| discriminate].
  intros _. apply lookup_lt_Some in E. lia.
Qed.

Lemma block_ptr_upd_block (ctx : multilu_context) (i j : Z)
    (f : multilu_factor_block -> multilu_factor_block) :
  block_ptr (upd_block i f ctx) j
  = if i =? j then option_map f (block_ptr ctx i) else block_ptr ctx j.
Proof.
  unfold upd_block. destruct (block_ptr ctx i) as [b |] eqn:E.
  - unfold set_block. rewrite block_ptr_set_block_ptr.
    pose proof (block_ptr_in_range ctx i b E) as Hi.
    destruct (Z.eqb_spec i j); simpl; [| reflexivity].
    destruct (Z.leb_spec 0 i); [| lia].
    destruct (Z.ltb_spec i (Z.of_nat (length (blocks (ctx_F ctx))))); [reflexivity | lia].
  - destruct (Z.eqb_spec i j) as [<- | _]; [exact E | reflexivity].
Qed.

Lemma upd_block_symbolic (ctx : multilu_context) (i : Z)
    (f : multilu_factor_block -> multilu_factor_block) :
  ctx_symbolic (upd_block i f ctx) = ctx_symbolic ctx
  /\ nproc (upd_block i f ctx) = nproc ctx
  /\ map_rows (upd_block i f ctx) = map_rows ctx.
Proof.
  unfold upd_block, set_block, set_block_ptr.
  destruct (block_ptr ctx i); [| repeat split].
  destruct (i <? 0); repeat split.
Qed.

Lemma set_block_ptr_shape (ctx : multilu_context) (i : Z)
    (p : option multilu_factor_block) :
  ctx_At (set_block_ptr i p ctx) = ctx_At ctx
  /\ F_shape (set_block_ptr i p ctx) = F_shape ctx.
Proof.
  unfold set_block_ptr, F_shape. destruct (i <? 0); [split; reflexivity |].
  cbn [ctx_At set_ctx_F ctx_F num_blocks blocks set_blocks].
  rewrite length_insert. split; reflexivity.
Qed.

Lemma upd_block_At (ctx : multilu_context) (i : Z)
    (f : multilu_factor_block -> multilu_factor_block) :
  ctx_At (upd_block i f ctx) = ctx_At ctx
  /\ F_shape (upd_block i f ctx) = F_shape ctx.
Proof.
  unfold upd_block, set_block.
  destruct (block_ptr ctx i); [apply set_block_ptr_shape | split; reflexivity].
Qed.

Lemma same_frame_upd_block (ctx : multilu_context) (i : Z)
    (f : multilu_factor_block -> multilu_factor_block) :
  (forall b, block_cols (f b) = block_cols b) ->
  same_frame ctx (upd_block i f ctx).
Proof.
  intros Hf. destruct (upd_block_symbolic ctx i f) as (Hs & Hn & _).
  split; [exact Hs |]. split; [exact Hn |].
  split; [apply upd_block_At |]. split; [apply upd_block_At |].
  intros j. rewrite block_ptr_upd_block.
  destruct (Z.eqb_spec i j) as [<- | _]; [| reflexivity].
  destruct (block_ptr ctx i) as [b |]; [| reflexivity].
  simpl. rewrite Hf. reflexivity.
Qed.

Lemma same_frame_block (ctx ctx' : multilu_context) (i : Z) (b : multilu_factor_block) :
  same_frame ctx ctx' -> block_ptr ctx i = Some b ->
  exists b', block_ptr ctx' i = Some b' /\ block_cols b' = block_cols b.
Proof.
  intros (_ & _ & _ & _ & Hb) E. specialize (Hb i). rewrite E in Hb.
  destruct (block_ptr ctx' i) as [b' |]; [| discriminate].
  exists b'. split; [reflexivity |]. simpl in Hb. congruence.
Qed.

Lemma block_at_Ok (ctx : multilu_context) (i : Z) (b : multilu_factor_block) :
  block_at ctx i = Ok b <-> block_ptr ctx i = Some b.
Proof.
  unfold block_at, deref. destruct (block_ptr ctx i); split; intros H;
    try discriminate; congruence.
Qed.

(** Loops over the children of a supercolumn. *)
Lemma forM_children_preserves {St : Type} (P : St -> Prop) (next_child_ : list Z)
    (body : Z -> St -> result St) :
  (forall child t t', P t -> body child t = Ok t' -> P t') ->
  forall (fuel : nat) (child : Z) (s s' : St),
    P s -> forM_children fuel next_child_ body child s = Ok s' -> P s'.
Proof.
  intros Hstep. unfold forM_children.
  induction fuel as [| fuel IH]; intros child s s' H0 Hrun.
  - injection Hrun as <-. exact H0.
  - destruct (child =? MULTILU_SYMBOLIC_NONE).
    + injection Hrun as <-. exact H0.
    + apply bind_Ok in Hrun. destruct Hrun as (t & Hb & Hrun).
      apply (IH (get next_child_ child) t s'); [| exact Hrun].
      apply (Hstep child s t); assumption.
Qed.

(** The columns found so far by [focus_rows]: while they fit in the
    array [pc] behind [ind], every column that has a location in the
    map [mc] is recorded at that location. *)
Definition cols_recorded (ind : Z) (pc mc : list Z) (size : Z) : Prop :=
  ind + size <= Z.of_nat (length pc) ->
  forall c, 0 <= c < Z.of_nat (length mc) ->
    get mc c = -1 \/ (0 <= get mc c < size /\ get pc (ind + get mc c) = c).

Definition rows_inv (ind : Z) (lpc lmc : nat) (st : rows_state) : Prop :=
  length (rs_pivot_cols st) = lpc
  /\ length (rs_map_cols st) = lmc
  /\ 0 <= rs_size st
  /\ cols_recorded ind (rs_pivot_cols st) (rs_map_cols st) (rs_size st).

Lemma assemble_col_inv (ind : Z) (lpc lmc : nat) (combine : T -> T -> T) (col : Z) (val : T)
    (st : rows_state) :
  0 <= ind ->
  rows_inv ind lpc lmc st ->
  rows_inv ind lpc lmc (assemble_col ind combine col val st).
Proof.
  intros Hind (Lp & Lm & Hsize & Hrec). unfold assemble_col.
  destruct (Z.eqb_spec (get (rs_map_cols st) col) (-1)) as [Hnew | Hold]; cbn [negb].
  - unfold rows_inv. cbn [rs_pivot_cols rs_map_cols rs_size].
    rewrite !length_upd.
    split; [exact Lp |]. split; [exact Lm |]. split; [lia |].
    intros Hcap c Hc. rewrite length_upd in Hcap, Hc.
    specialize (Hrec ltac:(lia)).
    destruct (Z.eq_dec c col) as [-> | Hne].
    + right. rewrite (get_upd_eq (rs_map_cols st)) by lia. split; [lia |].
      apply get_upd_eq. lia.
    + rewrite get_upd_ne by lia.
      destruct (Hrec c Hc) as [Hnone | [Hloc Hpc]]; [left; exact Hnone | right].
      split; [lia |]. rewrite get_upd_ne by lia. exact Hpc.
  - unfold rows_inv. cbn [rs_pivot_cols rs_map_cols rs_size].
    split; [exact Lp |]. split; [exact Lm |]. split; [exact Hsize | exact Hrec].
Qed.

Lemma rs_next_row_inv (ind : Z) (lpc lmc : nat) (max_size : Z) (st st' : rows_state) :
  rows_inv ind lpc lmc st -> rs_next_row max_size st = Ok st' -> rows_inv ind lpc lmc st'.
Proof.
  intros Hinv Hrun. unfold rs_next_row in Hrun.
  destruct (negb (rs_size st <=? max_size)); [discriminate |].
  injection Hrun as <-. exact Hinv.
Qed.

Lemma fr_At_row_inv (ctx : multilu_context) (rows : list Z) (ind max_size row_ind : Z)
    (lpc lmc : nat) (st st' : rows_state) :
  0 <= ind ->
  rows_inv ind lpc lmc st ->
  fr_At_row ctx rows ind max_size row_ind st = Ok st' ->
  rows_inv ind lpc lmc st'.
Proof.
  intros Hind Hinv Hrun. unfold fr_At_row in Hrun.
  destruct (negb (get (rs_row_cleared st) (get rows row_ind) =? 0)); [discriminate |].
  apply rs_next_row_inv with (ind := ind) (lpc := lpc) (lmc := lmc) in Hrun; [exact Hrun |].
  match goal with
  | |- rows_inv _ _ _ (rs_with_row_cleared _ ?s) =>
      assert (Hloop : rows_inv ind lpc lmc s)
  end.
  { apply for_preserves; [exact Hinv |].
    intros i t _ Ht.
    destruct (negb (get (column_cleared ctx) (get (ccs_rowind (ctx_At ctx)) i) =? 0));
      [exact Ht | apply assemble_col_inv; assumption]. }
  exact Hloop.
Qed.

Lemma fr_contrib_row_inv (ctx : multilu_context) (rows : list Z) (ind max_size row_ind : Z)
    (lpc lmc : nat) (st st' : rows_state) :
  0 <= ind ->
  rows_inv ind lpc lmc st ->
  fr_contrib_row ctx rows ind max_size row_ind st = Ok st' ->
  rows_inv ind lpc lmc st'.
Proof.
  intros Hind Hinv Hrun. unfold fr_contrib_row in Hrun.
  destruct (rs_freed st); [injection Hrun as <-; exact Hinv |].
  destruct (negb (is_member (get rows row_ind) (cb_rows (rs_contrib st))
                    (cb_m (rs_contrib st)) =? -1)).
  - apply bind_Ok in Hrun. destruct Hrun as (st1 & Hloop & Hrun).
    assert (H1 : rows_inv ind lpc lmc st1).
    { apply (forM_preserves (rows_inv ind lpc lmc)) with (3 := Hloop); [exact Hinv |].
      intros i t t' _ Ht Hb.
      destruct (negb (get (column_cleared ctx) (get (cb_columns (rs_contrib st)) i) =? 0));
        [discriminate |].
      injection Hb as <-. apply assemble_col_inv; assumption. }
    destruct (cb_m (rs_contrib st) - 1 =? 0).
    + injection Hrun as <-. exact H1.
    + apply rs_next_row_inv with (ind := ind) (lpc := lpc) (lmc := lmc) in Hrun;
        [exact Hrun | exact H1].
  - apply rs_next_row_inv with (ind := ind) (lpc := lpc) (lmc := lmc) in Hrun;
      [exact Hrun | exact Hinv].
Qed.

(** [focus_rows] keeps the frame of the blocks and records the columns
    it finds. *)
Lemma focus_rows_inv (ctx ctx' : multilu_context) (rows : list Z)
    (number pivot_supercol : Z) (pc : list Z) (ind : Z) (values : list T) (max_size : Z)
    (mc pc' : list Z) (ut' : list T) (mc' : list Z) (size' : Z) :
  0 <= ind ->
  Forall (fun v => v = -1) mc ->
  focus_rows ctx rows number pivot_supercol pc ind values max_size mc
  = Ok (ctx', pc', ut', mc', size') ->
  same_frame ctx ctx'
  /\ length pc' = length pc /\ length mc' = length mc /\ 0 <= size'
  /\ cols_recorded ind pc' mc' size'.
Proof.
  intros Hind Hall Hrun. unfold focus_rows in Hrun.
  apply bind_Ok in Hrun. destruct Hrun as (st1 & Hrows & Hrun).
  apply bind_Ok in Hrun. destruct Hrun as ([ctx2 st2] & Hdesc & Hrun).
  injection Hrun as <- <- <- <- <-.
  assert (H1 : rows_inv ind (length pc) (length mc) st1).
  { apply (forM_preserves (rows_inv ind (length pc) (length mc))) with (3 := Hrows).
    - unfold rows_inv. cbn [rs_pivot_cols rs_map_cols rs_size].
      split; [reflexivity |]. split; [reflexivity |]. split; [lia |].
      intros _ c Hc. left.
      rewrite Forall_lookup in Hall. apply (Hall (Z.to_nat c)).
      apply get_in_range. exact Hc.
    - intros j t t' _ Ht Hb. apply (fr_At_row_inv ctx rows ind max_size j _ _ t t'); assumption. }
  assert (H2 : same_frame ctx ctx2 /\ rows_inv ind (length pc) (length mc) st2).
  { set (ctx1 := set_row_cleared (rs_row_cleared st1) ctx) in *.
    assert (Hf1 : same_frame ctx ctx1) by (repeat split).
    destruct (negb (get (first_desc_index (et ctx1)) pivot_supercol
                    =? MULTILU_SYMBOLIC_NONE)).
    - apply (forM_preserves
               (fun p : multilu_context * rows_state =>
                  same_frame ctx (fst p) /\ rows_inv ind (length pc) (length mc) (snd p)))
        with (3 := Hdesc); [split; assumption |].
      intros c [ctxa sta] [ctxb stb] _ [Hfa Hia] Hb. cbn [fst snd] in *.
      apply bind_Ok in Hb. destruct Hb as (dfb & _ & Hb).
      destruct (contrib_block dfb) as [dcb |].
      + apply bind_Ok in Hb. destruct Hb as (st3 & Hloop & Hb).
        injection Hb as <- <-. split.
        * apply (same_frame_trans ctx ctxa); [exact Hfa |].
          apply same_frame_upd_block. intros b. reflexivity.
        * apply (forM_preserves (rows_inv ind (length pc) (length mc))) with (3 := Hloop);
            [exact Hia |].
          intros j t t' _ Ht Hb.
          apply (fr_contrib_row_inv ctxa rows ind max_size j _ _ t t'); assumption.
      + injection Hb as <- <-. split; assumption.
    - injection Hdesc as <- <-. split; assumption. }
  destruct H2 as [Hf (Lp & Lm & Hs & Hrec)].
  split; [exact Hf |]. split; [exact Lp |]. split; [exact Lm |].
  split; [exact Hs | exact Hrec].
Qed.

(** ** The column map read from the columns

    The variant for several processors moves the columns found by
    [focus_rows]; for that the map has to be one to one, which it is
    when the columns read are columns of the matrix. *)

(** What holds of every cell of an array, and of what is read outside
    it, holds of what is read in it. *)
Lemma get_Forall (P : Z -> Prop) (a : list Z) (i : Z) :
  P garbage -> Forall P a -> P (get a i).
Proof.
  intros Hg Ha. unfold get. destruct (i <? 0); [exact Hg |].
  destruct (a !! Z.to_nat i) as [v |] eqn:E; [| exact Hg].
  rewrite Forall_lookup in Ha. apply (Ha _ _ E).
Qed.

(** The columns of a contribution block are below [len]. *)
Definition contrib_in_range (len : Z) (cb : multilu_contrib_block) : Prop :=
  forall i, 0 <= i < cb_n cb -> 0 <= get (cb_columns cb) i < len.

Definition contribs_in_range (len : Z) (ctx : multilu_context) : Prop :=
  forall c b cb,
    block_ptr ctx c = Some b -> contrib_block b = Some cb -> contrib_in_range len cb.

(** The columns stored in the rows of the transpose are below [len]. *)
Definition At_in_range (len : Z) (At : taucs_ccs_matrix) : Prop :=
  forall r p,
    get (ccs_colptr At) r <= p < get (ccs_colptr At) (r + 1) ->
    0 <= get (ccs_rowind At) p < len.

(** While the columns found fit in [pc] behind [ind], the map [mc]
    sends the column at each location to that location. *)
Definition cols_located (ind : Z) (pc mc : list Z) (size : Z) : Prop :=
  ind + size <= Z.of_nat (length pc) ->
  forall i, 0 <= i < size ->
    0 <= get pc (ind + i) < Z.of_nat (length mc) /\ get mc (get pc (ind + i)) = i.

Definition rows_loc (ind : Z) (lpc lmc : nat) (st : rows_state) : Prop :=
  rows_inv ind lpc lmc st
  /\ cols_located ind (rs_pivot_cols st) (rs_map_cols st) (rs_size st)
  /\ contrib_in_range (Z.of_nat lmc) (rs_contrib st).

Lemma assemble_col_loc (ind : Z) (lpc lmc : nat) (combine : T -> T -> T) (col : Z) (val : T)
    (st : rows_state) :
  0 <= ind ->
  0 <= col < Z.of_nat lmc ->
  rows_loc ind lpc lmc st ->
  rows_loc ind lpc lmc (assemble_col ind combine col val st).
Proof.
  intros Hind Hcol (Hinv & Hloc & Hcb).
  split; [apply assemble_col_inv; assumption |].
  destruct Hinv as (Lp & Lm & Hsize & _). unfold assemble_col.
  destruct (Z.eqb_spec (get (rs_map_cols st) col) (-1)) as [Hnew | Hold]; cbn [negb].
  - cbn [rs_pivot_cols rs_map_cols rs_size rs_contrib]. split; [| exact Hcb].
    intros Hcap i Hi. rewrite length_upd in Hcap. rewrite length_upd.
    destruct (Z.eq_dec i (rs_size st)) as [-> | Hne].
    + rewrite get_upd_eq by lia. split; [lia |]. apply get_upd_eq. lia.
    + destruct (Hloc ltac:(lia) i ltac:(lia)) as [Hr Hm].
      rewrite get_upd_ne by lia. split; [exact Hr |].
      rewrite get_upd_ne; [exact Hm |].
      intros E. rewrite <- E in Hm. lia.
  - cbn [rs_pivot_cols rs_map_cols rs_size rs_contrib]. split; assumption.
Qed.

Lemma rs_next_row_loc (ind : Z) (lpc lmc : nat) (max_size : Z) (st st' : rows_state) :
  rows_loc ind lpc lmc st -> rs_next_row max_size st = Ok st' -> rows_loc ind lpc lmc st'.
Proof.
  intros Hinv Hrun. unfold rs_next_row in Hrun.
  destruct (negb (rs_size st <=? max_size)); [discriminate |].
  injection Hrun as <-. exact Hinv.
Qed.

Lemma fr_At_row_loc (ctx : multilu_context) (rows : list Z) (ind max_size row_ind : Z)
    (lpc lmc : nat) (st st' : rows_state) :
  0 <= ind ->
  At_in_range (Z.of_nat lmc) (ctx_At ctx) ->
  rows_loc ind lpc lmc st ->
  fr_At_row ctx rows ind max_size row_ind st = Ok st' ->
  rows_loc ind lpc lmc st'.
Proof.
  intros Hind HAt Hinv Hrun. unfold fr_At_row in Hrun.
  destruct (negb (get (rs_row_cleared st) (get rows row_ind) =? 0)); [discriminate |].
  apply rs_next_row_loc with (ind := ind) (lpc := lpc) (lmc := lmc) in Hrun; [exact Hrun |].
  match goal with
  | |- rows_loc _ _ _ (rs_with_row_cleared _ ?s) =>
      assert (Hloop : rows_loc ind lpc lmc s)
  end.
  { apply for_preserves; [exact Hinv |].
    intros i t Hi Ht.
    destruct (negb (get (column_cleared ctx) (get (ccs_rowind (ctx_At ctx)) i) =? 0));
      [exact Ht |].
    apply assemble_col_loc; [exact Hind | | exact Ht].
    apply (HAt (get rows row_ind)). exact Hi. }
  exact Hloop.
Qed.

Lemma fr_contrib_row_loc (ctx : multilu_context) (rows : list Z) (ind max_size row_ind : Z)
    (lpc lmc : nat) (st st' : rows_state) :
  0 <= ind ->
  rows_loc ind lpc lmc st ->
  fr_contrib_row ctx rows ind max_size row_ind st = Ok st' ->
  rows_loc ind lpc lmc st'.
Proof.
  intros Hind Hinv Hrun. unfold fr_contrib_row in Hrun.
  destruct (rs_freed st); [injection Hrun as <-; exact Hinv |].
  assert (Hcb : contrib_in_range (Z.of_nat lmc) (rs_contrib st)) by apply Hinv.
  destruct (negb (is_member (get rows row_ind) (cb_rows (rs_contrib st))
                    (cb_m (rs_contrib st)) =? -1)).
  - apply bind_Ok in Hrun. destruct Hrun as (st1 & Hloop & Hrun).
    assert (H1 : rows_loc ind lpc lmc st1).
    { apply (forM_preserves (rows_loc ind lpc lmc)) with (3 := Hloop); [exact Hinv |].
      intros i t t' Hi Ht Hb.
      destruct (negb (get (column_cleared ctx) (get (cb_columns (rs_contrib st)) i) =? 0));
        [discriminate |].
      injection Hb as <-. apply assemble_col_loc; [exact Hind | | exact Ht].
      apply Hcb. exact Hi. }
    destruct H1 as (H1i & H1l & _).
    destruct (cb_m (rs_contrib st) - 1 =? 0).
    + injection Hrun as <-. split; [exact H1i |]. split; [exact H1l |].
      intros i Hi. cbn in Hi. lia.
    + apply rs_next_row_loc with (ind := ind) (lpc := lpc) (lmc := lmc) in Hrun;
        [exact Hrun |].
      split; [exact H1i |]. split; [exact H1l |]. exact Hcb.
  - apply rs_next_row_loc with (ind := ind) (lpc := lpc) (lmc := lmc) in Hrun;
      [exact Hrun | exact Hinv].
Qed.

(** What a step does to the contribution block of a factor block decides
    whether the columns of the contribution blocks stay in range. *)
Lemma contribs_in_range_upd_block (len : Z) (ctx : multilu_context) (i : Z)
    (f : multilu_factor_block -> multilu_factor_block) :
  contribs_in_range len ctx ->
  (forall b cb,
     block_ptr ctx i = Some b -> contrib_block (f b) = Some cb -> contrib_in_range len cb) ->
  contribs_in_range len (upd_block i f ctx).
Proof.
  intros Hctx Hf c b cb Hb Hcb. rewrite block_ptr_upd_block in Hb.
  destruct (Z.eqb_spec i c) as [<- | _]; [| apply (Hctx c b cb Hb Hcb)].
  destruct (block_ptr ctx i) as [b0 |] eqn:E; [| discriminate].
  injection Hb as <-. apply (Hf b0 cb); [reflexivity | exact Hcb].
Qed.

(** [focus_rows], when the columns it reads are in range: the map is
    one to one on the columns found, and the contribution blocks it
    leaves hold columns in range. *)
Lemma focus_rows_loc (ctx ctx' : multilu_context) (rows : list Z)
    (number pivot_supercol : Z) (pc : list Z) (ind : Z) (values : list T) (max_size : Z)
    (mc pc' : list Z) (ut' : list T) (mc' : list Z) (size' : Z) :
  0 <= ind ->
  Forall (fun v => v = -1) mc ->
  At_in_range (Z.of_nat (length mc)) (ctx_At ctx) ->
  contribs_in_range (Z.of_nat (length mc)) ctx ->
  focus_rows ctx rows number pivot_supercol pc ind values max_size mc
  = Ok (ctx', pc', ut', mc', size') ->
  cols_located ind pc' mc' size' /\ contribs_in_range (Z.of_nat (length mc)) ctx'.
Proof.
  intros Hind Hall HAt Hcbs Hrun. unfold focus_rows in Hrun.
  apply bind_Ok in Hrun. destruct Hrun as (st1 & Hrows & Hrun).
  apply bind_Ok in Hrun. destruct Hrun as ([ctx2 st2] & Hdesc & Hrun).
  injection Hrun as <- <- <- <- <-.
  assert (H1 : rows_loc ind (length pc) (length mc) st1).
  { apply (forM_preserves (rows_loc ind (length pc) (length mc))) with (3 := Hrows).
    - unfold rows_loc, rows_inv. cbn [rs_pivot_cols rs_map_cols rs_size rs_contrib].
      split; [| split].
      + split; [reflexivity |]. split; [reflexivity |]. split; [lia |].
        intros _ c Hc. left.
        rewrite Forall_lookup in Hall. apply (Hall (Z.to_nat c)).
        apply get_in_range. exact Hc.
      + intros _ i Hi. lia.
      + intros i Hi. cbn in Hi. lia.
    - intros j t t' _ Ht Hb.
      apply (fr_At_row_loc ctx rows ind max_size j _ _ t t'); assumption. }
  assert (H2 : contribs_in_range (Z.of_nat (length mc)) ctx2
               /\ rows_loc ind (length pc) (length mc) st2).
  { set (ctx1 := set_row_cleared (rs_row_cleared st1) ctx) in *.
    assert (Hc1 : contribs_in_range (Z.of_nat (length mc)) ctx1) by exact Hcbs.
    destruct (negb (get (first_desc_index (et ctx1)) pivot_supercol
                    =? MULTILU_SYMBOLIC_NONE)).
    - apply (forM_preserves
               (fun p : multilu_context * rows_state =>
                  contribs_in_range (Z.of_nat (length mc)) (fst p)
                  /\ rows_loc ind (length pc) (length mc) (snd p)))
        with (3 := Hdesc); [split; assumption |].
      intros c [ctxa sta] [ctxb stb] _ [Hca Hia] Hb. cbn [fst snd] in *.
      apply bind_Ok in Hb. destruct Hb as (dfb & Hdfb & Hb).
      apply block_at_Ok in Hdfb.
      destruct (contrib_block dfb) as [dcb |] eqn:Edcb.
      + apply bind_Ok in Hb. destruct Hb as (st3 & Hloop & Hb).
        injection Hb as <- <-.
        assert (H3 : rows_loc ind (length pc) (length mc) st3).
        { apply (forM_preserves (rows_loc ind (length pc) (length mc))) with (3 := Hloop).
          - destruct Hia as (Hi1 & Hi2 & _).
            split; [exact Hi1 |]. split; [exact Hi2 |].
            apply (Hca c dfb dcb Hdfb Edcb).
          - intros j t t' _ Ht Hb.
            apply (fr_contrib_row_loc ctxa rows ind max_size j _ _ t t'); assumption. }
        split; [| exact H3].
        apply contribs_in_range_upd_block; [exact Hca |].
        intros b cb _ Hcb. destruct (rs_freed st3); [discriminate |].
        injection Hcb as <-. apply H3.
      + injection Hb as <- <-. split; assumption.
    - injection Hdesc as <- <-. split; assumption. }
  destruct H2 as [Hc2 (_ & Hloc & _)]. split; assumption.
Qed.

(** ** Moving the columns of the parent to the front *)

(** The columns of the supercolumn [p] are below [len] and differ from
    one another. *)
Definition cols_distinct (ctx : multilu_context) (p len : Z) : Prop :=
  forall j, 0 <= j < get (supercolumn_size (sym ctx)) p ->
    0 <= get (columns (sym ctx)) (get (start_supercolumn (sym ctx)) p + j) < len
    /\ forall j', 0 <= j' < j ->
         get (columns (sym ctx)) (get (start_supercolumn (sym ctx)) p + j')
         <> get (columns (sym ctx)) (get (start_supercolumn (sym ctx)) p + j).

(** The [ru] columns behind [ind] and the map, each the inverse of the
    other. *)
Definition cols_mapped (ind ru : Z) (pc mc : list Z) : Prop :=
  (forall c, 0 <= c < Z.of_nat (length mc) ->
     get mc c = -1 \/ (0 <= get mc c < ru /\ get pc (ind + get mc c) = c))
  /\ (forall i, 0 <= i < ru ->
        0 <= get pc (ind + i) < Z.of_nat (length mc) /\ get mc (get pc (ind + i)) = i).

(** The loop of [rearrange_non_pivot_cols] before the column [k] of the
    parent: the first [num_inparent] columns are columns of the parent
    met so far. *)
Definition rearranged (ctx : multilu_context) (p ind ru : Z) (lpc lmc : nat) (k : Z)
    (st : list Z * list Z * list Z * Z) : Prop :=
  let '(pc, mc, _, num) := st in
  length pc = lpc /\ length mc = lmc
  /\ 0 <= num <= ru
  /\ cols_mapped ind ru pc mc
  /\ forall i, 0 <= i < num ->
       exists j, 0 <= j < k
                 /\ get pc (ind + i)
                    = get (columns (sym ctx)) (get (start_supercolumn (sym ctx)) p + j).

Lemma rearrange_step_inv (ctx : multilu_context) (p ind ru : Z) (lpc lmc : nat) (k : Z)
    (st : list Z * list Z * list Z * Z) :
  0 <= ind -> ind + ru <= Z.of_nat lpc ->
  cols_distinct ctx p (Z.of_nat lmc) ->
  0 <= k < get (supercolumn_size (sym ctx)) p ->
  rearranged ctx p ind ru lpc lmc k st ->
  rearranged ctx p ind ru lpc lmc (k + 1) (rearrange_step ctx p ind k st).
Proof.
  intros Hind Hcap Hdist Hk. destruct st as [[[pc mc] scratch] num].
  intros (Lp & Lm & Hnum & [Hfw Hbw] & Hdone).
  unfold rearrange_step.
  destruct (Hdist k Hk) as [Hcol Hfresh].
  set (column := get (columns (sym ctx)) (get (start_supercolumn (sym ctx)) p + k)) in *.
  destruct (Z.eqb_spec (get mc column) (-1)) as [Hnone | Hsome]; cbn [negb].
  - unfold rearranged. split; [exact Lp |]. split; [exact Lm |]. split; [exact Hnum |].
    split; [split; assumption |].
    intros i Hi. destruct (Hdone i Hi) as (j & Hj & Ej). exists j. split; [lia | exact Ej].
  - set (loc := get mc column) in *.
    set (switched := get pc (ind + num)) in *.
    rewrite Lm in Hfw, Hbw.
    destruct (Hfw column Hcol) as [Hc | [Hloc Hpcloc]]; [contradiction |].
    fold loc in Hloc, Hpcloc.
    assert (Hnl : num <= loc).
    { destruct (Z.le_gt_cases num loc) as [H | H]; [exact H | exfalso].
      destruct (Hdone loc ltac:(lia)) as (j & Hj & Ej).
      apply (Hfresh j Hj). rewrite <- Ej. exact Hpcloc. }
    destruct (Hbw num ltac:(lia)) as [Hsw Hmsw]. fold switched in Hsw, Hmsw.
    set (pc' := upd (upd pc (ind + num) column) (ind + loc) switched).
    set (mc' := upd (upd mc switched loc) column num).
    assert (Hpc' : forall i, 0 <= i < ru ->
              get pc' (ind + i)
              = if i =? loc then switched else if i =? num then column else get pc (ind + i)).
    { intros i Hi. unfold pc'.
      destruct (Z.eqb_spec i loc) as [-> | Hne].
      - apply get_upd_eq. rewrite length_upd. lia.
      - rewrite get_upd_ne by lia.
        destruct (Z.eqb_spec i num) as [-> | Hne'].
        + apply get_upd_eq. lia.
        + apply get_upd_ne. lia. }
    assert (Hmc' : forall c, 0 <= c < Z.of_nat lmc ->
              get mc' c
              = if c =? column then num else if c =? switched then loc else get mc c).
    { intros c Hc. unfold mc'.
      destruct (Z.eqb_spec c column) as [-> | Hne].
      - apply get_upd_eq. rewrite length_upd. lia.
      - rewrite get_upd_ne by lia.
        destruct (Z.eqb_spec c switched) as [-> | Hne'].
        + apply get_upd_eq. lia.
        + apply get_upd_ne. lia. }
    assert (Hsame : loc = num -> switched = column).
    { intros E. unfold switched. rewrite <- E. exact Hpcloc. }
    assert (Hfront : get pc' (ind + num) = column).
    { rewrite Hpc' by lia. destruct (Z.eqb_spec num loc) as [E | _].
      - apply Hsame. lia.
      - rewrite Z.eqb_refl. reflexivity. }
    unfold rearranged. fold pc' mc'.
    split; [unfold pc'; rewrite !length_upd; exact Lp |].
    split; [unfold mc'; rewrite !length_upd; exact Lm |].
    split; [lia |].
    assert (Lm' : length mc' = lmc) by (unfold mc'; rewrite !length_upd; exact Lm).
    split; [split |].
    + rewrite Lm'. intros c Hc. rewrite (Hmc' c Hc).
      destruct (Z.eqb_spec c column) as [-> | Hne].
      * right. split; [lia | exact Hfront].
      * destruct (Z.eqb_spec c switched) as [-> | Hne'].
        { right. split; [lia |]. rewrite Hpc' by lia. rewrite Z.eqb_refl. reflexivity. }
        destruct (Hfw c Hc) as [Hc1 | [Hl Hp]]; [left; exact Hc1 | right].
        split; [exact Hl |]. rewrite Hpc' by lia.
        destruct (Z.eqb_spec (get mc c) loc) as [E | _].
        { exfalso. apply Hne. rewrite <- Hp, E. exact Hpcloc. }
        destruct (Z.eqb_spec (get mc c) num) as [E | _]; [| exact Hp].
        exfalso. apply Hne'. rewrite <- Hp, E. reflexivity.
    + rewrite Lm'. intros i Hi. rewrite (Hpc' i Hi).
      destruct (Z.eqb_spec i loc) as [-> | Hne].
      * split; [exact Hsw |]. rewrite (Hmc' switched Hsw).
        destruct (Z.eqb_spec switched column) as [E | _].
        { unfold loc. rewrite <- E. symmetry. exact Hmsw. }
        rewrite Z.eqb_refl. reflexivity.
      * destruct (Z.eqb_spec i num) as [-> | Hne'].
        { split; [exact Hcol |]. rewrite (Hmc' column Hcol), Z.eqb_refl. reflexivity. }
        destruct (Hbw i Hi) as [Hr Hm]. split; [exact Hr |].
        rewrite (Hmc' _ Hr).
        destruct (Z.eqb_spec (get pc (ind + i)) column) as [E | _].
        { exfalso. apply Hne. rewrite E in Hm. unfold loc. lia. }
        destruct (Z.eqb_spec (get pc (ind + i)) switched) as [E | _]; [| exact Hm].
        exfalso. apply Hne'. rewrite E in Hm. lia.
    + intros i Hi. destruct (Z.eq_dec i num) as [-> | Hne].
      * exists k. split; [lia | exact Hfront].
      * destruct (Hdone i ltac:(lia)) as (j & Hj & Ej). exists j. split; [lia |].
        rewrite Hpc' by lia.
        destruct (Z.eqb_spec i loc) as [E | _]; [lia |].
        destruct (Z.eqb_spec i num) as [E | _]; [lia | exact Ej].
Qed.

(** [rearrange_non_pivot_cols] leaves every column that has a location
    in the map recorded at that location. *)
Lemma rearrange_non_pivot_cols_mapped (ctx : multilu_context) (pivot_supercol : Z)
    (pc : list Z) (ind : Z) (values : list T) (row_b_size ru_size : Z)
    (mc scratch pc' : list Z) (ut' : list T) (mc' : list Z) (num : Z) :
  0 <= ind -> 0 <= ru_size -> ind + ru_size <= Z.of_nat (length pc) ->
  cols_distinct ctx (get (parent (et ctx)) pivot_supercol) (Z.of_nat (length mc)) ->
  cols_mapped ind ru_size pc mc ->
  rearrange_non_pivot_cols ctx pivot_supercol pc ind values row_b_size ru_size mc scratch
  = (pc', ut', mc', num) ->
  length pc' = length pc /\ length mc' = length mc /\ cols_mapped ind ru_size pc' mc'.
Proof.
  intros Hind Hru Hcap Hdist Hmap Hrun. unfold rearrange_non_pivot_cols in Hrun.
  destruct (get (parent (et ctx)) pivot_supercol =? MULTILU_SYMBOLIC_NONE).
  { injection Hrun as <- _ <- _. split; [reflexivity |]. split; [reflexivity | exact Hmap]. }
  set (p := get (parent (et ctx)) pivot_supercol) in *.
  assert (Hloop : forall k, 0 <= k ->
            rearranged ctx p ind ru_size (length pc) (length mc) k
              (for_ 0 k (rearrange_step ctx p ind) (pc, mc, scratch, 0))
            \/ get (supercolumn_size (sym ctx)) p < k).
  { intros k Hk.
    destruct (Z.le_gt_cases k (get (supercolumn_size (sym ctx)) p)) as [Hle | Hgt];
      [left | right; lia].
    apply (for_inv (rearranged ctx p ind ru_size (length pc) (length mc))); [exact Hk | |].
    - unfold rearranged. split; [reflexivity |]. split; [reflexivity |].
      split; [lia |]. split; [exact Hmap |]. intros i Hi. lia.
    - intros j t Hj Ht. apply rearrange_step_inv; try assumption. lia. }
  destruct (Z.le_gt_cases 0 (get (supercolumn_size (sym ctx)) p)) as [Hpos | Hneg].
  - destruct (Hloop _ Hpos) as [Hinv | Hbad]; [| lia].
    destruct (for_ 0 _ (rearrange_step ctx p ind) _) as [[[pc1 mc1] scratch1] num1].
    injection Hrun as <- _ <- _. destruct Hinv as (Lp & Lm & _ & Hmap1 & _).
    split; [exact Lp |]. split; [exact Lm | exact Hmap1].
  - rewrite for_empty in Hrun by lia. injection Hrun as <- _ <- _.
    split; [reflexivity |]. split; [reflexivity | exact Hmap].
Qed.

Lemma get_realloc (a : list Z) (n k : Z) :
  0 <= k < n -> n <= Z.of_nat (length a) -> get (realloc a n) k = get a k.
Proof.
  intros Hk Hn. unfold get, realloc.
  destruct (Z.ltb_spec k 0); [lia |].
  rewrite lookup_app_l by (rewrite length_take; lia).
  rewrite lookup_take_lt by lia. reflexivity.
Qed.

Lemma Forall_get (a : list Z) (v : Z) :
  (forall c, 0 <= c < Z.of_nat (length a) -> get a c = v) -> Forall (fun x => x = v) a.
Proof.
  intros H. apply Forall_lookup. intros i x Hx.
  assert (Hi : (i < length a)%nat) by (apply lookup_lt_Some in Hx; exact Hx).
  specialize (H (Z.of_nat i) ltac:(lia)).
  unfold get in H. destruct (Z.ltb_spec (Z.of_nat i) 0); [lia |].
  rewrite Nat2Z.id, Hx in H. exact H.
Qed.

(** The last loop of [factorize_supercolumn] resets every location of
    the map when the columns found are recorded. *)
Lemma clear_map_cols (ind ru : Z) (pc mc : list Z) :
  (forall c, 0 <= c < Z.of_nat (length mc) ->
     get mc c = -1 \/ (0 <= get mc c < ru /\ get pc (ind + get mc c) = c)) ->
  Forall (fun v => v = -1)
    (for_ 0 ru (fun i a => upd a (get pc (ind + i)) (-1)) mc).
Proof.
  intros Hrec.
  destruct (Z.le_gt_cases 0 ru) as [Hru | Hneg].
  - assert (Hloop :
      length (for_ 0 ru (fun i a => upd a (get pc (ind + i)) (-1)) mc) = length mc
      /\ forall c, 0 <= c < Z.of_nat (length mc) ->
           get (for_ 0 ru (fun i a => upd a (get pc (ind + i)) (-1)) mc) c = -1
           \/ (ru <= get mc c < ru /\ get pc (ind + get mc c) = c)).
    { apply (for_inv (fun i a =>
          length a = length mc
          /\ forall c, 0 <= c < Z.of_nat (length mc) ->
               get a c = -1 \/ (i <= get mc c < ru /\ get pc (ind + get mc c) = c)));
        [exact Hru | |].
      - split; [reflexivity |]. intros c Hc.
        destruct (Hrec c Hc) as [Hnone | [Hloc Hpc]];
          [left; exact Hnone | right; split; [lia | exact Hpc]].
      - intros i a Hi [Hlen Ha]. rewrite length_upd. split; [exact Hlen |].
        intros c Hc. rewrite get_upd.
        destruct ((get pc (ind + i) =? c) && (0 <=? get pc (ind + i))
                  && (get pc (ind + i) <? Z.of_nat (length a))) eqn:E;
          [left; reflexivity |].
        destruct (Ha c Hc) as [Hnone | [Hloc Hpc]]; [left; exact Hnone |].
        right. split; [| exact Hpc].
        destruct (Z.eq_dec (get mc c) i) as [Heq | Hne]; [| lia].
        rewrite Heq in Hpc. rewrite Hpc in E.
        rewrite Z.eqb_refl in E. simpl in E.
        destruct (Z.leb_spec 0 c); [| lia].
        destruct (Z.ltb_spec c (Z.of_nat (length a))); [discriminate | lia]. }
    destruct Hloop as [Hlen Hall]. apply Forall_get. intros c Hc.
    rewrite Hlen in Hc. destruct (Hall c Hc) as [Hnone | [Hloc _]]; [exact Hnone | lia].
  - rewrite for_empty by lia. apply Forall_get. intros c Hc.
    destruct (Hrec c Hc) as [Hnone | [Hloc _]]; [exact Hnone | lia].
Qed.

(** The parts of [factorize_supercolumn] that keep the frame of the
    blocks. *)
Lemma align_add_from_frame (ctx ctx' : multilu_context)
    (addto addto' : multilu_contrib_block) (desc : Z) (map_cols : list Z) :
  align_add_from ctx addto desc map_cols = Ok (ctx', addto') -> same_frame ctx ctx'.
Proof.
  intros Hrun. unfold align_add_from in Hrun.
  apply bind_Ok in Hrun. destruct Hrun as (dfb & _ & Hrun).
  apply bind_Ok in Hrun. destruct Hrun as (dcb & _ & Hrun).
  apply bind_Ok in Hrun. destruct Hrun as ([v1 dcb1] & _ & Hrun).
  apply bind_Ok in Hrun. destruct Hrun as ([v2 dcb2] & _ & Hrun).
  apply bind_Ok in Hrun. destruct Hrun as ([v3 dcb3] & _ & Hrun).
  injection Hrun as <- _.
  destruct ((cb_n dcb3 =? 0) || (cb_m dcb3 =? 0));
    apply same_frame_upd_block; intros b; reflexivity.
Qed.

Lemma align_add_subtree_frame (map_cols : list Z) :
  forall (fuel : nat) (subtree_root : Z)
         (st st' : multilu_context * multilu_contrib_block),
    align_add_subtree fuel map_cols subtree_root st = Ok st' ->
    same_frame (fst st) (fst st').
Proof.
  induction fuel as [| fuel IH]; intros subtree_root st st' Hrun;
    cbn [align_add_subtree] in Hrun.
  - injection Hrun as <-. apply same_frame_refl.
  - apply bind_Ok in Hrun. destruct Hrun as ([ctx1 addto1] & Hchildren & Hrun).
    assert (H1 : same_frame (fst st) (fst (ctx1, addto1))).
    { apply (forM_children_preserves
               (fun t : multilu_context * multilu_contrib_block =>
                  same_frame (fst st) (fst t))
               (next_child (et (fst st))) (align_add_subtree fuel map_cols))
        with (3 := Hchildren); [| apply same_frame_refl].
      intros child t t' Ht Hb.
      apply (same_frame_trans _ (fst t)); [exact Ht | apply (IH child t t' Hb)]. }
    cbn [fst] in H1.
    apply bind_Ok in Hrun. destruct Hrun as (dfb & _ & Hrun).
    destruct (contrib_block dfb).
    + destruct st' as [ctx' addto']. apply align_add_from_frame in Hrun.
      apply (same_frame_trans _ ctx1); assumption.
    + injection Hrun as <-. exact H1.
Qed.

Lemma add_contributions_frame (ctx ctx' : multilu_context) (pivot_supercol : Z)
    (map_cols : list Z) (addto addto' : multilu_contrib_block) :
  add_contributions ctx pivot_supercol map_cols addto = Ok (ctx', addto') ->
  same_frame ctx ctx'.
Proof.
  intros Hrun. unfold add_contributions in Hrun.
  destruct (negb (get (first_desc_index (et ctx)) pivot_supercol =? MULTILU_SYMBOLIC_NONE));
    [| injection Hrun as <- _; apply same_frame_refl].
  destruct (nproc ctx >? 1).
  - apply (forM_preserves
             (fun t : multilu_context * multilu_contrib_block => same_frame ctx (fst t)))
      with (3 := Hrun); [apply same_frame_refl |].
    intros desc [ctxa adda] [ctxb addb] _ Ha Hb. cbn [fst] in *.
    apply bind_Ok in Hb. destruct Hb as (dfb & _ & Hb).
    destruct (contrib_block dfb) as [dcb |]; [| injection Hb as <- _; exact Ha].
    destruct (negb (L_member dcb =? 0) || negb (U_member dcb =? 0));
      [| injection Hb as <- _; exact Ha].
    apply align_add_from_frame in Hb. apply (same_frame_trans _ ctxa); assumption.
  - apply (forM_children_preserves
             (fun t : multilu_context * multilu_contrib_block => same_frame ctx (fst t)))
      with (3 := Hrun); [| apply same_frame_refl].
    intros child t t' Ht Hb. apply align_add_subtree_frame in Hb.
    apply (same_frame_trans _ (fst t)); assumption.
Qed.

Lemma remove_member_indication_frame (ctx ctx' : multilu_context) (pivot_supercol : Z) :
  remove_member_indication ctx pivot_supercol = Ok ctx' -> same_frame ctx ctx'.
Proof.
  intros Hrun. unfold remove_member_indication in Hrun.
  destruct (negb (get (first_desc_index (et ctx)) pivot_supercol =? MULTILU_SYMBOLIC_NONE));
    [| injection Hrun as <-; apply same_frame_refl].
  apply (forM_preserves (same_frame ctx)) with (3 := Hrun); [apply same_frame_refl |].
  intros desc ctxa ctxb _ Ha Hb.
  apply bind_Ok in Hb. destruct Hb as (dfb & _ & Hb).
  destruct (contrib_block dfb) as [dcb |]; injection Hb as <-; [| exact Ha].
  apply (same_frame_trans _ ctxa); [exact Ha |].
  apply same_frame_upd_block. intros b. reflexivity.
Qed.

(** ** The steps before the rows are read

    What [factorize_supercolumn] does before [focus_rows] keeps the
    frame of the blocks and the columns of the contribution blocks;
    [allocate_factor_block], which the variant for several processors
    calls here, makes the block of the supercolumn. *)

Definition kept (len : Z) (ctx ctx' : multilu_context) : Prop :=
  same_frame ctx ctx' /\ (contribs_in_range len ctx -> contribs_in_range len ctx').

Lemma kept_refl (len : Z) (ctx : multilu_context) : kept len ctx ctx.
Proof. split; [apply same_frame_refl | auto]. Qed.

Lemma kept_trans (len : Z) (ctx1 ctx2 ctx3 : multilu_context) :
  kept len ctx1 ctx2 -> kept len ctx2 ctx3 -> kept len ctx1 ctx3.
Proof.
  intros [F1 C1] [F2 C2]. split; [apply (same_frame_trans _ ctx2); assumption | auto].
Qed.

(** A step on one block that leaves its columns and its contribution
    block as they are. *)
Lemma kept_upd_block (len : Z) (ctx : multilu_context) (i : Z)
    (f : multilu_factor_block -> multilu_factor_block) :
  (forall b, block_cols (f b) = block_cols b) ->
  (forall b, contrib_block (f b) = contrib_block b) ->
  kept len ctx (upd_block i f ctx).
Proof.
  intros Hcols Hcb. split; [apply same_frame_upd_block; exact Hcols |].
  intros Hctx. apply contribs_in_range_upd_block; [exact Hctx |].
  intros b cb Hb E. rewrite Hcb in E. apply (Hctx i b cb Hb E).
Qed.

(** A step that gives a block a new contribution block. *)
Lemma kept_set_contrib (len : Z) (ctx : multilu_context) (i : Z)
    (cb : option multilu_contrib_block) :
  (contribs_in_range len ctx -> forall cb', cb = Some cb' -> contrib_in_range len cb') ->
  kept len ctx (upd_block i (set_contrib_block cb) ctx).
Proof.
  intros Hcb. split; [apply same_frame_upd_block; intros b; reflexivity |].
  intros Hctx. apply contribs_in_range_upd_block; [exact Hctx |].
  intros b cb' _ E. apply (Hcb Hctx cb' E).
Qed.

Lemma fsc_contrib_column_cb (len : Z) (ctx : multilu_context)
    (supercol max_size col_c : Z) (st st' : focus_state) :
  contrib_in_range len (fs_contrib st) ->
  fsc_contrib_column ctx supercol max_size col_c st = Ok st' ->
  contrib_in_range len (fs_contrib st').
Proof.
  intros Hcb Hrun. unfold fsc_contrib_column in Hrun.
  destruct (fs_freed st); [injection Hrun as <-; exact Hcb |].
  assert (Hnext : forall t t', fs_next_column max_size t = Ok t' ->
                    fs_contrib t' = fs_contrib t).
  { intros t t' H. unfold fs_next_column in H.
    destruct (negb (fs_size t <=? max_size)); [discriminate |].
    injection H as <-. reflexivity. }
  destruct (negb (is_member _ (cb_columns (fs_contrib st)) (cb_n (fs_contrib st)) =? -1)).
  - apply bind_Ok in Hrun. destruct Hrun as (st1 & _ & Hrun).
    destruct (Z.eqb_spec (cb_n (fs_contrib st) - 1) 0) as [_ | Hn].
    + injection Hrun as <-. intros i Hi. cbn in Hi. lia.
    + apply Hnext in Hrun. rewrite Hrun.
      intros i Hi. cbn in Hi |- *. rewrite get_upd.
      destruct (_ && _); apply Hcb; lia.
  - apply Hnext in Hrun. rewrite Hrun. exact Hcb.
Qed.

Lemma focus_supercolumn_from_contrib_kept (len : Z) (ctx ctx' : multilu_context)
    (supercol contrib : Z) :
  focus_supercolumn_from_contrib ctx supercol contrib = Ok ctx' -> kept len ctx ctx'.
Proof.
  intros Hrun. unfold focus_supercolumn_from_contrib in Hrun.
  apply bind_Ok in Hrun. destruct Hrun as (dfb & Hdfb & Hrun).
  apply block_at_Ok in Hdfb.
  destruct (contrib_block dfb) as [dcb |] eqn:Edcb;
    [| injection Hrun as <-; apply kept_refl].
  apply bind_Ok in Hrun. destruct Hrun as (fb & _ & Hrun).
  apply bind_Ok in Hrun. destruct Hrun as (st & Hloop & Hrun).
  injection Hrun as <-.
  match goal with
  | |- kept _ _ (set_map_rows _ (upd_block supercol ?f (upd_block contrib ?g ctx))) =>
      apply (kept_trans _ _ (upd_block contrib g ctx));
        [| apply (kept_trans _ _ (upd_block supercol f (upd_block contrib g ctx)))]
  end.
  - apply kept_set_contrib. intros Hctx cb' E.
    destruct (fs_freed st); [discriminate |]. injection E as <-.
    apply (forM_preserves (fun t => contrib_in_range len (fs_contrib t))) with (3 := Hloop).
    + apply (Hctx contrib dfb dcb Hdfb Edcb).
    + intros j t t' _ Ht Hb. apply (fsc_contrib_column_cb len ctx supercol _ j t t' Ht Hb).
  - apply kept_upd_block; intros b; reflexivity.
  - split; [repeat split | auto].
Qed.

Lemma focus_supercolumn_from_child_kept (len : Z) (ctx ctx' : multilu_context)
    (supercol child : Z) :
  focus_supercolumn_from_child ctx supercol child = Ok ctx' -> kept len ctx ctx'.
Proof.
  intros Hrun. unfold focus_supercolumn_from_child in Hrun.
  apply bind_Ok in Hrun. destruct Hrun as (ctx1 & Hdesc & Hrun).
  apply (kept_trans _ _ ctx1);
    [| apply (focus_supercolumn_from_contrib_kept len ctx1 ctx' supercol child Hrun)].
  destruct (negb (get (first_desc_index (et ctx)) child =? MULTILU_SYMBOLIC_NONE));
    [| injection Hdesc as <-; apply kept_refl].
  apply (forM_preserves (kept len ctx)) with (3 := Hdesc); [apply kept_refl |].
  intros j t t' _ Ht Hb. apply (kept_trans _ _ t); [exact Ht |].
  apply (focus_supercolumn_from_contrib_kept len t t' supercol j Hb).
Qed.

Lemma focus_supercolumn_from_A_kept (len : Z) (ctx ctx' : multilu_context) (supercol : Z) :
  focus_supercolumn_from_A ctx supercol = Ok ctx' -> kept len ctx ctx'.
Proof.
  intros Hrun. unfold focus_supercolumn_from_A in Hrun.
  apply bind_Ok in Hrun. destruct Hrun as (fb & _ & Hrun).
  apply bind_Ok in Hrun. destruct Hrun as (st & _ & Hrun).
  injection Hrun as <-.
  match goal with
  | |- kept _ _ (set_column_cleared _ (set_map_rows _ (upd_block supercol ?f ctx))) =>
      apply (kept_trans _ _ (upd_block supercol f ctx))
  end.
  - apply kept_upd_block; intros b; reflexivity.
  - split; [repeat split | auto].
Qed.

(** The block of the supercolumn as [allocate_factor_block] makes it:
    its non-pivot columns start behind those of the supercolumn, and if
    it is valid its array of columns has the [u_size] cells of the
    symbolic analysis. *)
Definition block_ready (ctx : multilu_context) (s : Z) : Prop :=
  forall b, block_ptr ctx s = Some b ->
    non_pivot_cols b = get (supercolumn_size (sym ctx)) s
    /\ (valid b <> 0 ->
        get (sym_u_size (sym ctx)) s <= Z.of_nat (length (pivot_cols b))).

Lemma block_ready_frame (ctx ctx' : multilu_context) (s : Z) :
  same_frame ctx ctx' -> block_ready ctx s -> block_ready ctx' s.
Proof.
  intros (Hs & _ & _ & _ & Hb) Hr b' E. specialize (Hb s). rewrite E in Hb.
  destruct (block_ptr ctx s) as [b |] eqn:Eb; [| discriminate].
  simpl in Hb. unfold block_cols in Hb. injection Hb as Hv Hpc Hnp _.
  destruct (Hr b Eb) as [H1 H2].
  unfold sym in *. rewrite Hs, Hv, Hpc, Hnp. split; assumption.
Qed.

(** What the L portion keeps. *)
Definition prepared (len s : Z) (ctx ctx' : multilu_context) : Prop :=
  ctx_symbolic ctx' = ctx_symbolic ctx
  /\ nproc ctx' = nproc ctx
  /\ ctx_At ctx' = ctx_At ctx
  /\ F_shape ctx' = F_shape ctx
  /\ (block_ready ctx s -> block_ready ctx' s)
  /\ (contribs_in_range len ctx -> contribs_in_range len ctx')
  /\ (forall i, i <> s -> block_ptr ctx i = None -> block_ptr ctx' i = None).

Lemma kept_prepared (len s : Z) (ctx ctx' : multilu_context) :
  kept len ctx ctx' -> prepared len s ctx ctx'.
Proof.
  intros [Hf Hc]. pose proof Hf as (Hs & Hn & HA & HF & Hb).
  split; [exact Hs |]. split; [exact Hn |]. split; [exact HA |]. split; [exact HF |].
  split; [apply block_ready_frame; exact Hf |]. split; [exact Hc |].
  intros i _ E. specialize (Hb i). rewrite E in Hb.
  destruct (block_ptr ctx' i); [discriminate | reflexivity].
Qed.

Lemma prepared_trans (len s : Z) (ctx1 ctx2 ctx3 : multilu_context) :
  prepared len s ctx1 ctx2 -> prepared len s ctx2 ctx3 -> prepared len s ctx1 ctx3.
Proof.
  intros (S1 & N1 & A1 & F1 & R1 & C1 & B1) (S2 & N2 & A2 & F2 & R2 & C2 & B2).
  split; [congruence |]. split; [congruence |]. split; [congruence |].
  split; [congruence |]. split; [auto |]. split; auto.
Qed.

Lemma set_block_data (ctx : multilu_context) (i : Z) (b : multilu_factor_block) :
  ctx_symbolic (set_block i b ctx) = ctx_symbolic ctx
  /\ nproc (set_block i b ctx) = nproc ctx
  /\ ctx_At (set_block i b ctx) = ctx_At ctx.
Proof. unfold set_block, set_block_ptr. destruct (i <? 0); repeat split. Qed.

Lemma allocate_factor_block_prepared (len : Z) (ctx ctx' : multilu_context) (s : Z) :
  allocate_factor_block ctx s = Ok ctx' -> prepared len s ctx ctx'.
Proof.
  unfold allocate_factor_block. destruct (block_ptr ctx s) eqn:E; [discriminate |].
  intros H. injection H as <-.
  match goal with
  | |- prepared _ _ _ (set_block _ ?b _) => set (nb := b)
  end.
  destruct (set_block_data ctx s nb) as (Hs & Hn & HA).
  split; [exact Hs |]. split; [exact Hn |]. split; [exact HA |].
  split; [apply set_block_ptr_shape |]. split.
  - intros _ b' Hb'. unfold set_block in Hb'. rewrite block_ptr_set_block_ptr in Hb'.
    rewrite Z.eqb_refl in Hb'. cbn [andb] in Hb'. revert Hb'.
    destruct ((0 <=? s) && (s <? Z.of_nat (length (blocks (ctx_F ctx)))));
      simpl; intros Hb'; [| rewrite E in Hb'; discriminate].
    injection Hb' as <-. unfold sym. rewrite Hs. fold (sym ctx).
    unfold nb. cbn [non_pivot_cols valid pivot_cols]. split; [reflexivity |].
    rewrite (length_fill_columns
               (fun i => get (columns (sym ctx)) (get (start_supercolumn (sym ctx)) s + i))).
    destruct (Z.gtb_spec (get (sym_u_size (sym ctx)) s) 0) as [Hpos | Hneg].
    + destruct (taucs_malloc_ok s 0); cbn [andb orb negb].
      * intros _. unfold malloc. rewrite length_replicate. lia.
      * intros Hv. exfalso. apply Hv. reflexivity.
    + intros _. cbn [andb length]. lia.
  - split.
    + intros Hc c b cb Hb Hcb. unfold set_block in Hb.
      rewrite block_ptr_set_block_ptr in Hb. revert Hb.
      destruct ((s =? c) && (0 <=? s) && (s <? Z.of_nat (length (blocks (ctx_F ctx)))));
        intros Hb.
      * injection Hb as <-. discriminate.
      * apply (Hc c b cb Hb Hcb).
    + intros i Hi Ei. unfold set_block. rewrite block_ptr_set_block_ptr.
      destruct (Z.eqb_spec s i) as [Heq | _]; [congruence | exact Ei].
Qed.

(** The part of a child's update completed for an only child. *)
Lemma child_update_kept (len : Z) (ctx : multilu_context) (child from count : Z)
    (cfb : multilu_factor_block) (ccb : multilu_contrib_block) :
  block_ptr ctx child = Some cfb -> contrib_block cfb = Some ccb ->
  kept len ctx
    (upd_block child (set_contrib_block (Some (child_CaddMABT cfb ccb from count))) ctx).
Proof.
  intros Hb Hcb. apply kept_set_contrib. intros Hctx cb' E. injection E as <-.
  intros i Hi. apply (Hctx child cfb ccb Hb Hcb i Hi).
Qed.

(** [factorize_l_portion], on one processor or several. *)
Lemma factorize_l_portion_prepared (len : Z) (ctx ctx' : multilu_context)
    (pivot_supercol : Z) (dense_spawn one_child : bool) :
  factorize_l_portion ctx pivot_supercol dense_spawn one_child = Ok ctx' ->
  prepared len pivot_supercol ctx ctx'.
Proof.
  intros Hrun. unfold factorize_l_portion in Hrun.
  apply bind_Ok in Hrun. destruct Hrun as (ctx0 & Hfocus & Hrun).
  assert (H0 : prepared len pivot_supercol ctx ctx0).
  { destruct (one_child && (nproc ctx >? 1));
      [| injection Hfocus as <-; apply kept_prepared, kept_refl].
    apply bind_Ok in Hfocus. destruct Hfocus as (cfb & Hcfb & Hfocus).
    apply block_at_Ok in Hcfb.
    apply bind_Ok in Hfocus. destruct Hfocus as (ctx2 & Halloc & Hfocus).
    apply bind_Ok in Hfocus. destruct Hfocus as (ctx3 & Hchild & HA).
    apply allocate_factor_block_prepared with (len := len) in Halloc.
    apply focus_supercolumn_from_child_kept with (len := len) in Hchild.
    apply focus_supercolumn_from_A_kept with (len := len) in HA.
    match type of Halloc with
    | prepared _ _ ?c _ => apply (prepared_trans _ _ _ c)
    end.
    - apply kept_prepared.
      destruct (contrib_block cfb) as [ccb |] eqn:Eccb; [| apply kept_refl].
      destruct (num_cols_in_parent ccb >? 0); [| apply kept_refl].
      apply child_update_kept; assumption.
    - apply (prepared_trans _ _ _ ctx2); [exact Halloc |].
      apply kept_prepared. apply (kept_trans _ _ ctx3); assumption. }
  apply (prepared_trans _ _ _ ctx0); [exact H0 |]. apply kept_prepared.
  apply bind_Ok in Hrun. destruct Hrun as (fb & _ & Hrun).
  destruct (valid fb =? 0); [injection Hrun as <-; apply kept_refl |].
  destruct (negb (fb_l_size fb >? 0)); [discriminate |].
  apply bind_Ok in Hrun. destruct Hrun as (degrees & _ & Hrun).
  destruct (taucs_LU _ _ _ _ _ _ _ _) as [lu pr].
  injection Hrun as <-.
  match goal with
  | |- kept _ _ (upd_block _ _ ?c) => apply (kept_trans _ _ c)
  end.
  - destruct (nproc ctx0 >? 1); [apply kept_refl |]. split; [repeat split | auto].
  - apply kept_upd_block; intros b; reflexivity.
Qed.

Lemma length_realloc (a : list Z) (n : Z) : length (realloc a n) = Z.to_nat n.
Proof. unfold realloc. rewrite length_app, length_take, length_replicate. lia. Qed.

Lemma rearrange_non_pivot_cols_length (ctx : multilu_context) (pivot_supercol : Z)
    (pc : list Z) (ind : Z) (values : list T) (row_b_size ru_size : Z)
    (mc scratch pc' : list Z) (ut' : list T) (mc' : list Z) (num : Z) :
  rearrange_non_pivot_cols ctx pivot_supercol pc ind values row_b_size ru_size mc scratch
  = (pc', ut', mc', num) ->
  length pc' = length pc /\ length mc' = length mc.
Proof.
  intros Hrun. unfold rearrange_non_pivot_cols in Hrun.
  destruct (get (parent (et ctx)) pivot_supercol =? MULTILU_SYMBOLIC_NONE).
  { injection Hrun as <- _ <- _. split; reflexivity. }
  match type of Hrun with
  | context [for_ 0 ?k ?body ?s0] =>
      assert (Hloop : length (fst (fst (fst (for_ 0 k body s0)))) = length pc
                      /\ length (snd (fst (fst (for_ 0 k body s0)))) = length mc)
  end.
  { apply (for_preserves
             (fun st : list Z * list Z * list Z * Z =>
                length (fst (fst (fst st))) = length pc
                /\ length (snd (fst (fst st))) = length mc)); [split; reflexivity |].
    intros j [[[pc1 mc1] scratch1] num1] _ [Lp Lm]. unfold rearrange_step.
    destruct (negb (get mc1 _ =? -1)); cbn [fst snd]; [| split; assumption].
    rewrite !length_upd. split; assumption. }
  destruct (for_ 0 _ _ _) as [[[pc1 mc1] scratch1] num1].
  injection Hrun as <- _ <- _. exact Hloop.
Qed.

(** What the variant for several processors needs of the data it reads:
    the columns stored in the transpose and in the contribution blocks
    are columns of the map, and so are the columns of the parent, which
    differ from one another. *)
Definition parallel_ready (ctx : multilu_context) (s len : Z) : Prop :=
  At_in_range len (ctx_At ctx)
  /\ contribs_in_range len ctx
  /\ cols_distinct ctx (get (parent (et ctx)) s) len.

(** The U portion: the block of the supercolumn keeps the start of its
    non-pivot columns, and the columns found are recorded behind it
    when they fit in the array the block had. *)
Lemma factorize_u_portion_cols (ctx ctx' : multilu_context) (pivot_supercol : Z)
    (map_cols map_cols' : list Z) (only_child parent_has_job dense_spawn : bool)
    (ru_size : Z) (b : multilu_factor_block) :
  Forall (fun v => v = -1) map_cols ->
  block_ptr ctx pivot_supercol = Some b ->
  0 <= non_pivot_cols b ->
  non_pivot_cols b = get (supercolumn_size (sym ctx)) pivot_supercol ->
  (1 < nproc ctx -> parallel_ready ctx pivot_supercol (Z.of_nat (length map_cols))) ->
  factorize_u_portion ctx pivot_supercol map_cols only_child parent_has_job dense_spawn
  = Ok (ctx', map_cols', ru_size) ->
  ctx_symbolic ctx' = ctx_symbolic ctx
  /\ nproc ctx' = nproc ctx
  /\ length map_cols' = length map_cols
  /\ exists b',
       block_ptr ctx' pivot_supercol = Some b'
       /\ valid b' = valid b
       /\ non_pivot_cols b' = non_pivot_cols b
       /\ (non_pivot_cols b + ru_size <= Z.of_nat (length (pivot_cols b)) ->
           forall c, 0 <= c < Z.of_nat (length map_cols') ->
             get map_cols' c = -1
             \/ (0 <= get map_cols' c < ru_size
                 /\ get (pivot_cols b') (non_pivot_cols b + get map_cols' c) = c)).
Proof.
  intros Hall Hb Hind Hsize Hpar Hrun. unfold factorize_u_portion in Hrun.
  apply bind_Ok in Hrun. destruct Hrun as (fb & Hfb & Hrun).
  apply block_at_Ok in Hfb. rewrite Hb in Hfb. injection Hfb as <-.
  apply bind_Ok in Hrun. destruct Hrun as ([[[[ctx2 pc] ut] mc2] ru] & Hfocus & Hrun).
  pose proof Hfocus as Hfocus'.
  apply focus_rows_inv in Hfocus; [| exact Hind | exact Hall].
  destruct Hfocus as (Hf2 & Lpc & Lmc & Hru & Hrec).
  assert (Hloc : 1 < nproc ctx -> cols_located (non_pivot_cols b) pc mc2 ru).
  { intros Hp. destruct (Hpar Hp) as (HAt & Hcbs & _).
    apply focus_rows_loc in Hfocus'; [apply Hfocus' | | | |]; assumption. }
  clear Hfocus'.
  destruct (same_frame_block ctx ctx2 pivot_supercol b Hf2 Hb) as (b2 & Hb2 & Hcols2).
  unfold sym in Hsize. fold (sym ctx) in Hsize.
  set (col_b_size := get (supercolumn_size (sym ctx)) pivot_supercol) in *.
  set (pc' := realloc pc (col_b_size + ru)) in *.
  set (f3 := fun b0 : multilu_factor_block =>
               set_Ut2 _ (set_non_pivot_cols col_b_size (set_pivot_cols pc' b0))) in *.
  set (ctx3 := upd_block pivot_supercol f3 ctx2) in *.
  assert (Hb3 : block_ptr ctx3 pivot_supercol = Some (f3 b2)).
  { unfold ctx3. rewrite block_ptr_upd_block, Z.eqb_refl, Hb2. reflexivity. }
  destruct (upd_block_symbolic ctx2 pivot_supercol f3) as (Hs3 & Hn3 & _).
  fold ctx3 in Hs3, Hn3.
  pose proof Hf2 as (Hs2 & Hn2 & _).
  unfold block_cols in Hcols2. injection Hcols2 as Hv2 Hpc2 Hnp2 _.
  (* the columns found, in the array as it is reallocated *)
  assert (Hmap3 : non_pivot_cols b + ru <= Z.of_nat (length (pivot_cols b)) ->
            (forall c, 0 <= c < Z.of_nat (length mc2) ->
               get mc2 c = -1
               \/ (0 <= get mc2 c < ru /\ get pc' (non_pivot_cols b + get mc2 c) = c))
            /\ (1 < nproc ctx ->
                forall i, 0 <= i < ru ->
                  0 <= get pc' (non_pivot_cols b + i) < Z.of_nat (length mc2)
                  /\ get mc2 (get pc' (non_pivot_cols b + i)) = i)).
  { intros Hcap. split.
    - intros c Hc. unfold cols_recorded in Hrec. rewrite Lpc in Hrec.
      destruct (Hrec Hcap c Hc) as [H | [Hl Hg]]; [left; exact H | right].
      split; [exact Hl |]. unfold pc'. rewrite get_realloc; [exact Hg | lia | lia].
    - intros Hp i Hi. specialize (Hloc Hp). unfold cols_located in Hloc.
      rewrite Lpc in Hloc. unfold pc'. rewrite get_realloc by lia.
      apply (Hloc Hcap i Hi). }
  (* the block when the columns of the parent have been moved to the front *)
  assert (Hlater : exists b4,
            block_ptr ctx' pivot_supercol = Some b4
            /\ valid b4 = valid b /\ non_pivot_cols b4 = non_pivot_cols b
            /\ length map_cols' = length map_cols /\ ru_size = ru
            /\ ctx_symbolic ctx' = ctx_symbolic ctx /\ nproc ctx' = nproc ctx
            /\ (non_pivot_cols b + ru <= Z.of_nat (length (pivot_cols b)) ->
                forall c, 0 <= c < Z.of_nat (length map_cols') ->
                  get map_cols' c = -1
                  \/ (0 <= get map_cols' c < ru
                      /\ get (pivot_cols b4) (non_pivot_cols b + get map_cols' c) = c))).
  { assert (H3 : valid (f3 b2) = valid b /\ non_pivot_cols (f3 b2) = non_pivot_cols b
                 /\ pivot_cols (f3 b2) = pc').
    { cbn. split; [exact Hv2 |]. split; [symmetry; exact Hsize | reflexivity]. }
    destruct H3 as (Hv3 & Hnp3 & Hpc3).
    destruct (ru >? 0) eqn:Eru.
    - apply bind_Ok in Hrun. destruct Hrun as ([[ctx4 mc4] num] & Hre & Hrun).
      assert (H4 : exists b4,
                block_ptr ctx4 pivot_supercol = Some b4
                /\ valid b4 = valid b /\ non_pivot_cols b4 = non_pivot_cols b
                /\ length mc4 = length map_cols
                /\ ctx_symbolic ctx4 = ctx_symbolic ctx /\ nproc ctx4 = nproc ctx
                /\ (non_pivot_cols b + ru <= Z.of_nat (length (pivot_cols b)) ->
                    forall c, 0 <= c < Z.of_nat (length mc4) ->
                      get mc4 c = -1
                      \/ (0 <= get mc4 c < ru
                          /\ get (pivot_cols b4) (non_pivot_cols b + get mc4 c) = c))).
      { destruct (only_child && parent_has_job && (nproc ctx3 >? 1)) eqn:Econd.
        - apply bind_Ok in Hre. destruct Hre as (fb3 & Hfb3 & Hre).
          apply block_at_Ok in Hfb3. rewrite Hb3 in Hfb3. injection Hfb3 as <-.
          rewrite Hnp3, Hpc3 in Hre.
          destruct (rearrange_non_pivot_cols ctx3 pivot_supercol pc' (non_pivot_cols b)
                      (Ut2 (f3 b2)) (Z.min (fb_l_size b) col_b_size) ru mc2 (malloc ru))
            as [[[pc4 ut4] mc4'] num'] eqn:Erear.
          injection Hre as <- <- <-.
          destruct (rearrange_non_pivot_cols_length _ _ _ _ _ _ _ _ _ _ _ _ _ Erear)
            as [Lp4 Lm4].
          exists (set_Ut2 ut4 (set_pivot_cols pc4 (f3 b2))).
          split; [rewrite block_ptr_upd_block, Z.eqb_refl, Hb3; reflexivity |].
          split; [exact Hv3 |]. split; [exact Hnp3 |].
          split; [congruence |].
          destruct (upd_block_symbolic ctx3 pivot_supercol
                      (fun b0 => set_Ut2 ut4 (set_pivot_cols pc4 b0))) as (Hs4 & Hn4 & _).
          split; [congruence |]. split; [congruence |].
          intros Hcap. destruct (Hmap3 Hcap) as [Hfw Hbw].
          assert (Hp : 1 < nproc ctx).
          { apply andb_true_iff in Econd. destruct Econd as [_ Hgt].
            destruct (Z.gtb_spec (nproc ctx3) 1); [lia | discriminate]. }
          apply rearrange_non_pivot_cols_mapped in Erear.
          + destruct Erear as (_ & _ & [Hfw4 _]). exact Hfw4.
          + exact Hind.
          + exact Hru.
          + unfold pc'. rewrite length_realloc. lia.
          + destruct (Hpar Hp) as (_ & _ & Hdist).
            unfold cols_distinct, sym, et in *. rewrite Hs3, Hs2, Lmc. exact Hdist.
          + split; [exact Hfw | exact (Hbw Hp)].
        - injection Hre as <- <- <-. exists (f3 b2).
          split; [exact Hb3 |]. split; [exact Hv3 |]. split; [exact Hnp3 |].
          split; [exact Lmc |]. split; [congruence |]. split; [congruence |].
          intros Hcap. rewrite Hpc3. apply (Hmap3 Hcap). }
      destruct H4 as (b4 & Hb4 & Hv4 & Hnp4 & Lm4 & Hs4 & Hn4 & Hfw4).
      (* everything after keeps the frame *)
      assert (Hf : same_frame ctx4 ctx' /\ map_cols' = mc4 /\ ru_size = ru).
      { match type of Hrun with
        | context [upd_block pivot_supercol ?f ctx4] =>
            set (f5 := f) in *; set (ctx5 := upd_block pivot_supercol f5 ctx4) in *
        end.
        assert (Hf5 : same_frame ctx4 ctx5)
          by (apply same_frame_upd_block; intros b0; reflexivity).
        apply bind_Ok in Hrun. destruct Hrun as (fb5 & _ & Hrun).
        match type of Hrun with
        | context [set_map_rows ?m ctx5] => set (ctx6 := set_map_rows m ctx5) in *
        end.
        assert (Hf6 : same_frame ctx4 ctx6).
        { apply (same_frame_trans _ ctx5); [exact Hf5 | repeat split]. }
        destruct (fb_l_size b - Z.min (fb_l_size b) col_b_size >? 0).
        + apply bind_Ok in Hrun. destruct Hrun as ([ctx7 ncb] & Hadd & Hrun).
          apply add_contributions_frame in Hadd.
          injection Hrun as <- <- <-. split; [| split; reflexivity].
          apply (same_frame_trans _ ctx6); [exact Hf6 |].
          match type of Hadd with
          | same_frame ?c _ => apply (same_frame_trans _ c)
          end; [apply same_frame_upd_block; intros b0; reflexivity |].
          apply (same_frame_trans _ ctx7); [exact Hadd |].
          apply same_frame_upd_block. intros b0. reflexivity.
        + injection Hrun as <- <- <-. split; [exact Hf6 | split; reflexivity]. }
      destruct Hf as (Hf & -> & ->).
      destruct (same_frame_block ctx4 ctx' pivot_supercol b4 Hf Hb4) as (b' & Hb' & Hcols').
      destruct Hf as (Hs' & Hn' & _).
      unfold block_cols in Hcols'. injection Hcols' as Hv' Hpc' Hnp' _.
      exists b'. split; [exact Hb' |]. split; [congruence |]. split; [congruence |].
      split; [exact Lm4 |]. split; [reflexivity |].
      split; [congruence |]. split; [congruence |].
      rewrite Hpc'. exact Hfw4.
    - injection Hrun as <- <- <-. exists (f3 b2).
      split; [exact Hb3 |]. split; [exact Hv3 |]. split; [exact Hnp3 |].
      split; [exact Lmc |]. split; [reflexivity |].
      split; [congruence |]. split; [congruence |].
      intros Hcap. rewrite Hpc3. apply (Hmap3 Hcap). }
  destruct Hlater as (b4 & Hb4 & Hv4 & Hnp4 & Lm4 & -> & Hs4 & Hn4 & Hfw4).
  split; [exact Hs4 |]. split; [exact Hn4 |]. split; [exact Lm4 |].
  exists b4. split; [exact Hb4 |]. split; [exact Hv4 |]. split; [exact Hnp4 | exact Hfw4].
Qed.
Lemma length_clear_loop (ind ru : Z) (pc mc : list Z) :
  length (for_ 0 ru (fun i a => upd a (get pc (ind + i)) (-1)) mc) = length mc.
Proof.
  apply (for_preserves (fun a => length a = length mc)); [reflexivity |].
  intros j a _ Ha. rewrite length_upd. exact Ha.
Qed.

Lemma parallel_ready_kept (len s : Z) (ctx ctx' : multilu_context) :
  ctx_symbolic ctx' = ctx_symbolic ctx -> ctx_At ctx' = ctx_At ctx ->
  (contribs_in_range len ctx -> contribs_in_range len ctx') ->
  parallel_ready ctx s len -> parallel_ready ctx' s len.
Proof.
  intros Hs HA Hc (H1 & H2 & H3). unfold parallel_ready, cols_distinct, sym, et in *.
  rewrite Hs, HA. split; [exact H1 |]. split; [apply Hc; exact H2 | exact H3].
Qed.

(** Claim C9.  When [factorize_supercolumn] is entered with a column map
    that is all -1, the map it returns is again all -1 and has the
    length it had.  The block of the supercolumn, when there is one on
    entry, is as [allocate_factor_block] makes it, and the columns of
    the supercolumn and the non-pivot columns found fit in the [u_size]
    cells the symbolic analysis gives the array of columns.  On several
    processors, where the columns of the parent are moved to the front,
    the columns read are columns of the map and those of the parent
    differ from one another. *)
Theorem factorize_supercolumn_map_cols (ctx ctx' : multilu_context) (pivot_supercol : Z)
    (map_cols map_cols' : list Z) (only_child0 parent_has_job0 : bool)
    (b' : multilu_factor_block) :
  Forall (fun v => v = -1) map_cols ->
  0 <= get (supercolumn_size (sym ctx)) pivot_supercol ->
  block_ready ctx pivot_supercol ->
  (1 < nproc ctx -> parallel_ready ctx pivot_supercol (Z.of_nat (length map_cols))) ->
  factorize_supercolumn ctx pivot_supercol map_cols only_child0 parent_has_job0
  = Ok (ctx', map_cols') ->
  block_ptr ctx' pivot_supercol = Some b' ->
  (valid b' <> 0 ->
   get (supercolumn_size (sym ctx)) pivot_supercol + non_pivot_cols_number b'
   <= get (sym_u_size (sym ctx)) pivot_supercol) ->
  Forall (fun v => v = -1) map_cols' /\ length map_cols' = length map_cols.
Proof.
  intros Hall Hsize Hready Hpar Hrun Hb' Hcap.
  set (len := Z.of_nat (length map_cols)) in *.
  unfold factorize_supercolumn in Hrun.
  apply bind_Ok in Hrun. destruct Hrun as (ctx0 & HL & Hrun).
  apply factorize_l_portion_prepared with (len := len) in HL.
  apply bind_Ok in Hrun. destruct Hrun as (ctx1 & Hchild & Hrun).
  (* the context when the rows are read *)
  assert (H1 : prepared len pivot_supercol ctx ctx1).
  { apply (prepared_trans _ _ _ ctx0); [exact HL |]. apply kept_prepared.
    destruct (has_one_child ctx pivot_supercol && (nproc ctx0 >? 1));
      [| injection Hchild as <-; apply kept_refl].
    apply bind_Ok in Hchild. destruct Hchild as (cfb & Hcfb & Hchild).
    apply block_at_Ok in Hcfb. injection Hchild as <-.
    destruct (contrib_block cfb) as [ccb |] eqn:Eccb; [| apply kept_refl].
    destruct (non_pivot_cols_number cfb - num_cols_in_parent ccb >? 0);
      [| apply kept_refl].
    apply child_update_kept; assumption. }
  clear HL Hchild. destruct H1 as (Hs1 & Hn1 & HA1 & _ & Hr1 & Hc1 & _).
  specialize (Hr1 Hready).
  apply bind_Ok in Hrun. destruct Hrun as (b1 & Hb1 & Hrun).
  apply block_at_Ok in Hb1. destruct (Hr1 b1 Hb1) as [Hnp1 Hlen1].
  destruct (Z.eqb_spec (valid b1) 0) as [Hinvalid | Hvalid].
  { injection Hrun as _ <-. split; [exact Hall | reflexivity]. }
  specialize (Hlen1 Hvalid).
  assert (Hsym1 : sym ctx1 = sym ctx) by (unfold sym; exact Hs1).
  rewrite Hsym1 in Hnp1, Hlen1.
  apply bind_Ok in Hrun. destruct Hrun as ([[ctx2 mc2] ru] & HU & Hrun).
  (* the block of the supercolumn after the U portion *)
  assert (HU' : ctx_symbolic ctx2 = ctx_symbolic ctx1 /\ nproc ctx2 = nproc ctx1
                /\ length mc2 = length map_cols
                /\ exists b2,
                     block_ptr ctx2 pivot_supercol = Some b2
                     /\ valid b2 = valid b1
                     /\ non_pivot_cols b2 = non_pivot_cols b1
                     /\ (non_pivot_cols b1 + ru <= Z.of_nat (length (pivot_cols b1)) ->
                         forall c, 0 <= c < Z.of_nat (length mc2) ->
                           get mc2 c = -1
                           \/ (0 <= get mc2 c < ru
                               /\ get (pivot_cols b2) (non_pivot_cols b1 + get mc2 c) = c))).
  { destruct (fb_l_size b1 >? 0).
    - apply (factorize_u_portion_cols ctx1 ctx2 pivot_supercol map_cols mc2 _ _ _ ru b1)
        in HU; [exact HU | exact Hall | exact Hb1 | lia | rewrite Hsym1; exact Hnp1 |].
      intros Hp. rewrite Hn1 in Hp.
      apply (parallel_ready_kept len pivot_supercol ctx ctx1 Hs1 HA1 Hc1 (Hpar Hp)).
    - injection HU as <- <- <-.
      split; [reflexivity |]. split; [reflexivity |]. split; [reflexivity |].
      exists b1. split; [exact Hb1 |]. split; [reflexivity |]. split; [reflexivity |].
      intros _ c Hc. left.
      rewrite Forall_lookup in Hall. apply (Hall (Z.to_nat c)).
      apply get_in_range. exact Hc. }
  destruct HU' as (Hs2 & Hn2 & Lmc & b2 & Hb2 & Hv2 & Hnp2 & Hrec).
  match type of Hrun with
  | context [upd_block pivot_supercol ?f ctx2] =>
      set (f3 := f) in *; set (ctx3 := upd_block pivot_supercol f3 ctx2) in *
  end.
  assert (Hb3 : block_ptr ctx3 pivot_supercol = Some (f3 b2)).
  { unfold ctx3. rewrite block_ptr_upd_block, Z.eqb_refl, Hb2. reflexivity. }
  apply bind_Ok in Hrun. destruct Hrun as (fb3 & Hfb3 & Hrun).
  apply block_at_Ok in Hfb3. rewrite Hb3 in Hfb3. injection Hfb3 as <-.
  apply bind_Ok in Hrun. destruct Hrun as (ctx4 & Hrm & Hrun).
  assert (Hf4 : same_frame ctx3 ctx4).
  { destruct ((non_pivot_rows_number (f3 b2) =? 0) || (non_pivot_cols_number (f3 b2) =? 0)).
    - apply remove_member_indication_frame in Hrm. exact Hrm.
    - injection Hrm as <-. apply same_frame_refl. }
  unfold clear_indication in Hrun. injection Hrun as Hctx' Hmc'.
  assert (Hf' : same_frame ctx3 ctx').
  { rewrite <- Hctx'. apply (same_frame_trans _ ctx4); [exact Hf4 | repeat split]. }
  destruct (same_frame_block ctx3 ctx' pivot_supercol (f3 b2) Hf' Hb3) as (b'' & Hb'' & Hcols).
  rewrite Hb' in Hb''. injection Hb'' as <-.
  unfold block_cols in Hcols. injection Hcols as Hval _ _ Hnum.
  change (non_pivot_cols_number (f3 b2)) with ru in Hnum, Hmc'.
  change (pivot_cols (f3 b2)) with (pivot_cols b2) in Hmc'.
  change (non_pivot_cols (f3 b2)) with (non_pivot_cols b2) in Hmc'.
  change (valid (f3 b2)) with (valid b2) in Hval.
  rewrite <- Hmc'. split.
  - apply clear_map_cols. rewrite Hnp2. apply Hrec.
    rewrite <- Hnum, Hnp1.
    assert (Hv' : valid b' <> 0) by congruence.
    specialize (Hcap Hv'). lia.
  - rewrite length_clear_loop. exact Lmc.
Qed.

(** ** Blocks that are never made

    The factorization of the supercolumn [s] makes or changes no block
    pointer but that of [s]: a block that is null stays null. *)

Definition nulls_kept (s : Z) (ctx ctx' : multilu_context) : Prop :=
  ctx_symbolic ctx' = ctx_symbolic ctx
  /\ nproc ctx' = nproc ctx
  /\ F_shape ctx' = F_shape ctx
  /\ forall i, i <> s -> block_ptr ctx i = None -> block_ptr ctx' i = None.

Lemma nulls_kept_refl (s : Z) (ctx : multilu_context) : nulls_kept s ctx ctx.
Proof. repeat split. auto. Qed.

Lemma nulls_kept_trans (s : Z) (ctx1 ctx2 ctx3 : multilu_context) :
  nulls_kept s ctx1 ctx2 -> nulls_kept s ctx2 ctx3 -> nulls_kept s ctx1 ctx3.
Proof.
  intros (S1 & N1 & F1 & B1) (S2 & N2 & F2 & B2).
  split; [congruence |]. split; [congruence |]. split; [congruence |]. auto.
Qed.

Lemma nulls_kept_frame (s : Z) (ctx ctx' : multilu_context) :
  same_frame ctx ctx' -> nulls_kept s ctx ctx'.
Proof.
  intros (Hs & Hn & _ & HF & Hb).
  split; [exact Hs |]. split; [exact Hn |]. split; [exact HF |].
  intros i _ E. specialize (Hb i). rewrite E in Hb.
  destruct (block_ptr ctx' i); [discriminate | reflexivity].
Qed.

Lemma nulls_kept_upd_block (s : Z) (ctx : multilu_context) (j : Z)
    (f : multilu_factor_block -> multilu_factor_block) :
  nulls_kept s ctx (upd_block j f ctx).
Proof.
  destruct (upd_block_symbolic ctx j f) as (Hs & Hn & _).
  split; [exact Hs |]. split; [exact Hn |]. split; [apply upd_block_At |].
  intros i _ E. rewrite block_ptr_upd_block.
  destruct (Z.eqb_spec j i) as [-> | _]; [rewrite E; reflexivity | exact E].
Qed.

Lemma nulls_kept_prepared (len s : Z) (ctx ctx' : multilu_context) :
  prepared len s ctx ctx' -> nulls_kept s ctx ctx'.
Proof.
  intros (Hs & Hn & _ & HF & _ & _ & Hb).
  split; [exact Hs |]. split; [exact Hn |]. split; [exact HF | exact Hb].
Qed.

Lemma focus_rows_frame (ctx ctx' : multilu_context) (rows : list Z)
    (number pivot_supercol : Z) (pc : list Z) (ind : Z) (values : list T) (max_size : Z)
    (mc pc' : list Z) (ut' : list T) (mc' : list Z) (size' : Z) :
  focus_rows ctx rows number pivot_supercol pc ind values max_size mc
  = Ok (ctx', pc', ut', mc', size') ->
  same_frame ctx ctx'.
Proof.
  intros Hrun. unfold focus_rows in Hrun.
  apply bind_Ok in Hrun. destruct Hrun as (st1 & _ & Hrun).
  apply bind_Ok in Hrun. destruct Hrun as ([ctx2 st2] & Hdesc & Hrun).
  injection Hrun as <- _ _ _ _.
  set (ctx1 := set_row_cleared (rs_row_cleared st1) ctx) in *.
  assert (Hf1 : same_frame ctx ctx1) by (repeat split).
  destruct (negb (get (first_desc_index (et ctx1)) pivot_supercol =? MULTILU_SYMBOLIC_NONE));
    [| injection Hdesc as <- _; exact Hf1].
  apply (forM_preserves (fun p : multilu_context * rows_state => same_frame ctx (fst p)))
    with (3 := Hdesc); [exact Hf1 |].
  intros c [ctxa sta] [ctxb stb] _ Hfa Hb. cbn [fst] in *.
  apply bind_Ok in Hb. destruct Hb as (dfb & _ & Hb).
  destruct (contrib_block dfb) as [dcb |]; [| injection Hb as <- _; exact Hfa].
  apply bind_Ok in Hb. destruct Hb as (st3 & _ & Hb). injection Hb as <- _.
  apply (same_frame_trans ctx ctxa); [exact Hfa |].
  apply same_frame_upd_block. intros b. reflexivity.
Qed.

Lemma factorize_u_portion_nulls (ctx ctx' : multilu_context) (pivot_supercol : Z)
    (map_cols map_cols' : list Z) (only_child parent_has_job dense_spawn : bool)
    (ru_size : Z) :
  factorize_u_portion ctx pivot_supercol map_cols only_child parent_has_job dense_spawn
  = Ok (ctx', map_cols', ru_size) ->
  nulls_kept pivot_supercol ctx ctx'.
Proof.
  intros Hrun. unfold factorize_u_portion in Hrun.
  apply bind_Ok in Hrun. destruct Hrun as (fb & _ & Hrun).
  apply bind_Ok in Hrun. destruct Hrun as ([[[[ctx2 pc] ut] mc2] ru] & Hfocus & Hrun).
  apply focus_rows_frame in Hfocus.
  apply (nulls_kept_trans _ _ ctx2); [apply nulls_kept_frame; exact Hfocus |].
  match type of Hrun with
  | context [upd_block pivot_supercol ?f ctx2] =>
      set (ctx3 := upd_block pivot_supercol f ctx2) in *
  end.
  apply (nulls_kept_trans _ _ ctx3); [apply nulls_kept_upd_block |].
  destruct (ru >? 0); [| injection Hrun as <- _ _; apply nulls_kept_refl].
  apply bind_Ok in Hrun. destruct Hrun as ([[ctx4 mc4] num] & Hre & Hrun).
  assert (H4 : nulls_kept pivot_supercol ctx3 ctx4).
  { destruct (only_child && parent_has_job && (nproc ctx3 >? 1));
      [| injection Hre as <- _ _; apply nulls_kept_refl].
    apply bind_Ok in Hre. destruct Hre as (fb3 & _ & Hre).
    destruct (rearrange_non_pivot_cols _ _ _ _ _ _ _ _ _) as [[[pc4 ut4] mc4'] num'].
    injection Hre as <- _ _. apply nulls_kept_upd_block. }
  apply (nulls_kept_trans _ _ ctx4); [exact H4 |].
  match type of Hrun with
  | context [upd_block pivot_supercol ?f ctx4] =>
      set (ctx5 := upd_block pivot_supercol f ctx4) in *
  end.
  apply (nulls_kept_trans _ _ ctx5); [apply nulls_kept_upd_block |].
  apply bind_Ok in Hrun. destruct Hrun as (fb5 & _ & Hrun).
  match type of Hrun with
  | context [set_map_rows ?m ctx5] => set (ctx6 := set_map_rows m ctx5) in *
  end.
  apply (nulls_kept_trans _ _ ctx6); [repeat split; auto |].
  destruct (_ >? 0); [| injection Hrun as <- _ _; apply nulls_kept_refl].
  apply bind_Ok in Hrun. destruct Hrun as ([ctx7 ncb] & Hadd & Hrun).
  apply add_contributions_frame in Hadd. injection Hrun as <- _ _.
  match type of Hadd with
  | same_frame ?c _ => apply (nulls_kept_trans _ _ c); [apply nulls_kept_upd_block |]
  end.
  apply (nulls_kept_trans _ _ ctx7); [apply nulls_kept_frame; exact Hadd |].
  apply nulls_kept_upd_block.
Qed.

Lemma factorize_supercolumn_nulls (ctx ctx' : multilu_context) (pivot_supercol : Z)
    (map_cols map_cols' : list Z) (only_child0 parent_has_job0 : bool) :
  factorize_supercolumn ctx pivot_supercol map_cols only_child0 parent_has_job0
  = Ok (ctx', map_cols') ->
  nulls_kept pivot_supercol ctx ctx'.
Proof.
  intros Hrun. unfold factorize_supercolumn in Hrun.
  apply bind_Ok in Hrun. destruct Hrun as (ctx0 & HL & Hrun).
  apply factorize_l_portion_prepared with (len := 0) in HL.
  apply nulls_kept_prepared in HL.
  apply (nulls_kept_trans _ _ ctx0); [exact HL |].
  apply bind_Ok in Hrun. destruct Hrun as (ctx1 & Hchild & Hrun).
  assert (H1 : nulls_kept pivot_supercol ctx0 ctx1).
  { destruct (has_one_child ctx pivot_supercol && (nproc ctx0 >? 1));
      [| injection Hchild as <-; apply nulls_kept_refl].
    apply bind_Ok in Hchild. destruct Hchild as (cfb & _ & Hchild).
    injection Hchild as <-.
    destruct (contrib_block cfb) as [ccb |]; [| apply nulls_kept_refl].
    destruct (_ >? 0); [apply nulls_kept_upd_block | apply nulls_kept_refl]. }
  apply (nulls_kept_trans _ _ ctx1); [exact H1 |].
  apply bind_Ok in Hrun. destruct Hrun as (b1 & _ & Hrun).
  destruct (valid b1 =? 0); [injection Hrun as <- _; apply nulls_kept_refl |].
  apply bind_Ok in Hrun. destruct Hrun as ([[ctx2 mc2] ru] & HU & Hrun).
  assert (H2 : nulls_kept pivot_supercol ctx1 ctx2).
  { destruct (fb_l_size b1 >? 0).
    - apply factorize_u_portion_nulls in HU. exact HU.
    - injection HU as <- _ _. apply nulls_kept_refl. }
  apply (nulls_kept_trans _ _ ctx2); [exact H2 |].
  match type of Hrun with
  | context [upd_block pivot_supercol ?f ctx2] =>
      set (ctx3 := upd_block pivot_supercol f ctx2) in *
  end.
  apply (nulls_kept_trans _ _ ctx3); [apply nulls_kept_upd_block |].
  apply bind_Ok in Hrun. destruct Hrun as (fb3 & _ & Hrun).
  apply bind_Ok in Hrun. destruct Hrun as (ctx4 & Hrm & Hrun).
  assert (H4 : nulls_kept pivot_supercol ctx3 ctx4).
  { destruct (_ || _).
    - apply remove_member_indication_frame in Hrm. apply nulls_kept_frame. exact Hrm.
    - injection Hrm as <-. apply nulls_kept_refl. }
  apply (nulls_kept_trans _ _ ctx4); [exact H4 |].
  unfold clear_indication in Hrun. injection Hrun as <- _. repeat split; auto.
Qed.

(** One turn of the sequential loop. *)
Lemma numeric_supercolumn_nulls (uninit : Z -> bool * bool) (i : Z)
    (ctx ctx' : multilu_context) :
  numeric_supercolumn uninit i ctx = Ok ctx' -> nulls_kept i ctx ctx'.
Proof.
  intros Hrun. unfold numeric_supercolumn in Hrun.
  destruct (get (sym_l_size (sym ctx)) i =? 0);
    [injection Hrun as <-; apply nulls_kept_refl |].
  apply bind_Ok in Hrun. destruct Hrun as (ctx1 & Halloc & Hrun).
  apply allocate_factor_block_prepared with (len := 0) in Halloc.
  apply nulls_kept_prepared in Halloc.
  apply (nulls_kept_trans _ _ ctx1); [exact Halloc |].
  apply bind_Ok in Hrun. destruct Hrun as (ctx2 & Hchildren & Hrun).
  assert (H2 : nulls_kept i ctx1 ctx2).
  { apply (forM_children_preserves (nulls_kept i ctx1)) with (3 := Hchildren);
      [| apply nulls_kept_refl].
    intros child t t' Ht Hb.
    apply focus_supercolumn_from_child_kept with (len := 0) in Hb.
    apply (nulls_kept_trans _ _ t); [exact Ht | apply nulls_kept_frame, Hb]. }
  apply (nulls_kept_trans _ _ ctx2); [exact H2 |].
  apply bind_Ok in Hrun. destruct Hrun as (ctx3 & HA & Hrun).
  apply focus_supercolumn_from_A_kept with (len := 0) in HA.
  apply (nulls_kept_trans _ _ ctx3); [apply nulls_kept_frame, HA |].
  apply bind_Ok in Hrun. destruct Hrun as ([ctx4 mc4] & Hfact & Hrun).
  apply factorize_supercolumn_nulls in Hfact. injection Hrun as <-.
  apply (nulls_kept_trans _ _ ctx4); [exact Hfact |]. repeat split; auto.
Qed.

(** The sequential loop leaves the block of a supercolumn null when the
    symbolic analysis gives the supercolumn no row. *)
Lemma numeric_loop_skips (uninit : Z -> bool * bool) (S i : Z) (ctx ctx' : multilu_context) :
  get (sym_l_size (sym ctx)) i = 0 ->
  block_ptr ctx i = None ->
  forM 0 S (numeric_supercolumn uninit) ctx = Ok ctx' ->
  block_ptr ctx' i = None /\ F_shape ctx' = F_shape ctx.
Proof.
  intros Hl Hnull Hrun.
  assert (H : ctx_symbolic ctx' = ctx_symbolic ctx /\ F_shape ctx' = F_shape ctx
              /\ block_ptr ctx' i = None).
  { apply (forM_preserves
             (fun c => ctx_symbolic c = ctx_symbolic ctx /\ F_shape c = F_shape ctx
                       /\ block_ptr c i = None)) with (3 := Hrun).
    - split; [reflexivity |]. split; [reflexivity | exact Hnull].
    - intros j t t' _ (Hs & HF & Hn) Hb.
      destruct (Z.eq_dec j i) as [-> | Hne].
      + unfold numeric_supercolumn, sym in Hb. unfold sym in Hl.
        rewrite Hs, Hl in Hb. cbn [Z.eqb] in Hb. injection Hb as <-.
        split; [exact Hs |]. split; [exact HF | exact Hn].
      + apply numeric_supercolumn_nulls in Hb. destruct Hb as (Hs' & _ & HF' & Hb).
        split; [congruence |]. split; [congruence |].
        apply Hb; [congruence | exact Hn]. }
  destruct H as (_ & HF & Hn). split; assumption.
Qed.

(** Claim C2, where the code departs from it.  When a block of the
    factor is missing the numeric factorization returns neither null
    nor a factor: the scan that finds the null block pointer frees the
    factor, and freeing the factor reads the fields of every block, the
    null one included.  A block is missing when the symbolic analysis
    gives its supercolumn no row ([l_size] is 0, the loop skips it), and
    every block is when several processors are asked for (no scheduler
    runs then). *)
Theorem numeric_missing_block_never_returns (uninit : Z -> bool * bool) (A : taucs_ccs_matrix)
    (symbolic : taucs_multilu_symbolic) (th : taucs_double) (np i : Z)
    (F : option taucs_multilu_factor) :
  0 <= i < number_supercolumns symbolic ->
  1 < np \/ get (sym_l_size symbolic) i = 0 ->
  taucs_ccs_factor_lu_numeric_maxdepth uninit A (Some symbolic) th np <> Ok F.
Proof.
  intros Hi Hcase Hrun. unfold taucs_ccs_factor_lu_numeric_maxdepth in Hrun.
  cbv zeta in Hrun.
  set (S := number_supercolumns symbolic) in *.
  set (ctx0 := multilu_context_create A symbolic th np _) in *.
  assert (H0 : block_ptr ctx0 i = None /\ F_shape ctx0 = (S, Z.to_nat S)).
  { unfold block_ptr, F_shape, ctx0.
    cbn [ctx_F multilu_context_create allocate_factor blocks num_blocks].
    rewrite length_replicate. split; [| reflexivity].
    destruct (i <? 0); [reflexivity |].
    rewrite lookup_replicate_2 by lia. reflexivity. }
  apply bind_Ok in Hrun. destruct Hrun as (ctx & Hloop & Hrun).
  assert (Hend : block_ptr ctx i = None /\ F_shape ctx = (S, Z.to_nat S)).
  { change (nproc ctx0) with np in Hloop.
    destruct (Z.gtb_spec np 1) as [Hgt | Hle].
    - injection Hloop as <-. exact H0.
    - destruct Hcase as [Hgt | Hl]; [lia |].
      destruct (first_root (etree symbolic) =? MULTILU_SYMBOLIC_NONE); [discriminate |].
      apply numeric_loop_skips with (i := i) in Hloop;
        [| exact Hl | apply H0].
      destruct Hloop as [Hn HF]. split; [exact Hn |]. rewrite HF. apply H0. }
  destruct Hend as [Hnull Hshape]. unfold F_shape in Hshape.
  injection Hshape as Hnum Hlen.
  assert (Hmiss : blocks (ctx_F ctx) !! Z.to_nat i = Some None).
  { unfold block_ptr in Hnull. destruct (Z.ltb_spec i 0); [lia |].
    destruct (lookup_lt_is_Some_2 (blocks (ctx_F ctx)) (Z.to_nat i)) as [x Hx]; [lia |].
    rewrite Hx in Hnull. simpl in Hnull. rewrite Hx, Hnull. reflexivity. }
  rewrite (first_bad_block_missing _ (Z.to_nat i)) in Hrun.
  - rewrite (factor_free_missing_block (ctx_F ctx) i) in Hrun; [discriminate | lia |].
    right. exact Hmiss.
  - rewrite lookup_take_lt by lia. exact Hmiss.
Qed.

(** ** Columns of a dense block *)

Lemma length_updT (a : list T) (i : Z) (v : T) : length (updT a i v) = length a.
Proof. unfold updT. destruct (i <? 0); [reflexivity | apply length_insert]. Qed.

Lemma getT_updT_eq (a : list T) (i : Z) (v : T) :
  0 <= i < Z.of_nat (length a) -> getT (updT a i v) i = v.
Proof.
  intros H. unfold getT, updT.
  destruct (i <? 0) eqn:E; [lia |].
  rewrite list_lookup_insert_eq by lia. reflexivity.
Qed.

Lemma getT_updT_ne (a : list T) (i j : Z) (v : T) :
  i <> j -> getT (updT a i v) j = getT a j.
Proof.
  intros H. unfold getT, updT.
  destruct (j <? 0) eqn:Ej; [reflexivity |].
  destruct (i <? 0) eqn:Ei; [reflexivity |].
  rewrite list_lookup_insert_ne by lia. reflexivity.
Qed.

Lemma getT_lookup (a : list T) (i : nat) (v : T) :
  a !! i = Some v -> getT a (Z.of_nat i) = v.
Proof.
  intros H. unfold getT. destruct (Z.ltb_spec (Z.of_nat i) 0); [lia |].
  rewrite Nat2Z.id, H. reflexivity.
Qed.

(** Two cells of a matrix of leading dimension [ld] that lie in the
    first [ld] rows of their columns are the same cell only in the same
    column. *)
Lemma same_cell (ld x y c c' : Z) :
  0 <= x < ld -> 0 <= y < ld -> x + c * ld = y + c' * ld -> c = c' /\ x = y.
Proof.
  intros Hx Hy Heq.
  assert (Hc : c = c').
  { destruct (Z.lt_trichotomy c c') as [Hlt | [Heq' | Hgt]]; [| exact Heq' |].
    - assert (c' * ld >= (c + 1) * ld) by nia. lia.
    - assert (c * ld >= (c' + 1) * ld) by nia. lia. }
  subst c'. split; [reflexivity | lia].
Qed.

(** What [write_col] leaves in the array: the column, from [off + c * ld]
    on, and the other cells as they were. *)
Lemma write_col_spec (off ld c : Z) (col : list T) :
  forall (a : list T) (j0 : Z),
    0 <= j0 ->
    let r := fold_left (fun '(a, j) v => (updT a (off + j + c * ld) v, j + 1)) col (a, j0) in
    length (fst r) = length a
    /\ (forall (q : nat) (v : T),
          col !! q = Some v ->
          0 <= off + (j0 + Z.of_nat q) + c * ld < Z.of_nat (length a) ->
          getT (fst r) (off + (j0 + Z.of_nat q) + c * ld) = v)
    /\ (forall p,
          (forall q, 0 <= q < Z.of_nat (length col) -> p <> off + (j0 + q) + c * ld) ->
          getT (fst r) p = getT a p).
Proof.
  induction col as [| v0 col IH]; intros a j0 Hj0; simpl.
  - split; [reflexivity |]. split; [intros q v Hq; discriminate | reflexivity].
  - specialize (IH (updT a (off + j0 + c * ld) v0) (j0 + 1) ltac:(lia)).
    simpl in IH. destruct IH as (Hlen & Hin & Hout).
    rewrite length_updT in Hlen, Hin.
    split; [exact Hlen |]. split.
    + intros q v Hq Hrange. destruct q as [| q]; simpl in Hq.
      * injection Hq as <-. rewrite Hout.
        -- replace (off + (j0 + Z.of_nat 0) + c * ld) with (off + j0 + c * ld) in * by lia.
           apply getT_updT_eq. exact Hrange.
        -- intros q' Hq'. lia.
      * replace (off + (j0 + Z.of_nat (S q)) + c * ld)
          with (off + (j0 + 1 + Z.of_nat q) + c * ld) in * by lia.
        apply Hin; assumption.
    + intros p Hp. rewrite Hout.
      * apply getT_updT_ne. specialize (Hp 0 ltac:(lia)). lia.
      * intros q Hq. specialize (Hp (q + 1) ltac:(lia)). lia.
Qed.

(** What [write_cols] leaves in the array, for columns of [m] rows that
    do not reach the next column ([m <= ld]). *)
Lemma write_cols_spec (off ld m : Z) (cols : list (list T)) :
  0 <= m ->
  (forall col, col ∈ cols -> Z.of_nat (length col) = m) ->
  forall (a : list T) (c0 : Z),
    let r := fold_left (fun '(a, c) col => (write_col off ld a c col, c + 1)) cols (a, c0) in
    length (fst r) = length a
    /\ (forall (i q : nat) (col : list T) (v : T),
          0 <= off -> off + m <= ld ->
          cols !! i = Some col -> col !! q = Some v ->
          0 <= off + Z.of_nat q + (c0 + Z.of_nat i) * ld < Z.of_nat (length a) ->
          getT (fst r) (off + Z.of_nat q + (c0 + Z.of_nat i) * ld) = v)
    /\ (forall p,
          (forall i q, 0 <= i < Z.of_nat (length cols) -> 0 <= q < m ->
             p <> off + q + (c0 + i) * ld) ->
          getT (fst r) p = getT a p).
Proof.
  intros Hm. induction cols as [| col0 cols IH]; intros Hlens a c0; simpl.
  - split; [reflexivity |]. split; [intros i q col v _ _ Hi; discriminate | reflexivity].
  - assert (Hlen0 : Z.of_nat (length col0) = m) by (apply Hlens; left).
    assert (Hlens' : forall col, col ∈ cols -> Z.of_nat (length col) = m)
      by (intros col Hcol; apply Hlens; right; exact Hcol).
    destruct (write_col_spec off ld c0 col0 a 0 ltac:(lia)) as (Wlen & Win & Wout).
    fold (write_col off ld a c0 col0) in Wlen, Win, Wout.
    specialize (IH Hlens' (write_col off ld a c0 col0) (c0 + 1)).
    simpl in IH. destruct IH as (Hlen & Hin & Hout).
    rewrite Wlen in Hlen, Hin.
    split; [exact Hlen |]. split.
    + intros i q col v Hoff Hfit Hi Hq Hrange. destruct i as [| i]; simpl in Hi.
      * injection Hi as <-. rewrite Hout.
        -- replace (off + Z.of_nat q + (c0 + Z.of_nat 0) * ld)
             with (off + (0 + Z.of_nat q) + c0 * ld) in * by lia.
           apply Win; assumption.
        -- intros i' q' Hi' Hq' Heq.
           assert (Hq0 : Z.of_nat q < m)
             by (apply lookup_lt_Some in Hq; lia).
           apply (same_cell ld (off + Z.of_nat q) (off + q') (c0 + Z.of_nat 0)
                    (c0 + 1 + i')) in Heq; lia.
      * replace (off + Z.of_nat q + (c0 + Z.of_nat (S i)) * ld)
          with (off + Z.of_nat q + (c0 + 1 + Z.of_nat i) * ld) in *
          by (f_equal; f_equal; lia).
        apply (Hin i q col v); assumption.
    + intros p Hp. rewrite Hout.
      * apply Wout. intros q Hq. specialize (Hp 0 q).
        cbn [length] in Hp.
        replace (off + (0 + q) + c0 * ld) with (off + q + (c0 + 0) * ld) by lia.
        apply Hp; lia.
      * intros i q Hi Hq. specialize (Hp (i + 1) q).
        cbn [length] in Hp.
        replace (off + q + (c0 + 1 + i) * ld) with (off + q + (c0 + (i + 1)) * ld)
          by (f_equal; f_equal; lia).
        apply Hp; lia.
Qed.

Lemma iter_from_rel {A B : Type} (R : A -> B -> Prop) (f : Z -> A -> A) (g : Z -> B -> B) :
  forall (k : nat) (i : Z) (a : A) (b : B),
    R a b ->
    (forall j x y, i <= j < i + Z.of_nat k -> R x y -> R (f j x) (g j y)) ->
    R (iter_from k i f a) (iter_from k i g b).
Proof.
  induction k as [| k IH]; intros i a b H0 Hstep; simpl; [exact H0 |].
  apply IH.
  - apply Hstep; [lia | exact H0].
  - intros j x y Hj. apply Hstep. lia.
Qed.

(** Two loops over the same range, run side by side. *)
Lemma for_rel {A B : Type} (R : A -> B -> Prop) (lo hi : Z) (f : Z -> A -> A)
    (g : Z -> B -> B) (a : A) (b : B) :
  R a b ->
  (forall j x y, lo <= j < hi -> R x y -> R (f j x) (g j y)) ->
  R (for_ lo hi f a) (for_ lo hi g b).
Proof.
  intros H0 Hstep. unfold for_. apply iter_from_rel; [exact H0 |].
  intros j x y Hj. apply Hstep. lia.
Qed.

Lemma peek_poke_other (mem : memory) (b b' : buffer) (i j : Z) (v : T) :
  b <> b' -> peek (poke b i v mem) b' j = peek mem b' j.
Proof. intros H. unfold peek. rewrite poke_other by exact H. reflexivity. Qed.

(** ** One right-hand side among many *)

Section Columns.

(** The number of right-hand sides and the one that is followed. *)
Variables nrhs c : Z.
Hypothesis Hc : 0 <= c < nrhs.

(** The array [a1] holds the first [R] rows of the column [c] of the
    array [a], whose leading dimension is [ld]. *)
Definition win (ld R : Z) (a a1 : list T) : Prop :=
  c * ld + R <= Z.of_nat (length a)
  /\ R <= Z.of_nat (length a1)
  /\ forall j, 0 <= j < R -> getT a (j + c * ld) = getT a1 j.

(** The inner loop of a copy: the rows of one column. *)
Definition copy_col (rows : Z) (dst : buffer) (dj : Z -> Z) (ld_dst : Z)
    (src : buffer) (sj : Z -> Z) (ld_src : Z) (c' : Z) (mem : memory) : memory :=
  for_ 0 rows (fun j mem =>
    poke dst (dj j + c' * ld_dst) (peek mem src (sj j + c' * ld_src)) mem) mem.

Lemma copy_col_other (rows : Z) (dst : buffer) (dj : Z -> Z) (ld_dst : Z)
    (src : buffer) (sj : Z -> Z) (ld_src : Z) (c' : Z) (mem : memory) (b : buffer) :
  dst <> b -> copy_col rows dst dj ld_dst src sj ld_src c' mem b = mem b.
Proof.
  intros Hb. unfold copy_col.
  apply (for_preserves (fun u : memory => u b = mem b)); [reflexivity |].
  intros j u _ Hu. rewrite poke_other by exact Hb. exact Hu.
Qed.

(** A column other than [c] is copied without touching the column [c]. *)
Lemma copy_col_elsewhere (rows : Z) (dst : buffer) (dj : Z -> Z) (ld_dst R : Z)
    (src : buffer) (sj : Z -> Z) (ld_src : Z) (c' : Z) (mem : memory) :
  c' <> c -> 0 <= R <= ld_dst ->
  (forall j, 0 <= j < rows -> 0 <= dj j < R) ->
  length (copy_col rows dst dj ld_dst src sj ld_src c' mem dst) = length (mem dst)
  /\ forall j, 0 <= j < R ->
       getT (copy_col rows dst dj ld_dst src sj ld_src c' mem dst) (j + c * ld_dst)
       = getT (mem dst) (j + c * ld_dst).
Proof.
  intros Hc' HR Hdj. unfold copy_col.
  apply (for_preserves (fun u : memory =>
           length (u dst) = length (mem dst)
           /\ forall j, 0 <= j < R ->
                getT (u dst) (j + c * ld_dst) = getT (mem dst) (j + c * ld_dst)));
    [split; reflexivity |].
  intros j u Hj [Hlen Hu]. unfold poke. rewrite mem_put_same, length_updT.
  split; [exact Hlen |].
  intros j' Hj'. rewrite getT_updT_ne; [apply Hu; exact Hj' |].
  intros Heq. specialize (Hdj j Hj).
  apply (same_cell ld_dst (dj j) j' c' c) in Heq; lia.
Qed.

(** The column [c] is copied as the one column of a single right-hand
    side is. *)
Lemma copy_col_win (rows : Z) (dst : buffer) (dj : Z -> Z) (ld_dst ld_dst1 Rd : Z)
    (src : buffer) (sj : Z -> Z) (ld_src ld_src1 Rs : Z) (M S : memory) :
  dst <> src ->
  0 <= Rd <= ld_dst -> 0 <= ld_src ->
  (forall j, 0 <= j < rows -> 0 <= dj j < Rd /\ 0 <= sj j < Rs) ->
  win ld_dst Rd (M dst) (S dst) ->
  win ld_src Rs (M src) (S src) ->
  win ld_dst Rd (copy_col rows dst dj ld_dst src sj ld_src c M dst)
    (copy_col rows dst dj ld_dst1 src sj ld_src1 0 S dst).
Proof.
  intros Hds HRd Hlds Hidx Hwd Hws. unfold copy_col.
  apply (for_rel (fun u s : memory =>
           u src = M src /\ s src = S src /\ win ld_dst Rd (u dst) (s dst)));
    [split; [reflexivity | split; [reflexivity | exact Hwd]] |].
  intros j u s Hj (Hu & Hs & (Lu & Ls & Hwin)).
  destruct (Hidx j Hj) as [Hdj Hsj].
  destruct Hws as (_ & _ & Hsrc).
  split; [rewrite poke_other by exact Hds; exact Hu |].
  split; [rewrite poke_other by exact Hds; exact Hs |].
  unfold poke, peek, win. rewrite !mem_put_same, !length_updT, Hu, Hs.
  rewrite Hsrc by exact Hsj.
  replace (sj j + 0 * ld_src1) with (sj j) by lia.
  replace (dj j + 0 * ld_dst1) with (dj j) by lia.
  split; [exact Lu |]. split; [exact Ls |].
  intros j' Hj'. destruct (Z.eq_dec j' (dj j)) as [-> | Hne].
  - rewrite !getT_updT_eq; [reflexivity | lia | nia].
  - rewrite !getT_updT_ne by lia. apply Hwin. exact Hj'.
Qed.

(** [copy_rows] for [nrhs] right-hand sides and for one. *)
Lemma copy_rows_win (rows : Z) (dst : buffer) (dj : Z -> Z) (ld_dst ld_dst1 Rd : Z)
    (src : buffer) (sj : Z -> Z) (ld_src ld_src1 Rs : Z) (M S : memory) :
  dst <> src ->
  0 <= Rd <= ld_dst -> 0 <= ld_src ->
  (forall j, 0 <= j < rows -> 0 <= dj j < Rd /\ 0 <= sj j < Rs) ->
  win ld_dst Rd (M dst) (S dst) ->
  win ld_src Rs (M src) (S src) ->
  win ld_dst Rd (copy_rows nrhs rows dst dj ld_dst src sj ld_src M dst)
    (copy_rows 1 rows dst dj ld_dst1 src sj ld_src1 S dst).
Proof.
  intros Hds HRd Hlds Hidx Hwd Hws.
  assert (Hdj : forall j, 0 <= j < rows -> 0 <= dj j < Rd)
    by (intros j Hj; apply Hidx; exact Hj).
  change (copy_rows 1 rows dst dj ld_dst1 src sj ld_src1 S)
    with (copy_col rows dst dj ld_dst1 src sj ld_src1 0 S).
  set (S1 := copy_col rows dst dj ld_dst1 src sj ld_src1 0 S).
  unfold copy_rows.
  change (fun (c0 : Z) (mem : memory) =>
            for_ 0 rows (fun j mem0 =>
              poke dst (dj j + c0 * ld_dst) (peek mem0 src (sj j + c0 * ld_src)) mem0) mem)
    with (fun (c0 : Z) (mem : memory) =>
            copy_col rows dst dj ld_dst src sj ld_src c0 mem).
  assert (Hloop :
    forall hi, 0 <= hi ->
      let u := for_ 0 hi (fun c0 mem => copy_col rows dst dj ld_dst src sj ld_src c0 mem) M in
      u src = M src
      /\ (hi <= c -> win ld_dst Rd (u dst) (S dst))
      /\ (c < hi -> win ld_dst Rd (u dst) (S1 dst))).
  { intros hi Hhi. simpl.
    apply (for_inv (fun i (u : memory) =>
             u src = M src
             /\ (i <= c -> win ld_dst Rd (u dst) (S dst))
             /\ (c < i -> win ld_dst Rd (u dst) (S1 dst))));
      [exact Hhi | split; [reflexivity | split; [intros _; exact Hwd | intros; lia]] |].
    intros i u Hi (Hu & Hbefore & Hafter).
    split; [rewrite copy_col_other by exact Hds; exact Hu |].
    destruct (Z.eq_dec i c) as [-> | Hne].
    - split; [intros; lia | intros _].
      apply (copy_col_win rows dst dj ld_dst ld_dst1 Rd src sj ld_src ld_src1 Rs);
        try assumption.
      + apply Hbefore. lia.
      + rewrite Hu. exact Hws.
    - destruct (copy_col_elsewhere rows dst dj ld_dst Rd src sj ld_src i u Hne HRd Hdj)
        as [Hlen Hsame].
      split.
      + intros Hle. destruct (Hbefore ltac:(lia)) as (L1 & L2 & Hw).
        split; [rewrite Hlen; exact L1 |]. split; [exact L2 |].
        intros j Hj. rewrite Hsame by exact Hj. apply Hw. exact Hj.
      + intros Hlt. destruct (Hafter ltac:(lia)) as (L1 & L2 & Hw).
        split; [rewrite Hlen; exact L1 |]. split; [exact L2 |].
        intros j Hj. rewrite Hsame by exact Hj. apply Hw. exact Hj. }
  destruct (Hloop nrhs ltac:(lia)) as (_ & _ & Hafter). apply Hafter. lia.
Qed.

Lemma length_seqZ' (m : Z) : 0 <= m -> Z.of_nat (length (seqZ 0 m)) = m.
Proof. intros Hm. rewrite length_seqZ. lia. Qed.

Lemma read_cols_length (a : list T) (off ld m n : Z) :
  length (read_cols a off ld m n) = Z.to_nat n.
Proof. unfold read_cols. rewrite length_map, length_seqZ. reflexivity. Qed.

Lemma read_cols_rows (a : list T) (off ld m n : Z) (col : list T) :
  0 <= m -> col ∈ read_cols a off ld m n -> Z.of_nat (length col) = m.
Proof.
  intros Hm Hcol. unfold read_cols in Hcol.
  apply list_elem_of_In, in_map_iff in Hcol. destruct Hcol as (c' & <- & _).
  rewrite length_map. apply length_seqZ'. exact Hm.
Qed.

Lemma read_cols_lookup (a : list T) (off ld m n c' : Z) :
  0 <= c' < n ->
  read_cols a off ld m n !! Z.to_nat c'
  = Some (map (fun j => getT a (off + j + c' * ld)) (seqZ 0 m)).
Proof.
  intros Hc'. unfold read_cols.
  change (map (fun c0 => map (fun j => getT a (off + j + c0 * ld)) (seqZ 0 m)) (seqZ 0 n))
    with ((fun c0 => map (fun j => getT a (off + j + c0 * ld)) (seqZ 0 m)) <$> seqZ 0 n).
  rewrite list_lookup_fmap, lookup_seqZ_lt by lia. simpl.
  replace (0 + Z.of_nat (Z.to_nat c')) with c' by lia. reflexivity.
Qed.

Lemma read_cols_one (a : list T) (off ld m : Z) :
  read_cols a off ld m 1 = [map (fun j => getT a (off + j + 0 * ld)) (seqZ 0 m)].
Proof. reflexivity. Qed.

(** The column [c] read in the array of [nrhs] columns is the column
    read in the array of one. *)
Lemma read_col_win (ld ld1 R off m : Z) (a a1 : list T) :
  win ld R a a1 -> 0 <= off -> off + m <= R ->
  map (fun j => getT a (off + j + c * ld)) (seqZ 0 m)
  = map (fun j => getT a1 (off + j + 0 * ld1)) (seqZ 0 m).
Proof.
  intros (_ & _ & Hwin) Hoff Hfit. apply map_ext_in. intros j Hj.
  apply list_elem_of_In, elem_of_seqZ in Hj.
  replace (off + j + 0 * ld1) with (off + j) by lia. apply Hwin. lia.
Qed.

(** Writing [nrhs] columns of [m] rows, of which the column [c] is
    [out], against writing the one column [out]. *)
Lemma write_cols_win (ld ld1 R off m : Z) (a a1 : list T) (outs : list (list T))
    (out : list T) :
  win ld R a a1 ->
  0 <= off -> 0 <= m -> off + m <= R -> R <= ld -> R <= ld1 ->
  length outs = Z.to_nat nrhs ->
  (forall col, col ∈ outs -> Z.of_nat (length col) = m) ->
  outs !! Z.to_nat c = Some out ->
  win ld R (write_cols a off ld outs) (write_cols a1 off ld1 [out]).
Proof.
  intros (La & La1 & Hwin) Hoff Hm Hfit Hld Hld1 Hn Hrows Hout.
  assert (Hlen_out : Z.of_nat (length out) = m).
  { apply Hrows. apply list_elem_of_lookup. exists (Z.to_nat c). exact Hout. }
  destruct (write_cols_spec off ld m outs Hm Hrows a 0) as (Wlen & Win & Wout).
  assert (Hrows1 : forall col, col ∈ [out] -> Z.of_nat (length col) = m).
  { intros col Hcol. apply list_elem_of_singleton in Hcol. rewrite Hcol. exact Hlen_out. }
  destruct (write_cols_spec off ld1 m [out] Hm Hrows1 a1 0) as (Wlen1 & Win1 & Wout1).
  fold (write_cols a off ld outs) in Wlen, Win, Wout.
  fold (write_cols a1 off ld1 [out]) in Wlen1, Win1, Wout1.
  split; [rewrite Wlen; exact La |]. split; [rewrite Wlen1; exact La1 |].
  intros j Hj.
  destruct (Z_le_gt_dec off j) as [Hge | Hlt];
    [destruct (Z_lt_ge_dec j (off + m)) as [Hin | Hbeyond] |].
  - (* a row of the block written *)
    destruct (lookup_lt_is_Some_2 out (Z.to_nat (j - off)) ltac:(lia)) as [v Hv].
    specialize (Win (Z.to_nat c) (Z.to_nat (j - off)) out v Hoff ltac:(lia) Hout Hv).
    specialize (Win1 O (Z.to_nat (j - off)) out v Hoff ltac:(lia) eq_refl Hv).
    rewrite (Z2Nat.id c), (Z2Nat.id (j - off)) in Win by lia.
    rewrite (Z2Nat.id (j - off)) in Win1 by lia. change (Z.of_nat 0) with 0 in Win1.
    replace (off + (j - off) + (0 + c) * ld) with (j + c * ld) in Win by lia.
    replace (off + (j - off) + (0 + 0) * ld1) with j in Win1 by lia.
    rewrite Win, Win1; [reflexivity | lia | nia].
  - rewrite Wout, Wout1.
    + apply Hwin. exact Hj.
    + intros i q Hi Hq. cbn [length] in Hi.
      assert (i = 0) as -> by lia. lia.
    + intros i q Hi Hq Heq.
      apply (same_cell ld j (off + q) c (0 + i)) in Heq; lia.
  - rewrite Wout, Wout1.
    + apply Hwin. exact Hj.
    + intros i q Hi Hq. cbn [length] in Hi.
      assert (i = 0) as -> by lia. lia.
    + intros i q Hi Hq Heq.
      apply (same_cell ld j (off + q) c (0 + i)) in Heq; lia.
Qed.

(** *** Kernels that work column by column

    A solve kernel is column-local when, on [n] right-hand sides of the
    expected shape, it yields for every column what it yields on that
    column alone, with as many rows. *)
Definition column_of1 (K : Z -> Z -> matrix_ref -> list (list T) -> list (list T))
    (m : Z) (L : matrix_ref) (col : list T) : list T :=
  default col (head (K m 1 L [col])).

Definition column_local1 (K : Z -> Z -> matrix_ref -> list (list T) -> list (list T))
  : Prop :=
  forall m n L cols,
    0 <= m -> length cols = Z.to_nat n ->
    (forall col, col ∈ cols -> Z.of_nat (length col) = m) ->
    K m n L cols = map (column_of1 K m L) cols
    /\ forall col, col ∈ cols -> length (column_of1 K m L col) = length col.

Definition column_of2
    (K : Z -> Z -> Z -> matrix_ref -> list (list T) -> list (list T) -> list (list T))
    (m kk : Z) (A : matrix_ref) (b col : list T) : list T :=
  default col (head (K m 1 kk A [b] [col])).

Definition column_local2
    (K : Z -> Z -> Z -> matrix_ref -> list (list T) -> list (list T) -> list (list T))
  : Prop :=
  forall m n kk A Bs Cs,
    0 <= m -> 0 <= kk ->
    length Bs = Z.to_nat n -> length Cs = Z.to_nat n ->
    (forall b, b ∈ Bs -> Z.of_nat (length b) = kk) ->
    (forall col, col ∈ Cs -> Z.of_nat (length col) = m) ->
    K m n kk A Bs Cs = zip_with (column_of2 K m kk A) Bs Cs
    /\ forall b col, b ∈ Bs -> col ∈ Cs -> length (column_of2 K m kk A b col) = length col.

Lemma read_col_rows (a : list T) (f : Z -> Z) (m : Z) :
  0 <= m -> Z.of_nat (length (map (fun j => getT a (f j)) (seqZ 0 m))) = m.
Proof. intros Hm. rewrite length_map. apply length_seqZ'. exact Hm. Qed.

(** A column-local kernel applied in place to a block of [nrhs] columns
    and to the block of one. *)
Lemma kernel1_win (K : Z -> Z -> matrix_ref -> list (list T) -> list (list T))
    (ld ld1 R off m : Z) (L : matrix_ref) (a a1 : list T) :
  column_local1 K ->
  win ld R a a1 ->
  0 <= off -> 0 <= m -> off + m <= R -> R <= ld -> R <= ld1 ->
  win ld R (write_cols a off ld (K m nrhs L (read_cols a off ld m nrhs)))
    (write_cols a1 off ld1 (K m 1 L (read_cols a1 off ld1 m 1))).
Proof.
  intros HK Hwin Hoff Hm Hfit Hld Hld1.
  destruct (HK m nrhs L (read_cols a off ld m nrhs) Hm
              (read_cols_length a off ld m nrhs)
              (fun col => read_cols_rows a off ld m nrhs col Hm)) as [E Hlen].
  destruct (HK m 1 L (read_cols a1 off ld1 m 1) Hm
              (read_cols_length a1 off ld1 m 1)
              (fun col => read_cols_rows a1 off ld1 m 1 col Hm)) as [E1 _].
  rewrite E, E1, read_cols_one. cbn [map].
  apply (write_cols_win ld ld1 R off m a a1 _ _ Hwin Hoff Hm Hfit Hld Hld1).
  - rewrite length_map. apply read_cols_length.
  - intros col Hcol. apply list_elem_of_In, in_map_iff in Hcol.
    destruct Hcol as (col0 & <- & Hcol0). apply list_elem_of_In in Hcol0.
    rewrite (Hlen col0 Hcol0). apply (read_cols_rows a off ld m nrhs col0 Hm Hcol0).
  - change (map (column_of1 K m L) (read_cols a off ld m nrhs))
      with (column_of1 K m L <$> read_cols a off ld m nrhs).
    rewrite list_lookup_fmap, read_cols_lookup by exact Hc. simpl.
    rewrite (read_col_win ld ld1 R off m a a1 Hwin Hoff Hfit). reflexivity.
Qed.

(** A column-local update [C <- C + op(A) B] of a block of [nrhs]
    columns and of the block of one; [B] is read in [aX], [C] in [aT]. *)
Lemma kernel2_win
    (K : Z -> Z -> Z -> matrix_ref -> list (list T) -> list (list T) -> list (list T))
    (ldX ldX1 RX offX kk : Z) (A : matrix_ref) (aX aX1 : list T)
    (ldT ldT1 RT offT m : Z) (aT aT1 : list T) :
  column_local2 K ->
  win ldX RX aX aX1 ->
  win ldT RT aT aT1 ->
  0 <= offX -> 0 <= kk -> offX + kk <= RX ->
  0 <= offT -> 0 <= m -> offT + m <= RT -> RT <= ldT -> RT <= ldT1 ->
  win ldT RT
    (write_cols aT offT ldT
       (K m nrhs kk A (read_cols aX offX ldX kk nrhs) (read_cols aT offT ldT m nrhs)))
    (write_cols aT1 offT ldT1
       (K m 1 kk A (read_cols aX1 offX ldX1 kk 1) (read_cols aT1 offT ldT1 m 1))).
Proof.
  intros HK HwX HwT HoffX Hkk HfitX HoffT Hm HfitT Hld Hld1.
  destruct (HK m nrhs kk A (read_cols aX offX ldX kk nrhs) (read_cols aT offT ldT m nrhs)
              Hm Hkk (read_cols_length _ _ _ _ _) (read_cols_length _ _ _ _ _)
              (fun b => read_cols_rows aX offX ldX kk nrhs b Hkk)
              (fun col => read_cols_rows aT offT ldT m nrhs col Hm)) as [E Hlen].
  destruct (HK m 1 kk A (read_cols aX1 offX ldX1 kk 1) (read_cols aT1 offT ldT1 m 1)
              Hm Hkk (read_cols_length _ _ _ _ _) (read_cols_length _ _ _ _ _)
              (fun b => read_cols_rows aX1 offX ldX1 kk 1 b Hkk)
              (fun col => read_cols_rows aT1 offT ldT1 m 1 col Hm)) as [E1 _].
  rewrite E, E1, !read_cols_one. cbn [zip_with].
  apply (write_cols_win ldT ldT1 RT offT m aT aT1 _ _ HwT HoffT Hm HfitT Hld Hld1).
  - rewrite length_zip_with, !read_cols_length. lia.
  - intros col Hcol. apply elem_of_lookup_zip_with in Hcol.
    destruct Hcol as (i & b0 & col0 & -> & Hb0 & Hcol0).
    rewrite (Hlen b0 col0).
    + apply (read_cols_rows aT offT ldT m nrhs col0 Hm).
      apply list_elem_of_lookup. exists i. exact Hcol0.
    + apply list_elem_of_lookup. exists i. exact Hb0.
    + apply list_elem_of_lookup. exists i. exact Hcol0.
  - rewrite lookup_zip_with, !read_cols_lookup by exact Hc. simpl.
    rewrite (read_col_win ldX ldX1 RX offX kk aX aX1 HwX HoffX HfitX).
    rewrite (read_col_win ldT ldT1 RT offT m aT aT1 HwT HoffT HfitT). reflexivity.
Qed.

(** *** The arrays of a solve, side by side

    For every array that a pass of the solve works on: its leading
    dimension with [nrhs] right-hand sides and with one, and the rows of
    a column that are followed. *)
Record geometry : Type := {
  g_ld : buffer -> Z;
  g_ld1 : buffer -> Z;
  g_rows : buffer -> Z;
  g_tracked : buffer -> bool
}.

Definition sim (G : geometry) (M S : memory) : Prop :=
  forall b, g_tracked G b = true -> win (g_ld G b) (g_rows G b) (M b) (S b).

Lemma sim_copy_rows (G : geometry) (M S : memory) (rows : Z) (dst : buffer) (dj : Z -> Z)
    (src : buffer) (sj : Z -> Z) :
  sim G M S ->
  g_tracked G dst = true -> g_tracked G src = true -> dst <> src ->
  0 <= g_rows G dst <= g_ld G dst -> 0 <= g_ld G src ->
  (forall j, 0 <= j < rows -> 0 <= dj j < g_rows G dst /\ 0 <= sj j < g_rows G src) ->
  sim G (copy_rows nrhs rows dst dj (g_ld G dst) src sj (g_ld G src) M)
    (copy_rows 1 rows dst dj (g_ld1 G dst) src sj (g_ld1 G src) S).
Proof.
  intros Hsim Hd Hs Hds HR Hld Hidx b Hb.
  destruct (decide (dst = b)) as [<- | Hne].
  - apply (copy_rows_win rows dst dj (g_ld G dst) (g_ld1 G dst) (g_rows G dst)
             src sj (g_ld G src) (g_ld1 G src) (g_rows G src)); auto.
  - rewrite !copy_rows_other by exact Hne. apply Hsim. exact Hb.
Qed.

Lemma sim_kernel1 (G : geometry) (M S : memory)
    (K : Z -> Z -> matrix_ref -> list (list T) -> list (list T))
    (X : buffer) (off m : Z) (L : matrix_ref) :
  column_local1 K ->
  sim G M S ->
  g_tracked G X = true ->
  0 <= off -> 0 <= m -> off + m <= g_rows G X ->
  g_rows G X <= g_ld G X -> g_rows G X <= g_ld1 G X ->
  sim G
    (mem_put X (write_cols (M X) off (g_ld G X)
                  (K m nrhs L (read_cols (M X) off (g_ld G X) m nrhs))) M)
    (mem_put X (write_cols (S X) off (g_ld1 G X)
                  (K m 1 L (read_cols (S X) off (g_ld1 G X) m 1))) S).
Proof.
  intros HK Hsim HX Hoff Hm Hfit Hld Hld1 b Hb.
  destruct (decide (X = b)) as [<- | Hne].
  - rewrite !mem_put_same. apply kernel1_win; auto.
  - rewrite !mem_put_other by exact Hne. apply Hsim. exact Hb.
Qed.

Lemma sim_kernel2 (G : geometry) (M S : memory)
    (K : Z -> Z -> Z -> matrix_ref -> list (list T) -> list (list T) -> list (list T))
    (X Tb : buffer) (offX kk offT m : Z) (A : matrix_ref) :
  column_local2 K ->
  sim G M S ->
  g_tracked G X = true -> g_tracked G Tb = true ->
  0 <= offX -> 0 <= kk -> offX + kk <= g_rows G X ->
  0 <= offT -> 0 <= m -> offT + m <= g_rows G Tb ->
  g_rows G Tb <= g_ld G Tb -> g_rows G Tb <= g_ld1 G Tb ->
  sim G
    (mem_put Tb (write_cols (M Tb) offT (g_ld G Tb)
                   (K m nrhs kk A (read_cols (M X) offX (g_ld G X) kk nrhs)
                      (read_cols (M Tb) offT (g_ld G Tb) m nrhs))) M)
    (mem_put Tb (write_cols (S Tb) offT (g_ld1 G Tb)
                   (K m 1 kk A (read_cols (S X) offX (g_ld1 G X) kk 1)
                      (read_cols (S Tb) offT (g_ld1 G Tb) m 1))) S).
Proof.
  intros HK Hsim HX HT HoffX Hkk HfitX HoffT Hm HfitT Hld Hld1 b Hb.
  destruct (decide (Tb = b)) as [<- | Hne].
  - rewrite !mem_put_same.
    apply (kernel2_win K (g_ld G X) (g_ld1 G X) (g_rows G X) offX kk A (M X) (S X)
             (g_ld G Tb) (g_ld1 G Tb) (g_rows G Tb) offT m (M Tb) (S Tb)); auto.
  - rewrite !mem_put_other by exact Hne. apply Hsim. exact Hb.
Qed.

(** *** The blocks of a factor *)

Variable F : taucs_multilu_factor.
Variables ld_X ld_B : Z.

Hypothesis HLL : column_local1 taucs_UnitLowerLeftTriSolve.
Hypothesis HUL : column_local1 taucs_UpperLeftTriSolve.
Hypothesis HAB : column_local2 taucs_CaddMAB.
Hypothesis HATB : column_local2 taucs_CaddMATB.

Hypothesis Hdims : 0 <= F_n F <= F_m F.
Hypothesis HldB : F_m F <= ld_B.
Hypothesis HldX : F_n F <= ld_X.

(** The numbers and the indices of a block fit the factor. *)
Definition block_ok (b : multilu_factor_block) : Prop :=
  0 <= row_pivots_number b
  /\ 0 <= non_pivot_rows_number b <= F_n F
  /\ 0 <= col_pivots_number b
  /\ 0 <= non_pivot_cols_number b <= F_n F
  /\ (forall j, 0 <= j < row_pivots_number b -> 0 <= get (pivot_rows b) j < F_m F)
  /\ (forall j, 0 <= j < non_pivot_rows_number b ->
        0 <= get (pivot_rows b) (non_pivot_rows b + j) < F_m F)
  /\ (forall j, 0 <= j < col_pivots_number b -> 0 <= get (pivot_cols b) j < F_n F)
  /\ (forall j, 0 <= j < non_pivot_cols_number b ->
        0 <= get (pivot_cols b) (non_pivot_cols b + j) < F_n F).

(** The forward solve works on the copy of [B], on [Y] and on [T]. *)
Definition geomL : geometry :=
  {| g_ld := fun b => match b with Buf_B_Copy => ld_B | _ => F_n F end;
     g_ld1 := fun b => match b with Buf_B_Copy => F_m F | _ => F_n F end;
     g_rows := fun b => match b with Buf_B_Copy => F_m F | _ => F_n F end;
     g_tracked := fun b => match b with
                           | Buf_B_Copy | Buf_Y | Buf_T => true
                           | _ => false
                           end |}.

(** The backward solve works on [X], on [Y] and on [T]. *)
Definition geomU : geometry :=
  {| g_ld := fun b => match b with Buf_X => ld_X | _ => F_n F end;
     g_ld1 := fun b => match b with Buf_X => F_m F | _ => F_n F end;
     g_rows := fun _ => F_n F;
     g_tracked := fun b => match b with
                           | Buf_X | Buf_Y | Buf_T => true
                           | _ => false
                           end |}.

Lemma solve_L_block_sim (i xoff : Z) (b : multilu_factor_block) (M S M' S' : memory)
    (x' x1' : Z) :
  block_of F i = Ok b -> block_ok b ->
  0 <= xoff -> xoff + row_pivots_number b <= F_n F ->
  sim geomL M S ->
  solve_L_block F Buf_Y Buf_B_Copy Buf_T nrhs ld_B (F_n F) i (M, xoff) = Ok (M', x') ->
  solve_L_block F Buf_Y Buf_B_Copy Buf_T 1 (F_m F) (F_n F) i (S, xoff) = Ok (S', x1') ->
  sim geomL M' S' /\ x' = xoff + row_pivots_number b /\ x1' = xoff + row_pivots_number b.
Proof.
  intros Hb (Hrp & Hnpr & _ & _ & Hpr & Hnprr & _ & _) Hx Hfit Hsim HM HS.
  unfold solve_L_block in HM, HS. rewrite Hb in HM, HS.
  cbn [mbind result_bind bind] in HM, HS.
  injection HM as <- <-. injection HS as <- <-.
  split; [| split; reflexivity].
  (* copy to [Y] the pivot rows of the copy of [B] *)
  assert (H1 := sim_copy_rows geomL M S (row_pivots_number b) Buf_Y (fun j => xoff + j)
                  Buf_B_Copy (fun j => get (pivot_rows b) j) Hsim eq_refl eq_refl
                  ltac:(discriminate) ltac:(cbn; lia) ltac:(cbn; lia)
                  ltac:(intros j Hj; cbn; split; [lia | apply Hpr; exact Hj])).
  cbn [g_ld g_ld1 geomL] in H1.
  (* solve with the unit lower triangle *)
  assert (H2 := sim_kernel1 geomL _ _ taucs_UnitLowerLeftTriSolve Buf_Y xoff
                  (row_pivots_number b)
                  {| mr_data := LU1 b; mr_off := 0;
                     mr_ld := row_pivots_number b + non_pivot_rows_number b |}
                  HLL H1 eq_refl Hx Hrp ltac:(cbn; lia) ltac:(cbn; lia) ltac:(cbn; lia)).
  cbn [g_ld g_ld1 geomL] in H2.
  destruct (non_pivot_rows_number b >? 0); [| exact H2].
  (* the rows below: to [T], update, and back *)
  assert (H3 := sim_copy_rows geomL _ _ (non_pivot_rows_number b) Buf_T (fun j => j)
                  Buf_B_Copy (fun j => get (pivot_rows b) (non_pivot_rows b + j))
                  H2 eq_refl eq_refl
                  ltac:(discriminate) ltac:(cbn; lia) ltac:(cbn; lia)
                  ltac:(intros j Hj; cbn; split; [lia | apply Hnprr; exact Hj])).
  cbn [g_ld g_ld1 geomL] in H3.
  assert (H4 := sim_kernel2 geomL _ _ taucs_CaddMAB Buf_Y Buf_T xoff
                  (row_pivots_number b) 0 (non_pivot_rows_number b)
                  {| mr_data := LU1 b; mr_off := L2 b;
                     mr_ld := row_pivots_number b + non_pivot_rows_number b |}
                  HAB H3 eq_refl eq_refl Hx Hrp ltac:(cbn; lia) ltac:(lia)
                  ltac:(lia) ltac:(cbn; lia) ltac:(cbn; lia) ltac:(cbn; lia)).
  cbn [g_ld g_ld1 geomL] in H4.
  assert (H5 := sim_copy_rows geomL _ _ (non_pivot_rows_number b) Buf_B_Copy
                  (fun j => get (pivot_rows b) (non_pivot_rows b + j))
                  Buf_T (fun j => j)
                  H4 eq_refl eq_refl
                  ltac:(discriminate) ltac:(cbn; lia) ltac:(cbn; lia)
                  ltac:(intros j Hj; cbn; split; [apply Hnprr; exact Hj | lia])).
  cbn [g_ld g_ld1 geomL] in H5.
  exact H5.
Qed.

Lemma solve_U_block_sim (i boff : Z) (b : multilu_factor_block) (M S M' S' : memory)
    (b' b1' : Z) :
  block_of F i = Ok b -> block_ok b ->
  0 <= boff - col_pivots_number b -> boff <= F_n F ->
  sim geomU M S ->
  solve_U_block F Buf_X Buf_Y Buf_T nrhs (F_n F) ld_X i (M, boff) = Ok (M', b') ->
  solve_U_block F Buf_X Buf_Y Buf_T 1 (F_n F) (F_m F) i (S, boff) = Ok (S', b1') ->
  sim geomU M' S' /\ b' = boff - col_pivots_number b /\ b1' = boff - col_pivots_number b.
Proof.
  intros Hb (_ & _ & Hcp & Hnpc & _ & _ & Hpc & Hnpcc) Hlow Hhigh Hsim HM HS.
  unfold solve_U_block in HM, HS. rewrite Hb in HM, HS.
  cbn [mbind result_bind bind] in HM, HS.
  injection HM as <- <-. injection HS as <- <-.
  split; [| split; reflexivity].
  set (boff' := boff - col_pivots_number b) in *.
  (* the update of [Y] by the columns already solved *)
  assert (H2 : sim geomU
            (if non_pivot_cols_number b >? 0 then
               let mem := copy_rows nrhs (non_pivot_cols_number b) Buf_T (fun j => j) (F_n F)
                            Buf_X (fun j => get (pivot_cols b) (non_pivot_cols b + j))
                            ld_X M in
               mem_put Buf_Y
                 (write_cols (mem Buf_Y) boff' (F_n F)
                    (taucs_CaddMATB (col_pivots_number b) nrhs (non_pivot_cols_number b)
                       {| mr_data := Ut2 b; mr_off := 0; mr_ld := non_pivot_cols_number b |}
                       (read_cols (mem Buf_T) 0 (F_n F) (non_pivot_cols_number b) nrhs)
                       (read_cols (mem Buf_Y) boff' (F_n F) (col_pivots_number b) nrhs)))
                 mem
             else M)
            (if non_pivot_cols_number b >? 0 then
               let mem := copy_rows 1 (non_pivot_cols_number b) Buf_T (fun j => j) (F_n F)
                            Buf_X (fun j => get (pivot_cols b) (non_pivot_cols b + j))
                            (F_m F) S in
               mem_put Buf_Y
                 (write_cols (mem Buf_Y) boff' (F_n F)
                    (taucs_CaddMATB (col_pivots_number b) 1 (non_pivot_cols_number b)
                       {| mr_data := Ut2 b; mr_off := 0; mr_ld := non_pivot_cols_number b |}
                       (read_cols (mem Buf_T) 0 (F_n F) (non_pivot_cols_number b) 1)
                       (read_cols (mem Buf_Y) boff' (F_n F) (col_pivots_number b) 1)))
                 mem
             else S)).
  { destruct (non_pivot_cols_number b >? 0); [| exact Hsim].
    assert (H1 := sim_copy_rows geomU M S (non_pivot_cols_number b) Buf_T (fun j => j)
                    Buf_X (fun j => get (pivot_cols b) (non_pivot_cols b + j))
                    Hsim eq_refl eq_refl
                    ltac:(discriminate) ltac:(cbn; lia) ltac:(cbn; lia)
                    ltac:(intros j Hj; cbn; split; [lia | apply Hnpcc; exact Hj])).
    cbn [g_ld g_ld1 geomU] in H1.
    assert (H2 := sim_kernel2 geomU _ _ taucs_CaddMATB Buf_T Buf_Y 0
                    (non_pivot_cols_number b) boff' (col_pivots_number b)
                    {| mr_data := Ut2 b; mr_off := 0; mr_ld := non_pivot_cols_number b |}
                    HATB H1 eq_refl eq_refl ltac:(lia) ltac:(lia) ltac:(cbn; lia) Hlow
                    Hcp ltac:(cbn; unfold boff'; lia) ltac:(cbn; lia) ltac:(cbn; lia)).
    cbn [g_ld g_ld1 geomU] in H2. exact H2. }
  (* solve with the upper triangle, and scatter to [X] *)
  assert (H3 := sim_kernel1 geomU _ _ taucs_UpperLeftTriSolve Buf_Y boff'
                  (col_pivots_number b)
                  {| mr_data := LU1 b; mr_off := 0;
                     mr_ld := row_pivots_number b + non_pivot_rows_number b |}
                  HUL H2 eq_refl Hlow Hcp ltac:(cbn; unfold boff'; lia)
                  ltac:(cbn; lia) ltac:(cbn; lia)).
  cbn [g_ld g_ld1 geomU] in H3.
  assert (H4 := sim_copy_rows geomU _ _ (col_pivots_number b) Buf_X
                  (fun j => get (pivot_cols b) j) Buf_Y (fun j => boff' + j)
                  H3 eq_refl eq_refl
                  ltac:(discriminate) ltac:(cbn; lia) ltac:(cbn; lia)
                  ltac:(intros j Hj; cbn; split;
                        [apply Hpc; exact Hj | unfold boff'; lia])).
  cbn [g_ld g_ld1 geomU] in H4.
  exact H4.
Qed.

(** The pivots of the blocks before the block [k]. *)
Definition block_pivots (f : multilu_factor_block -> Z) (i : Z) : Z :=
  match block_of F i with
  | Ok b => f b
  | _ => 0
  end.

Fixpoint pivots_below (f : Z -> Z) (k : nat) : Z :=
  match k with
  | O => 0
  | S k' => pivots_below f k' + f (Z.of_nat k')
  end.

Lemma pivots_below_mono (f : Z -> Z) (k : nat) :
  (forall i, (i < k)%nat -> 0 <= f (Z.of_nat i)) ->
  forall j, (j <= k)%nat -> 0 <= pivots_below f j <= pivots_below f k.
Proof.
  induction k as [| k IH]; intros Hf j Hj.
  - replace j with O by lia. simpl. lia.
  - assert (Hk : 0 <= f (Z.of_nat k)) by (apply Hf; lia).
    assert (IH' := IH ltac:(intros i Hi; apply Hf; lia)).
    destruct (Nat.eq_dec j (S k)) as [-> | Hne].
    + simpl. specialize (IH' k ltac:(lia)). lia.
    + specialize (IH' j ltac:(lia)). simpl. lia.
Qed.

Hypothesis Hblocks :
  forall i, 0 <= i < num_blocks F -> exists b, block_of F i = Ok b /\ block_ok b.
Hypothesis Hrow_pivots :
  pivots_below (block_pivots row_pivots_number) (Z.to_nat (num_blocks F)) <= F_n F.
Hypothesis Hcol_pivots :
  pivots_below (block_pivots col_pivots_number) (Z.to_nat (num_blocks F)) <= F_n F.

Lemma block_pivots_nonneg (f : multilu_factor_block -> Z) (k : nat) :
  (forall b, block_ok b -> 0 <= f b) ->
  Z.of_nat k <= num_blocks F ->
  forall i, (i < k)%nat -> 0 <= block_pivots f (Z.of_nat i).
Proof.
  intros Hf Hk i Hi. unfold block_pivots.
  destruct (Hblocks (Z.of_nat i) ltac:(lia)) as (b & -> & Hok). apply Hf. exact Hok.
Qed.

Lemma iterM_from_rel {A B : Type} (R : Z -> A -> B -> Prop)
    (f : Z -> A -> result A) (g : Z -> B -> result B) :
  forall (k : nat) (i : Z) (a a' : A) (b b' : B),
    R i a b ->
    (forall j x y x' y', i <= j < i + Z.of_nat k -> R j x y ->
       f j x = Ok x' -> g j y = Ok y' -> R (j + 1) x' y') ->
    iterM_from k i f a = Ok a' -> iterM_from k i g b = Ok b' ->
    R (i + Z.of_nat k) a' b'.
Proof.
  induction k as [| k IH]; intros i a a' b b' H0 Hstep Ha Hb;
    cbn [iterM_from] in Ha, Hb.
  - injection Ha as <-. injection Hb as <-.
    replace (i + Z.of_nat 0) with i by lia. exact H0.
  - apply bind_Ok in Ha. destruct Ha as (x & Hx & Ha).
    apply bind_Ok in Hb. destruct Hb as (y & Hy & Hb).
    replace (i + Z.of_nat (S k)) with ((i + 1) + Z.of_nat k) by lia.
    apply (IH (i + 1) x a' y b'); [| | exact Ha | exact Hb].
    + apply (Hstep i a b x y); [lia | exact H0 | exact Hx | exact Hy].
    + intros j u v u' v' Hj. apply Hstep. lia.
Qed.

(** The forward solve on [nrhs] right-hand sides and on the one. *)
Lemma solve_blocked_L_sim (M S M' S' : memory) :
  sim geomL M S ->
  solve_blocked_L F Buf_Y Buf_B_Copy Buf_T nrhs ld_B (F_n F) M = Ok M' ->
  solve_blocked_L F Buf_Y Buf_B_Copy Buf_T 1 (F_m F) (F_n F) S = Ok S' ->
  sim geomL M' S'.
Proof.
  intros Hsim HM HS. unfold solve_blocked_L in HM, HS.
  apply bind_Ok in HM. destruct HM as ([M1 x1] & HM & HM').
  apply bind_Ok in HS. destruct HS as ([S1 y1] & HS & HS').
  injection HM' as <-. injection HS' as <-.
  unfold forM in HM, HS.
  pose proof (iterM_from_rel
                (fun i (p q : memory * Z) =>
                   sim geomL (fst p) (fst q)
                   /\ snd p = pivots_below (block_pivots row_pivots_number) (Z.to_nat i)
                   /\ snd q = snd p)
                (solve_L_block F Buf_Y Buf_B_Copy Buf_T nrhs ld_B (F_n F))
                (solve_L_block F Buf_Y Buf_B_Copy Buf_T 1 (F_m F) (F_n F))
                (Z.to_nat (num_blocks F - 0)) 0 (M, 0) (M1, x1) (S, 0) (S1, y1)) as Hloop.
  destruct Hloop as (Hres & _); [| | exact HM | exact HS | exact Hres].
  - split; [exact Hsim | split; reflexivity].
  - intros j [Ma xa] [Sa ya] [Mb xb] [Sb yb] Hj (Hs & Hx & Hy) Ha Hb.
    cbn [fst snd] in *. subst ya.
    destruct (Hblocks j ltac:(lia)) as (b & Hblock & Hok).
    assert (Hnn : forall i, (i < Z.to_nat (num_blocks F))%nat ->
                    0 <= block_pivots row_pivots_number (Z.of_nat i)).
    { apply block_pivots_nonneg; [| lia]. intros b0 Hb0. apply Hb0. }
    pose proof (pivots_below_mono _ _ Hnn (Z.to_nat j) ltac:(lia)) as Hlow.
    pose proof (pivots_below_mono _ _ Hnn (Datatypes.S (Z.to_nat j)) ltac:(lia)) as Hup.
    assert (Ebp : block_pivots row_pivots_number j = row_pivots_number b)
      by (unfold block_pivots; rewrite Hblock; reflexivity).
    cbn [pivots_below] in Hup. rewrite Z2Nat.id, Ebp in Hup by lia.
    destruct (solve_L_block_sim j xa b Ma Sa Mb Sb xb yb Hblock Hok
                ltac:(lia) ltac:(lia) Hs Ha Hb) as (Hs' & -> & ->).
    split; [exact Hs' |]. split; [| reflexivity].
    replace (Z.to_nat (j + 1)) with (Datatypes.S (Z.to_nat j)) by lia.
    cbn [pivots_below]. rewrite Z2Nat.id, Ebp, Hx by lia. reflexivity.
Qed.

(** The backward solve, from the last block down. *)
Lemma solve_U_loop_sim :
  forall (k : nat) (i : Z) (M S M' S' : memory) (boff b' b1' : Z),
    (k <> O -> i = Z.of_nat k - 1) ->
    Z.of_nat k <= Z.max 0 (num_blocks F) ->
    pivots_below (block_pivots col_pivots_number) k <= boff <= F_n F ->
    sim geomU M S ->
    iterM_down k i (solve_U_block F Buf_X Buf_Y Buf_T nrhs (F_n F) ld_X) (M, boff)
    = Ok (M', b') ->
    iterM_down k i (solve_U_block F Buf_X Buf_Y Buf_T 1 (F_n F) (F_m F)) (S, boff)
    = Ok (S', b1') ->
    sim geomU M' S'.
Proof.
  induction k as [| k IH]; intros i M S M' S' boff b' b1' Hi Hk Hboff Hsim HM HS;
    cbn [iterM_down] in HM, HS.
  - injection HM as <- _. injection HS as <- _. exact Hsim.
  - specialize (Hi ltac:(discriminate)).
    subst i. replace (Z.of_nat (Datatypes.S k) - 1) with (Z.of_nat k) in HM, HS by lia.
    apply bind_Ok in HM. destruct HM as ([M1 x1] & HM1 & HM).
    apply bind_Ok in HS. destruct HS as ([S1 y1] & HS1 & HS).
    destruct (Hblocks (Z.of_nat k) ltac:(lia)) as (b & Hblock & Hok).
    assert (Ebp : block_pivots col_pivots_number (Z.of_nat k) = col_pivots_number b)
      by (unfold block_pivots; rewrite Hblock; reflexivity).
    cbn [pivots_below] in Hboff. rewrite Ebp in Hboff.
    assert (Hnn : forall i, (i < k)%nat ->
                    0 <= block_pivots col_pivots_number (Z.of_nat i)).
    { apply block_pivots_nonneg; [| lia]. intros b0 Hb0. apply Hb0. }
    pose proof (pivots_below_mono _ _ Hnn k ltac:(lia)) as Hlow.
    assert (Hcp : 0 <= col_pivots_number b) by apply Hok.
    destruct (solve_U_block_sim (Z.of_nat k) boff b M S M1 S1 x1 y1 Hblock Hok
                ltac:(lia) ltac:(lia) Hsim HM1 HS1) as (Hs' & -> & ->).
    apply (IH (Z.of_nat k - 1) M1 S1 M' S' (boff - col_pivots_number b) b' b1');
      [intros _; reflexivity | lia | lia | exact Hs' | exact HM | exact HS].
Qed.

(** The column [c] of an array of leading dimension [ld], as the array
    of a single right-hand side. *)
Definition column_of (a : list T) (ld rows : Z) : list T :=
  map (fun j => getT a (j + c * ld)) (seqZ 0 rows).

Lemma length_column_of (a : list T) (ld rows : Z) :
  length (column_of a ld rows) = Z.to_nat rows.
Proof. unfold column_of. rewrite length_map, length_seqZ. reflexivity. Qed.

Lemma getT_column_of (a : list T) (ld rows j : Z) :
  0 <= j < rows -> getT (column_of a ld rows) j = getT a (j + c * ld).
Proof.
  intros Hj. unfold column_of.
  change (map (fun j0 => getT a (j0 + c * ld)) (seqZ 0 rows))
    with ((fun j0 => getT a (j0 + c * ld)) <$> seqZ 0 rows).
  rewrite <- (Z2Nat.id j) at 1 by lia. apply getT_lookup.
  rewrite list_lookup_fmap, lookup_seqZ_lt by lia. simpl.
  rewrite Z2Nat.id by lia. reflexivity.
Qed.

Lemma getT_mallocT (n i : Z) : getT (mallocT n) i = tgarbage.
Proof.
  unfold getT, mallocT. destruct (i <? 0); [reflexivity |].
  destruct (replicate (Z.to_nat n) tgarbage !! Z.to_nat i) eqn:E; [| reflexivity].
  apply lookup_replicate in E. destruct E as [-> _]. reflexivity.
Qed.

Lemma length_mallocT (n : Z) : length (mallocT n) = Z.to_nat n.
Proof. apply length_replicate. Qed.

(** [memcpy(B_Copy, B, ...)], cell by cell. *)
Lemma memcpy_B (len : Z) (mem : memory) :
  let r := for_ 0 len (fun i mem => poke Buf_B_Copy i (peek mem Buf_B i) mem) mem in
  (forall b, Buf_B_Copy <> b -> r b = mem b)
  /\ length (r Buf_B_Copy) = length (mem Buf_B_Copy)
  /\ forall i, 0 <= i < len -> i < Z.of_nat (length (mem Buf_B_Copy)) ->
       getT (r Buf_B_Copy) i = getT (mem Buf_B) i.
Proof.
  simpl. destruct (Z.le_gt_cases 0 len) as [Hlen | Hneg].
  - apply (for_inv (fun k (u : memory) =>
             (forall b, Buf_B_Copy <> b -> u b = mem b)
             /\ length (u Buf_B_Copy) = length (mem Buf_B_Copy)
             /\ forall i, 0 <= i < k -> i < Z.of_nat (length (mem Buf_B_Copy)) ->
                  getT (u Buf_B_Copy) i = getT (mem Buf_B) i));
      [exact Hlen | split; [reflexivity | split; [reflexivity | intros; lia]] |].
    intros k u Hk (Hoth & Hl & Hcopied). split; [| split].
    + intros b Hb. rewrite poke_other by exact Hb. apply Hoth. exact Hb.
    + unfold poke. rewrite mem_put_same, length_updT. exact Hl.
    + intros i Hi Hin. unfold poke, peek. rewrite mem_put_same.
      rewrite (Hoth Buf_B) by discriminate.
      destruct (Z.eq_dec i k) as [-> | Hne].
      * apply getT_updT_eq. lia.
      * rewrite getT_updT_ne by lia. apply Hcopied; lia.
  - rewrite for_empty by lia.
    split; [reflexivity | split; [reflexivity | intros; lia]].
Qed.

Ltac mem_simpl :=
  repeat first [ rewrite mem_put_same | rewrite mem_put_other by discriminate ].


End Columns.

(** * Further properties of the code *)

(** ** Membership in an array *)

Lemma is_member_from_spec (x : Z) (S : list Z) :
  forall (k : nat) (i : Z),
    (is_member_from k i x S = -1
     /\ forall j, i <= j < i + Z.of_nat k -> get S j <> x)
    \/ (i <= is_member_from k i x S < i + Z.of_nat k
        /\ get S (is_member_from k i x S) = x
        /\ forall j, i <= j < is_member_from k i x S -> get S j <> x).
Proof.
  induction k as [| k IH]; intros i; cbn [is_member_from].
  - left. split; [reflexivity | intros j Hj; lia].
  - destruct (Z.eqb_spec (get S i) x) as [E | Hne].
    + right. split; [lia |]. split; [exact E | intros j Hj; lia].
    + destruct (IH (i + 1)) as [[E Hall] | (Hr & Hx & Hall)].
      * left. split; [exact E |]. intros j Hj.
        destruct (Z.eq_dec j i) as [-> | Hji]; [exact Hne | apply Hall; lia].
      * right. split; [lia |]. split; [exact Hx |]. intros j Hj.
        destruct (Z.eq_dec j i) as [-> | Hji]; [exact Hne | apply Hall; lia].
Qed.

(** [is_member x S n] is the first of the locations below [n] where [S]
    holds [x]; it is -1 exactly when none of the first [n] cells holds
    [x]. *)
Theorem is_member_first (x : Z) (S : list Z) (n : Z) :
  (is_member x S n = -1 /\ forall i, 0 <= i < n -> get S i <> x)
  \/ (0 <= is_member x S n < n
      /\ get S (is_member x S n) = x
      /\ forall i, 0 <= i < is_member x S n -> get S i <> x).
Proof.
  unfold is_member.
  destruct (is_member_from_spec x S (Z.to_nat n) 0) as [[E Hall] | (Hr & Hx & Hall)].
  - left. split; [exact E |]. intros i Hi. apply Hall. lia.
  - right. split; [lia |]. split; [exact Hx | exact Hall].
Qed.

(** ** Freeing a factor *)

Lemma iterM_from_all_ok {St : Type} (body : Z -> St -> result St) :
  forall (k : nat) (i : Z) (s : St),
    (forall j t, i <= j < i + Z.of_nat k -> exists t', body j t = Ok t') ->
    exists s', iterM_from k i body s = Ok s'.
Proof.
  induction k as [| k IH]; intros i s Hbody; cbn [iterM_from].
  - exists s. reflexivity.
  - destruct (Hbody i s) as [t' E]; [lia |]. rewrite E. cbn [bind].
    apply IH. intros j t Hj. apply Hbody. lia.
Qed.

Lemma factor_free_all_blocks (F : taucs_multilu_factor) :
  (forall i, 0 <= i < num_blocks F -> exists block, block_of F i = Ok block) ->
  taucs_multilu_factor_free (Some F) = Ok tt.
Proof.
  intros Hblocks. unfold taucs_multilu_factor_free, forM.
  destruct (iterM_from_all_ok
              (fun i (_ : unit) =>
                 free_factor_block
                   (if i <? 0 then None else default None (blocks F !! Z.to_nat i)))
              (Z.to_nat (num_blocks F - 0)) 0 tt) as [[] E]; [| exact E].
  intros j t Hj. destruct (Hblocks j) as [block Hb]; [lia |].
  unfold block_of in Hb. unfold free_factor_block.
  destruct (if j <? 0 then None else default None (blocks F !! Z.to_nat j));
    [exists tt; reflexivity | discriminate].
Qed.

Lemma block_of_cases (F : taucs_multilu_factor) (i : Z) :
  (exists block, block_of F i = Ok block) \/ block_of F i = NullDeref.
Proof.
  unfold block_of.
  destruct (if i <? 0 then None else default None (blocks F !! Z.to_nat i)) as [b |];
    [left; exists b | right]; reflexivity.
Qed.

Lemma block_of_null (F : taucs_multilu_factor) (i : Z) :
  0 <= i -> block_of F i = NullDeref ->
  blocks F !! Z.to_nat i = None \/ blocks F !! Z.to_nat i = Some None.
Proof.
  intros Hi Hb. unfold block_of in Hb. destruct (Z.ltb_spec i 0); [lia |].
  destruct (blocks F !! Z.to_nat i) as [[b |] |]; [discriminate | right | left];
    reflexivity.
Qed.

(** Either every block of a factor is present or one of them is
    missing. *)
Lemma blocks_present_or_missing (F : taucs_multilu_factor) :
  (forall i, 0 <= i < num_blocks F -> exists block, block_of F i = Ok block)
  \/ (exists i, 0 <= i < num_blocks F /\ block_of F i = NullDeref).
Proof.
  assert (H : forall k : nat,
             (forall i, 0 <= i < Z.of_nat k -> exists block, block_of F i = Ok block)
             \/ (exists i, 0 <= i < Z.of_nat k /\ block_of F i = NullDeref)).
  { induction k as [| k IH]; [left; intros i Hi; lia |].
    destruct IH as [IH | (i & Hi & Hb)]; [| right; exists i; split; [lia | exact Hb]].
    destruct (block_of_cases F (Z.of_nat k)) as [[b E] | E].
    - left. intros i Hi. destruct (Z.eq_dec i (Z.of_nat k)) as [-> | Hne];
        [exists b; exact E | apply IH; lia].
    - right. exists (Z.of_nat k). split; [lia | exact E]. }
  destruct (H (Z.to_nat (num_blocks F))) as [Hl | (i & Hi & Hb)].
  - left. intros i Hi. apply Hl. lia.
  - right. exists i. split; [lia | exact Hb].
Qed.

(** [taucs_multilu_factor_free] returns exactly when every one of the
    [num_blocks] block pointers of the factor is set; when one of them
    is null the call dereferences it. *)
Theorem factor_free_returns_iff (F : taucs_multilu_factor) :
  (taucs_multilu_factor_free (Some F) = Ok tt
   <-> forall i, 0 <= i < num_blocks F -> exists block, block_of F i = Ok block)
  /\ (taucs_multilu_factor_free (Some F) = Ok tt
      \/ taucs_multilu_factor_free (Some F) = NullDeref).
Proof.
  assert (Hmiss : (exists i, 0 <= i < num_blocks F /\ block_of F i = NullDeref)
                  -> taucs_multilu_factor_free (Some F) = NullDeref).
  { intros (i & Hi & Hb). apply (factor_free_missing_block F i Hi).
    apply block_of_null; [lia | exact Hb]. }
  split.
  - split; [| apply factor_free_all_blocks]. intros Hok.
    destruct (blocks_present_or_missing F) as [Hl | Hr]; [exact Hl |].
    rewrite (Hmiss Hr) in Hok. discriminate.
  - destruct (blocks_present_or_missing F) as [Hl | Hr];
      [left; apply factor_free_all_blocks; exact Hl | right; apply Hmiss; exact Hr].
Qed.

(** ** The solve on a factor that misses a block *)

Lemma solve_blocked_L_missing_block (F : taucs_multilu_factor) (X B Tb : buffer)
    (n ld_B ld_X : Z) (mem : memory) (i : Z) :
  0 <= i < num_blocks F -> block_of F i = NullDeref ->
  solve_blocked_L F X B Tb n ld_B ld_X mem = NullDeref.
Proof.
  intros Hi Hb. unfold solve_blocked_L, forM.
  rewrite (iterM_from_null (solve_L_block F X B Tb n ld_B ld_X)); [reflexivity | |].
  - intros j [m xoff]. unfold solve_L_block.
    destruct (block_of F j) as [b | w |] eqn:E; cbn [mbind result_bind bind].
    + right. eexists. reflexivity.
    + unfold block_of in E.
      destruct (if j <? 0 then None else default None (blocks F !! Z.to_nat j));
        discriminate.
    + left. reflexivity.
  - exists i. split; [lia |]. intros [m xoff]. unfold solve_L_block.
    rewrite Hb. reflexivity.
Qed.


(** ** What the numeric factorization returns *)

Lemma first_bad_block_false (bs : list (option multilu_factor_block)) :
  first_bad_block bs = false ->
  forall (i : nat) x, bs !! i = Some x -> exists b, x = Some b /\ valid b <> 0.
Proof.
  induction bs as [| p bs IH]; intros Hbad i x Hx; [discriminate |].
  cbn [first_bad_block] in Hbad. destruct p as [b |]; [| discriminate].
  destruct (Z.eqb_spec (valid b) 0) as [| Hv]; [discriminate |].
  destruct i as [| i]; cbn in Hx.
  - injection Hx as <-. exists b. split; [reflexivity | exact Hv].
  - apply (IH Hbad i x Hx).
Qed.

Lemma first_bad_block_true (bs : list (option multilu_factor_block)) :
  first_bad_block bs = true ->
  exists i : nat,
    bs !! i = Some None \/ exists b, bs !! i = Some (Some b) /\ valid b = 0.
Proof.
  induction bs as [| p bs IH]; intros Hbad; [discriminate |].
  cbn [first_bad_block] in Hbad. destruct p as [b |]; [| exists 0%nat; left; reflexivity].
  destruct (Z.eqb_spec (valid b) 0) as [Hv | _].
  - exists 0%nat. right. exists b. split; [reflexivity | exact Hv].
  - destruct (IH Hbad) as [i Hi]. exists (S i). exact Hi.
Qed.

(** The sequential loop keeps the symbolic data, the number of
    processors and the array of the block pointers. *)
Lemma numeric_loop_shape (uninit : Z -> bool * bool) (S : Z) (ctx ctx' : multilu_context) :
  forM 0 S (numeric_supercolumn uninit) ctx = Ok ctx' ->
  ctx_symbolic ctx' = ctx_symbolic ctx /\ nproc ctx' = nproc ctx
  /\ F_shape ctx' = F_shape ctx.
Proof.
  intros Hrun.
  apply (forM_preserves
           (fun c => ctx_symbolic c = ctx_symbolic ctx /\ nproc c = nproc ctx
                     /\ F_shape c = F_shape ctx)) with (3 := Hrun).
  - repeat split.
  - intros j t t' _ (Hs & Hn & HF) Hb.
    apply numeric_supercolumn_nulls in Hb. destruct Hb as (Hs' & Hn' & HF' & _).
    split; [congruence |]. split; congruence.
Qed.

(** The context after the loop over the supercolumns (which does not
    run for several processors). *)
Lemma numeric_context_shape (uninit : Z -> bool * bool) (A : taucs_ccs_matrix)
    (symbolic : taucs_multilu_symbolic) (th : taucs_double) (np : Z)
    (ctx : multilu_context) :
  let ctx0 := multilu_context_create A symbolic th np
                (allocate_factor (ccs_m A) (ccs_n A) (number_supercolumns symbolic)
                   (Z.land (ccs_flags A) TAUCS_SCALAR_KINDS)) in
  (if nproc ctx0 >? 1 then Ok ctx0
   else if first_root (etree symbolic) =? MULTILU_SYMBOLIC_NONE
        then AssertFailed assert_first_root
        else forM 0 (number_supercolumns symbolic) (numeric_supercolumn uninit) ctx0)
  = Ok ctx ->
  F_shape ctx
  = (number_supercolumns symbolic, Z.to_nat (number_supercolumns symbolic)).
Proof.
  intros ctx0 Hloop.
  assert (H0 : F_shape ctx0
               = (number_supercolumns symbolic, Z.to_nat (number_supercolumns symbolic))).
  { unfold F_shape, ctx0.
    cbn [ctx_F multilu_context_create allocate_factor blocks num_blocks].
    rewrite length_replicate. reflexivity. }
  destruct (nproc ctx0 >? 1); [injection Hloop as <-; exact H0 |].
  destruct (first_root (etree symbolic) =? MULTILU_SYMBOLIC_NONE); [discriminate |].
  apply numeric_loop_shape in Hloop. destruct Hloop as (_ & _ & HF).
  rewrite HF. exact H0.
Qed.

(** A factor that the numeric factorization returns is complete: it has
    one block for each supercolumn of the symbolic analysis, and every
    block is present and valid. *)
Theorem numeric_factor_complete (uninit : Z -> bool * bool) (A : taucs_ccs_matrix)
    (symbolic : taucs_multilu_symbolic) (th : taucs_double) (np : Z)
    (F : taucs_multilu_factor) :
  taucs_ccs_factor_lu_numeric_maxdepth uninit A (Some symbolic) th np = Ok (Some F) ->
  num_blocks F = number_supercolumns symbolic
  /\ forall i, 0 <= i < num_blocks F -> exists b, block_of F i = Ok b /\ valid b <> 0.
Proof.
  intros Hrun. unfold taucs_ccs_factor_lu_numeric_maxdepth in Hrun.
  cbv zeta in Hrun.
  apply bind_Ok in Hrun. destruct Hrun as (ctx & Hloop & Hrun).
  apply numeric_context_shape in Hloop. unfold F_shape in Hloop.
  injection Hloop as Hnum Hlen.
  destruct (first_bad_block (take (Z.to_nat (num_blocks (ctx_F ctx))) (blocks (ctx_F ctx))))
    eqn:Hbad.
  - apply bind_Ok in Hrun. destruct Hrun as (u & _ & Hrun). discriminate.
  - injection Hrun as <-. split; [exact Hnum |].
    intros i Hi. unfold block_of. destruct (Z.ltb_spec i 0); [lia |].
    destruct (lookup_lt_is_Some_2 (blocks (ctx_F ctx)) (Z.to_nat i)) as [x Hx]; [lia |].
    destruct (first_bad_block_false _ Hbad (Z.to_nat i) x) as (b & -> & Hv).
    + rewrite lookup_take_lt by lia. exact Hx.
    + rewrite Hx. exists b. split; [reflexivity | exact Hv].
Qed.

(** ** Packing a dense block *)

(** [memcpy] downwards inside an array: the cells of the destination
    get what the source held, the others are kept. *)
Lemma memcpyT_within_spec (a : list T) (dst src len : Z) :
  0 <= dst <= src -> src + len <= Z.of_nat (length a) ->
  length (memcpyT_within a dst src len) = length a
  /\ forall k, getT (memcpyT_within a dst src len) k
               = if (dst <=? k) && (k <? dst + len) then getT a (src + (k - dst))
                 else getT a k.
Proof.
  intros Hd Hs. unfold memcpyT_within.
  destruct (Z.le_gt_cases 0 len) as [Hlen | Hneg].
  - apply (for_inv
             (fun j w => length w = length a
                         /\ forall k, getT w k
                                      = if (dst <=? k) && (k <? dst + j)
                                        then getT a (src + (k - dst)) else getT a k));
      [exact Hlen | |].
    + split; [reflexivity |]. intros k.
      destruct (Z.leb_spec dst k), (Z.ltb_spec k (dst + 0)); simpl; try reflexivity; lia.
    + intros j w Hj [Lw Hw]. split; [rewrite length_updT; exact Lw |].
      intros k. destruct (Z.eq_dec k (dst + j)) as [-> | Hne].
      * rewrite getT_updT_eq by lia. rewrite Hw.
        destruct (Z.leb_spec dst (src + j)), (Z.ltb_spec (src + j) (dst + j)),
                 (Z.leb_spec dst (dst + j)), (Z.ltb_spec (dst + j) (dst + (j + 1)));
          simpl; try lia.
        f_equal. lia.
      * rewrite getT_updT_ne by lia. rewrite Hw.
        destruct (Z.leb_spec dst k), (Z.ltb_spec k (dst + j)),
                 (Z.ltb_spec k (dst + (j + 1))); simpl; try reflexivity; lia.
  - rewrite for_empty by lia. split; [reflexivity |]. intros k.
    destruct (Z.leb_spec dst k), (Z.ltb_spec k (dst + len)); simpl; try reflexivity; lia.
Qed.

Lemma getT_reallocT (a : list T) (n k : Z) :
  0 <= k < n -> n <= Z.of_nat (length a) -> getT (reallocT a n) k = getT a k.
Proof.
  intros Hk Hn. unfold getT, reallocT.
  destruct (Z.ltb_spec k 0); [lia |].
  rewrite lookup_app_l by (rewrite length_take; lia).
  rewrite lookup_take_lt by lia. reflexivity.
Qed.

Lemma length_reallocT (a : list T) (n : Z) : length (reallocT a n) = Z.to_nat n.
Proof. unfold reallocT. rewrite length_app, length_take, length_replicate. lia. Qed.


(** ** Union-find *)

(** The links from [x] to its representative [r], through the
    members listed: a member is a cell of the array that does not hold
    its own index. *)
Inductive uf_path (sets : list Z) : Z -> Z -> list Z -> Prop :=
| uf_path_root (r : Z) : get sets r = r -> uf_path sets r r []
| uf_path_link (x r : Z) (p : list Z) :
    0 <= x < Z.of_nat (length sets) -> get sets x <> x ->
    uf_path sets (get sets x) r p -> uf_path sets x r (x :: p).

Lemma uf_path_unique (sets : list Z) (x r : Z) (p : list Z) :
  uf_path sets x r p -> forall r' p', uf_path sets x r' p' -> r' = r /\ p' = p.
Proof.
  induction 1 as [r Hr | x r p Hx Hne Hp IH]; intros r' p' H'.
  - inversion H' as [r0 Hr0 | x0 r0 p0 Hx0 Hne0 Hp0]; subst; [split; reflexivity |].
    contradiction.
  - inversion H' as [r0 Hr0 | x0 r0 p0 Hx0 Hne0 Hp0]; subst; [contradiction |].
    destruct (IH _ _ Hp0) as [-> ->]. split; reflexivity.
Qed.

Lemma uf_path_from_member (sets : list Z) (x r : Z) (p : list Z) :
  uf_path sets x r p ->
  forall z, z ∈ p -> exists q, uf_path sets z r q /\ (length q <= length p)%nat.
Proof.
  induction 1 as [r Hr | x r p Hx Hne Hp IH]; intros z Hz.
  - apply elem_of_nil in Hz. contradiction.
  - apply elem_of_cons in Hz. destruct Hz as [-> | Hz].
    + exists (x :: p). split; [constructor; assumption | lia].
    + destruct (IH z Hz) as (q & Hq & Lq). exists q. split; [exact Hq | simpl; lia].
Qed.

Lemma uf_path_members (sets : list Z) (x r : Z) (p : list Z) :
  uf_path sets x r p ->
  NoDup p /\ Forall (fun z => 0 <= z < Z.of_nat (length sets) /\ get sets z <> z) p.
Proof.
  intros H. induction H as [r Hr | x r p Hx Hne Hp [IHn IHr]].
  - split; constructor.
  - split; [| constructor; [split |]; assumption].
    constructor; [| exact IHn]. intros Hin.
    destruct (uf_path_from_member _ _ _ _ Hp x Hin) as (q & Hq & Lq).
    destruct (uf_path_unique _ _ _ _ (uf_path_link sets x r p Hx Hne Hp) _ _ Hq) as [_ ->].
    simpl in Lq. lia.
Qed.

(** A path has no more members than the array has cells. *)
Lemma uf_path_length (sets : list Z) (x r : Z) (p : list Z) :
  uf_path sets x r p -> (length p <= length sets)%nat.
Proof.
  intros H. destruct (uf_path_members _ _ _ _ H) as [Hn Hr].
  assert (Hsub : map Z.to_nat p ⊆ seq 0 (length sets)).
  { intros k Hk. apply list_elem_of_fmap in Hk. destruct Hk as (z & -> & Hz).
    rewrite Forall_forall in Hr. specialize (Hr z Hz).
    apply elem_of_seq. lia. }
  assert (Hnd : NoDup (map Z.to_nat p)).
  { apply NoDup_fmap_2_strong; [| exact Hn].
    intros a b Ha Hb E. rewrite Forall_forall in Hr.
    specialize (Hr a Ha) as Ha'. specialize (Hr b Hb) as Hb'. lia. }
  pose proof (submseteq_length _ _ (NoDup_submseteq _ _ Hnd Hsub)) as L.
  rewrite length_map, length_seq in L. exact L.
Qed.

Lemma uf_find_rec_path (sets : list Z) (x r : Z) (p : list Z) :
  uf_path sets x r p ->
  forall fuel : nat, (length p < fuel)%nat ->
    snd (uf_find_rec fuel sets x) = r
    /\ length (fst (uf_find_rec fuel sets x)) = length sets
    /\ (forall z, z ∈ p -> get (fst (uf_find_rec fuel sets x)) z = r)
    /\ (forall z, z ∉ p -> get (fst (uf_find_rec fuel sets x)) z = get sets z).
Proof.
  induction 1 as [r Hr | x r p Hx Hne Hp IH]; intros fuel Hfuel.
  - destruct fuel as [| fuel]; [simpl in Hfuel; lia |].
    cbn [uf_find_rec]. rewrite Hr, Z.eqb_refl. cbn [fst snd].
    split; [reflexivity |]. split; [reflexivity |].
    split; [intros z Hz; apply elem_of_nil in Hz; contradiction | reflexivity].
  - destruct fuel as [| fuel]; [simpl in Hfuel; lia |].
    cbn [uf_find_rec].
    destruct (Z.eqb_spec x (get sets x)) as [E | _]; [congruence |].
    specialize (IH fuel ltac:(simpl in Hfuel; lia)).
    destruct (uf_find_rec fuel sets (get sets x)) as [sets1 r1]. cbn [fst snd] in *.
    destruct IH as (-> & L1 & Hin & Hout).
    rewrite length_upd, get_upd_eq by lia.
    split; [reflexivity |]. split; [exact L1 |]. split.
    + intros z Hz. apply elem_of_cons in Hz.
      destruct (Z.eq_dec x z) as [<- | Hxz]; [apply get_upd_eq; lia |].
      rewrite get_upd_ne by exact Hxz. apply Hin. destruct Hz as [-> | Hz]; [congruence | exact Hz].
    + intros z Hz. rewrite not_elem_of_cons in Hz. destruct Hz as [Hzx Hz].
      rewrite get_upd_ne by congruence. apply Hout. exact Hz.
Qed.

(** [uf_find] returns the representative of [x], the end of the links
    that start at [x]; it makes every member on the way point to the
    representative and keeps the other cells, so every representative
    stays one. *)
Theorem uf_find_representative (sets : list Z) (x r : Z) (p : list Z) :
  uf_path sets x r p ->
  snd (uf_find sets x) = r
  /\ length (fst (uf_find sets x)) = length sets
  /\ (forall z, z ∈ p -> get (fst (uf_find sets x)) z = r)
  /\ (forall z, z ∉ p -> get (fst (uf_find sets x)) z = get sets z)
  /\ (forall z, get sets z = z -> get (fst (uf_find sets x)) z = z).
Proof.
  intros Hp. unfold uf_find.
  pose proof (uf_path_length _ _ _ _ Hp) as Hlen.
  destruct (uf_find_rec_path _ _ _ _ Hp (S (length sets)) ltac:(lia))
    as (Hr & L & Hin & Hout).
  split; [exact Hr |]. split; [exact L |]. split; [exact Hin |]. split; [exact Hout |].
  intros z Hz. rewrite Hout; [exact Hz |].
  intros Hzp. destruct (uf_path_members _ _ _ _ Hp) as [_ Hm].
  rewrite Forall_forall in Hm. destruct (Hm z Hzp) as [_ Hnz]. contradiction.
Qed.

Lemma uf_make_sets_cell (n x : Z) : 0 <= x < n -> get (uf_make_sets n) x = x.
Proof.
  intros Hx. unfold get, uf_make_sets.
  destruct (Z.ltb_spec x 0) as [Hneg | _]; [destruct Hx; contradiction (Zle_not_lt 0 x) |].
  change (map Z.of_nat (seq 0 (Z.to_nat n))) with (Z.of_nat <$> seq 0 (Z.to_nat n)).
  rewrite list_lookup_fmap, lookup_seq_lt.
  - cbn [fmap option_fmap option_map default]. rewrite Nat.add_0_l. apply Z2Nat.id, Hx.
  - apply Z2Nat.inj_lt; [apply Hx | | apply Hx].
    destruct Hx as [H0 H1]. apply Z.lt_le_incl, (Z.le_lt_trans _ _ _ H0 H1).
Qed.

(** In the sets [uf_make_sets] makes every element is its own
    representative: [uf_find] returns the element and changes
    nothing. *)
Theorem uf_find_make_sets (n x : Z) :
  0 <= x < n -> uf_find (uf_make_sets n) x = (uf_make_sets n, x).
Proof.
  intros Hx. unfold uf_find. cbn [uf_find_rec].
  rewrite uf_make_sets_cell by exact Hx. rewrite Z.eqb_refl. reflexivity.
Qed.

(** After [uf_union] of [x] into a representative [y], [uf_find] of
    [x] returns [y]. *)
Theorem uf_union_find (sets : list Z) (x y : Z) :
  0 <= x < Z.of_nat (length sets) -> x <> y -> get sets y = y ->
  uf_find (fst (uf_union sets x y)) x = (fst (uf_union sets x y), y)
  /\ snd (uf_union sets x y) = y.
Proof.
  intros Hx Hne Hy. unfold uf_union. cbn [fst snd]. split; [| reflexivity].
  assert (Hp : uf_path (upd sets x y) x y [x]).
  { apply uf_path_link.
    - rewrite length_upd. exact Hx.
    - rewrite get_upd_eq by exact Hx. congruence.
    - rewrite get_upd_eq by exact Hx. apply uf_path_root.
      rewrite get_upd_ne by exact Hne. exact Hy. }
  unfold uf_find. rewrite length_upd.
  destruct (length sets) as [| k] eqn:Ek; [simpl in Hx; lia |].
  cbn [uf_find_rec]. rewrite get_upd_eq by lia.
  destruct (Z.eqb_spec x y) as [| _]; [contradiction |].
  rewrite get_upd_ne by exact Hne. rewrite Hy, Z.eqb_refl.
  rewrite get_upd_eq by (rewrite length_upd; lia).
  f_equal. unfold upd. destruct (x <? 0); [reflexivity |].
  apply list_insert_insert_eq.
Qed.

(** ** Compaction of the row pool *)

Lemma memcpy_within_spec (a : list Z) (dst src len : Z) :
  0 <= dst <= src -> src + len <= Z.of_nat (length a) ->
  length (memcpy_within a dst src len) = length a
  /\ forall k, get (memcpy_within a dst src len) k
               = if (dst <=? k) && (k <? dst + len) then get a (src + (k - dst))
                 else get a k.
Proof.
  intros Hd Hs. unfold memcpy_within.
  destruct (Z.le_gt_cases 0 len) as [Hlen | Hneg].
  - apply (for_inv
             (fun j w => length w = length a
                         /\ forall k, get w k
                                      = if (dst <=? k) && (k <? dst + j)
                                        then get a (src + (k - dst)) else get a k));
      [exact Hlen | |].
    + split; [reflexivity |]. intros k.
      destruct (Z.leb_spec dst k), (Z.ltb_spec k (dst + 0)); simpl; try reflexivity; lia.
    + intros j w Hj [Lw Hw]. split; [rewrite length_upd; exact Lw |].
      intros k. destruct (Z.eq_dec k (dst + j)) as [-> | Hne].
      * rewrite get_upd_eq by lia. rewrite Hw.
        destruct (Z.leb_spec dst (src + j)), (Z.ltb_spec (src + j) (dst + j)),
                 (Z.leb_spec dst (dst + j)), (Z.ltb_spec (dst + j) (dst + (j + 1)));
          simpl; try lia.
        f_equal. lia.
      * rewrite get_upd_ne by lia. rewrite Hw.
        destruct (Z.leb_spec dst k), (Z.ltb_spec k (dst + j)),
                 (Z.ltb_spec k (dst + (j + 1))); simpl; try reflexivity; lia.
  - rewrite for_empty by lia. split; [reflexivity |]. intros k.
    destruct (Z.leb_spec dst k), (Z.ltb_spec k (dst + len)); simpl; try reflexivity; lia.
Qed.

Lemma memcpy_within_empty (a : list Z) (dst src len : Z) :
  len <= 0 -> memcpy_within a dst src len = a.
Proof. intros H. unfold memcpy_within. apply for_empty. lia. Qed.

(** *** The sort *)

Lemma insert_el_perm (e : Z * Z) (l : list (Z * Z)) : insert_el e l ≡ₚ e :: l.
Proof.
  induction l as [| h t IH]; cbn [insert_el]; [reflexivity |].
  destruct (fst e <=? fst h); [reflexivity |].
  rewrite IH. apply Permutation_swap.
Qed.

Lemma sort_el_perm (l : list (Z * Z)) : sort_el l ≡ₚ l.
Proof.
  unfold sort_el. induction l as [| h t IH]; cbn [fold_right]; [reflexivity |].
  rewrite insert_el_perm, IH. reflexivity.
Qed.

(** Sorted by the first component. *)
Fixpoint sorted_el (l : list (Z * Z)) : Prop :=
  match l with
  | [] => True
  | e :: t => Forall (fun e' => fst e <= fst e') t /\ sorted_el t
  end.

Lemma insert_el_sorted (e : Z * Z) (l : list (Z * Z)) :
  sorted_el l -> sorted_el (insert_el e l).
Proof.
  induction l as [| h t IH]; cbn [insert_el sorted_el].
  - intros _. split; [constructor | exact I].
  - intros [Hh Ht]. destruct (Z.leb_spec (fst e) (fst h)) as [Hle | Hgt].
    + cbn [sorted_el]. split; [| split; assumption].
      constructor; [exact Hle |].
      apply (Forall_impl _ _ _ Hh). intros e' He'. lia.
    + cbn [sorted_el]. split; [| apply IH; exact Ht].
      rewrite insert_el_perm. constructor; [lia | exact Hh].
Qed.

Lemma sort_el_sorted (l : list (Z * Z)) : sorted_el (sort_el l).
Proof.
  unfold sort_el. induction l as [| h t IH]; cbn [fold_right]; [exact I |].
  apply insert_el_sorted. exact IH.
Qed.

(** *** The elements *)

(** The elements that are not cleared. *)
Definition live_el (el_cleared : list Z) (el_num i : Z) : Prop :=
  0 <= i < el_num /\ get el_cleared i = 0.

(** The number of cells of the elements of a list. *)
Definition el_total (el_size : list Z) (l : list (Z * Z)) : Z :=
  fold_right (fun e acc => get el_size (snd e) + acc) 0 l.

(** The number of cells of the elements that are not cleared. *)
Definition live_cells (el_size el_cleared : list Z) (el_num : Z) : Z :=
  for_ 0 el_num (fun i acc => if get el_cleared i =? 0 then acc + get el_size i else acc) 0.

Lemma el_total_app (el_size : list Z) (l1 l2 : list (Z * Z)) :
  el_total el_size (l1 ++ l2) = el_total el_size l1 + el_total el_size l2.
Proof.
  unfold el_total. induction l1 as [| e t IH]; cbn [fold_right app]; [lia |].
  rewrite IH. lia.
Qed.

Lemma el_total_perm (el_size : list Z) (l1 l2 : list (Z * Z)) :
  l1 ≡ₚ l2 -> el_total el_size l1 = el_total el_size l2.
Proof.
  unfold el_total.
  induction 1 as [| x l l' _ IH | x y l | l l' l'' _ IH1 _ IH2]; cbn [fold_right].
  - reflexivity.
  - rewrite IH. reflexivity.
  - lia.
  - congruence.
Qed.

(** "Set order of elements": the elements that are not cleared, each
    once, with where they start. *)
Lemma gc_live_list (el_start el_size el_cleared : list Z) (el_num : Z) :
  let l := for_ 0 el_num (fun i acc =>
             if get el_cleared i =? 0 then acc ++ [(get el_start i, i)] else acc) [] in
  (forall e, e ∈ l <-> exists i, live_el el_cleared el_num i /\ e = (get el_start i, i))
  /\ NoDup (l.*2)
  /\ el_total el_size l = live_cells el_size el_cleared el_num.
Proof.
  cbv zeta. split; [| split].
  - destruct (Z.le_gt_cases 0 el_num) as [Hn | Hneg].
    + apply (for_inv
               (fun j (acc : list (Z * Z)) =>
                  forall e, e ∈ acc
                            <-> exists i, live_el el_cleared j i /\ e = (get el_start i, i)));
        [exact Hn | |].
      * intros e. split; [intros H; apply elem_of_nil in H; contradiction |].
        intros (i & [Hi _] & _). lia.
      * intros j acc Hj Hacc e.
        destruct (Z.eqb_spec (get el_cleared j) 0) as [Hc | Hc].
        -- rewrite elem_of_app, Hacc, list_elem_of_singleton. split.
           ++ intros [(i & [Hi Hci] & ->) | ->].
              ** exists i. split; [split; [lia | exact Hci] | reflexivity].
              ** exists j. split; [split; [lia | exact Hc] | reflexivity].
           ++ intros (i & [Hi Hci] & ->). destruct (Z.eq_dec i j) as [-> | Hne].
              ** right. reflexivity.
              ** left. exists i. split; [split; [lia | exact Hci] | reflexivity].
        -- rewrite Hacc. split.
           ++ intros (i & [Hi Hci] & ->).
              exists i. split; [split; [lia | exact Hci] | reflexivity].
           ++ intros (i & [Hi Hci] & ->). destruct (Z.eq_dec i j) as [-> | Hne];
                [contradiction |].
              exists i. split; [split; [lia | exact Hci] | reflexivity].
    + rewrite for_empty by lia. intros e.
      split; [intros H; apply elem_of_nil in H; contradiction |].
      intros (i & [Hi _] & _). lia.
  - destruct (Z.le_gt_cases 0 el_num) as [Hn | Hneg];
      [| rewrite for_empty by lia; constructor].
    assert (H : let l := for_ 0 el_num (fun i acc =>
                  if get el_cleared i =? 0 then acc ++ [(get el_start i, i)] else acc) [] in
                NoDup (l.*2) /\ Forall (fun e : Z * Z => snd e < el_num) l);
      [| apply H].
    apply (for_inv
             (fun j (acc : list (Z * Z)) =>
                NoDup (acc.*2) /\ Forall (fun e : Z * Z => snd e < j) acc));
      [exact Hn | split; constructor |].
    intros j acc Hj [Hnd Hlt].
    assert (Hlt' : Forall (fun e : Z * Z => snd e < j + 1) acc)
      by (apply (Forall_impl _ _ _ Hlt); intros e He; lia).
    destruct (get el_cleared j =? 0); [| split; assumption].
    split.
    + rewrite fmap_app. apply NoDup_app. split; [exact Hnd |].
      split; [| apply NoDup_singleton].
      intros x Hx Hxj. apply list_elem_of_singleton in Hxj. subst x.
      apply list_elem_of_fmap in Hx. destruct Hx as (e & He & Hin).
      rewrite Forall_forall in Hlt. specialize (Hlt e Hin). cbn in He. lia.
    + apply Forall_app. split; [exact Hlt' |]. repeat constructor. cbn. lia.
  - unfold live_cells.
    apply (for_rel (fun (acc : list (Z * Z)) (tot : Z) => el_total el_size acc = tot));
      [reflexivity |].
    intros j acc tot _ <-. destruct (get el_cleared j =? 0); [| reflexivity].
    rewrite el_total_app. unfold el_total. cbn [fold_right snd]. lia.
Qed.

(** *** The moves *)

(** What the defragmentation needs of an element of the sorted list: it
    starts where [el_start] says and its cells are cells of the
    workspace. *)
Definition el_fits (ws es sz : list Z) (e : Z * Z) : Prop :=
  fst e = get es (snd e) /\ 0 <= fst e /\ 0 <= get sz (snd e)
  /\ fst e + get sz (snd e) <= Z.of_nat (length ws).

(** A later element that has cells starts behind the cells of an
    earlier one that has cells. *)
Fixpoint el_apart (sz : list Z) (l : list (Z * Z)) : Prop :=
  match l with
  | [] => True
  | e :: t =>
      Forall (fun e' => 0 < get sz (snd e) -> 0 < get sz (snd e') ->
                        fst e + get sz (snd e) <= fst e') t
      /\ el_apart sz t
  end.

(** A later element starts behind the cells of an earlier one. *)
Fixpoint el_packed (sz : list Z) (l : list (Z * Z)) : Prop :=
  match l with
  | [] => True
  | d :: t => Forall (fun d' => fst d + get sz (snd d) <= fst d') t /\ el_packed sz t
  end.

Lemma el_packed_snoc (sz : list Z) (l : list (Z * Z)) (x : Z * Z) :
  el_packed sz l -> Forall (fun d => fst d + get sz (snd d) <= fst x) l ->
  el_packed sz (l ++ [x]).
Proof.
  induction l as [| d t IH]; cbn [el_packed app].
  - intros _ _. split; [constructor | exact I].
  - intros [Hd Ht] Hx. apply Forall_cons in Hx. destruct Hx as [Hdx Htx].
    split; [| apply IH; assumption].
    apply Forall_app. split; [exact Hd |]. constructor; [exact Hdx | constructor].
Qed.

Lemma el_packed_apart (sz : list Z) (l : list (Z * Z)) (d d' : Z * Z) :
  el_packed sz l -> d ∈ l -> d' ∈ l -> d <> d' ->
  fst d + get sz (snd d) <= fst d' \/ fst d' + get sz (snd d') <= fst d.
Proof.
  induction l as [| h t IH]; cbn [el_packed]; intros Hp Hd Hd' Hne.
  - apply elem_of_nil in Hd. contradiction.
  - destruct Hp as [Hh Ht]. rewrite Forall_forall in Hh.
    apply elem_of_cons in Hd. apply elem_of_cons in Hd'.
    destruct Hd as [-> | Hd], Hd' as [-> | Hd'].
    + contradiction.
    + left. apply Hh. exact Hd'.
    + right. apply Hh. exact Hd.
    + apply IH; assumption.
Qed.

(** The state of the loop that moves the elements: the workspace, the
    elements moved with where they are now, and the first free cell. *)
Definition gc_inv (ws es sz : list Z) (rest : list (Z * Z))
    (st : list Z * list (Z * Z) * Z) : Prop :=
  let '(w, done, loc) := st in
  length w = length ws
  /\ 0 <= loc <= Z.of_nat (length ws)
  /\ (forall c, loc <= c -> get w c = get ws c)
  /\ Forall (fun e => 0 < get sz (snd e) -> loc <= fst e) rest
  /\ el_packed sz done
  /\ Forall (fun d => 0 <= fst d /\ fst d + get sz (snd d) <= loc
                      /\ (0 < get sz (snd d) -> fst d <= get es (snd d))
                      /\ forall k, 0 <= k < get sz (snd d) ->
                           get w (fst d + k) = get ws (get es (snd d) + k)) done.

Lemma gc_moves (ws es sz : list Z) :
  forall (rest : list (Z * Z)) (w : list Z) (done : list (Z * Z)) (loc : Z),
    Forall (el_fits ws es sz) rest -> el_apart sz rest ->
    gc_inv ws es sz rest (w, done, loc) ->
    let st' :=
      fold_left (fun '(w, done, loc) '(start, number) =>
        (memcpy_within w loc start (get sz number),
         done ++ [(loc, number)],
         loc + get sz number)) rest (w, done, loc) in
    gc_inv ws es sz [] st'
    /\ (snd (fst st')).*2 = done.*2 ++ rest.*2
    /\ snd st' = loc + el_total sz rest.
Proof.
  induction rest as [| [s nb] rest IH]; intros w done loc Hfits Hapart Hinv.
  - cbn [fold_left fst snd fmap list_fmap el_total fold_right].
    split; [exact Hinv |]. split; [rewrite app_nil_r; reflexivity | lia].
  - cbn [fold_left]. cbv zeta.
    apply Forall_cons in Hfits. destruct Hfits as [(Hs & Hs0 & Hsz & Hend) Hfits].
    cbn [fst snd] in Hs, Hs0, Hsz, Hend.
    cbn [el_apart] in Hapart. destruct Hapart as [Hhead Hapart]. cbn [fst snd] in Hhead.
    destruct Hinv as (Lw & Hloc & Hcells & Hrest & Hpacked & Hdone).
    apply Forall_cons in Hrest. destruct Hrest as [Hlocs Hrest]. cbn [fst snd] in Hlocs.
    assert (Hnew : gc_inv ws es sz rest
                     (memcpy_within w loc s (get sz nb), done ++ [(loc, nb)],
                      loc + get sz nb)).
    { assert (Hpk : el_packed sz (done ++ [(loc, nb)])).
      { apply el_packed_snoc; [exact Hpacked |].
        apply (Forall_impl _ _ _ Hdone). intros d (_ & Hd & _). exact Hd. }
      destruct (Z.eq_dec (get sz nb) 0) as [Hz | Hnz].
      - rewrite memcpy_within_empty by lia. rewrite Hz, Z.add_0_r.
        split; [exact Lw |]. split; [exact Hloc |]. split; [exact Hcells |].
        split; [exact Hrest |]. split; [exact Hpk |].
        apply Forall_app. split; [exact Hdone |]. constructor; [| constructor].
        cbn [fst snd]. rewrite Hz. split; [lia |]. split; [lia |].
        split; intros; lia.
      - assert (Hpos : 0 < get sz nb) by lia. specialize (Hlocs Hpos).
        destruct (memcpy_within_spec w loc s (get sz nb)) as [Lc Hcopy]; [lia | lia |].
        split; [congruence |]. split; [lia |]. split; [| split; [| split; [exact Hpk |]]].
        + intros c Hc. rewrite Hcopy.
          destruct (Z.leb_spec loc c), (Z.ltb_spec c (loc + get sz nb)); simpl; try lia;
            apply Hcells; lia.
        + rewrite Forall_forall in Hhead, Hrest. apply Forall_forall. intros e He He'.
          specialize (Hhead e He Hpos He'). lia.
        + apply Forall_app. split.
          * apply (Forall_impl _ _ _ Hdone). intros d (Hd0 & Hd1 & Hd2 & Hd3).
            split; [exact Hd0 |]. split; [lia |]. split; [exact Hd2 |].
            intros k Hk. rewrite Hcopy.
            destruct (Z.leb_spec loc (fst d + k)); simpl; [lia | apply Hd3; exact Hk].
          * constructor; [| constructor]. cbn [fst snd].
            split; [lia |]. split; [lia |]. split; [intros _; lia |].
            intros k Hk. rewrite Hcopy.
            destruct (Z.leb_spec loc (loc + k)), (Z.ltb_spec (loc + k) (loc + get sz nb));
              simpl; try lia.
            rewrite Hcells by lia. rewrite Hs. f_equal. lia. }
    destruct (IH _ _ _ Hfits Hapart Hnew) as (H1 & H2 & H3).
    split; [exact H1 |]. split.
    + rewrite H2, fmap_app. cbn [fmap list_fmap snd]. rewrite <- app_assoc. reflexivity.
    + rewrite H3. unfold el_total. cbn [fold_right snd]. lia.
Qed.

(** "Now correct locations". *)
Lemma gc_set_starts :
  forall (done : list (Z * Z)) (es : list Z),
    NoDup (done.*2) -> Forall (fun d => 0 <= snd d < Z.of_nat (length es)) done ->
    let es' := fold_left (fun es '(start, number) => upd es number start) done es in
    length es' = length es
    /\ (forall d, d ∈ done -> get es' (snd d) = fst d)
    /\ (forall i, i ∉ done.*2 -> get es' i = get es i).
Proof.
  induction done as [| [l nb] t IH]; intros es Hnd Hr; cbn [fold_left].
  - split; [reflexivity |]. split; [| reflexivity].
    intros d Hd. apply elem_of_nil in Hd. contradiction.
  - cbn [fmap list_fmap snd] in Hnd. apply NoDup_cons in Hnd. destruct Hnd as [Hnb Hnd].
    apply Forall_cons in Hr. destruct Hr as [Hl Hr]. cbn [snd] in Hl.
    destruct (IH (upd es nb l) Hnd) as (L & Hin & Hout).
    { apply (Forall_impl _ _ _ Hr). intros d Hd. rewrite length_upd. exact Hd. }
    cbv zeta in L, Hin, Hout. rewrite length_upd in L.
    split; [exact L |]. split.
    + intros d Hd. apply elem_of_cons in Hd. destruct Hd as [-> | Hd]; [| apply Hin; exact Hd].
      cbn [fst snd]. rewrite Hout by exact Hnb. apply get_upd_eq. exact Hl.
    + intros i Hi. cbn [fmap list_fmap snd] in Hi. apply not_elem_of_cons in Hi.
      destruct Hi as [Hne Hi]. rewrite Hout by exact Hi. apply get_upd_ne. congruence.
Qed.

Lemma sorted_el_apart (sz : list Z) (l : list (Z * Z)) :
  sorted_el l -> NoDup (l.*2) ->
  (forall e e', e ∈ l -> e' ∈ l -> snd e <> snd e' ->
     0 < get sz (snd e) -> 0 < get sz (snd e') ->
     fst e + get sz (snd e) <= fst e' \/ fst e' + get sz (snd e') <= fst e) ->
  el_apart sz l.
Proof.
  induction l as [| h t IH]; cbn [sorted_el el_apart]; intros Hs Hnd Hdis; [exact I |].
  destruct Hs as [Hh Ht]. cbn [fmap list_fmap] in Hnd.
  apply NoDup_cons in Hnd. destruct Hnd as [Hnh Hnd].
  split.
  - rewrite Forall_forall in Hh. apply Forall_forall. intros e He Hph Hpe.
    specialize (Hh e He).
    destruct (Hdis h e) as [H | H]; try assumption.
    + apply elem_of_cons. left. reflexivity.
    + apply elem_of_cons. right. exact He.
    + intros E. apply Hnh. rewrite E. apply list_elem_of_fmap. exists e. split; [reflexivity | exact He].
    + lia.
  - apply IH; [exact Ht | exact Hnd |].
    intros e e' He He'. apply Hdis; apply elem_of_cons; right; assumption.
Qed.


(** ** The layout of the supercolumns *)

Lemma iter_from_snoc {St : Type} (body : Z -> St -> St) :
  forall (k : nat) (i : Z) (s : St),
    iter_from (S k) i body s = body (i + Z.of_nat k) (iter_from k i body s).
Proof.
  induction k as [| k IH]; intros i s.
  - cbn [iter_from]. rewrite Z.add_0_r. reflexivity.
  - change (iter_from (S (S k)) i body s) with (iter_from (S k) (i + 1) body (body i s)).
    rewrite IH. cbn [iter_from]. f_equal. lia.
Qed.

(** The last turn of a loop. *)
Lemma for_snoc {St : Type} (lo hi : Z) (body : Z -> St -> St) (s : St) :
  lo <= hi -> for_ lo (hi + 1) body s = body hi (for_ lo hi body s).
Proof.
  intros H. unfold for_.
  replace (Z.to_nat (hi + 1 - lo)) with (S (Z.to_nat (hi - lo))) by lia.
  rewrite iter_from_snoc. f_equal. lia.
Qed.

(** The number of columns of the supercolumns before [i]. *)
Definition columns_before (size : list Z) (i : Z) : Z :=
  for_ 0 i (fun k acc => acc + get size k) 0.

Lemma columns_before_succ (size : list Z) (i : Z) :
  0 <= i -> columns_before size (i + 1) = columns_before size i + get size i.
Proof. intros H. unfold columns_before. rewrite for_snoc by exact H. reflexivity. Qed.

(** "Fill in supercolumn start and end". *)
Lemma cs_layout_loop (size st0 en0 : list Z) (S : Z) :
  1 <= S -> S <= Z.of_nat (length st0) -> S <= Z.of_nat (length en0) ->
  let r := for_ 1 S (fun i '(st, en) =>
             let st := upd st i (get en (i - 1) + 1) in
             let en := upd en i (get st i + get size i - 1) in
             (st, en)) (upd st0 0 0, upd en0 0 (get size 0 - 1)) in
  forall i, 0 <= i < S ->
    get (fst r) i = columns_before size i
    /\ get (snd r) i = columns_before size (i + 1) - 1.
Proof.
  intros HS Hls Hle. cbv zeta.
  apply (for_inv
           (fun j (p : list Z * list Z) =>
              length (fst p) = length st0 /\ length (snd p) = length en0
              /\ forall i, 0 <= i < j ->
                   get (fst p) i = columns_before size i
                   /\ get (snd p) i = columns_before size (i + 1) - 1));
    [exact HS | |].
  - cbn [fst snd]. rewrite !length_upd. split; [reflexivity |]. split; [reflexivity |].
    intros i Hi. assert (i = 0) as -> by lia.
    rewrite !get_upd_eq by lia.
    rewrite (columns_before_succ size 0) by lia.
    unfold columns_before. rewrite for_empty by lia. split; lia.
  - intros j [st en] Hj (Ls & Le & Hinv). cbn [fst snd] in *.
    rewrite !length_upd. split; [exact Ls |]. split; [exact Le |].
    intros i Hi. destruct (Z.eq_dec i j) as [-> | Hne].
    + rewrite !get_upd_eq by lia.
      destruct (Hinv (j - 1) ltac:(lia)) as [_ He].
      replace (j - 1 + 1) with j in He by lia.
      rewrite columns_before_succ by lia. rewrite He. split; lia.
    + rewrite !get_upd_ne by lia. apply Hinv. lia.
Qed.

(** What [complete_symbolic] does with the sizes of the supercolumns. *)
Lemma cs_layout (symbolic : taucs_multilu_symbolic) :
  let S := number_supercolumns symbolic in
  let size := supercolumn_size symbolic in
  1 <= S -> S <= Z.of_nat (length (start_supercolumn symbolic)) ->
  S <= Z.of_nat (length (end_supercolumn symbolic)) ->
  (columns_before size S <> sym_n symbolic ->
     complete_symbolic symbolic
     = AssertFailed (assert_last_end (columns_before size S - 1)))
  /\ (columns_before size S = sym_n symbolic ->
      exists symbolic',
        complete_symbolic symbolic = Ok symbolic'
        /\ number_supercolumns symbolic' = S
        /\ supercolumn_size symbolic' = size
        /\ forall i, 0 <= i < S ->
             get (start_supercolumn symbolic') i = columns_before size i
             /\ get (end_supercolumn symbolic') i
                = columns_before size i + get size i - 1).
Proof.
  intros S size HS Hls Hle. unfold complete_symbolic. fold S size.
  pose proof (cs_layout_loop size (start_supercolumn symbolic) (end_supercolumn symbolic)
                S HS Hls Hle) as Hlay.
  cbv zeta in Hlay.
  destruct (for_ 1 S _ _) as [start_sc end_sc]. cbn [fst snd] in Hlay.
  destruct (Hlay (S - 1) ltac:(lia)) as [_ Hlast].
  replace (S - 1 + 1) with S in Hlast by lia. rewrite Hlast.
  split; intros Hsum.
  - destruct (Z.eqb_spec (columns_before size S - 1) (sym_n symbolic - 1)) as [E | _];
      [lia | reflexivity].
  - destruct (Z.eqb_spec (columns_before size S - 1) (sym_n symbolic - 1)) as [_ | E];
      [| lia].
    cbn [negb].
    destruct (for_ 0 S (cs_link _) _) as [[froot fchild] nchild].
    destruct (for_ 0 S (cs_desc _) _) as [fdesc ldesc].
    eexists. split; [reflexivity |].
    cbn [number_supercolumns supercolumn_size start_supercolumn end_supercolumn].
    split; [reflexivity |]. split; [reflexivity |].
    intros i Hi. destruct (Hlay i Hi) as [Hs He]. split; [exact Hs |].
    rewrite He, columns_before_succ by lia. lia.
Qed.

(** [complete_symbolic] lays the supercolumns out one after the other
    from the column 0: the supercolumn [i] starts behind the columns of
    the supercolumns before it and ends with its last column.  It
    asserts that the last supercolumn ends at the column [n - 1]: when
    the sizes of the supercolumns do not add up to [n] the assertion
    fails. *)
Theorem complete_symbolic_layout (symbolic : taucs_multilu_symbolic) :
  let S := number_supercolumns symbolic in
  let size := supercolumn_size symbolic in
  1 <= S -> S <= Z.of_nat (length (start_supercolumn symbolic)) ->
  S <= Z.of_nat (length (end_supercolumn symbolic)) ->
  (columns_before size S <> sym_n symbolic ->
     complete_symbolic symbolic
     = AssertFailed (assert_last_end (columns_before size S - 1)))
  /\ (columns_before size S = sym_n symbolic ->
      exists symbolic',
        complete_symbolic symbolic = Ok symbolic'
        /\ number_supercolumns symbolic' = S
        /\ supercolumn_size symbolic' = size
        /\ forall i, 0 <= i < S ->
             get (start_supercolumn symbolic') i = columns_before size i
             /\ get (end_supercolumn symbolic') i
                = columns_before size i + get size i - 1).
Proof. apply cs_layout. Qed.

(** ** The lists of children *)

(** The last supercolumn before [k] whose parent is [p], if any. *)
Definition last_with (par : list Z) (p k : Z) : Z :=
  for_ 0 k (fun j acc => if get par j =? p then j else acc) MULTILU_SYMBOLIC_NONE.

Lemma last_with_succ (par : list Z) (p k : Z) :
  0 <= k ->
  last_with par p (k + 1) = if get par k =? p then k else last_with par p k.
Proof. intros H. unfold last_with. rewrite for_snoc by exact H. reflexivity. Qed.

(** "Build child list and find root". *)
Lemma cs_link_loop (par fc0 nc0 : list Z) (S : Z) :
  0 <= S -> S <= Z.of_nat (length fc0) -> S <= Z.of_nat (length nc0) ->
  (forall i, 0 <= i < S ->
     get par i = MULTILU_SYMBOLIC_NONE \/ 0 <= get par i < S) ->
  (forall p, 0 <= p < S -> get fc0 p = MULTILU_SYMBOLIC_NONE) ->
  let r := for_ 0 S (cs_link par) (MULTILU_SYMBOLIC_NONE, fc0, nc0) in
  fst (fst r) = last_with par MULTILU_SYMBOLIC_NONE S
  /\ (forall p, 0 <= p < S -> get (snd (fst r)) p = last_with par p S)
  /\ (forall i, 0 <= i < S -> get (snd r) i = last_with par (get par i) i).
Proof.
  intros HS Hlf Hln Hpar Hclear. cbv zeta.
  assert (H : let r := for_ 0 S (cs_link par) (MULTILU_SYMBOLIC_NONE, fc0, nc0) in
              length (snd (fst r)) = length fc0 /\ length (snd r) = length nc0
              /\ fst (fst r) = last_with par MULTILU_SYMBOLIC_NONE S
              /\ (forall p, 0 <= p < S -> get (snd (fst r)) p = last_with par p S)
              /\ (forall i, 0 <= i < S -> get (snd r) i = last_with par (get par i) i));
    [| cbv zeta in H; destruct H as (_ & _ & H); exact H].
  apply (for_inv
           (fun j (st : Z * list Z * list Z) =>
              length (snd (fst st)) = length fc0 /\ length (snd st) = length nc0
              /\ fst (fst st) = last_with par MULTILU_SYMBOLIC_NONE j
              /\ (forall p, 0 <= p < S -> get (snd (fst st)) p = last_with par p j)
              /\ (forall i, 0 <= i < j -> get (snd st) i = last_with par (get par i) i)));
    [exact HS | |].
  - cbn [fst snd]. unfold last_with. rewrite for_empty by lia.
    split; [reflexivity |]. split; [reflexivity |]. split; [reflexivity |].
    split; [| intros i Hi; lia].
    intros p Hp. rewrite for_empty by lia. apply Hclear. exact Hp.
  - intros j [[froot fc] nc] Hj (Lf & Ln & Hroot & Hfc & Hnc). cbn [fst snd] in *.
    unfold cs_link. unfold MULTILU_SYMBOLIC_NONE in *.
    destruct (Z.eqb_spec (get par j) (-1)) as [Hnone | Hsome]; cbn [fst snd].
    + rewrite length_upd. split; [exact Lf |]. split; [exact Ln |].
      split; [rewrite last_with_succ by lia; unfold MULTILU_SYMBOLIC_NONE;
              rewrite Hnone, Z.eqb_refl; reflexivity |].
      split.
      * intros p Hp. rewrite last_with_succ by lia.
        destruct (Z.eqb_spec (get par j) p) as [E | _]; [lia | apply Hfc; exact Hp].
      * intros i Hi. destruct (Z.eq_dec i j) as [-> | Hne].
        -- rewrite get_upd_eq by lia. rewrite Hnone. exact Hroot.
        -- rewrite get_upd_ne by lia. apply Hnc. lia.
    + destruct (Hpar j Hj) as [E | Hp]; [contradiction |].
      rewrite !length_upd. split; [exact Lf |]. split; [exact Ln |].
      split; [rewrite last_with_succ by lia; unfold MULTILU_SYMBOLIC_NONE;
              destruct (Z.eqb_spec (get par j) (-1)); [contradiction | exact Hroot] |].
      split.
      * intros p Hp'. rewrite last_with_succ by lia.
        destruct (Z.eqb_spec (get par j) p) as [<- | Hne].
        -- apply get_upd_eq. lia.
        -- rewrite get_upd_ne by exact Hne. apply Hfc. exact Hp'.
      * intros i Hi. destruct (Z.eq_dec i j) as [-> | Hne].
        -- rewrite get_upd_eq by lia. apply Hfc. exact Hp.
        -- rewrite get_upd_ne by lia. apply Hnc. lia.
Qed.

(** What [complete_symbolic] leaves in the lists of children. *)
Lemma cs_links (symbolic symbolic' : taucs_multilu_symbolic) :
  let S := number_supercolumns symbolic in
  let par := parent (etree symbolic) in
  S <= Z.of_nat (length (first_child (etree symbolic))) ->
  S <= Z.of_nat (length (next_child (etree symbolic))) ->
  (forall i, 0 <= i < S -> get par i = MULTILU_SYMBOLIC_NONE \/ 0 <= get par i < S) ->
  complete_symbolic symbolic = Ok symbolic' ->
  first_root (etree symbolic') = last_with par MULTILU_SYMBOLIC_NONE S
  /\ (forall p, 0 <= p < S -> get (first_child (etree symbolic')) p = last_with par p S)
  /\ (forall i, 0 <= i < S ->
        get (next_child (etree symbolic')) i = last_with par (get par i) i).
Proof.
  intros S par Hlf Hln Hpar Hrun. unfold complete_symbolic in Hrun. fold S par in Hrun.
  destruct (for_ 1 S _ _) as [start_sc end_sc].
  destruct (negb _); [discriminate |].
  destruct (Z.le_gt_cases 0 S) as [HS | Hneg].
  - destruct (clear_loop (first_child (etree symbolic)) S Hlf) as [Lf Hf].
    destruct (clear_loop (next_child (etree symbolic)) S Hln) as [Ln _].
    pose proof (cs_link_loop par _ _ S HS ltac:(rewrite Lf; exact Hlf)
                  ltac:(rewrite Ln; exact Hln) Hpar Hf) as Hlink.
    cbv zeta in Hlink.
    destruct (for_ 0 S (cs_link par) _) as [[froot fchild] nchild].
    destruct (for_ 0 S (cs_desc par) _) as [fdesc ldesc].
    injection Hrun as <-. cbn [first_root first_child next_child etree].
    exact Hlink.
  - rewrite (for_empty 0 S (cs_link par)) in Hrun by lia.
    destruct (for_ 0 S (cs_desc par) _) as [fdesc ldesc].
    injection Hrun as <-. cbn [first_root first_child next_child etree].
    unfold last_with. rewrite for_empty by lia.
    split; [reflexivity |]. split; intros i Hi; lia.
Qed.

(** [complete_symbolic] links the supercolumns of the same parent in a
    list that runs from the last to the first: the first child of a
    supercolumn is its last child, the next child of a supercolumn is
    the sibling before it, the first root is the last supercolumn
    without a parent, and a list ends with [MULTILU_SYMBOLIC_NONE]. *)
Theorem complete_symbolic_child_lists (symbolic symbolic' : taucs_multilu_symbolic) :
  let S := number_supercolumns symbolic in
  let par := parent (etree symbolic) in
  S <= Z.of_nat (length (first_child (etree symbolic))) ->
  S <= Z.of_nat (length (next_child (etree symbolic))) ->
  (forall i, 0 <= i < S -> get par i = MULTILU_SYMBOLIC_NONE \/ 0 <= get par i < S) ->
  complete_symbolic symbolic = Ok symbolic' ->
  first_root (etree symbolic') = last_with par MULTILU_SYMBOLIC_NONE S
  /\ (forall p, 0 <= p < S -> get (first_child (etree symbolic')) p = last_with par p S)
  /\ (forall i, 0 <= i < S ->
        get (next_child (etree symbolic')) i = last_with par (get par i) i).
Proof. apply cs_links. Qed.

(** ** The columns a supercolumn covers *)

(** The covered columns of the children of [p] among the supercolumns
    before [k]. *)
Definition children_cover (par cov : list Z) (p k : Z) : Z :=
  for_ 0 k (fun c acc => if get par c =? p then acc + get cov c else acc) 0.

Lemma children_cover_succ (par cov : list Z) (p k : Z) :
  0 <= k ->
  children_cover par cov p (k + 1)
  = if get par k =? p then children_cover par cov p k + get cov k
    else children_cover par cov p k.
Proof. intros H. unfold children_cover. rewrite for_snoc by exact H. reflexivity. Qed.

Lemma children_cover_frame (par cov cov' : list Z) (p k : Z) :
  (forall c, 0 <= c < k -> get par c = p -> get cov' c = get cov c) ->
  children_cover par cov' p k = children_cover par cov p k.
Proof.
  intros H. unfold children_cover.
  apply (for_rel (fun x y : Z => x = y)); [reflexivity |].
  intros j x y Hj ->. destruct (Z.eqb_spec (get par j) p) as [E | _]; [| reflexivity].
  rewrite (H j Hj E). reflexivity.
Qed.

Lemma children_cover_none (par cov : list Z) (p k k' : Z) :
  0 <= k <= k' -> (forall c, k <= c < k' -> get par c <> p) ->
  children_cover par cov p k' = children_cover par cov p k.
Proof.
  intros Hk Hnone.
  replace k' with (k + Z.of_nat (Z.to_nat (k' - k))) in * by lia.
  induction (Z.to_nat (k' - k)) as [| d IH].
  - rewrite Z.add_0_r. reflexivity.
  - replace (k + Z.of_nat (S d)) with (k + Z.of_nat d + 1) in * by lia.
    rewrite children_cover_succ by lia.
    destruct (Z.eqb_spec (get par (k + Z.of_nat d)) p) as [E | _].
    + exfalso. apply (Hnone (k + Z.of_nat d)); [lia | exact E].
    + apply IH; [lia |]. intros c Hc. apply Hnone. lia.
Qed.

(** "Calculate the number of covered columns at each supercolumn". *)
Lemma cs_cover_loop (par size cov0 : list Z) (S : Z) :
  0 <= S -> S <= Z.of_nat (length cov0) ->
  (forall i, 0 <= i < S -> get par i = MULTILU_SYMBOLIC_NONE \/ i < get par i < S) ->
  (forall i, 0 <= i < S -> get cov0 i = 0) ->
  let cov := for_ 0 S (cs_cover par size) cov0 in
  forall i, 0 <= i < S -> get cov i = get size i + children_cover par cov i S.
Proof.
  intros HS Hlen Hpar Hzero. cbv zeta.
  assert (H : let cov := for_ 0 S (cs_cover par size) cov0 in
              length cov = length cov0
              /\ (forall i, 0 <= i < S ->
                    get cov i = get size i + children_cover par cov i i)
              /\ (forall i, S <= i < S -> get cov i = children_cover par cov i S)).
  { apply (for_inv
             (fun j cov =>
                length cov = length cov0
                /\ (forall i, 0 <= i < j ->
                      get cov i = get size i + children_cover par cov i i)
                /\ (forall i, j <= i < S -> get cov i = children_cover par cov i j)));
      [exact HS | |].
    - split; [reflexivity |]. split; [intros i Hi; lia |].
      intros i Hi. unfold children_cover. rewrite for_empty by lia. apply Hzero. lia.
    - intros j cov Hj (L & Hdone & Hopen). unfold cs_cover.
      set (cov1 := upd cov j (get cov j + get size j)).
      assert (L1 : length cov1 = length cov0) by (unfold cov1; rewrite length_upd; exact L).
      assert (Hj1 : get cov1 j = get size j + children_cover par cov j j).
      { unfold cov1. rewrite get_upd_eq by lia. rewrite (Hopen j) by lia. lia. }
      assert (H1 : forall i, i <> j -> get cov1 i = get cov i)
        by (intros i Hi; unfold cov1; apply get_upd_ne; lia).
      unfold MULTILU_SYMBOLIC_NONE in *.
      destruct (Z.eqb_spec (get par j) (-1)) as [Hnone | Hsome]; cbn [negb].
      + split; [exact L1 |]. split.
        * intros i Hi. destruct (Z.eq_dec i j) as [-> | Hne].
          -- rewrite Hj1. f_equal. symmetry. apply children_cover_frame.
             intros c Hc _. apply H1. lia.
          -- rewrite H1 by exact Hne. rewrite Hdone by lia. f_equal. symmetry.
             apply children_cover_frame. intros c Hc _. apply H1. lia.
        * intros i Hi. rewrite children_cover_succ by lia.
          destruct (Z.eqb_spec (get par j) i) as [E | _]; [lia |].
          rewrite H1 by lia. rewrite Hopen by lia. symmetry.
          apply children_cover_frame. intros c Hc _. apply H1. lia.
      + destruct (Hpar j Hj) as [E | Hp]; [contradiction |].
        set (p := get par j) in *.
        set (cov2 := upd cov1 p (get cov1 p + get cov1 j)).
        assert (H2 : forall i, i <> j -> i <> p -> get cov2 i = get cov i).
        { intros i Hij Hip. unfold cov2. rewrite get_upd_ne by lia. apply H1. exact Hij. }
        assert (H2j : get cov2 j = get cov1 j)
          by (unfold cov2; apply get_upd_ne; lia).
        split; [unfold cov2; rewrite length_upd; exact L1 |]. split.
        * intros i Hi. destruct (Z.eq_dec i j) as [-> | Hne].
          -- rewrite H2j, Hj1. f_equal. symmetry. apply children_cover_frame.
             intros c Hc _. apply H2; lia.
          -- rewrite H2 by lia. rewrite Hdone by lia. f_equal. symmetry.
             apply children_cover_frame. intros c Hc _. apply H2; lia.
        * intros i Hi. rewrite children_cover_succ by lia. fold p.
          assert (Hfr : children_cover par cov2 i j = children_cover par cov i j)
            by (apply children_cover_frame; intros c Hc _; apply H2; lia).
          rewrite Hfr.
          destruct (Z.eqb_spec p i) as [<- | Hne].
          -- unfold cov2 at 1. rewrite get_upd_eq by lia.
             rewrite (H1 p) by lia. rewrite (Hopen p) by lia. rewrite H2j. reflexivity.
          -- rewrite H2 by lia. apply Hopen. lia. }
  cbv zeta in H. destruct H as (_ & Hdone & _).
  intros i Hi. rewrite (Hdone i Hi). f_equal. symmetry.
  apply children_cover_none; [lia |].
  intros c Hc E. destruct (Hpar c ltac:(lia)) as [Hn | Hp].
  - unfold MULTILU_SYMBOLIC_NONE in Hn. lia.
  - lia.
Qed.

(** When every parent comes after its children, [complete_symbolic]
    counts for every supercolumn the columns of its subtree: its
    covered columns are its own columns and the covered columns of its
    children. *)
Theorem complete_symbolic_covered_columns (symbolic symbolic' : taucs_multilu_symbolic) :
  let S := number_supercolumns symbolic in
  let par := parent (etree symbolic) in
  S <= Z.of_nat (length (supercolumn_covered_columns symbolic)) ->
  (forall i, 0 <= i < S -> get par i = MULTILU_SYMBOLIC_NONE \/ i < get par i < S) ->
  complete_symbolic symbolic = Ok symbolic' ->
  forall i, 0 <= i < S ->
    get (supercolumn_covered_columns symbolic') i
    = get (supercolumn_size symbolic) i
      + children_cover par (supercolumn_covered_columns symbolic') i S.
Proof.
  intros S par Hlen Hpar Hrun i Hi. unfold complete_symbolic in Hrun. fold S par in Hrun.
  destruct (for_ 1 S _ _) as [start_sc end_sc].
  destruct (negb _); [discriminate |].
  destruct (for_ 0 S (cs_link par) _) as [[froot fchild] nchild].
  destruct (for_ 0 S (cs_desc par) _) as [fdesc ldesc].
  injection Hrun as <-. cbn [supercolumn_covered_columns].
  assert (Hz : let a := for_ 0 S (fun i a => upd a i 0) (supercolumn_covered_columns symbolic) in
               length a = length (supercolumn_covered_columns symbolic)
               /\ forall q, 0 <= q < S -> get a q = 0).
  { apply (for_inv (fun j b => length b = length (supercolumn_covered_columns symbolic)
                               /\ forall q, 0 <= q < j -> get b q = 0));
      [lia | split; [reflexivity | intros q Hq; lia] |].
    intros j b Hj [Lb Hb]. rewrite length_upd. split; [exact Lb |].
    intros q Hq. destruct (Z.eq_dec q j) as [-> | Hne].
    - apply get_upd_eq. lia.
    - rewrite get_upd_ne by lia. apply Hb. lia. }
  cbv zeta in Hz. destruct Hz as [Lz Hz].
  apply (cs_cover_loop par (supercolumn_size symbolic) _ S); try assumption; try lia.
Qed.

(** ** The bounds of the elimination analysis *)

Lemma append_pattern_U_size (x row_start : Z) (sr : store * Z) :
  fst (append_pattern x row_start sr) U_size = fst sr U_size.
Proof.
  unfold append_pattern.
  apply (for_preserves (fun t : store * Z => fst t U_size = fst sr U_size)); [reflexivity |].
  intros j [s row_size] _ Ht. cbn [fst] in *.
  destruct (_ && _); cbn [fst]; [| exact Ht]. store_simpl. exact Ht.
Qed.

Lemma ea_nonzero_U_size (n col row_start row : Z) (st : store * Z * Z) :
  fst (fst (ea_nonzero n col row_start row st)) U_size = fst (fst st) U_size.
Proof.
  destruct st as [[s row_size] cset]. unfold ea_nonzero. cbn [fst].
  destruct (get (s Firstcol) row =? n).
  - match goal with
    | |- context [append_pattern ?x ?rs ?sr] =>
        pose proof (append_pattern_U_size x rs sr) as Hap;
        destruct (append_pattern x rs sr) as [s1 row_size1]
    end.
    cbn [fst] in *. store_simpl. rewrite Hap. store_simpl. reflexivity.
  - destruct (uf_find (s Sets) (get (s Firstcol) row)) as [sets1 rset].
    store_simpl.
    destruct (negb (get (s Root) rset =? col)); cbn [fst]; [| reflexivity].
    match goal with
    | |- context [append_pattern ?x ?rs ?sr] =>
        pose proof (append_pattern_U_size x rs sr) as Hap;
        destruct (append_pattern x rs sr) as [s1 row_size1]
    end.
    cbn [fst uf_union] in *. store_simpl. rewrite Hap. store_simpl. reflexivity.
Qed.

Lemma ea_collect_U_size (A : taucs_ccs_matrix) (col : Z) (st : store * Z) :
  fst (ea_collect A col st) U_size = fst st U_size.
Proof.
  unfold ea_collect. destruct st as [s next_row].
  destruct (_ >? _); [| reflexivity].
  destruct (garbage_collect _ _ _ _ _) as [[w es] loc]. cbn [fst]. store_simpl. reflexivity.
Qed.

(** A pivot step that returns has found a row: it records a positive
    [u_size] for its column and keeps those of the other columns. *)
Lemma ea_column_U_size (A : taucs_ccs_matrix) (column_order : list Z) (col : Z)
    (st st' : store * Z) :
  0 <= col < Z.of_nat (length (fst st U_size)) ->
  ea_column A column_order col st = Ok st' ->
  length (fst st' U_size) = length (fst st U_size)
  /\ 1 <= get (fst st' U_size) col
  /\ forall j, j <> col -> get (fst st' U_size) j = get (fst st U_size) j.
Proof.
  intros Hcol Hrun. unfold ea_column in Hrun.
  destruct (negb _); [discriminate |].
  pose proof (ea_collect_U_size A col st) as Hc. rewrite <- Hc in *.
  destruct (ea_collect A col st) as [s next_row]. clear Hc. unfold ea_pivot in Hrun.
  cbn [fst] in *.
  match type of Hrun with
  | context [for_ 0 ?k ?body ?s0] =>
      assert (Hloop : fst (fst (for_ 0 k body s0)) U_size = s U_size);
        [| destruct (for_ 0 k body s0) as [[s1 row_size] cset]]
  end.
  { apply (for_preserves (fun t : store * Z * Z => fst (fst t) U_size = s U_size)).
    - cbn [fst]. store_simpl. reflexivity.
    - intros i t _ Ht. rewrite ea_nonzero_U_size. exact Ht. }
  cbn [fst] in Hloop.
  destruct (Z.gtb_spec row_size 0) as [Hpos | Hnpos]; [| discriminate]. cbn [negb] in Hrun.
  injection Hrun as <-. cbn [fst]. store_simpl.
  match goal with
  | |- context [for_ 0 ?k ?body ?s0] =>
      assert (Hmmb : for_ 0 k body s0 U_size = upd (s U_size) col row_size)
  end.
  { match goal with
    | |- for_ 0 ?k ?body ?s0 U_size = _ =>
        transitivity (s0 U_size);
          [apply (for_preserves (fun t : store => t U_size = s0 U_size));
             [reflexivity | intros j t _ Ht; store_simpl; exact Ht] |]
    end.
    store_simpl. rewrite Hloop. reflexivity. }
  rewrite Hmmb. rewrite length_upd. split; [reflexivity |].
  split; [rewrite get_upd_eq by lia; lia |].
  intros j Hj. apply get_upd_ne. lia.
Qed.

Lemma ea_init_U_size (A : taucs_ccs_matrix) (parent_ l_size u_size : list Z) :
  fst (ea_init A parent_ l_size u_size) U_size = u_size.
Proof.
  unfold ea_init. cbn [fst].
  repeat first
    [ progress store_simpl
    | rewrite for_frame
        by (intros; first [ store_simpl; reflexivity
                          | apply for_frame; intros; store_simpl; reflexivity ]) ].
  reflexivity.
Qed.

(** When [elimination_analysis] returns, every column has a parent
    behind it in the column etree, the root [n] at most, and a bound
    [u_size] of at least one: every pivot step found a row. *)
Theorem elimination_analysis_bounds (A : taucs_ccs_matrix)
    (column_order parent_ l_size u_size parent' l_size' u_size' : list Z) :
  ccs_n A <= Z.of_nat (length parent_) ->
  ccs_n A <= Z.of_nat (length u_size) ->
  elimination_analysis A column_order parent_ l_size u_size = Ok (parent', l_size', u_size') ->
  forall col, 0 <= col < ccs_n A ->
    col < get parent' col <= ccs_n A /\ 1 <= get u_size' col.
Proof.
  intros Hlp Hlu Hrun col Hcol.
  destruct (elimination_analysis_parents A column_order parent_ l_size u_size
              parent' l_size' u_size' Hlp Hrun) as [_ Hpar].
  split; [apply Hpar; exact Hcol |].
  unfold elimination_analysis in Hrun.
  apply bind_Ok in Hrun. destruct Hrun as ([s next_row] & Hloop & Hrun).
  injection Hrun as _ _ <-.
  assert (Hinv : (forall j, 0 <= j < ccs_n A -> 1 <= get (fst (s, next_row) U_size) j)
                 /\ length (fst (s, next_row) U_size) = length u_size).
  { apply (forM_inv
             (fun k (st : store * Z) =>
                (forall j, 0 <= j < k -> 1 <= get (fst st U_size) j)
                /\ length (fst st U_size) = length u_size)
             0 (ccs_n A) (ea_column A column_order)
             (ea_init A parent_ l_size u_size) (s, next_row) ltac:(lia));
      [| | exact Hloop].
    - rewrite ea_init_U_size. split; [intros j Hj; lia | reflexivity].
    - intros j t t' Hj [Ht Lt] Hb.
      apply ea_column_U_size in Hb; [| lia].
      destruct Hb as (L & Hnew & Hold). split; [| congruence].
      intros i Hi. destruct (Z.eq_dec i j) as [-> | Hne]; [exact Hnew |].
      rewrite Hold by exact Hne. apply Ht. lia. }
  cbn [fst] in Hinv. apply Hinv. exact Hcol.
Qed.

(** ** The first vertex of the postorder *)

(** In a forest given by its lists of children, where the first child
    of a vertex comes before the vertex and the root has a child, the
    vertex that [df_postorder] numbers first is a leaf. *)
Theorem df_postorder_starts_at_leaf (first_child next_child : list Z) (root : Z)
    (postorder desc_count postorder' desc_count' : list Z) :
  1 <= root -> (1 <= length postorder)%nat ->
  children_before root first_child ->
  df_postorder first_child next_child root postorder desc_count
  = Ok (postorder', desc_count') ->
  get first_child (get postorder' 0) = MULTILU_SYMBOLIC_NONE.
Proof.
  intros Hroot Hlp Hchildren Hrun.
  exact (df_postorder_first_leaf first_child next_child root (length postorder)
           Hroot Hlp Hchildren postorder desc_count postorder' desc_count' eq_refl Hrun).
Qed.

(** ** The sizes of the supercolumns *)

Lemma dsc_nonzero_Sc_size (n col row : Z) (st : store * Z) :
  fst (dsc_nonzero n col row st) Sc_size = fst st Sc_size.
Proof.
  destruct st as [s cset]. unfold dsc_nonzero.
  destruct (_ =? n); [cbn [fst]; store_simpl; reflexivity |].
  destruct (uf_find _ _) as [sets1 rset].
  destruct (negb _); [| cbn [fst]; store_simpl; reflexivity].
  destruct (uf_union _ _ _) as [sets2 cset']. cbn [fst]. store_simpl. reflexivity.
Qed.

(** Before the column [col] is scanned, the fundamental supercolumns
    made so far have columns. *)
Definition sizes_inv (len : nat) (col : Z) (st : store * dsc_scalars) : Prop :=
  let '(s, v) := st in
  length (s Sc_size) = len
  /\ -1 <= fsc_num v < col
  /\ forall f, 0 <= f <= fsc_num v -> 1 <= get (s Sc_size) f.

Lemma dsc_close_sizes (len : nat) (col f a : Z) (s s1 : store) (v v' : dsc_scalars) :
  0 <= col < Z.of_nat len ->
  sizes_inv len col (s, v) ->
  s1 Sc_size = s Sc_size ->
  fsc_num v' = f ->
  (f = fsc_num v + 1 /\ a = 1) \/ (f = fsc_num v /\ a = get (s Sc_size) f + 1) ->
  sizes_inv len (col + 1)
    (put_at Map_col_supercol col f (put_at Lastcol f col (put_at Sc_size f a s1)), v').
Proof.
  intros Hcol (Hlen & Hf & Hsz) E Hv Hcase.
  unfold sizes_inv. store_simpl. rewrite length_upd, E, Hv.
  split; [exact Hlen |]. split; [lia |].
  intros f' Hf'. destruct (Z.eq_dec f' f) as [-> | Hne].
  - rewrite get_upd_eq by lia.
    destruct Hcase as [[_ ->] | [Ef ->]]; [lia |].
    specialize (Hsz f ltac:(lia)). lia.
  - rewrite get_upd_ne by lia. apply Hsz. lia.
Qed.

Lemma dsc_column_sizes (A : taucs_ccs_matrix)
    (column_order one_child l_size u_size postorder : list Z) (len : nat) (col : Z)
    (st : store * dsc_scalars) :
  0 <= col < Z.of_nat len ->
  sizes_inv len col st ->
  sizes_inv len (col + 1)
    (dsc_column A column_order one_child l_size u_size postorder col st).
Proof.
  intros Hcol Hinv. destruct st as [s v]. unfold dsc_column.
  match goal with
  | |- context [for_ 0 ?nnz ?body (put_at Root col col s, col)] =>
      assert (E : fst (for_ 0 nnz body (put_at Root col col s, col)) Sc_size = s Sc_size);
      [| destruct (for_ 0 nnz body (put_at Root col col s, col)) as [s1 cset1]]
  end.
  { apply (for_preserves (fun t : store * Z => fst t Sc_size = s Sc_size)).
    - cbn [fst]. store_simpl. reflexivity.
    - intros j t _ Ht. rewrite dsc_nonzero_Sc_size. exact Ht. }
  cbn [fst] in E.
  destruct (get one_child col =? 0); cbn [orb negb].
  { apply (dsc_close_sizes len col _ _ s s1 v); auto. }
  destruct (get (s Sc_size) (fsc_num v) =? MULTILU_MAX_SUPERCOL_SIZE); cbn [orb negb].
  { apply (dsc_close_sizes len col _ _ s s1 v); auto. }
  destruct (_ || _); cbn [fsc_num].
  - apply (dsc_close_sizes len col _ _ s s1 v); auto.
  - apply (dsc_close_sizes len col _ _ s s1 v); auto.
    right. split; [reflexivity |]. rewrite E. reflexivity.
Qed.

(** Every fundamental supercolumn has a column. *)
Lemma detect_fundamental_sizes (A : taucs_ccs_matrix)
    (column_order one_child l_size u_size postorder sc_size sc_parent : list Z) :
  0 <= ccs_n A <= Z.of_nat (length sc_size) ->
  let s := fst (detect_fundamental A column_order one_child l_size u_size postorder
                  sc_size sc_parent) in
  let fsc := snd (detect_fundamental A column_order one_child l_size u_size postorder
                    sc_size sc_parent) in
  length (s Sc_size) = length sc_size
  /\ forall f, 0 <= f < fsc -> 1 <= get (s Sc_size) f.
Proof.
  intros Hn. unfold detect_fundamental.
  set (n := ccs_n A) in *.
  match goal with
  | |- context [for_ 0 n (dsc_column _ _ _ _ _ _) (?s3, ?v0)] =>
      assert (Hstart : sizes_inv (length sc_size) 0 (s3, v0))
  end.
  { unfold sizes_inv. cbn [fsc_num]. split; [| split; [lia | intros; lia]].
    assert (H : forall k (t : store),
              length (for_ 0 k (fun i s => put_at Sc_parent i MULTILU_SYMBOLIC_NONE s) t
                        Sc_size) = length (t Sc_size)).
    { intros k t. apply (for_preserves (fun u : store => length (u Sc_size)
                                                        = length (t Sc_size)));
        [reflexivity |].
      intros j u _ Hu. store_simpl. exact Hu. }
    rewrite H.
    assert (H' : forall k (t : store),
              length (for_ 0 k (fun i s => put_at Sc_size i 0 s) t Sc_size)
              = length (t Sc_size)).
    { intros k t. apply (for_preserves (fun u : store => length (u Sc_size)
                                                        = length (t Sc_size)));
        [reflexivity |].
      intros j u _ Hu. store_simpl. rewrite length_upd. exact Hu. }
    rewrite H'.
    assert (H'' : forall k v (t : store),
              for_ 0 k (fun i s => put_at Firstcol i v s) t Sc_size = t Sc_size).
    { intros k v t. apply (for_preserves (fun u : store => u Sc_size = t Sc_size));
        [reflexivity |].
      intros j u _ Hu. store_simpl. exact Hu. }
    rewrite H''. store_simpl. reflexivity. }
  match goal with
  | |- context [for_ 0 n ?body ?st0] =>
      pose proof (for_inv (sizes_inv (length sc_size)) 0 n body st0 ltac:(lia) Hstart
                    (fun j t Hj Ht =>
                       dsc_column_sizes A column_order one_child l_size u_size postorder
                         (length sc_size) j t ltac:(lia) Ht)) as Hend;
      destruct (for_ 0 n body st0) as [s4 v4]
  end.
  destruct Hend as (Hlen & Hf & Hsz). cbn [fst snd].
  match goal with
  | |- context [for_ 0 ?k ?body s4] =>
      assert (E : for_ 0 k body s4 Sc_size = s4 Sc_size)
  end.
  { apply (for_preserves (fun u : store => u Sc_size = s4 Sc_size)); [reflexivity |].
    intros j u _ Hu.
    destruct (negb _); destruct (_ =? j); store_simpl; exact Hu. }
  rewrite E. split; [exact Hlen |]. intros f Hf'. apply Hsz. lia.
Qed.

(** The relaxation loop before the fundamental supercolumn [i]: the
    supercolumns closed so far have columns, and so has the one under
    way when the supercolumn before [i] did not close it. *)
Definition relax_sizes_inv (s : store) (i : Z) (st : store * Z * Z) : Prop :=
  let '(t, sc_num, cscs) := st in
  0 <= sc_num <= i
  /\ t Sc_parent = s Sc_parent
  /\ length (t Sc_size) = length (s Sc_size)
  /\ (forall k, i <= k -> get (t Sc_size) k = get (s Sc_size) k)
  /\ (forall k, 0 <= k < sc_num -> 1 <= get (t Sc_size) k)
  /\ 0 <= cscs
  /\ (1 <= i -> get (s Sc_parent) (i - 1) = MULTILU_SYMBOLIC_NONE ->
      1 <= cscs /\ sc_num <= i - 1).

Lemma relax_step_sizes (desc_count : list Z) (s : store) (fsc i : Z) (st : store * Z * Z) :
  fsc <= Z.of_nat (length (s Sc_size)) ->
  (forall f, 0 <= f < fsc -> 1 <= get (s Sc_size) f) ->
  0 <= i < fsc ->
  relax_sizes_inv s i st ->
  relax_sizes_inv s (i + 1) (relax_step desc_count i st).
Proof.
  intros Hlen Hsz Hi Hinv. destruct st as [[t sc_num] cscs].
  destruct Hinv as (Hsc & Hp & Hl & Htodo & Hdone & Hc & Hlast).
  unfold relax_step.
  pose proof (Htodo i ltac:(lia)) as Ei. pose proof (Hsz i Hi) as Hsi.
  destruct (relax_closes _ _ i) eqn:Hcl.
  - unfold relax_sizes_inv. store_simpl. rewrite length_upd.
    split; [lia |]. split; [exact Hp |]. split; [exact Hl |]. split.
    { intros k Hk. rewrite get_upd_ne by lia. apply Htodo. lia. }
    split.
    { intros k Hk. destruct (Z.eq_dec k sc_num) as [-> | Hne].
      - rewrite get_upd_eq by lia. lia.
      - rewrite get_upd_ne by lia. apply Hdone. lia. }
    split; [lia |].
    intros _ Hnone. exfalso. replace (i + 1 - 1) with i in Hnone by lia.
    unfold relax_closes in Hcl. revert Hcl. store_simpl. rewrite Hp, Hnone, Z.eqb_refl.
    discriminate.
  - unfold relax_sizes_inv. store_simpl.
    split; [lia |]. split; [exact Hp |]. split; [exact Hl |]. split.
    { intros k Hk. apply Htodo. lia. }
    split; [exact Hdone |]. split; [lia |].
    intros _ _. lia.
Qed.

(** Every supercolumn that the relaxation makes has a column. *)
Lemma relax_supercol_sizes (desc_count : list Z) (s : store) (fsc : Z) :
  1 <= fsc ->
  fsc <= Z.of_nat (length (s Sc_size)) ->
  (forall f, 0 <= f < fsc -> 1 <= get (s Sc_size) f) ->
  get (s Sc_parent) (fsc - 1) = MULTILU_SYMBOLIC_NONE ->
  forall k, 0 <= k < snd (relax_supercol desc_count s fsc) ->
    1 <= get (fst (relax_supercol desc_count s fsc) Sc_size) k.
Proof.
  intros Hfsc Hlen Hsz Hroot. unfold relax_supercol.
  assert (Hloop : relax_sizes_inv s fsc (for_ 0 fsc (relax_step desc_count) (s, 0, 0))).
  { apply (for_inv (relax_sizes_inv s)); [lia | |].
    - unfold relax_sizes_inv. repeat split; try reflexivity; try lia; intros; lia.
    - intros j t Hj Ht. apply (relax_step_sizes desc_count s fsc); assumption. }
  destruct (for_ 0 fsc (relax_step desc_count) (s, 0, 0)) as [[t sc_num] cscs].
  destruct Hloop as (Hsc & Hp & Hl & _ & Hdone & _ & Hlast).
  destruct (Hlast ltac:(lia) Hroot) as [Hcs Hnum].
  cbn [fst snd].
  match goal with
  | |- context [for_ 0 ?k ?body ?u] =>
      assert (E : for_ 0 k body u Sc_size = u Sc_size)
  end.
  { apply (for_preserves (fun w : store => w Sc_size = _)); [reflexivity |].
    intros j w _ Hw. destruct (negb _); store_simpl; exact Hw. }
  intros k Hk. rewrite E. store_simpl.
  destruct (Z.eq_dec k sc_num) as [-> | Hne].
  - rewrite get_upd_eq by lia. exact Hcs.
  - rewrite get_upd_ne by lia. apply Hdone. lia.
Qed.

(** ** The result of the symbolic factorization *)

(** The relaxation makes at least one supercolumn and no more than
    there are fundamental ones. *)
Lemma relax_supercol_count (desc_count : list Z) (s : store) (fsc : Z) :
  1 <= fsc ->
  fsc <= Z.of_nat (length (s Map_col_supercol)) ->
  fsc <= Z.of_nat (length (s Lastcol)) ->
  (forall j, 0 <= j < fsc -> parent_above_or_none fsc j (get (s Sc_parent) j)) ->
  1 <= snd (relax_supercol desc_count s fsc) <= fsc.
Proof.
  intros Hfsc Hlm Hll Hpar. unfold relax_supercol.
  assert (Hweak : forall j, 0 <= j < fsc ->
            get (s Sc_parent) j = MULTILU_SYMBOLIC_NONE \/ j < get (s Sc_parent) j).
  { intros j Hj. destruct (Hpar j Hj) as [Hn | Hg]; [left; exact Hn | right; lia]. }
  assert (Hboth : relax_inv desc_count s fsc (for_ 0 fsc (relax_step desc_count) (s, 0, 0))
                  /\ relax_tree_inv desc_count s fsc
                       (for_ 0 fsc (relax_step desc_count) (s, 0, 0))).
  { apply (for_inv (fun i st => relax_inv desc_count s i st
                                /\ relax_tree_inv desc_count s i st));
      [lia | |].
    - split.
      + unfold relax_inv. repeat split; try reflexivity; try lia.
      + unfold relax_tree_inv. split; [intros; lia | split; intros; lia].
    - intros j t Hj [H1 H2]. split.
      + apply (relax_step_inv desc_count s fsc); assumption.
      + apply (relax_tree_step desc_count s fsc); assumption. }
  destruct (for_ 0 fsc (relax_step desc_count) (s, 0, 0)) as [[t sc_num] cscs].
  destruct Hboth as [(Hsc & _ & _ & _ & _ & _ & Hnum) (Hmap & _ & _)].
  assert (Hroot : get (s Sc_parent) (fsc - 1) = MULTILU_SYMBOLIC_NONE).
  { destruct (Hpar (fsc - 1) ltac:(lia)) as [Hnone | Hgt]; [exact Hnone | lia]. }
  assert (Hncl : relax_closes desc_count s (fsc - 1) = false).
  { unfold relax_closes. rewrite Hroot, Z.eqb_refl. reflexivity. }
  specialize (Hnum ltac:(lia)). rewrite Hncl, Z.add_0_r in Hnum.
  specialize (Hmap (fsc - 1) ltac:(lia)).
  cbn [snd]. lia.
Qed.

Lemma link_children_lengths (parent_ : list Z) (hi lo : Z) (fc nc : list Z) :
  let r := for_down hi lo (fun i '(fc, nc) =>
             let p := get parent_ i in
             (upd fc p i, upd nc i (get fc p))) (fc, nc) in
  length (fst r) = length fc /\ length (snd r) = length nc.
Proof.
  cbv zeta. unfold for_down. generalize (Z.to_nat (hi - lo + 1)) as k.
  intros k. revert hi fc nc. induction k as [| k IH]; intros i fc nc;
    [split; reflexivity |].
  cbn [iter_down].
  destruct (IH (i - 1) (upd fc (get parent_ i) i) (upd nc i (get fc (get parent_ i))))
    as [H1 H2].
  rewrite H1, H2, !length_upd. split; reflexivity.
Qed.

(** The steps of [taucs_ccs_factor_lu_symbolic] before
    [complete_symbolic]: the structure handed to it has between one and
    [n] supercolumns, parents that come after their children, and
    arrays of [n + 1] cells. *)
Lemma symbolic_pipeline (A : taucs_ccs_matrix) (column_order : list Z)
    (symbolic : taucs_multilu_symbolic) :
  1 <= ccs_n A -> 0 <= ccs_m A ->
  taucs_ccs_factor_lu_symbolic A column_order = Ok symbolic ->
  (forall col, 0 <= col < ccs_n A ->
     forall i, 0 <= i < get (ccs_colptr A) (get (columns symbolic) col + 1)
                        - get (ccs_colptr A) (get (columns symbolic) col) ->
       0 <= get (ccs_rowind A) (get (ccs_colptr A) (get (columns symbolic) col) + i)
       < ccs_m A) ->
  exists pre,
    complete_symbolic pre = Ok symbolic
    /\ sym_n pre = ccs_n A
    /\ 1 <= number_supercolumns pre <= ccs_n A
    /\ (forall s, 0 <= s < number_supercolumns pre ->
          parent_above_or_none (number_supercolumns pre) s (get (parent (etree pre)) s))
    /\ Z.of_nat (length (start_supercolumn pre)) = ccs_n A + 1
    /\ Z.of_nat (length (end_supercolumn pre)) = ccs_n A + 1
    /\ Z.of_nat (length (supercolumn_covered_columns pre)) = ccs_n A + 1
    /\ Z.of_nat (length (first_child (etree pre))) = ccs_n A + 1
    /\ Z.of_nat (length (next_child (etree pre))) = ccs_n A + 1
    /\ (forall s, 0 <= s < number_supercolumns pre -> 1 <= get (supercolumn_size pre) s).
Proof.
  intros Hn Hm Hrun Hrows. unfold taucs_ccs_factor_lu_symbolic in Hrun.
  set (n := ccs_n A) in *.
  assert (Lm : forall k, 0 <= k -> Z.of_nat (length (malloc k)) = k)
    by (intros k Hk; unfold malloc; rewrite length_replicate; lia).
  (* the column etree *)
  destruct (elimination_analysis A column_order _ _ _) as [[[parent_ l_size] u_size] | w |]
    eqn:Hea; cbn [bind] in Hrun; try discriminate.
  apply elimination_analysis_parents in Hea;
    [| cbn [parent etree allocate_symbolic]; rewrite Lm; fold n; lia].
  destruct Hea as [Lpar Hpar]. cbn [parent etree allocate_symbolic] in Lpar.
  fold n in Hpar.
  (* its lists of children *)
  match type of Hrun with
  | context [for_down (n - 1) 0 ?body (?fc0, ?nc0)] =>
      pose proof (link_children_before parent_ n fc0 nc0 Hn) as Hlink;
      assert (Llink : length (fst (for_down (n - 1) 0 body (fc0, nc0))) = length fc0
                      /\ length (snd (for_down (n - 1) 0 body (fc0, nc0))) = length nc0);
      [| destruct (for_down (n - 1) 0 body (fc0, nc0)) as [fchild nchild]]
  end.
  { apply link_children_lengths. }
  cbn [fst snd] in Hlink, Llink. destruct Llink as [Lfc Lnc].
  destruct (clear_loop (malloc (n + 1)) (n + 1)) as [Lc Hc]; [rewrite Lm; lia |].
  cbn [first_child next_child etree allocate_symbolic] in Hlink, Lfc, Lnc.
  assert (Hchildren : children_before n fchild).
  { apply Hlink; [rewrite Lc, Lm; lia | exact Hpar |].
    intros v Hv. apply Hc. lia. }
  clear Hlink.
  (* the postorder *)
  destruct (df_postorder fchild nchild n _ _) as [[postorder desc_count_org] | w |]
    eqn:Hdfp; cbn [bind] in Hrun; try discriminate.
  apply (df_postorder_first_leaf fchild nchild n (length (malloc n))) in Hdfp;
    [| exact Hn | | exact Hchildren | reflexivity].
  2: { apply Nat2Z.inj_le. rewrite Lm; lia. }
  pose proof (one_child_first fchild nchild postorder n Hn Hdfp) as Hleaf.
  (* the supercolumns *)
  match type of Hrun with
  | context [for_ 0 n ?body (columns ?sy, ?d)] =>
      destruct (for_ 0 n body (columns sy, d)) as [cols desc_count]
  end.
  unfold detect_supercol in Hrun.
  match type of Hrun with
  | context [detect_fundamental A cols ?oc l_size u_size postorder ?sz parent_] =>
      pose proof (detect_fundamental_parents A cols oc l_size u_size postorder Hn Hm) as Hfund;
      specialize (fun Hr => Hfund Hr Hleaf sz parent_
                              ltac:(rewrite Lpar, Lm; fold n; lia));
      pose proof (detect_fundamental_sizes A cols oc l_size u_size postorder sz parent_)
        as Hfsz;
      destruct (detect_fundamental A cols oc l_size u_size postorder sz parent_)
        as [s1 fsc]
  end.
  cbn [fst snd] in Hfund, Hfsz. fold n in Hfund.
  cbn [supercolumn_size allocate_symbolic] in Hfsz.
  destruct Hfsz as [Lsz Hfsz]; [rewrite Lm; fold n; lia |].
  rewrite <- Nat2Z.inj_iff, Lm in Lsz by (fold n; lia).
  pose proof (relax_supercol_count desc_count s1 fsc) as Hcount.
  pose proof (relax_supercol_sizes desc_count s1 fsc) as Hrsz.
  pose proof (relax_supercol_parents desc_count s1 fsc) as Hrel.
  cbv zeta in Hrel.
  destruct (relax_supercol desc_count s1 fsc) as [s2 sc_num].
  cbn [fst snd] in Hcount, Hrel, Hrsz.
  destruct (for_ 0 sc_num _ _) as [[firstcol_ind sl] su].
  pose proof (complete_symbolic_columns _ _ Hrun) as Hcols. cbn [columns] in Hcols.
  destruct Hfund as (Hfsc & Lmap & Llast & Lsp & Hpar1);
    [rewrite <- Hcols; exact Hrows |].
  specialize (Hcount ltac:(lia) ltac:(lia) ltac:(lia) Hpar1).
  specialize (Hrel ltac:(lia) ltac:(lia) ltac:(lia) ltac:(lia) Hpar1).
  assert (Hroot1 : get (s1 Sc_parent) (fsc - 1) = MULTILU_SYMBOLIC_NONE).
  { destruct (Hpar1 (fsc - 1) ltac:(lia)) as [E | E]; [exact E | lia]. }
  specialize (Hrsz ltac:(lia) ltac:(fold n in Lsz; lia) Hfsz Hroot1).
  eexists. split; [exact Hrun |].
  cbn [sym_n number_supercolumns parent etree start_supercolumn end_supercolumn
       supercolumn_covered_columns first_child next_child allocate_symbolic
       supercolumn_size].
  split; [reflexivity |]. split; [lia |]. split; [exact Hrel |].
  rewrite Lfc, Lnc, Lc, !Lm by lia.
  split; [reflexivity |]. split; [reflexivity |]. split; [reflexivity |].
  split; [reflexivity |]. split; [reflexivity | exact Hrsz].
Qed.

(** The supercolumns that [taucs_ccs_factor_lu_symbolic] returns tile
    the columns of the matrix: there are between one and [n] of them,
    the first starts at the column 0, each starts behind the end of the
    one before it and ends with its last column, and their sizes add up
    to [n].  The matrix has at least one column, and every row index
    stored in the columns that the result orders is a row of the
    matrix. *)
Theorem symbolic_supercolumns_tile (A : taucs_ccs_matrix) (column_order : list Z)
    (symbolic : taucs_multilu_symbolic) :
  1 <= ccs_n A -> 0 <= ccs_m A ->
  taucs_ccs_factor_lu_symbolic A column_order = Ok symbolic ->
  (forall col, 0 <= col < ccs_n A ->
     forall i, 0 <= i < get (ccs_colptr A) (get (columns symbolic) col + 1)
                        - get (ccs_colptr A) (get (columns symbolic) col) ->
       0 <= get (ccs_rowind A) (get (ccs_colptr A) (get (columns symbolic) col) + i)
       < ccs_m A) ->
  let S := number_supercolumns symbolic in
  let size := supercolumn_size symbolic in
  1 <= S <= ccs_n A
  /\ columns_before size S = ccs_n A
  /\ forall i, 0 <= i < S ->
       get (start_supercolumn symbolic) i = columns_before size i
       /\ get (end_supercolumn symbolic) i = columns_before size i + get size i - 1.
Proof.
  intros Hn Hm Hrun Hrows.
  destruct (symbolic_pipeline A column_order symbolic Hn Hm Hrun Hrows)
    as (pre & Hcs & Hsn & HS & _ & Ls & Le & _).
  destruct (cs_layout pre ltac:(lia) ltac:(lia) ltac:(lia)) as [Hfail Hok].
  destruct (Z.eq_dec (columns_before (supercolumn_size pre) (number_supercolumns pre))
              (sym_n pre)) as [Hsum | Hsum].
  - destruct (Hok Hsum) as (symbolic' & Hcs' & Hnum & Hsize & Hlay).
    rewrite Hcs in Hcs'. injection Hcs' as <-.
    cbv zeta. rewrite Hnum, Hsize. split; [exact HS |]. split; [lia | exact Hlay].
  - rewrite (Hfail Hsum) in Hcs. discriminate.
Qed.

(** The supercolumn etree that [taucs_ccs_factor_lu_symbolic] returns
    has a root: the last supercolumn has no parent and is the first
    root, so the numeric factorization finds the root it asserts.  The
    matrix has at least one column, and every row index stored in the
    columns that the result orders is a row of the matrix. *)
Theorem symbolic_last_is_root (A : taucs_ccs_matrix) (column_order : list Z)
    (symbolic : taucs_multilu_symbolic) :
  1 <= ccs_n A -> 0 <= ccs_m A ->
  taucs_ccs_factor_lu_symbolic A column_order = Ok symbolic ->
  (forall col, 0 <= col < ccs_n A ->
     forall i, 0 <= i < get (ccs_colptr A) (get (columns symbolic) col + 1)
                        - get (ccs_colptr A) (get (columns symbolic) col) ->
       0 <= get (ccs_rowind A) (get (ccs_colptr A) (get (columns symbolic) col) + i)
       < ccs_m A) ->
  let S := number_supercolumns symbolic in
  1 <= S
  /\ get (parent (etree symbolic)) (S - 1) = MULTILU_SYMBOLIC_NONE
  /\ first_root (etree symbolic) = S - 1
  /\ first_root (etree symbolic) <> MULTILU_SYMBOLIC_NONE.
Proof.
  intros Hn Hm Hrun Hrows.
  destruct (symbolic_pipeline A column_order symbolic Hn Hm Hrun Hrows)
    as (pre & Hcs & Hsn & HS & Hpar & _ & _ & _ & Lf & Ln & _).
  destruct (complete_symbolic_desc pre symbolic Hcs) as (_ & _ & Hparent & Hnum).
  cbv zeta in Hnum.
  assert (Hlast : get (parent (etree pre)) (number_supercolumns pre - 1)
                  = MULTILU_SYMBOLIC_NONE).
  { destruct (Hpar (number_supercolumns pre - 1) ltac:(lia)) as [E | E]; [exact E | lia]. }
  destruct (cs_links pre symbolic) as (Hroot & _ & _); [lia | lia | | exact Hcs |].
  { intros i Hi. destruct (Hpar i Hi) as [E | E]; [left; exact E | right; lia]. }
  cbv zeta. rewrite Hnum, Hparent.
  assert (Hfr : first_root (etree symbolic) = number_supercolumns pre - 1).
  { rewrite Hroot.
    pose proof (last_with_succ (parent (etree pre)) MULTILU_SYMBOLIC_NONE
                  (number_supercolumns pre - 1) ltac:(lia)) as Hl.
    replace (number_supercolumns pre - 1 + 1) with (number_supercolumns pre) in Hl by lia.
    rewrite Hl, Hlast, Z.eqb_refl. reflexivity. }
  split; [lia |]. split; [exact Hlast |]. split; [exact Hfr |].
  rewrite Hfr. unfold MULTILU_SYMBOLIC_NONE. lia.
Qed.

(** Every supercolumn that [taucs_ccs_factor_lu_symbolic] returns has
    a column: its size is at least one, and it does not end before it
    starts.  The matrix has at least one column, and every row index
    stored in the columns that the result orders is a row of the
    matrix. *)
Theorem symbolic_supercolumns_nonempty (A : taucs_ccs_matrix) (column_order : list Z)
    (symbolic : taucs_multilu_symbolic) :
  1 <= ccs_n A -> 0 <= ccs_m A ->
  taucs_ccs_factor_lu_symbolic A column_order = Ok symbolic ->
  (forall col, 0 <= col < ccs_n A ->
     forall i, 0 <= i < get (ccs_colptr A) (get (columns symbolic) col + 1)
                        - get (ccs_colptr A) (get (columns symbolic) col) ->
       0 <= get (ccs_rowind A) (get (ccs_colptr A) (get (columns symbolic) col) + i)
       < ccs_m A) ->
  forall i, 0 <= i < number_supercolumns symbolic ->
    1 <= get (supercolumn_size symbolic) i
    /\ get (start_supercolumn symbolic) i <= get (end_supercolumn symbolic) i.
Proof.
  intros Hn Hm Hrun Hrows.
  destruct (symbolic_pipeline A column_order symbolic Hn Hm Hrun Hrows)
    as (pre & Hcs & Hsn & HS & _ & Ls & Le & _ & _ & _ & Hsz).
  destruct (cs_layout pre ltac:(lia) ltac:(lia) ltac:(lia)) as [Hfail Hok].
  destruct (Z.eq_dec (columns_before (supercolumn_size pre) (number_supercolumns pre))
              (sym_n pre)) as [Hsum | Hsum];
    [| rewrite (Hfail Hsum) in Hcs; discriminate].
  destruct (Hok Hsum) as (symbolic' & Hcs' & Hnum & Hsize & Hlay).
  rewrite Hcs in Hcs'. injection Hcs' as <-.
  intros i Hi. rewrite Hnum in Hi. rewrite Hsize.
  pose proof (Hsz i Hi) as Hpos. destruct (Hlay i Hi) as [Hs He].
  split; [exact Hpos |]. rewrite Hs, He. lia.
Qed.

(** ** When the numeric factorization returns the null pointer *)

(** What the factorization of a supercolumn keeps once its block is
    allocated: the block pointers that are set, and whether each block
    is valid. *)
Definition valids_kept (ctx ctx' : multilu_context) : Prop :=
  ctx_symbolic ctx' = ctx_symbolic ctx
  /\ nproc ctx' = nproc ctx
  /\ F_shape ctx' = F_shape ctx
  /\ forall i, option_map valid (block_ptr ctx' i) = option_map valid (block_ptr ctx i).

Lemma valids_kept_refl (ctx : multilu_context) : valids_kept ctx ctx.
Proof. repeat split. Qed.

Lemma valids_kept_trans (ctx1 ctx2 ctx3 : multilu_context) :
  valids_kept ctx1 ctx2 -> valids_kept ctx2 ctx3 -> valids_kept ctx1 ctx3.
Proof.
  intros (S1 & N1 & F1 & B1) (S2 & N2 & F2 & B2).
  split; [congruence |]. split; [congruence |]. split; [congruence |].
  intros i. rewrite B2. apply B1.
Qed.

Lemma valids_kept_frame (ctx ctx' : multilu_context) :
  same_frame ctx ctx' -> valids_kept ctx ctx'.
Proof.
  intros (Hs & Hn & _ & HF & Hb).
  split; [exact Hs |]. split; [exact Hn |]. split; [exact HF |].
  intros i. specialize (Hb i).
  destruct (block_ptr ctx' i) as [b' |], (block_ptr ctx i) as [b |];
    try discriminate; [| reflexivity].
  cbn in Hb |- *. unfold block_cols in Hb. congruence.
Qed.

Lemma valids_kept_upd_block (ctx : multilu_context) (j : Z)
    (f : multilu_factor_block -> multilu_factor_block) :
  (forall b, valid (f b) = valid b) -> valids_kept ctx (upd_block j f ctx).
Proof.
  intros Hf. destruct (upd_block_symbolic ctx j f) as (Hs & Hn & _).
  split; [exact Hs |]. split; [exact Hn |]. split; [apply upd_block_At |].
  intros i. rewrite block_ptr_upd_block.
  destruct (Z.eqb_spec j i) as [<- | _]; [| reflexivity].
  destruct (block_ptr ctx j) as [b |]; [| reflexivity].
  cbn. rewrite Hf. reflexivity.
Qed.

Lemma factorize_l_portion_valids (ctx ctx' : multilu_context) (pivot_supercol : Z)
    (dense_spawn one_child : bool) :
  nproc ctx <= 1 ->
  factorize_l_portion ctx pivot_supercol dense_spawn one_child = Ok ctx' ->
  valids_kept ctx ctx'.
Proof.
  intros Hseq Hrun. unfold factorize_l_portion in Hrun.
  destruct (Z.gtb_spec (nproc ctx) 1) as [Hgt | _]; [lia |].
  rewrite andb_false_r in Hrun. cbn [mbind result_bind bind] in Hrun.
  apply bind_Ok in Hrun. destruct Hrun as (fb & _ & Hrun).
  destruct (valid fb =? 0); [injection Hrun as <-; apply valids_kept_refl |].
  destruct (negb (fb_l_size fb >? 0)); [discriminate |].
  apply bind_Ok in Hrun. destruct Hrun as (degrees & _ & Hrun).
  destruct (taucs_LU _ _ _ _ _ _ _ _) as [lu pr].
  injection Hrun as <-.
  match goal with
  | |- valids_kept _ (upd_block _ _ ?c) => apply (valids_kept_trans _ c)
  end.
  - destruct (nproc ctx >? 1); repeat split.
  - apply valids_kept_upd_block. intros b. reflexivity.
Qed.

Lemma factorize_u_portion_valids (ctx ctx' : multilu_context) (pivot_supercol : Z)
    (map_cols map_cols' : list Z) (only_child parent_has_job dense_spawn : bool)
    (ru_size : Z) :
  factorize_u_portion ctx pivot_supercol map_cols only_child parent_has_job dense_spawn
  = Ok (ctx', map_cols', ru_size) ->
  valids_kept ctx ctx'.
Proof.
  intros Hrun. unfold factorize_u_portion in Hrun.
  apply bind_Ok in Hrun. destruct Hrun as (fb & _ & Hrun).
  apply bind_Ok in Hrun. destruct Hrun as ([[[[ctx2 pc] ut] mc2] ru] & Hfocus & Hrun).
  apply focus_rows_frame in Hfocus.
  apply (valids_kept_trans _ ctx2); [apply valids_kept_frame; exact Hfocus |].
  match type of Hrun with
  | context [upd_block pivot_supercol ?f ctx2] =>
      set (ctx3 := upd_block pivot_supercol f ctx2) in *
  end.
  apply (valids_kept_trans _ ctx3);
    [apply valids_kept_upd_block; intros b; reflexivity |].
  destruct (ru >? 0); [| injection Hrun as <- _ _; apply valids_kept_refl].
  apply bind_Ok in Hrun. destruct Hrun as ([[ctx4 mc4] num] & Hre & Hrun).
  assert (H4 : valids_kept ctx3 ctx4).
  { destruct (only_child && parent_has_job && (nproc ctx3 >? 1));
      [| injection Hre as <- _ _; apply valids_kept_refl].
    apply bind_Ok in Hre. destruct Hre as (fb3 & _ & Hre).
    destruct (rearrange_non_pivot_cols _ _ _ _ _ _ _ _ _) as [[[pc4 ut4] mc4'] num'].
    injection Hre as <- _ _. apply valids_kept_upd_block. intros b. reflexivity. }
  apply (valids_kept_trans _ ctx4); [exact H4 |].
  match type of Hrun with
  | context [upd_block pivot_supercol ?f ctx4] =>
      set (ctx5 := upd_block pivot_supercol f ctx4) in *
  end.
  apply (valids_kept_trans _ ctx5);
    [apply valids_kept_upd_block; intros b; reflexivity |].
  apply bind_Ok in Hrun. destruct Hrun as (fb5 & _ & Hrun).
  match type of Hrun with
  | context [set_map_rows ?m ctx5] => set (ctx6 := set_map_rows m ctx5) in *
  end.
  apply (valids_kept_trans _ ctx6); [repeat split |].
  destruct (_ >? 0); [| injection Hrun as <- _ _; apply valids_kept_refl].
  apply bind_Ok in Hrun. destruct Hrun as ([ctx7 ncb] & Hadd & Hrun).
  apply add_contributions_frame in Hadd. injection Hrun as <- _ _.
  match type of Hadd with
  | same_frame ?c _ =>
      apply (valids_kept_trans _ c);
        [apply valids_kept_upd_block; intros b; reflexivity |]
  end.
  apply (valids_kept_trans _ ctx7); [apply valids_kept_frame; exact Hadd |].
  apply valids_kept_upd_block. intros b. reflexivity.
Qed.

Lemma factorize_supercolumn_valids (ctx ctx' : multilu_context) (pivot_supercol : Z)
    (map_cols map_cols' : list Z) (only_child0 parent_has_job0 : bool) :
  nproc ctx <= 1 ->
  factorize_supercolumn ctx pivot_supercol map_cols only_child0 parent_has_job0
  = Ok (ctx', map_cols') ->
  valids_kept ctx ctx'.
Proof.
  intros Hseq Hrun. unfold factorize_supercolumn in Hrun.
  apply bind_Ok in Hrun. destruct Hrun as (ctx0 & HL & Hrun).
  apply factorize_l_portion_valids in HL; [| exact Hseq].
  apply (valids_kept_trans _ ctx0); [exact HL |].
  assert (Hseq0 : nproc ctx0 <= 1) by (destruct HL as (_ & -> & _); exact Hseq).
  apply bind_Ok in Hrun. destruct Hrun as (ctx1 & Hchild & Hrun).
  destruct (Z.gtb_spec (nproc ctx0) 1) as [Hgt | _]; [lia |].
  rewrite andb_false_r in Hchild. injection Hchild as <-.
  apply bind_Ok in Hrun. destruct Hrun as (b1 & _ & Hrun).
  destruct (valid b1 =? 0); [injection Hrun as <- _; apply valids_kept_refl |].
  apply bind_Ok in Hrun. destruct Hrun as ([[ctx2 mc2] ru] & HU & Hrun).
  assert (H2 : valids_kept ctx0 ctx2).
  { destruct (fb_l_size b1 >? 0).
    - apply factorize_u_portion_valids in HU. exact HU.
    - injection HU as <- _ _. apply valids_kept_refl. }
  apply (valids_kept_trans _ ctx2); [exact H2 |].
  match type of Hrun with
  | context [upd_block pivot_supercol ?f ctx2] =>
      set (ctx3 := upd_block pivot_supercol f ctx2) in *
  end.
  apply (valids_kept_trans _ ctx3);
    [apply valids_kept_upd_block; intros b; reflexivity |].
  apply bind_Ok in Hrun. destruct Hrun as (fb3 & _ & Hrun).
  apply bind_Ok in Hrun. destruct Hrun as (ctx4 & Hrm & Hrun).
  assert (H4 : valids_kept ctx3 ctx4).
  { destruct (_ || _).
    - apply remove_member_indication_frame in Hrm. apply valids_kept_frame. exact Hrm.
    - injection Hrm as <-. apply valids_kept_refl. }
  apply (valids_kept_trans _ ctx4); [exact H4 |].
  unfold clear_indication in Hrun. injection Hrun as <- _. repeat split.
Qed.

(** One of the four allocations of [allocate_factor_block] for the
    supercolumn [s] failed. *)
Definition alloc_failed (s : Z) : Prop :=
  exists k, 0 <= k <= 3 /\ taucs_malloc_ok s k = false.

Lemma allocate_factor_block_valid (ctx ctx' : multilu_context) (s : Z) :
  allocate_factor_block ctx s = Ok ctx' ->
  ctx_symbolic ctx' = ctx_symbolic ctx /\ nproc ctx' = nproc ctx
  /\ (forall j, j <> s -> block_ptr ctx' j = block_ptr ctx j)
  /\ (forall b', block_ptr ctx' s = Some b' -> valid b' = 0 -> alloc_failed s).
Proof.
  unfold allocate_factor_block. destruct (block_ptr ctx s) eqn:E; [discriminate |].
  intros H. injection H as <-.
  match goal with
  | |- context [set_block _ ?b _] => set (nb := b)
  end.
  destruct (set_block_data ctx s nb) as (Hs & Hn & _).
  split; [exact Hs |]. split; [exact Hn |]. split.
  - intros j Hj. unfold set_block. rewrite block_ptr_set_block_ptr.
    destruct (Z.eqb_spec s j) as [Heq | _]; [congruence | reflexivity].
  - intros b' Hb'. unfold set_block in Hb'. rewrite block_ptr_set_block_ptr in Hb'.
    rewrite Z.eqb_refl in Hb'. cbn [andb] in Hb'. revert Hb'.
    destruct ((0 <=? s) && (s <? Z.of_nat (length (blocks (ctx_F ctx)))));
      intros Hb'; [| rewrite E in Hb'; discriminate].
    injection Hb' as <-. unfold nb. cbn [valid].
    destruct (taucs_malloc_ok s 0) eqn:E0; [| intros _; exists 0; split; [lia | exact E0]].
    destruct (taucs_malloc_ok s 1) eqn:E1; [| intros _; exists 1; split; [lia | exact E1]].
    destruct (taucs_malloc_ok s 2) eqn:E2; [| intros _; exists 2; split; [lia | exact E2]].
    destruct (taucs_malloc_ok s 3) eqn:E3; [| intros _; exists 3; split; [lia | exact E3]].
    cbn [negb]. rewrite !andb_false_r. cbn [orb]. unfold TRUE. discriminate.
Qed.

(** One turn of the sequential loop makes no block not valid but the
    one it allocates, and that one only when an allocation failed. *)
Lemma numeric_supercolumn_valids (uninit : Z -> bool * bool) (i : Z)
    (ctx ctx' : multilu_context) :
  nproc ctx <= 1 ->
  numeric_supercolumn uninit i ctx = Ok ctx' ->
  nproc ctx' = nproc ctx
  /\ forall j b', block_ptr ctx' j = Some b' -> valid b' = 0 ->
       (exists b, block_ptr ctx j = Some b /\ valid b = 0) \/ alloc_failed j.
Proof.
  intros Hseq Hrun. unfold numeric_supercolumn in Hrun.
  destruct (get (sym_l_size (sym ctx)) i =? 0).
  { injection Hrun as <-. split; [reflexivity |]. intros j b' Hb' Hv.
    left. exists b'. split; assumption. }
  apply bind_Ok in Hrun. destruct Hrun as (ctx1 & Halloc & Hrun).
  apply allocate_factor_block_valid in Halloc.
  destruct Halloc as (Hs1 & Hn1 & Hother & Hnew).
  apply bind_Ok in Hrun. destruct Hrun as (ctx2 & Hchildren & Hrun).
  assert (H2 : valids_kept ctx1 ctx2).
  { apply (forM_children_preserves (valids_kept ctx1)) with (3 := Hchildren);
      [| apply valids_kept_refl].
    intros child t t' Ht Hb.
    apply focus_supercolumn_from_child_kept with (len := 0) in Hb.
    apply (valids_kept_trans _ t); [exact Ht | apply valids_kept_frame, Hb]. }
  apply bind_Ok in Hrun. destruct Hrun as (ctx3 & HA & Hrun).
  apply focus_supercolumn_from_A_kept with (len := 0) in HA.
  assert (H3 : valids_kept ctx1 ctx3)
    by (apply (valids_kept_trans _ ctx2); [exact H2 | apply valids_kept_frame, HA]).
  apply bind_Ok in Hrun. destruct Hrun as ([ctx4 mc4] & Hfact & Hrun).
  apply factorize_supercolumn_valids in Hfact;
    [| destruct H3 as (_ & -> & _); rewrite Hn1; exact Hseq].
  injection Hrun as <-.
  assert (H4 : valids_kept ctx1 ctx4) by (apply (valids_kept_trans _ ctx3); assumption).
  destruct H4 as (_ & Hn4 & _ & Hv4).
  split; [cbn [nproc release_map_cols set_ctx_map_cols]; congruence |].
  intros j b' Hb' Hv.
  change (block_ptr (release_map_cols ctx4 mc4) j) with (block_ptr ctx4 j) in Hb'.
  specialize (Hv4 j). rewrite Hb' in Hv4. cbn in Hv4.
  destruct (block_ptr ctx1 j) as [b1 |] eqn:E1; [| discriminate].
  cbn in Hv4. injection Hv4 as Hv4.
  destruct (Z.eq_dec j i) as [-> | Hne].
  - right. apply (Hnew b1 E1). congruence.
  - left. exists b1. split; [rewrite <- Hother by exact Hne; exact E1 | congruence].
Qed.


(** ** The pivots of the blocks of a factor *)

(** A factor block without its contribution block. *)
Definition strip (b : multilu_factor_block) : multilu_factor_block :=
  set_contrib_block None b.

(** What the factorization of the supercolumn [s] keeps of the other
    supercolumns: their block pointers and, the contribution block
    apart, their blocks; and the sizes of the factor. *)
Definition others_kept (s : Z) (ctx ctx' : multilu_context) : Prop :=
  ctx_symbolic ctx' = ctx_symbolic ctx
  /\ nproc ctx' = nproc ctx
  /\ F_shape ctx' = F_shape ctx
  /\ F_m (ctx_F ctx') = F_m (ctx_F ctx)
  /\ F_n (ctx_F ctx') = F_n (ctx_F ctx)
  /\ forall i, i <> s ->
       option_map strip (block_ptr ctx' i) = option_map strip (block_ptr ctx i).

Lemma others_kept_refl (s : Z) (ctx : multilu_context) : others_kept s ctx ctx.
Proof. repeat split. Qed.

Lemma others_kept_trans (s : Z) (ctx1 ctx2 ctx3 : multilu_context) :
  others_kept s ctx1 ctx2 -> others_kept s ctx2 ctx3 -> others_kept s ctx1 ctx3.
Proof.
  intros (S1 & N1 & F1 & M1 & C1 & B1) (S2 & N2 & F2 & M2 & C2 & B2).
  split; [congruence |]. split; [congruence |]. split; [congruence |].
  split; [congruence |]. split; [congruence |].
  intros i Hi. rewrite B2 by exact Hi. apply B1. exact Hi.
Qed.

(** Nothing is the block of the supercolumn -1: a step that keeps the
    others of -1 keeps every block. *)
Lemma others_kept_all (s : Z) (ctx ctx' : multilu_context) :
  others_kept (-1) ctx ctx' -> others_kept s ctx ctx'.
Proof.
  intros (S1 & N1 & F1 & M1 & C1 & B1).
  split; [exact S1 |]. split; [exact N1 |]. split; [exact F1 |].
  split; [exact M1 |]. split; [exact C1 |].
  intros i _. destruct (Z.eq_dec i (-1)) as [-> | Hne]; [reflexivity | apply B1; exact Hne].
Qed.

Lemma upd_block_dims (ctx : multilu_context) (j : Z)
    (f : multilu_factor_block -> multilu_factor_block) :
  F_m (ctx_F (upd_block j f ctx)) = F_m (ctx_F ctx)
  /\ F_n (ctx_F (upd_block j f ctx)) = F_n (ctx_F ctx).
Proof.
  unfold upd_block, set_block, set_block_ptr.
  destruct (block_ptr ctx j); [| split; reflexivity].
  destruct (j <? 0); split; reflexivity.
Qed.

Lemma others_kept_upd_block (s : Z) (ctx : multilu_context) (j : Z)
    (f : multilu_factor_block -> multilu_factor_block) :
  j = s \/ (forall b, strip (f b) = strip b) ->
  others_kept s ctx (upd_block j f ctx).
Proof.
  intros Hf. destruct (upd_block_symbolic ctx j f) as (Hs & Hn & _).
  split; [exact Hs |]. split; [exact Hn |]. split; [apply upd_block_At |].
  split; [apply upd_block_dims |]. split; [apply upd_block_dims |].
  intros i Hi. rewrite block_ptr_upd_block.
  destruct (Z.eqb_spec j i) as [<- | _]; [| reflexivity].
  destruct Hf as [-> | Hf]; [contradiction |].
  destruct (block_ptr ctx j) as [b |]; [| reflexivity].
  cbn. rewrite Hf. reflexivity.
Qed.

Ltac others_step :=
  first [ apply others_kept_refl
        | apply others_kept_upd_block;
          first [ left; reflexivity | right; intros ?; reflexivity ]
        | solve [repeat split] ].

Lemma align_add_from_others (s : Z) (ctx ctx' : multilu_context)
    (addto addto' : multilu_contrib_block) (desc : Z) (map_cols : list Z) :
  align_add_from ctx addto desc map_cols = Ok (ctx', addto') -> others_kept s ctx ctx'.
Proof.
  intros Hrun. unfold align_add_from in Hrun.
  apply bind_Ok in Hrun. destruct Hrun as (dfb & _ & Hrun).
  apply bind_Ok in Hrun. destruct Hrun as (dcb & _ & Hrun).
  apply bind_Ok in Hrun. destruct Hrun as ([v1 dcb1] & _ & Hrun).
  apply bind_Ok in Hrun. destruct Hrun as ([v2 dcb2] & _ & Hrun).
  apply bind_Ok in Hrun. destruct Hrun as ([v3 dcb3] & _ & Hrun).
  injection Hrun as <- _.
  destruct ((cb_n dcb3 =? 0) || (cb_m dcb3 =? 0)); others_step.
Qed.

Lemma align_add_subtree_others (s : Z) (map_cols : list Z) :
  forall (fuel : nat) (subtree_root : Z)
         (st st' : multilu_context * multilu_contrib_block),
    align_add_subtree fuel map_cols subtree_root st = Ok st' ->
    others_kept s (fst st) (fst st').
Proof.
  induction fuel as [| fuel IH]; intros subtree_root st st' Hrun;
    cbn [align_add_subtree] in Hrun.
  - injection Hrun as <-. apply others_kept_refl.
  - apply bind_Ok in Hrun. destruct Hrun as ([ctx1 addto1] & Hchildren & Hrun).
    assert (H1 : others_kept s (fst st) (fst (ctx1, addto1))).
    { apply (forM_children_preserves
               (fun t : multilu_context * multilu_contrib_block =>
                  others_kept s (fst st) (fst t))
               (next_child (et (fst st))) (align_add_subtree fuel map_cols))
        with (3 := Hchildren); [| apply others_kept_refl].
      intros child t t' Ht Hb.
      apply (others_kept_trans _ _ (fst t)); [exact Ht | apply (IH child t t' Hb)]. }
    cbn [fst] in H1.
    apply bind_Ok in Hrun. destruct Hrun as (dfb & _ & Hrun).
    destruct (contrib_block dfb).
    + destruct st' as [ctx' addto']. apply (align_add_from_others s) in Hrun.
      apply (others_kept_trans _ _ ctx1); assumption.
    + injection Hrun as <-. exact H1.
Qed.

Lemma add_contributions_others (s : Z) (ctx ctx' : multilu_context) (pivot_supercol : Z)
    (map_cols : list Z) (addto addto' : multilu_contrib_block) :
  add_contributions ctx pivot_supercol map_cols addto = Ok (ctx', addto') ->
  others_kept s ctx ctx'.
Proof.
  intros Hrun. unfold add_contributions in Hrun.
  destruct (negb (get (first_desc_index (et ctx)) pivot_supercol =? MULTILU_SYMBOLIC_NONE));
    [| injection Hrun as <- _; apply others_kept_refl].
  destruct (nproc ctx >? 1).
  - apply (forM_preserves
             (fun t : multilu_context * multilu_contrib_block => others_kept s ctx (fst t)))
      with (3 := Hrun); [apply others_kept_refl |].
    intros desc [ctxa adda] [ctxb addb] _ Ha Hb. cbn [fst] in *.
    apply bind_Ok in Hb. destruct Hb as (dfb & _ & Hb).
    destruct (contrib_block dfb) as [dcb |]; [| injection Hb as <- _; exact Ha].
    destruct (negb (L_member dcb =? 0) || negb (U_member dcb =? 0));
      [| injection Hb as <- _; exact Ha].
    apply (align_add_from_others s) in Hb. apply (others_kept_trans _ _ ctxa); assumption.
  - apply (forM_children_preserves
             (fun t : multilu_context * multilu_contrib_block => others_kept s ctx (fst t)))
      with (3 := Hrun); [| apply others_kept_refl].
    intros child t t' Ht Hb. apply (align_add_subtree_others s) in Hb.
    apply (others_kept_trans _ _ (fst t)); assumption.
Qed.

Lemma remove_member_indication_others (s : Z) (ctx ctx' : multilu_context)
    (pivot_supercol : Z) :
  remove_member_indication ctx pivot_supercol = Ok ctx' -> others_kept s ctx ctx'.
Proof.
  intros Hrun. unfold remove_member_indication in Hrun.
  destruct (negb (get (first_desc_index (et ctx)) pivot_supercol =? MULTILU_SYMBOLIC_NONE));
    [| injection Hrun as <-; apply others_kept_refl].
  apply (forM_preserves (others_kept s ctx)) with (3 := Hrun); [apply others_kept_refl |].
  intros desc ctxa ctxb _ Ha Hb.
  apply bind_Ok in Hb. destruct Hb as (dfb & _ & Hb).
  destruct (contrib_block dfb) as [dcb |]; injection Hb as <-; [| exact Ha].
  apply (others_kept_trans _ _ ctxa); [exact Ha | others_step].
Qed.

Lemma focus_rows_others (s : Z) (ctx ctx' : multilu_context) (rows : list Z)
    (number pivot_supercol : Z) (pc : list Z) (ind : Z) (values : list T) (max_size : Z)
    (mc pc' : list Z) (ut' : list T) (mc' : list Z) (size' : Z) :
  focus_rows ctx rows number pivot_supercol pc ind values max_size mc
  = Ok (ctx', pc', ut', mc', size') ->
  others_kept s ctx ctx'.
Proof.
  intros Hrun. unfold focus_rows in Hrun.
  apply bind_Ok in Hrun. destruct Hrun as (st1 & _ & Hrun).
  apply bind_Ok in Hrun. destruct Hrun as ([ctx2 st2] & Hdesc & Hrun).
  injection Hrun as <- _ _ _ _.
  set (ctx1 := set_row_cleared (rs_row_cleared st1) ctx) in *.
  assert (Hf1 : others_kept s ctx ctx1) by (repeat split).
  destruct (negb (get (first_desc_index (et ctx1)) pivot_supercol =? MULTILU_SYMBOLIC_NONE));
    [| injection Hdesc as <- _; exact Hf1].
  apply (forM_preserves (fun p : multilu_context * rows_state => others_kept s ctx (fst p)))
    with (3 := Hdesc); [exact Hf1 |].
  intros c [ctxa sta] [ctxb stb] _ Hfa Hb. cbn [fst] in *.
  apply bind_Ok in Hb. destruct Hb as (dfb & _ & Hb).
  destruct (contrib_block dfb) as [dcb |]; [| injection Hb as <- _; exact Hfa].
  apply bind_Ok in Hb. destruct Hb as (st3 & _ & Hb). injection Hb as <- _.
  apply (others_kept_trans _ _ ctxa); [exact Hfa | others_step].
Qed.

Lemma focus_supercolumn_from_contrib_others (ctx ctx' : multilu_context)
    (supercol contrib : Z) :
  focus_supercolumn_from_contrib ctx supercol contrib = Ok ctx' ->
  others_kept supercol ctx ctx'.
Proof.
  intros Hrun. unfold focus_supercolumn_from_contrib in Hrun.
  apply bind_Ok in Hrun. destruct Hrun as (dfb & _ & Hrun).
  destruct (contrib_block dfb) as [dcb |];
    [| injection Hrun as <-; apply others_kept_refl].
  apply bind_Ok in Hrun. destruct Hrun as (fb & _ & Hrun).
  apply bind_Ok in Hrun. destruct Hrun as (st & _ & Hrun).
  injection Hrun as <-.
  match goal with
  | |- others_kept _ _ (set_map_rows _ (upd_block supercol ?f (upd_block contrib ?g ctx))) =>
      apply (others_kept_trans _ _ (upd_block contrib g ctx));
        [| apply (others_kept_trans _ _ (upd_block supercol f (upd_block contrib g ctx)))]
  end; others_step.
Qed.

Lemma focus_supercolumn_from_child_others (ctx ctx' : multilu_context)
    (supercol child : Z) :
  focus_supercolumn_from_child ctx supercol child = Ok ctx' ->
  others_kept supercol ctx ctx'.
Proof.
  intros Hrun. unfold focus_supercolumn_from_child in Hrun.
  apply bind_Ok in Hrun. destruct Hrun as (ctx1 & Hdesc & Hrun).
  apply (others_kept_trans _ _ ctx1);
    [| apply (focus_supercolumn_from_contrib_others ctx1 ctx' supercol child Hrun)].
  destruct (negb (get (first_desc_index (et ctx)) child =? MULTILU_SYMBOLIC_NONE));
    [| injection Hdesc as <-; apply others_kept_refl].
  apply (forM_preserves (others_kept supercol ctx)) with (3 := Hdesc);
    [apply others_kept_refl |].
  intros j t t' _ Ht Hb. apply (others_kept_trans _ _ t); [exact Ht |].
  apply (focus_supercolumn_from_contrib_others t t' supercol j Hb).
Qed.

Lemma focus_supercolumn_from_A_others (ctx ctx' : multilu_context) (supercol : Z) :
  focus_supercolumn_from_A ctx supercol = Ok ctx' -> others_kept supercol ctx ctx'.
Proof.
  intros Hrun. unfold focus_supercolumn_from_A in Hrun.
  apply bind_Ok in Hrun. destruct Hrun as (fb & _ & Hrun).
  apply bind_Ok in Hrun. destruct Hrun as (st & _ & Hrun).
  injection Hrun as <-.
  match goal with
  | |- others_kept _ _ (set_column_cleared _ (set_map_rows _ (upd_block supercol ?f ctx))) =>
      apply (others_kept_trans _ _ (upd_block supercol f ctx))
  end; others_step.
Qed.

Lemma allocate_factor_block_others (ctx ctx' : multilu_context) (s : Z) :
  allocate_factor_block ctx s = Ok ctx' -> others_kept s ctx ctx'.
Proof.
  unfold allocate_factor_block. destruct (block_ptr ctx s) eqn:E; [discriminate |].
  intros H. injection H as <-.
  match goal with
  | |- context [set_block _ ?b _] => set (nb := b)
  end.
  destruct (set_block_data ctx s nb) as (Hs & Hn & _).
  split; [exact Hs |]. split; [exact Hn |]. split; [apply set_block_ptr_shape |].
  split; [unfold set_block, set_block_ptr; destruct (s <? 0); reflexivity |].
  split; [unfold set_block, set_block_ptr; destruct (s <? 0); reflexivity |].
  intros i Hi. unfold set_block. rewrite block_ptr_set_block_ptr.
  destruct (Z.eqb_spec s i) as [Heq | _]; [congruence | reflexivity].
Qed.

(** The L portion on one processor: the other blocks are kept, and a
    valid block has rows. *)
Lemma factorize_l_portion_others (ctx ctx' : multilu_context) (pivot_supercol : Z)
    (dense_spawn one_child : bool) :
  nproc ctx <= 1 ->
  factorize_l_portion ctx pivot_supercol dense_spawn one_child = Ok ctx' ->
  others_kept pivot_supercol ctx ctx'
  /\ forall b, block_ptr ctx' pivot_supercol = Some b -> valid b <> 0 -> 1 <= fb_l_size b.
Proof.
  intros Hseq Hrun. unfold factorize_l_portion in Hrun.
  destruct (Z.gtb_spec (nproc ctx) 1) as [Hgt | _]; [lia |].
  rewrite andb_false_r in Hrun. cbn [mbind result_bind bind] in Hrun.
  apply bind_Ok in Hrun. destruct Hrun as (fb & Hfb & Hrun).
  apply block_at_Ok in Hfb.
  destruct (Z.eqb_spec (valid fb) 0) as [Hv | Hv].
  { injection Hrun as <-. split; [apply others_kept_refl |].
    intros b Hb. rewrite Hfb in Hb. injection Hb as <-. contradiction. }
  destruct (Z.gtb_spec (fb_l_size fb) 0) as [Hl | Hl]; [| discriminate].
  cbn [negb] in Hrun.
  apply bind_Ok in Hrun. destruct Hrun as (degrees & _ & Hrun).
  destruct (taucs_LU _ _ _ _ _ _ _ _) as [lu pr].
  injection Hrun as <-.
  match goal with
  | |- context [upd_block _ ?f ?c] => set (c1 := c); set (g := f)
  end.
  assert (Hc1 : others_kept pivot_supercol ctx c1 /\ block_ptr c1 = block_ptr ctx).
  { unfold c1. destruct (nproc ctx >? 1); split; try reflexivity; repeat split. }
  destruct Hc1 as [Hc1 Hptr]. split.
  - apply (others_kept_trans _ _ c1); [exact Hc1 | others_step].
  - intros b Hb. rewrite block_ptr_upd_block, Z.eqb_refl, Hptr, Hfb in Hb.
    cbn in Hb. injection Hb as <-. intros _. unfold g. cbn. lia.
Qed.

Lemma factorize_u_portion_others (ctx ctx' : multilu_context) (pivot_supercol : Z)
    (map_cols map_cols' : list Z) (only_child parent_has_job dense_spawn : bool)
    (ru_size : Z) :
  factorize_u_portion ctx pivot_supercol map_cols only_child parent_has_job dense_spawn
  = Ok (ctx', map_cols', ru_size) ->
  others_kept pivot_supercol ctx ctx'.
Proof.
  intros Hrun. unfold factorize_u_portion in Hrun.
  apply bind_Ok in Hrun. destruct Hrun as (fb & _ & Hrun).
  apply bind_Ok in Hrun. destruct Hrun as ([[[[ctx2 pc] ut] mc2] ru] & Hfocus & Hrun).
  apply (focus_rows_others pivot_supercol) in Hfocus.
  apply (others_kept_trans _ _ ctx2); [exact Hfocus |].
  match type of Hrun with
  | context [upd_block pivot_supercol ?f ctx2] =>
      set (ctx3 := upd_block pivot_supercol f ctx2) in *
  end.
  apply (others_kept_trans _ _ ctx3); [others_step |].
  destruct (ru >? 0); [| injection Hrun as <- _ _; apply others_kept_refl].
  apply bind_Ok in Hrun. destruct Hrun as ([[ctx4 mc4] num] & Hre & Hrun).
  assert (H4 : others_kept pivot_supercol ctx3 ctx4).
  { destruct (only_child && parent_has_job && (nproc ctx3 >? 1));
      [| injection Hre as <- _ _; apply others_kept_refl].
    apply bind_Ok in Hre. destruct Hre as (fb3 & _ & Hre).
    destruct (rearrange_non_pivot_cols _ _ _ _ _ _ _ _ _) as [[[pc4 ut4] mc4'] num'].
    injection Hre as <- _ _. others_step. }
  apply (others_kept_trans _ _ ctx4); [exact H4 |].
  match type of Hrun with
  | context [upd_block pivot_supercol ?f ctx4] =>
      set (ctx5 := upd_block pivot_supercol f ctx4) in *
  end.
  apply (others_kept_trans _ _ ctx5); [others_step |].
  apply bind_Ok in Hrun. destruct Hrun as (fb5 & _ & Hrun).
  match type of Hrun with
  | context [set_map_rows ?m ctx5] => set (ctx6 := set_map_rows m ctx5) in *
  end.
  apply (others_kept_trans _ _ ctx6); [repeat split |].
  destruct (_ >? 0); [| injection Hrun as <- _ _; apply others_kept_refl].
  apply bind_Ok in Hrun. destruct Hrun as ([ctx7 ncb] & Hadd & Hrun).
  apply (add_contributions_others pivot_supercol) in Hadd. injection Hrun as <- _ _.
  match type of Hadd with
  | others_kept _ ?c _ => apply (others_kept_trans _ _ c); [others_step |]
  end.
  apply (others_kept_trans _ _ ctx7); [exact Hadd | others_step].
Qed.

(** The numbers of pivots [factorize_supercolumn] writes in a valid
    block: as many pivot columns as the supercolumn has columns, and
    of the [l] rows of the block ([l >= 1]) as many pivot rows as there
    are pivot columns, or all of them. *)
Definition block_pivots_ok (size : Z) (b : multilu_factor_block) : Prop :=
  col_pivots_number b = size
  /\ exists l, 1 <= l /\ row_pivots_number b = Z.min l size
               /\ non_pivot_rows_number b = l - Z.min l size.

Lemma block_pivots_ok_strip (size : Z) (b b' : multilu_factor_block) :
  strip b' = strip b -> block_pivots_ok size b -> block_pivots_ok size b'.
Proof.
  intros E (Hc & l & Hl & Hr & Hn).
  pose proof (f_equal col_pivots_number E) as Ec.
  pose proof (f_equal row_pivots_number E) as Er.
  pose proof (f_equal non_pivot_rows_number E) as En.
  cbn in Ec, Er, En.
  split; [congruence |]. exists l. split; [exact Hl |]. split; congruence.
Qed.

Lemma factorize_supercolumn_pivots (ctx ctx' : multilu_context) (pivot_supercol : Z)
    (map_cols map_cols' : list Z) (only_child0 parent_has_job0 : bool) :
  nproc ctx <= 1 ->
  factorize_supercolumn ctx pivot_supercol map_cols only_child0 parent_has_job0
  = Ok (ctx', map_cols') ->
  others_kept pivot_supercol ctx ctx'
  /\ forall b', block_ptr ctx' pivot_supercol = Some b' -> valid b' <> 0 ->
       block_pivots_ok (get (supercolumn_size (sym ctx)) pivot_supercol) b'.
Proof.
  intros Hseq Hrun. unfold factorize_supercolumn in Hrun.
  apply bind_Ok in Hrun. destruct Hrun as (ctx0 & HL & Hrun).
  apply factorize_l_portion_others in HL; [| exact Hseq]. destruct HL as [HL Hrows].
  assert (Hseq0 : nproc ctx0 <= 1) by (destruct HL as (_ & -> & _); exact Hseq).
  assert (Hsym0 : sym ctx0 = sym ctx) by (destruct HL as (E & _); exact E).
  apply bind_Ok in Hrun. destruct Hrun as (ctx1 & Hchild & Hrun).
  destruct (Z.gtb_spec (nproc ctx0) 1) as [Hgt | _]; [lia |].
  rewrite andb_false_r in Hchild. injection Hchild as <-.
  apply bind_Ok in Hrun. destruct Hrun as (b1 & Hb1 & Hrun).
  apply block_at_Ok in Hb1.
  destruct (Z.eqb_spec (valid b1) 0) as [Hv | Hv].
  { injection Hrun as <- _. split; [exact HL |].
    intros b' Hb'. rewrite Hb1 in Hb'. injection Hb' as <-. contradiction. }
  specialize (Hrows b1 Hb1 Hv).
  apply bind_Ok in Hrun. destruct Hrun as ([[ctx2 mc2] ru] & HU & Hrun).
  assert (H2 : others_kept pivot_supercol ctx0 ctx2).
  { destruct (fb_l_size b1 >? 0).
    - apply factorize_u_portion_others in HU. exact HU.
    - injection HU as <- _ _. apply others_kept_refl. }
  match type of Hrun with
  | context [upd_block pivot_supercol ?f ctx2] =>
      set (g := f) in *; set (ctx3 := upd_block pivot_supercol g ctx2) in *
  end.
  apply bind_Ok in Hrun. destruct Hrun as (fb3 & Hfb3 & Hrun).
  apply block_at_Ok in Hfb3.
  apply bind_Ok in Hrun. destruct Hrun as (ctx4 & Hrm & Hrun).
  assert (H4 : others_kept (-1) ctx3 ctx4).
  { destruct (_ || _).
    - apply (remove_member_indication_others (-1)) in Hrm. exact Hrm.
    - injection Hrm as <-. apply others_kept_refl. }
  unfold clear_indication in Hrun. injection Hrun as <- _.
  split.
  - apply (others_kept_trans _ _ ctx0); [exact HL |].
    apply (others_kept_trans _ _ ctx2); [exact H2 |].
    apply (others_kept_trans _ _ ctx3); [unfold ctx3; others_step |].
    apply (others_kept_trans _ _ ctx4); [apply others_kept_all; exact H4 | repeat split].
  - intros b' Hb' _.
    change (block_ptr (set_map_rows _ ctx4) pivot_supercol)
      with (block_ptr ctx4 pivot_supercol) in Hb'.
    destruct H4 as (_ & _ & _ & _ & _ & H4).
    assert (Hps : pivot_supercol <> -1).
    { intros ->. unfold block_ptr in Hb'. cbn in Hb'. discriminate. }
    specialize (H4 pivot_supercol Hps). rewrite Hb', Hfb3 in H4. cbn [option_map] in H4.
    assert (E : strip b' = strip fb3) by congruence.
    apply (block_pivots_ok_strip _ fb3 b' E).
    unfold ctx3 in Hfb3. rewrite block_ptr_upd_block, Z.eqb_refl in Hfb3.
    destruct (block_ptr ctx2 pivot_supercol) as [b2 |]; [| discriminate].
    cbn in Hfb3. injection Hfb3 as <-. unfold g. rewrite Hsym0.
    split; [reflexivity |].
    exists (fb_l_size b1). split; [exact Hrows |]. split; reflexivity.
Qed.

(** One turn of the sequential loop: the other blocks are kept, and
    the block of the supercolumn, if the turn factorizes it and it is
    valid, has the pivots of the supercolumn. *)
Lemma numeric_supercolumn_pivots (uninit : Z -> bool * bool) (i : Z)
    (ctx ctx' : multilu_context) :
  nproc ctx <= 1 ->
  numeric_supercolumn uninit i ctx = Ok ctx' ->
  others_kept i ctx ctx'
  /\ forall b', block_ptr ctx' i = Some b' -> valid b' <> 0 ->
       block_ptr ctx i = Some b'
       \/ block_pivots_ok (get (supercolumn_size (sym ctx)) i) b'.
Proof.
  intros Hseq Hrun. unfold numeric_supercolumn in Hrun.
  destruct (get (sym_l_size (sym ctx)) i =? 0).
  { injection Hrun as <-. split; [apply others_kept_refl |]. intros b' Hb' _.
    left. exact Hb'. }
  apply bind_Ok in Hrun. destruct Hrun as (ctx1 & Halloc & Hrun).
  apply allocate_factor_block_others in Halloc.
  apply bind_Ok in Hrun. destruct Hrun as (ctx2 & Hchildren & Hrun).
  assert (H2 : others_kept i ctx1 ctx2).
  { apply (forM_children_preserves (others_kept i ctx1)) with (3 := Hchildren);
      [| apply others_kept_refl].
    intros child t t' Ht Hb. apply focus_supercolumn_from_child_others in Hb.
    apply (others_kept_trans _ _ t); assumption. }
  apply bind_Ok in Hrun. destruct Hrun as (ctx3 & HA & Hrun).
  apply focus_supercolumn_from_A_others in HA.
  assert (H3 : others_kept i ctx ctx3).
  { apply (others_kept_trans _ _ ctx1); [exact Halloc |].
    apply (others_kept_trans _ _ ctx2); assumption. }
  apply bind_Ok in Hrun. destruct Hrun as ([ctx4 mc4] & Hfact & Hrun).
  apply factorize_supercolumn_pivots in Hfact;
    [| destruct H3 as (_ & -> & _); exact Hseq].
  destruct Hfact as [H4 Hpiv]. injection Hrun as <-.
  split.
  - apply (others_kept_trans _ _ ctx3); [exact H3 |].
    apply (others_kept_trans _ _ ctx4); [exact H4 | repeat split].
  - intros b' Hb' Hv. right.
    change (block_ptr (release_map_cols ctx4 mc4) i) with (block_ptr ctx4 i) in Hb'.
    replace (sym ctx) with (sym ctx3) by (destruct H3 as (E & _); exact E).
    apply Hpiv; assumption.
Qed.

Lemma pivots_below_columns (F : taucs_multilu_factor) (size : list Z) :
  (forall i, 0 <= i < num_blocks F ->
     exists b, block_of F i = Ok b /\ col_pivots_number b = get size i) ->
  forall k : nat, Z.of_nat k <= num_blocks F ->
    pivots_below (block_pivots F col_pivots_number) k = columns_before size (Z.of_nat k).
Proof.
  intros Hb. induction k as [| k IH]; intros Hk.
  - cbn [pivots_below]. unfold columns_before. rewrite for_empty by lia. reflexivity.
  - cbn [pivots_below]. rewrite IH by lia.
    replace (Z.of_nat (S k)) with (Z.of_nat k + 1) by lia.
    rewrite columns_before_succ by lia. f_equal.
    unfold block_pivots. destruct (Hb (Z.of_nat k) ltac:(lia)) as (b & -> & Hc). exact Hc.
Qed.

Lemma numeric_pivots (uninit : Z -> bool * bool) (A : taucs_ccs_matrix)
    (symbolic : taucs_multilu_symbolic) (th : taucs_double) (np : Z)
    (F : taucs_multilu_factor) :
  taucs_ccs_factor_lu_numeric_maxdepth uninit A (Some symbolic) th np = Ok (Some F) ->
  F_m F = ccs_m A /\ F_n F = ccs_n A
  /\ (forall i, 0 <= i < num_blocks F ->
        exists b, block_of F i = Ok b
                  /\ block_pivots_ok (get (supercolumn_size symbolic) i) b)
  /\ pivots_below (block_pivots F col_pivots_number) (Z.to_nat (num_blocks F))
     = columns_before (supercolumn_size symbolic) (number_supercolumns symbolic).
Proof.
  intros Hrun. unfold taucs_ccs_factor_lu_numeric_maxdepth in Hrun.
  cbv zeta in Hrun.
  apply bind_Ok in Hrun. destruct Hrun as (ctx & Hloop & Hrun).
  pose proof (numeric_context_shape uninit A symbolic th np ctx Hloop) as Hshape.
  unfold F_shape in Hshape. injection Hshape as Hnum Hlen.
  set (ctx0 := multilu_context_create A symbolic th np _) in *.
  assert (Hinv : ctx_symbolic ctx = symbolic
                 /\ F_m (ctx_F ctx) = ccs_m A /\ F_n (ctx_F ctx) = ccs_n A
                 /\ forall j b, block_ptr ctx j = Some b -> valid b <> 0 ->
                      block_pivots_ok (get (supercolumn_size symbolic) j) b).
  { assert (H0 : forall j b, block_ptr ctx0 j = Some b -> valid b <> 0 ->
                   block_pivots_ok (get (supercolumn_size symbolic) j) b).
    { intros j b Hb. exfalso. unfold block_ptr, ctx0 in Hb.
      cbn [ctx_F multilu_context_create allocate_factor blocks] in Hb.
      destruct (j <? 0); [discriminate |].
      destruct (replicate _ _ !! Z.to_nat j) as [x |] eqn:E; [| discriminate].
      apply lookup_replicate in E. destruct E as [-> _]. discriminate. }
    change (nproc ctx0) with np in Hloop.
    destruct (Z.gtb_spec np 1) as [Hgt | Hseq];
      [injection Hloop as <-;
       split; [reflexivity |]; split; [reflexivity |]; split; [reflexivity | exact H0] |].
    destruct (first_root (etree symbolic) =? MULTILU_SYMBOLIC_NONE); [discriminate |].
    assert (H : nproc ctx = np /\ ctx_symbolic ctx = symbolic
                /\ F_m (ctx_F ctx) = ccs_m A /\ F_n (ctx_F ctx) = ccs_n A
                /\ forall j b, block_ptr ctx j = Some b -> valid b <> 0 ->
                     block_pivots_ok (get (supercolumn_size symbolic) j) b);
      [| apply H].
    apply (forM_preserves
             (fun c => nproc c = np /\ ctx_symbolic c = symbolic
                       /\ F_m (ctx_F c) = ccs_m A /\ F_n (ctx_F c) = ccs_n A
                       /\ forall j b, block_ptr c j = Some b -> valid b <> 0 ->
                            block_pivots_ok (get (supercolumn_size symbolic) j) b))
      with (3 := Hloop).
    - split; [reflexivity |]. split; [reflexivity |]. split; [reflexivity |].
      split; [reflexivity | exact H0].
    - intros i t t' _ (Hn & Hs & Hm & Hc & Ht) Hb.
      apply numeric_supercolumn_pivots in Hb; [| lia].
      destruct Hb as [(Hs' & Hn' & _ & Hm' & Hc' & Hoth) Hnew].
      split; [congruence |]. split; [congruence |]. split; [congruence |].
      split; [congruence |].
      intros j b' Hb' Hv. destruct (Z.eq_dec j i) as [-> | Hne].
      + destruct (Hnew b' Hb' Hv) as [Hold | Hp]; [apply (Ht i b' Hold Hv) |].
        unfold sym in Hp. rewrite Hs in Hp. exact Hp.
      + specialize (Hoth j Hne). rewrite Hb' in Hoth.
        destruct (block_ptr t j) as [b |] eqn:Eb; [| discriminate].
        cbn [option_map] in Hoth. assert (E : strip b' = strip b) by congruence.
        apply (block_pivots_ok_strip _ b b' E). apply (Ht j b Eb).
        pose proof (f_equal valid E) as Ev. cbn in Ev. congruence. }
  destruct Hinv as (Hsym & Hm & Hc & Hpiv).
  destruct (first_bad_block (take (Z.to_nat (num_blocks (ctx_F ctx))) (blocks (ctx_F ctx))))
    eqn:Hbad.
  { apply bind_Ok in Hrun. destruct Hrun as (u & _ & Hrun). discriminate. }
  injection Hrun as <-. split; [exact Hm |]. split; [exact Hc |].
  assert (Hblocks : forall i, 0 <= i < num_blocks (ctx_F ctx) ->
            exists b, block_of (ctx_F ctx) i = Ok b
                      /\ block_pivots_ok (get (supercolumn_size symbolic) i) b).
  { intros i Hi. unfold block_of. destruct (Z.ltb_spec i 0); [lia |].
    destruct (lookup_lt_is_Some_2 (blocks (ctx_F ctx)) (Z.to_nat i)) as [x Hx]; [lia |].
    destruct (first_bad_block_false _ Hbad (Z.to_nat i) x) as (b & -> & Hv).
    { rewrite lookup_take_lt by lia. exact Hx. }
    rewrite Hx. exists b. split; [reflexivity |].
    apply Hpiv; [| exact Hv]. unfold block_ptr.
    destruct (Z.ltb_spec i 0); [lia |]. rewrite Hx. reflexivity. }
  split; [exact Hblocks |].
  cbn [num_blocks] in Hnum |- *. rewrite <- Hnum.
  destruct (Z.ltb_spec (num_blocks (ctx_F ctx)) 0) as [Hneg | Hpos].
  { replace (Z.to_nat (num_blocks (ctx_F ctx))) with 0%nat by lia.
    unfold columns_before. rewrite for_empty by lia. reflexivity. }
  rewrite (pivots_below_columns (ctx_F ctx) (supercolumn_size symbolic)).
  - f_equal. lia.
  - intros i Hi. destruct (Hblocks i Hi) as (b & Hb & Hc' & _). exists b. split; assumption.
  - lia.
Qed.

(** A factor that the numeric factorization returns has the sizes of
    the matrix and, in the block of every supercolumn, as many pivot
    columns as the supercolumn has columns and no more pivot rows than
    pivot columns (all the rows of the block, at least one, when there
    are fewer); so the pivot columns of its blocks are as many as the
    columns of the supercolumns together. *)
Theorem numeric_factor_pivots (uninit : Z -> bool * bool) (A : taucs_ccs_matrix)
    (symbolic : taucs_multilu_symbolic) (th : taucs_double) (np : Z)
    (F : taucs_multilu_factor) :
  taucs_ccs_factor_lu_numeric_maxdepth uninit A (Some symbolic) th np = Ok (Some F) ->
  F_m F = ccs_m A /\ F_n F = ccs_n A
  /\ (forall i, 0 <= i < num_blocks F ->
        exists b, block_of F i = Ok b
                  /\ block_pivots_ok (get (supercolumn_size symbolic) i) b)
  /\ pivots_below (block_pivots F col_pivots_number) (Z.to_nat (num_blocks F))
     = columns_before (supercolumn_size symbolic) (number_supercolumns symbolic).
Proof. apply numeric_pivots. Qed.

(** ** The symbolic and the numeric factorization together *)

Lemma row_pivots_below_columns (F : taucs_multilu_factor) (size : list Z) :
  (forall i, 0 <= i < num_blocks F ->
     exists b, block_of F i = Ok b /\ block_pivots_ok (get size i) b) ->
  forall k : nat, Z.of_nat k <= num_blocks F ->
    pivots_below (block_pivots F row_pivots_number) k
    <= pivots_below (block_pivots F col_pivots_number) k.
Proof.
  intros Hb. induction k as [| k IH]; intros Hk.
  - cbn [pivots_below]. lia.
  - cbn [pivots_below]. specialize (IH ltac:(lia)).
    destruct (Hb (Z.of_nat k) ltac:(lia)) as (b & Eb & Hc & l & Hl & Hr & _).
    assert (E1 : block_pivots F row_pivots_number (Z.of_nat k) = row_pivots_number b)
      by (unfold block_pivots; rewrite Eb; reflexivity).
    assert (E2 : block_pivots F col_pivots_number (Z.of_nat k) = col_pivots_number b)
      by (unfold block_pivots; rewrite Eb; reflexivity).
    rewrite E1, E2. lia.
Qed.

Lemma numeric_factor_shape (uninit : Z -> bool * bool) (A : taucs_ccs_matrix)
    (symbolic : taucs_multilu_symbolic) (th : taucs_double) (np : Z)
    (F : taucs_multilu_factor) :
  taucs_ccs_factor_lu_numeric_maxdepth uninit A (Some symbolic) th np = Ok (Some F) ->
  num_blocks F = number_supercolumns symbolic.
Proof.
  intros Hrun. unfold taucs_ccs_factor_lu_numeric_maxdepth in Hrun.
  cbv zeta in Hrun.
  apply bind_Ok in Hrun. destruct Hrun as (ctx & Hloop & Hrun).
  apply numeric_context_shape in Hloop. unfold F_shape in Hloop.
  injection Hloop as Hnum Hlen.
  destruct (first_bad_block _).
  - apply bind_Ok in Hrun. destruct Hrun as (u & _ & Hrun). discriminate.
  - injection Hrun as <-. exact Hnum.
Qed.

(** The factor that the numeric factorization returns for the result
    of the symbolic factorization of the same matrix has one block for
    each supercolumn, and the pivot columns of its blocks are as many
    as the columns of the matrix; the pivot rows are no more, and
    every block has a pivot row and no more pivot rows than pivot
    columns.  The matrix has at least one column, and every row index
    stored in the columns that the symbolic result orders is a row of
    the matrix. *)
Theorem factor_lu_pivot_columns (uninit : Z -> bool * bool) (A : taucs_ccs_matrix)
    (column_order : list Z) (symbolic : taucs_multilu_symbolic) (th : taucs_double)
    (np : Z) (F : taucs_multilu_factor) :
  1 <= ccs_n A -> 0 <= ccs_m A ->
  taucs_ccs_factor_lu_symbolic A column_order = Ok symbolic ->
  (forall col, 0 <= col < ccs_n A ->
     forall i, 0 <= i < get (ccs_colptr A) (get (columns symbolic) col + 1)
                        - get (ccs_colptr A) (get (columns symbolic) col) ->
       0 <= get (ccs_rowind A) (get (ccs_colptr A) (get (columns symbolic) col) + i)
       < ccs_m A) ->
  taucs_ccs_factor_lu_numeric_maxdepth uninit A (Some symbolic) th np = Ok (Some F) ->
  1 <= num_blocks F <= F_n F
  /\ num_blocks F = number_supercolumns symbolic
  /\ F_m F = ccs_m A /\ F_n F = ccs_n A
  /\ pivots_below (block_pivots F col_pivots_number) (Z.to_nat (num_blocks F)) = F_n F
  /\ pivots_below (block_pivots F row_pivots_number) (Z.to_nat (num_blocks F))
     <= F_n F
  /\ forall i, 0 <= i < num_blocks F ->
       exists b, block_of F i = Ok b
                 /\ 1 <= row_pivots_number b <= col_pivots_number b.
Proof.
  intros Hn Hm Hsym Hrows Hnum.
  destruct (symbolic_pipeline A column_order symbolic Hn Hm Hsym Hrows)
    as (pre & Hcs & Hsn & HS & _ & Ls & Le & _ & _ & _ & Hsz).
  destruct (cs_layout pre ltac:(lia) ltac:(lia) ltac:(lia)) as [Hfail Hok].
  destruct (Z.eq_dec (columns_before (supercolumn_size pre) (number_supercolumns pre))
              (sym_n pre)) as [Hsum | Hsum];
    [| rewrite (Hfail Hsum) in Hcs; discriminate].
  destruct (Hok Hsum) as (symbolic' & Hcs' & HnumS & Hsize & _).
  rewrite Hcs in Hcs'. injection Hcs' as <-.
  pose proof (numeric_factor_shape uninit A symbolic th np F Hnum) as HnbF.
  destruct (numeric_pivots uninit A symbolic th np F Hnum) as (HFm & HFn & Hblocks & Hcols).
  pose proof (row_pivots_below_columns F (supercolumn_size symbolic) Hblocks
                (Z.to_nat (num_blocks F)) ltac:(lia)) as Hrowp.
  assert (Hone : forall i, 0 <= i < num_blocks F ->
            exists b, block_of F i = Ok b
                      /\ 1 <= row_pivots_number b <= col_pivots_number b).
  { intros i Hi. destruct (Hblocks i Hi) as (b & Hb & Hc & l & Hl & Hr & _).
    exists b. split; [exact Hb |].
    pose proof (Hsz i ltac:(lia)) as Hpos. rewrite <- Hsize in Hpos. lia. }
  rewrite Hcols, HnumS, Hsize, Hsum, Hsn in *.
  split; [lia |]. split; [lia |]. split; [lia |]. split; [lia |].
  split; [lia |]. split; [lia | exact Hone].
Qed.


(** ** The pivot columns of the blocks of a factor *)

(** What [focus_rows] keeps of the array of the columns: its length
    and the cells before [ind], where the columns found are written. *)
Definition rows_prefix (ind : Z) (pc : list Z) (st : rows_state) : Prop :=
  length (rs_pivot_cols st) = length pc
  /\ 0 <= rs_size st
  /\ forall k, 0 <= k < ind -> get (rs_pivot_cols st) k = get pc k.

Lemma assemble_col_prefix (ind : Z) (pc : list Z) (combine : T -> T -> T) (col : Z)
    (val : T) (st : rows_state) :
  rows_prefix ind pc st -> rows_prefix ind pc (assemble_col ind combine col val st).
Proof.
  intros (Lp & Hsize & Hpre). unfold assemble_col.
  destruct (negb (get (rs_map_cols st) col =? -1)).
  - split; [exact Lp |]. split; [exact Hsize | exact Hpre].
  - unfold rows_prefix. cbn [rs_pivot_cols rs_size]. rewrite length_upd.
    split; [exact Lp |]. split; [lia |].
    intros k Hk. rewrite get_upd_ne by lia. apply Hpre. exact Hk.
Qed.

Lemma rs_next_row_prefix (ind : Z) (pc : list Z) (max_size : Z) (st st' : rows_state) :
  rows_prefix ind pc st -> rs_next_row max_size st = Ok st' -> rows_prefix ind pc st'.
Proof.
  intros Hinv Hrun. unfold rs_next_row in Hrun.
  destruct (negb (rs_size st <=? max_size)); [discriminate |].
  injection Hrun as <-. exact Hinv.
Qed.

Lemma fr_At_row_prefix (ctx : multilu_context) (rows : list Z) (ind max_size row_ind : Z)
    (pc : list Z) (st st' : rows_state) :
  rows_prefix ind pc st ->
  fr_At_row ctx rows ind max_size row_ind st = Ok st' ->
  rows_prefix ind pc st'.
Proof.
  intros Hinv Hrun. unfold fr_At_row in Hrun.
  destruct (negb (get (rs_row_cleared st) (get rows row_ind) =? 0)); [discriminate |].
  apply rs_next_row_prefix with (ind := ind) (pc := pc) in Hrun; [exact Hrun |].
  match goal with
  | |- rows_prefix _ _ (rs_with_row_cleared _ ?s) => assert (Hloop : rows_prefix ind pc s)
  end.
  { apply for_preserves; [exact Hinv |].
    intros i t _ Ht.
    destruct (negb (get (column_cleared ctx) (get (ccs_rowind (ctx_At ctx)) i) =? 0));
      [exact Ht | apply assemble_col_prefix; assumption]. }
  exact Hloop.
Qed.

Lemma fr_contrib_row_prefix (ctx : multilu_context) (rows : list Z)
    (ind max_size row_ind : Z) (pc : list Z) (st st' : rows_state) :
  rows_prefix ind pc st ->
  fr_contrib_row ctx rows ind max_size row_ind st = Ok st' ->
  rows_prefix ind pc st'.
Proof.
  intros Hinv Hrun. unfold fr_contrib_row in Hrun.
  destruct (rs_freed st); [injection Hrun as <-; exact Hinv |].
  destruct (negb (is_member (get rows row_ind) (cb_rows (rs_contrib st))
                    (cb_m (rs_contrib st)) =? -1)).
  - apply bind_Ok in Hrun. destruct Hrun as (st1 & Hloop & Hrun).
    assert (H1 : rows_prefix ind pc st1).
    { apply (forM_preserves (rows_prefix ind pc)) with (3 := Hloop); [exact Hinv |].
      intros i t t' _ Ht Hb.
      destruct (negb (get (column_cleared ctx) (get (cb_columns (rs_contrib st)) i) =? 0));
        [discriminate |].
      injection Hb as <-. apply assemble_col_prefix; assumption. }
    destruct (cb_m (rs_contrib st) - 1 =? 0).
    + injection Hrun as <-. exact H1.
    + apply rs_next_row_prefix with (ind := ind) (pc := pc) in Hrun; [exact Hrun | exact H1].
  - apply rs_next_row_prefix with (ind := ind) (pc := pc) in Hrun; [exact Hrun | exact Hinv].
Qed.

(** [focus_rows] writes the columns it finds behind [ind]: the cells
    before [ind] are kept. *)
Lemma focus_rows_prefix (ctx ctx' : multilu_context) (rows : list Z)
    (number pivot_supercol : Z) (pc : list Z) (ind : Z) (values : list T) (max_size : Z)
    (mc pc' : list Z) (ut' : list T) (mc' : list Z) (size' : Z) :
  focus_rows ctx rows number pivot_supercol pc ind values max_size mc
  = Ok (ctx', pc', ut', mc', size') ->
  length pc' = length pc /\ 0 <= size'
  /\ forall k, 0 <= k < ind -> get pc' k = get pc k.
Proof.
  intros Hrun. unfold focus_rows in Hrun.
  apply bind_Ok in Hrun. destruct Hrun as (st1 & Hrows & Hrun).
  apply bind_Ok in Hrun. destruct Hrun as ([ctx2 st2] & Hdesc & Hrun).
  injection Hrun as _ <- _ _ <-.
  assert (H1 : rows_prefix ind pc st1).
  { apply (forM_preserves (rows_prefix ind pc)) with (3 := Hrows).
    - unfold rows_prefix. cbn [rs_pivot_cols rs_size].
      split; [reflexivity |]. split; [lia | reflexivity].
    - intros j t t' _ Ht Hb. apply (fr_At_row_prefix ctx rows ind max_size j pc t t');
        assumption. }
  assert (H2 : rows_prefix ind pc st2).
  { destruct (negb (get (first_desc_index (et (set_row_cleared (rs_row_cleared st1) ctx)))
                      pivot_supercol =? MULTILU_SYMBOLIC_NONE));
      [| injection Hdesc as _ <-; exact H1].
    apply (forM_preserves
             (fun p : multilu_context * rows_state => rows_prefix ind pc (snd p)))
      with (3 := Hdesc); [exact H1 |].
    intros c [ctxa sta] [ctxb stb] _ Hia Hb. cbn [snd] in *.
    apply bind_Ok in Hb. destruct Hb as (dfb & _ & Hb).
    destruct (contrib_block dfb) as [dcb |]; [| injection Hb as _ <-; exact Hia].
    apply bind_Ok in Hb. destruct Hb as (st3 & Hloop & Hb).
    injection Hb as _ <-.
    apply (forM_preserves (rows_prefix ind pc)) with (3 := Hloop); [exact Hia |].
    intros j t t' _ Ht Hb.
    apply (fr_contrib_row_prefix ctxa rows ind max_size j pc t t'); assumption. }
  exact H2.
Qed.

Lemma get_realloc_prefix (a : list Z) (n k : Z) :
  0 <= k < n -> k < Z.of_nat (length a) -> get (realloc a n) k = get a k.
Proof.
  intros Hk Hn. unfold get, realloc.
  destruct (Z.ltb_spec k 0); [lia |].
  rewrite lookup_app_l by (rewrite length_take; lia).
  rewrite lookup_take_lt by lia. reflexivity.
Qed.

(** The first [size] columns of a block are the columns [f 0], ...,
    [f (size - 1)], and the others start behind them. *)
Definition cols_set (size : Z) (f : Z -> Z) (b : multilu_factor_block) : Prop :=
  non_pivot_cols b = size
  /\ size <= Z.of_nat (length (pivot_cols b))
  /\ forall k, 0 <= k < size -> get (pivot_cols b) k = f k.

(** A step that keeps the block of the supercolumn [s] and its first
    columns. *)
Definition cols_step (s size : Z) (f : Z -> Z) (ctx ctx' : multilu_context) : Prop :=
  forall b, block_ptr ctx s = Some b ->
    exists b', block_ptr ctx' s = Some b' /\ (cols_set size f b -> cols_set size f b').

Lemma cols_step_refl (s size : Z) (f : Z -> Z) (ctx : multilu_context) :
  cols_step s size f ctx ctx.
Proof. intros b Hb. exists b. split; [exact Hb | auto]. Qed.

Lemma cols_step_trans (s size : Z) (f : Z -> Z) (ctx1 ctx2 ctx3 : multilu_context) :
  cols_step s size f ctx1 ctx2 -> cols_step s size f ctx2 ctx3 ->
  cols_step s size f ctx1 ctx3.
Proof.
  intros H1 H2 b Hb. destruct (H1 b Hb) as (b2 & Hb2 & Hc2).
  destruct (H2 b2 Hb2) as (b3 & Hb3 & Hc3). exists b3. split; [exact Hb3 | auto].
Qed.

Lemma cols_step_frame (s size : Z) (f : Z -> Z) (ctx ctx' : multilu_context) :
  same_frame ctx ctx' -> cols_step s size f ctx ctx'.
Proof.
  intros Hf b Hb. destruct (same_frame_block ctx ctx' s b Hf Hb) as (b' & Hb' & E).
  exists b'. split; [exact Hb' |].
  unfold block_cols in E. injection E as _ Epc Enp _.
  unfold cols_set. rewrite Epc, Enp. auto.
Qed.

Lemma cols_step_upd_block (s size : Z) (f : Z -> Z) (ctx : multilu_context) (j : Z)
    (g : multilu_factor_block -> multilu_factor_block) :
  (forall b, pivot_cols (g b) = pivot_cols b /\ non_pivot_cols (g b) = non_pivot_cols b) ->
  cols_step s size f ctx (upd_block j g ctx).
Proof.
  intros Hg b Hb. rewrite block_ptr_upd_block.
  destruct (Z.eqb_spec j s) as [-> | _]; [| exists b; split; [exact Hb | auto]].
  rewrite Hb. exists (g b). split; [reflexivity |].
  destruct (Hg b) as [Epc Enp]. unfold cols_set. rewrite Epc, Enp. auto.
Qed.

Lemma factorize_l_portion_cols (s size : Z) (f : Z -> Z) (ctx ctx' : multilu_context)
    (pivot_supercol : Z) (dense_spawn one_child : bool) :
  nproc ctx <= 1 ->
  factorize_l_portion ctx pivot_supercol dense_spawn one_child = Ok ctx' ->
  cols_step s size f ctx ctx'.
Proof.
  intros Hseq Hrun. unfold factorize_l_portion in Hrun.
  destruct (Z.gtb_spec (nproc ctx) 1) as [Hgt | _]; [lia |].
  rewrite andb_false_r in Hrun. cbn [mbind result_bind bind] in Hrun.
  apply bind_Ok in Hrun. destruct Hrun as (fb & _ & Hrun).
  destruct (valid fb =? 0); [injection Hrun as <-; apply cols_step_refl |].
  destruct (negb (fb_l_size fb >? 0)); [discriminate |].
  apply bind_Ok in Hrun. destruct Hrun as (degrees & _ & Hrun).
  destruct (taucs_LU _ _ _ _ _ _ _ _) as [lu pr].
  injection Hrun as <-.
  match goal with
  | |- cols_step _ _ _ _ (upd_block _ _ ?c) => apply (cols_step_trans _ _ _ _ c)
  end.
  - apply cols_step_frame. destruct (nproc ctx >? 1); repeat split.
  - apply cols_step_upd_block. intros b. split; reflexivity.
Qed.

(** The U portion on one processor keeps the pivot columns of the
    block: the columns it finds are written behind them. *)
Lemma factorize_u_portion_cols_kept (f : Z -> Z) (ctx ctx' : multilu_context)
    (pivot_supercol : Z) (map_cols map_cols' : list Z)
    (only_child parent_has_job dense_spawn : bool) (ru_size : Z) :
  nproc ctx <= 1 ->
  factorize_u_portion ctx pivot_supercol map_cols only_child parent_has_job dense_spawn
  = Ok (ctx', map_cols', ru_size) ->
  cols_step pivot_supercol (get (supercolumn_size (sym ctx)) pivot_supercol) f ctx ctx'.
Proof.
  intros Hseq Hrun. unfold factorize_u_portion in Hrun.
  apply bind_Ok in Hrun. destruct Hrun as (fb & Hfb & Hrun).
  apply block_at_Ok in Hfb.
  apply bind_Ok in Hrun. destruct Hrun as ([[[[ctx2 pc] ut] mc2] ru] & Hfocus & Hrun).
  pose proof (focus_rows_prefix _ _ _ _ _ _ _ _ _ _ _ _ _ _ Hfocus) as (Lpc & Hru & Hpre).
  apply focus_rows_frame in Hfocus.
  set (size := get (supercolumn_size (sym ctx)) pivot_supercol) in *.
  match type of Hrun with
  | context [upd_block pivot_supercol ?g ctx2] =>
      set (ctx3 := upd_block pivot_supercol g ctx2) in *
  end.
  assert (H3 : cols_step pivot_supercol size f ctx ctx3).
  { intros b Hb. rewrite Hfb in Hb. injection Hb as <-.
    destruct (same_frame_block ctx ctx2 pivot_supercol fb Hfocus Hfb) as (b2 & Hb2 & _).
    unfold ctx3. rewrite block_ptr_upd_block, Z.eqb_refl, Hb2. cbn [option_map].
    eexists. split; [reflexivity |].
    intros (Enp & Hlen & Hcols). unfold cols_set.
    cbn [non_pivot_cols pivot_cols set_Ut2 set_non_pivot_cols set_pivot_cols].
    split; [reflexivity |]. rewrite length_realloc.
    split; [lia |].
    intros k Hk. rewrite get_realloc_prefix by lia.
    rewrite Hpre by lia. apply Hcols. exact Hk. }
  apply (cols_step_trans _ _ _ _ ctx3); [exact H3 |].
  assert (Hn3 : nproc ctx3 <= 1).
  { assert (E : nproc ctx3 = nproc ctx); [| lia].
    unfold ctx3. destruct (upd_block_symbolic ctx2 pivot_supercol
      (fun b => set_Ut2 (compress_values_block ut ru
                           (Z.min (fb_l_size fb) size)
                           (get (sym_u_size (sym ctx)) pivot_supercol))
                  (set_non_pivot_cols size
                     (set_pivot_cols (realloc pc (size + ru)) b)))) as (_ & -> & _).
    destruct Hfocus as (_ & -> & _). reflexivity. }
  destruct (ru >? 0); [| injection Hrun as <- _ _; apply cols_step_refl].
  apply bind_Ok in Hrun. destruct Hrun as ([[ctx4 mc4] num] & Hre & Hrun).
  destruct (Z.gtb_spec (nproc ctx3) 1) as [Hgt | _]; [lia |].
  rewrite andb_false_r in Hre. injection Hre as <- _ _.
  match type of Hrun with
  | context [upd_block pivot_supercol ?g ctx3] =>
      set (ctx5 := upd_block pivot_supercol g ctx3) in *
  end.
  apply (cols_step_trans _ _ _ _ ctx5);
    [apply cols_step_upd_block; intros b; split; reflexivity |].
  apply bind_Ok in Hrun. destruct Hrun as (fb5 & _ & Hrun).
  match type of Hrun with
  | context [set_map_rows ?m ctx5] => set (ctx6 := set_map_rows m ctx5) in *
  end.
  apply (cols_step_trans _ _ _ _ ctx6); [apply cols_step_frame; repeat split |].
  destruct (_ >? 0); [| injection Hrun as <- _ _; apply cols_step_refl].
  apply bind_Ok in Hrun. destruct Hrun as ([ctx7 ncb] & Hadd & Hrun).
  apply add_contributions_frame in Hadd. injection Hrun as <- _ _.
  match type of Hadd with
  | same_frame ?c _ =>
      apply (cols_step_trans _ _ _ _ c);
        [apply cols_step_upd_block; intros b; split; reflexivity |]
  end.
  apply (cols_step_trans _ _ _ _ ctx7); [apply cols_step_frame; exact Hadd |].
  apply cols_step_upd_block. intros b. split; reflexivity.
Qed.

Lemma factorize_supercolumn_cols (f : Z -> Z) (ctx ctx' : multilu_context)
    (pivot_supercol : Z) (map_cols map_cols' : list Z) (only_child0 parent_has_job0 : bool) :
  nproc ctx <= 1 ->
  factorize_supercolumn ctx pivot_supercol map_cols only_child0 parent_has_job0
  = Ok (ctx', map_cols') ->
  cols_step pivot_supercol (get (supercolumn_size (sym ctx)) pivot_supercol) f ctx ctx'.
Proof.
  intros Hseq Hrun. unfold factorize_supercolumn in Hrun.
  set (size := get (supercolumn_size (sym ctx)) pivot_supercol) in *.
  apply bind_Ok in Hrun. destruct Hrun as (ctx0 & HL & Hrun).
  pose proof (factorize_l_portion_valids _ _ _ _ _ Hseq HL) as (Hs0 & Hn0 & _).
  apply (factorize_l_portion_cols pivot_supercol size f) in HL; [| exact Hseq].
  apply (cols_step_trans _ _ _ _ ctx0); [exact HL |].
  assert (Hseq0 : nproc ctx0 <= 1) by (rewrite Hn0; exact Hseq).
  apply bind_Ok in Hrun. destruct Hrun as (ctx1 & Hchild & Hrun).
  destruct (Z.gtb_spec (nproc ctx0) 1) as [Hgt | _]; [lia |].
  rewrite andb_false_r in Hchild. injection Hchild as <-.
  apply bind_Ok in Hrun. destruct Hrun as (b1 & _ & Hrun).
  destruct (valid b1 =? 0); [injection Hrun as <- _; apply cols_step_refl |].
  apply bind_Ok in Hrun. destruct Hrun as ([[ctx2 mc2] ru] & HU & Hrun).
  assert (H2 : cols_step pivot_supercol size f ctx0 ctx2).
  { destruct (fb_l_size b1 >? 0).
    - apply (factorize_u_portion_cols_kept f) in HU; [| exact Hseq0].
      unfold sym in HU. rewrite Hs0 in HU. exact HU.
    - injection HU as <- _ _. apply cols_step_refl. }
  apply (cols_step_trans _ _ _ _ ctx2); [exact H2 |].
  match type of Hrun with
  | context [upd_block pivot_supercol ?g ctx2] =>
      set (ctx3 := upd_block pivot_supercol g ctx2) in *
  end.
  apply (cols_step_trans _ _ _ _ ctx3);
    [apply cols_step_upd_block; intros b; split; reflexivity |].
  apply bind_Ok in Hrun. destruct Hrun as (fb3 & _ & Hrun).
  apply bind_Ok in Hrun. destruct Hrun as (ctx4 & Hrm & Hrun).
  assert (H4 : cols_step pivot_supercol size f ctx3 ctx4).
  { destruct (_ || _).
    - apply remove_member_indication_frame in Hrm. apply cols_step_frame. exact Hrm.
    - injection Hrm as <-. apply cols_step_refl. }
  apply (cols_step_trans _ _ _ _ ctx4); [exact H4 |].
  unfold clear_indication in Hrun. injection Hrun as <- _.
  apply cols_step_frame. repeat split.
Qed.

Lemma fill_columns_get (f : Z -> Z) (k : Z) (a : list Z) :
  forall i, 0 <= i < k -> i < Z.of_nat (length a) ->
    get (for_ 0 k (fun i a => upd a i (f i)) a) i = f i.
Proof.
  intros i Hi Hlen.
  assert (H : length (for_ 0 k (fun i a => upd a i (f i)) a) = length a
              /\ forall j, 0 <= j < k -> j < Z.of_nat (length a) ->
                   get (for_ 0 k (fun i a => upd a i (f i)) a) j = f j);
    [| apply H; assumption].
  apply (for_inv (fun q w => length w = length a
                             /\ forall j, 0 <= j < q -> j < Z.of_nat (length a) ->
                                  get w j = f j)); [lia | |].
  - split; [reflexivity | intros; lia].
  - intros q w Hq [Lw Hw]. rewrite length_upd. split; [exact Lw |].
    intros j Hj Hjl. destruct (Z.eq_dec j q) as [-> | Hne].
    + apply get_upd_eq. lia.
    + rewrite get_upd_ne by lia. apply Hw; lia.
Qed.

(** The block [allocate_factor_block] makes, when it is valid and the
    supercolumn has no more columns than its rows of [U] have cells,
    starts with the columns of the supercolumn. *)
Lemma allocate_factor_block_cols (ctx ctx' : multilu_context) (s : Z) :
  get (supercolumn_size (sym ctx)) s <= get (sym_u_size (sym ctx)) s ->
  allocate_factor_block ctx s = Ok ctx' ->
  forall b', block_ptr ctx' s = Some b' -> valid b' <> 0 ->
    cols_set (get (supercolumn_size (sym ctx)) s)
      (fun k => get (columns (sym ctx)) (get (start_supercolumn (sym ctx)) s + k)) b'.
Proof.
  intros Hfit. unfold allocate_factor_block.
  destruct (block_ptr ctx s) eqn:E; [discriminate |].
  intros H. injection H as <-.
  intros b' Hb'. unfold set_block in Hb'. rewrite block_ptr_set_block_ptr in Hb'.
  rewrite Z.eqb_refl in Hb'. cbn [andb] in Hb'. revert Hb'.
  destruct ((0 <=? s) && (s <? Z.of_nat (length (blocks (ctx_F ctx)))));
    intros Hb'; [| rewrite E in Hb'; discriminate].
  injection Hb' as <-. cbn [valid]. intros Hv.
  set (size := get (supercolumn_size (sym ctx)) s) in *.
  set (mu := get (sym_u_size (sym ctx)) s) in *.
  unfold cols_set. cbn [non_pivot_cols pivot_cols].
  split; [reflexivity |].
  rewrite (length_fill_columns
             (fun i => get (columns (sym ctx)) (get (start_supercolumn (sym ctx)) s + i))).
  destruct (Z.le_gt_cases size 0) as [Hle | Hpos].
  { split; [lia | intros k Hk; lia]. }
  assert (Hok : (mu >? 0) && taucs_malloc_ok s 0 = true).
  { destruct (Z.gtb_spec mu 0) as [_ | Hn]; [| lia]. cbn [andb].
    destruct (taucs_malloc_ok s 0); [reflexivity |].
    exfalso. apply Hv. cbn [andb negb orb]. reflexivity. }
  rewrite Hok. unfold malloc at 1. rewrite length_replicate.
  split; [lia |].
  intros k Hk.
  apply (fill_columns_get
           (fun i => get (columns (sym ctx)) (get (start_supercolumn (sym ctx)) s + i)));
    [exact Hk |].
  unfold malloc. rewrite length_replicate. lia.
Qed.

(** One turn of the sequential loop: the block of the supercolumn, if
    the turn makes it and it is valid, starts with the columns of the
    supercolumn. *)
Lemma numeric_supercolumn_cols (uninit : Z -> bool * bool) (i : Z)
    (ctx ctx' : multilu_context) :
  nproc ctx <= 1 ->
  get (supercolumn_size (sym ctx)) i <= get (sym_u_size (sym ctx)) i ->
  numeric_supercolumn uninit i ctx = Ok ctx' ->
  forall b', block_ptr ctx' i = Some b' -> valid b' <> 0 ->
    block_ptr ctx i = Some b'
    \/ cols_set (get (supercolumn_size (sym ctx)) i)
         (fun k => get (columns (sym ctx)) (get (start_supercolumn (sym ctx)) i + k)) b'.
Proof.
  intros Hseq Hfit Hrun. unfold numeric_supercolumn in Hrun.
  destruct (get (sym_l_size (sym ctx)) i =? 0).
  { injection Hrun as <-. intros b' Hb' _. left. exact Hb'. }
  set (size := get (supercolumn_size (sym ctx)) i) in *.
  set (f := fun k => get (columns (sym ctx)) (get (start_supercolumn (sym ctx)) i + k)).
  apply bind_Ok in Hrun. destruct Hrun as (ctx1 & Halloc & Hrun).
  pose proof (allocate_factor_block_cols ctx ctx1 i Hfit Halloc) as Hnew.
  apply allocate_factor_block_valid in Halloc.
  destruct Halloc as (Hs1 & Hn1 & _ & _).
  apply bind_Ok in Hrun. destruct Hrun as (ctx2 & Hchildren & Hrun).
  assert (H2 : valids_kept ctx1 ctx2 /\ cols_step i size f ctx1 ctx2).
  { apply (forM_children_preserves
             (fun t => valids_kept ctx1 t /\ cols_step i size f ctx1 t))
      with (3 := Hchildren);
      [| split; [apply valids_kept_refl | apply cols_step_refl]].
    intros child t t' [Ht Hc] Hb.
    apply focus_supercolumn_from_child_kept with (len := 0) in Hb. destruct Hb as [Hb _].
    split.
    - apply (valids_kept_trans _ t); [exact Ht | apply valids_kept_frame, Hb].
    - apply (cols_step_trans _ _ _ _ t); [exact Hc | apply cols_step_frame, Hb]. }
  destruct H2 as [H2 C2].
  apply bind_Ok in Hrun. destruct Hrun as (ctx3 & HA & Hrun).
  apply focus_supercolumn_from_A_kept with (len := 0) in HA. destruct HA as [HA _].
  assert (H3 : valids_kept ctx1 ctx3)
    by (apply (valids_kept_trans _ ctx2); [exact H2 | apply valids_kept_frame, HA]).
  assert (C3 : cols_step i size f ctx1 ctx3)
    by (apply (cols_step_trans _ _ _ _ ctx2); [exact C2 | apply cols_step_frame, HA]).
  apply bind_Ok in Hrun. destruct Hrun as ([ctx4 mc4] & Hfact & Hrun).
  assert (Hseq3 : nproc ctx3 <= 1) by (destruct H3 as (_ & -> & _); rewrite Hn1; exact Hseq).
  assert (Hsym3 : sym ctx3 = sym ctx).
  { unfold sym. destruct H3 as (-> & _). exact Hs1. }
  pose proof (factorize_supercolumn_valids _ _ _ _ _ _ _ Hseq3 Hfact) as H4.
  apply (factorize_supercolumn_cols f) in Hfact; [| exact Hseq3].
  rewrite Hsym3 in Hfact. fold size in Hfact.
  injection Hrun as <-.
  intros b' Hb' Hv. right.
  change (block_ptr (release_map_cols ctx4 mc4) i) with (block_ptr ctx4 i) in Hb'.
  assert (H14 : valids_kept ctx1 ctx4) by (apply (valids_kept_trans _ ctx3); assumption).
  destruct H14 as (_ & _ & _ & Hv4). specialize (Hv4 i). rewrite Hb' in Hv4.
  destruct (block_ptr ctx1 i) as [b1 |] eqn:E1; [| discriminate].
  cbn [option_map] in Hv4. injection Hv4 as Hv4.
  destruct (cols_step_trans _ _ _ _ _ _ C3 Hfact b1 E1) as (b4 & Hb4 & Hc4).
  rewrite Hb' in Hb4. injection Hb4 as <-.
  apply Hc4. apply (Hnew b1); [reflexivity | congruence].
Qed.

Lemma cols_set_strip (size : Z) (f : Z -> Z) (b b' : multilu_factor_block) :
  strip b' = strip b -> cols_set size f b -> cols_set size f b'.
Proof.
  intros E. pose proof (f_equal pivot_cols E) as Epc.
  pose proof (f_equal non_pivot_cols E) as Enp. cbn in Epc, Enp.
  unfold cols_set. rewrite Epc, Enp. auto.
Qed.

(** In a factor that the numeric factorization returns, the block of
    every supercolumn starts with the columns of the supercolumn, in
    the order of the symbolic structure: the pivot columns of the block
    [i] are [columns[start_supercolumn[i]]], ...  The supercolumns have
    no more columns than their rows of [U] have cells. *)
Theorem numeric_factor_pivot_columns (uninit : Z -> bool * bool) (A : taucs_ccs_matrix)
    (symbolic : taucs_multilu_symbolic) (th : taucs_double) (np : Z)
    (F : taucs_multilu_factor) :
  (forall i, 0 <= i < number_supercolumns symbolic ->
     get (supercolumn_size symbolic) i <= get (sym_u_size symbolic) i) ->
  taucs_ccs_factor_lu_numeric_maxdepth uninit A (Some symbolic) th np = Ok (Some F) ->
  forall i, 0 <= i < num_blocks F ->
    exists b, block_of F i = Ok b
              /\ col_pivots_number b = get (supercolumn_size symbolic) i
              /\ col_pivots_number b <= Z.of_nat (length (pivot_cols b))
              /\ forall k, 0 <= k < col_pivots_number b ->
                   get (pivot_cols b) k
                   = get (columns symbolic) (get (start_supercolumn symbolic) i + k).
Proof.
  intros Hfit Hrun.
  destruct (numeric_pivots uninit A symbolic th np F Hrun) as (_ & _ & Hpiv & _).
  unfold taucs_ccs_factor_lu_numeric_maxdepth in Hrun.
  cbv zeta in Hrun.
  apply bind_Ok in Hrun. destruct Hrun as (ctx & Hloop & Hrun).
  set (ctx0 := multilu_context_create A symbolic th np _) in *.
  set (P := fun c : multilu_context =>
              forall j b, block_ptr c j = Some b -> valid b <> 0 ->
                cols_set (get (supercolumn_size symbolic) j)
                  (fun k => get (columns symbolic) (get (start_supercolumn symbolic) j + k))
                  b).
  assert (Hinv : P ctx).
  { assert (H0 : P ctx0).
    { intros j b Hb. exfalso. unfold block_ptr, ctx0 in Hb.
      cbn [ctx_F multilu_context_create allocate_factor blocks] in Hb.
      destruct (j <? 0); [discriminate |].
      destruct (replicate _ _ !! Z.to_nat j) as [x |] eqn:E; [| discriminate].
      apply lookup_replicate in E. destruct E as [-> _]. discriminate. }
    change (nproc ctx0) with np in Hloop.
    destruct (Z.gtb_spec np 1) as [Hgt | Hseq]; [injection Hloop as <-; exact H0 |].
    destruct (first_root (etree symbolic) =? MULTILU_SYMBOLIC_NONE); [discriminate |].
    assert (H : nproc ctx = np /\ ctx_symbolic ctx = symbolic /\ P ctx); [| apply H].
    apply (forM_preserves
             (fun c => nproc c = np /\ ctx_symbolic c = symbolic /\ P c))
      with (3 := Hloop).
    - split; [reflexivity |]. split; [reflexivity | exact H0].
    - intros i t t' Hi (Hn & Hs & Ht) Hb.
      pose proof (numeric_supercolumn_cols uninit i t t') as Hcols.
      unfold sym in Hcols. rewrite Hs in Hcols.
      specialize (Hcols ltac:(lia) ltac:(apply Hfit; lia) Hb).
      apply numeric_supercolumn_pivots in Hb; [| lia].
      destruct Hb as [(Hs' & Hn' & _ & _ & _ & Hoth) _].
      split; [congruence |]. split; [congruence |].
      intros j b' Hb' Hv. destruct (Z.eq_dec j i) as [-> | Hne].
      + destruct (Hcols b' Hb' Hv) as [Hold | Hc]; [apply (Ht i b' Hold Hv) | exact Hc].
      + specialize (Hoth j Hne). rewrite Hb' in Hoth.
        destruct (block_ptr t j) as [b |] eqn:Eb; [| discriminate].
        cbn [option_map] in Hoth. assert (E : strip b' = strip b) by congruence.
        apply (cols_set_strip _ _ b b' E). apply (Ht j b Eb).
        pose proof (f_equal valid E) as Ev. cbn in Ev. congruence. }
  destruct (first_bad_block (take (Z.to_nat (num_blocks (ctx_F ctx))) (blocks (ctx_F ctx))))
    eqn:Hbad.
  { apply bind_Ok in Hrun. destruct Hrun as (u & _ & Hrun). discriminate. }
  injection Hrun as <-.
  intros i Hi. destruct (Hpiv i Hi) as (b & Hb & Hcp & _).
  exists b. split; [exact Hb |]. split; [exact Hcp |].
  assert (Hset : cols_set (get (supercolumn_size symbolic) i)
                   (fun k => get (columns symbolic) (get (start_supercolumn symbolic) i + k))
                   b).
  { unfold block_of in Hb. 
    destruct (Z.ltb_spec i 0); [lia |].
    destruct (blocks (ctx_F ctx) !! Z.to_nat i) as [x |] eqn:Hx; [| discriminate].
    destruct (first_bad_block_false _ Hbad (Z.to_nat i) x) as (b0 & -> & Hv).
    { rewrite lookup_take_lt by lia. exact Hx. }
    cbn in Hb. injection Hb as ->.
    apply (Hinv i b); [| exact Hv]. unfold block_ptr.
    destruct (Z.ltb_spec i 0); [lia |]. rewrite Hx. reflexivity. }
  destruct Hset as (_ & Hlen & Hcols). rewrite Hcp. split; [exact Hlen | exact Hcols].
Qed.

(** ** The postorder of a forest *)

(** The walk of [df_postorder] through a list of siblings that starts
    at the child [c], all of them below [bound]: the subtree of [c] in
    postorder, then the walk through the siblings after [c]. *)
Inductive walk (first_child next_child : list Z) : Z -> Z -> list Z -> Prop :=
| walk_none (bound : Z) : walk first_child next_child bound MULTILU_SYMBOLIC_NONE []
| walk_cons (bound c : Z) (l1 l2 : list Z) :
    0 <= c < bound ->
    walk first_child next_child c (get first_child c) l1 ->
    walk first_child next_child bound (get next_child c) l2 ->
    walk first_child next_child bound c (l1 ++ c :: l2).

Lemma walk_below (first_child next_child : list Z) (bound c : Z) (l : list Z) :
  walk first_child next_child bound c l -> forall x, x ∈ l -> 0 <= x < bound.
Proof.
  induction 1 as [bound | bound c l1 l2 Hc _ IH1 _ IH2]; intros x Hx.
  - apply elem_of_nil in Hx. contradiction.
  - apply elem_of_app in Hx. destruct Hx as [Hx | Hx].
    + specialize (IH1 x Hx). lia.
    + apply elem_of_cons in Hx. destruct Hx as [-> | Hx]; [exact Hc | apply IH2; exact Hx].
Qed.

Definition stack_ok (root : Z) (s : store) : Prop :=
  Z.of_nat (length (s Stack_vertex)) = root + 1
  /\ Z.of_nat (length (s Stack_child)) = root + 1.

Lemma dfp_while_step (fuel : nat) (first_child next_child : list Z) (root : Z)
    (st st' : store * Z * Z) :
  0 <= snd st ->
  dfp_step first_child next_child root st = Ok st' ->
  dfp_while (S fuel) first_child next_child root st
  = dfp_while fuel first_child next_child root st'.
Proof.
  intros Hd Hstep. cbn [dfp_while].
  destruct (Z.geb_spec (snd st) 0) as [_ | ?]; [| lia].
  rewrite Hstep. reflexivity.
Qed.

(** From a state whose stack holds the child [c] on top, the loop
    walks through [c] and the siblings after it in two turns for each
    vertex, numbers them from [postnum] on, and is back at the same
    depth with no sibling left. *)
Lemma dfp_walk (first_child next_child : list Z) (root : Z) :
  forall (bound c : Z) (l : list Z),
    walk first_child next_child bound c l ->
    forall (fuel : nat) (s : store) (postnum d : Z),
      0 <= d -> d + bound <= root ->
      get (s Stack_child) d = c ->
      stack_ok root s ->
      0 <= postnum ->
      postnum + Z.of_nat (length l) <= Z.of_nat (length (s Postorder)) ->
      exists s',
        dfp_while (2 * length l + fuel) first_child next_child root (s, postnum, d)
        = dfp_while fuel first_child next_child root
            (s', postnum + Z.of_nat (length l), d)
        /\ get (s' Stack_child) d = MULTILU_SYMBOLIC_NONE
        /\ (forall k, 0 <= k <= d -> get (s' Stack_vertex) k = get (s Stack_vertex) k)
        /\ (forall k, 0 <= k < d -> get (s' Stack_child) k = get (s Stack_child) k)
        /\ stack_ok root s'
        /\ length (s' Postorder) = length (s Postorder)
        /\ (forall k, 0 <= k < postnum -> get (s' Postorder) k = get (s Postorder) k)
        /\ (forall (k : nat) x, l !! k = Some x ->
              get (s' Postorder) (postnum + Z.of_nat k) = x).
Proof.
  induction 1 as [bound | bound c l1 l2 Hc _ IH1 _ IH2];
    intros fuel s postnum d Hd Hroom Htop [Lv Lc] Hpn Hcap.
  - exists s. cbn [length]. replace (postnum + Z.of_nat 0) with postnum by lia.
    split; [reflexivity |]. split; [exact Htop |].
    split; [reflexivity |]. split; [reflexivity |]. split; [split; assumption |].
    split; [reflexivity |]. split; [reflexivity |].
    intros k x Hk. rewrite lookup_nil in Hk. discriminate.
  - rewrite length_app in Hcap |- *. cbn [length] in Hcap |- *.
    (* the child is pushed *)
    set (s1 := put_at Stack_child (d + 1) (get first_child c)
                 (put_at Stack_vertex (d + 1) c s)).
    assert (Hpush : dfp_step first_child next_child root (s, postnum, d)
                    = Ok (s1, postnum, d + 1)).
    { unfold dfp_step. rewrite Htop.
      destruct (Z.eqb_spec c MULTILU_SYMBOLIC_NONE) as [E | _];
        [unfold MULTILU_SYMBOLIC_NONE in E; lia |].
      cbn [negb]. store_simpl. rewrite get_upd_eq by lia. reflexivity. }
    assert (Hs1 : stack_ok root s1).
    { unfold stack_ok, s1. store_simpl. rewrite !length_upd. split; assumption. }
    destruct (IH1 (S (2 * length l2 + fuel)) s1 postnum (d + 1)) as
      (s2 & Hrun2 & Htop2 & Hv2 & Hc2 & [Lv2 Lc2] & Lp2 & Hold2 & Hnew2);
      [lia | lia | | exact Hs1 | exact Hpn | |].
    { unfold s1. store_simpl. apply get_upd_eq. lia. }
    { unfold s1. store_simpl. lia. }
    (* the child is numbered *)
    set (pn2 := postnum + Z.of_nat (length l1)) in *.
    set (s3 := put Desc_count
                 (dfp_sum_children (Z.to_nat root + 1) next_child c (get first_child c)
                    (put_at Desc_count c 1 (put_at Postorder pn2 c s2) Desc_count))
                 (put_at Desc_count c 1 (put_at Postorder pn2 c s2))).
    set (s4 := put_at Stack_child d (get next_child c) s3).
    assert (Hvc : get (s2 Stack_vertex) (d + 1) = c).
    { rewrite Hv2 by lia. unfold s1. store_simpl. apply get_upd_eq. lia. }
    assert (Hcc : get (s2 Stack_child) d = c).
    { rewrite Hc2 by lia. unfold s1. store_simpl. rewrite get_upd_ne by lia. exact Htop. }
    assert (Hpop : dfp_step first_child next_child root (s2, pn2, d + 1)
                   = Ok (s4, pn2 + 1, d)).
    { unfold dfp_step. rewrite Htop2, Z.eqb_refl. cbn [negb]. rewrite Hvc.
      destruct (Z.eqb_spec c root) as [E | _]; [lia |]. cbn [negb].
      destruct (Z.ltb_spec c root) as [_ | ?]; [| lia]. cbn [negb bind].
      replace (d + 1 - 1) with d by lia.
      destruct (Z.geb_spec d 0) as [_ | ?]; [| lia].
      unfold s4, s3. store_simpl. rewrite Hcc. reflexivity. }
    assert (Hs4 : stack_ok root s4).
    { unfold stack_ok, s4, s3. store_simpl. rewrite !length_upd. split; assumption. }
    assert (Lp4 : length (s4 Postorder) = length (s Postorder)).
    { unfold s4, s3. store_simpl. rewrite length_upd, Lp2. unfold s1. store_simpl.
      reflexivity. }
    destruct (IH2 fuel s4 (pn2 + 1) d) as
      (s5 & Hrun5 & Htop5 & Hv5 & Hc5 & Hs5 & Lp5 & Hold5 & Hnew5);
      [lia | lia | | exact Hs4 | lia | rewrite Lp4; lia |].
    { unfold s4, s3. store_simpl. apply get_upd_eq. lia. }
    exists s5.
    split.
    { replace (2 * (length l1 + S (length l2)) + fuel)%nat
        with (S (2 * length l1 + S (2 * length l2 + fuel)))%nat by lia.
      rewrite (dfp_while_step _ first_child next_child root (s, postnum, d) _
                 ltac:(cbn [snd]; lia) Hpush).
      rewrite Hrun2.
      rewrite (dfp_while_step _ first_child next_child root (s2, pn2, d + 1) _
                 ltac:(cbn [snd]; lia) Hpop).
      rewrite Hrun5. f_equal. f_equal. f_equal. lia. }
    split; [exact Htop5 |].
    split.
    { intros k Hk. rewrite Hv5 by lia. unfold s4, s3. store_simpl.
      rewrite Hv2 by lia. unfold s1. store_simpl. apply get_upd_ne. lia. }
    split.
    { intros k Hk. rewrite Hc5 by lia. unfold s4, s3. store_simpl.
      rewrite get_upd_ne by lia. rewrite Hc2 by lia. unfold s1. store_simpl.
      apply get_upd_ne. lia. }
    split; [exact Hs5 |].
    split; [rewrite Lp5; exact Lp4 |].
    assert (Hp4 : forall k, k <> pn2 -> get (s4 Postorder) k = get (s2 Postorder) k).
    { intros k Hk. unfold s4, s3. store_simpl. apply get_upd_ne. lia. }
    split.
    { intros k Hk. rewrite Hold5 by lia. rewrite Hp4 by lia. rewrite Hold2 by lia.
      unfold s1. store_simpl. reflexivity. }
    intros k x Hk.
    destruct (Nat.lt_ge_cases k (length l1)) as [Hlt | Hge].
    + rewrite lookup_app_l in Hk by exact Hlt.
      rewrite Hold5 by lia. rewrite Hp4 by lia. apply Hnew2. exact Hk.
    + rewrite lookup_app_r in Hk by exact Hge.
      destruct (k - length l1)%nat as [| q] eqn:Eq.
      * cbn in Hk. injection Hk as <-.
        rewrite Hold5 by lia. replace (postnum + Z.of_nat k) with pn2 by lia.
        unfold s4, s3. store_simpl. apply get_upd_eq.
        rewrite Lp2. unfold s1. store_simpl. lia.
      * cbn in Hk. replace (postnum + Z.of_nat k) with (pn2 + 1 + Z.of_nat q) by lia.
        apply Hnew5. exact Hk.
Qed.

Lemma dfp_while_done (fuel : nat) (first_child next_child : list Z) (root : Z)
    (st : store * Z * Z) :
  snd st < 0 -> dfp_while fuel first_child next_child root st = Ok st.
Proof.
  intros Hd. destruct fuel as [| fuel]; [reflexivity |]. cbn [dfp_while].
  destruct (Z.geb_spec (snd st) 0) as [? | _]; [lia | reflexivity].
Qed.

Lemma df_postorder_walks (first_child next_child : list Z) (root : Z)
    (postorder desc_count l : list Z) :
  0 <= root ->
  walk first_child next_child root (get first_child root) l ->
  Z.of_nat (length l) <= root ->
  (length l <= length postorder)%nat ->
  exists postorder' desc_count',
    df_postorder first_child next_child root postorder desc_count
    = Ok (postorder', desc_count')
    /\ length postorder' = length postorder
    /\ forall (k : nat) x, l !! k = Some x -> get postorder' (Z.of_nat k) = x.
Proof.
  intros Hroot Hwalk Hl Hcap. unfold df_postorder.
  assert (Lm : Z.of_nat (length (malloc (root + 1))) = root + 1)
    by (unfold malloc; rewrite length_replicate; lia).
  match goal with
  | |- context [dfp_while _ _ _ _ (?s, 0, 0)] => set (s0 := s)
  end.
  assert (Hs0 : stack_ok root s0).
  { unfold stack_ok, s0. store_simpl. rewrite !length_upd. split; exact Lm. }
  assert (Hv0 : get (s0 Stack_vertex) 0 = root).
  { unfold s0. store_simpl. apply get_upd_eq. lia. }
  assert (Hc0 : get (s0 Stack_child) 0 = get first_child root).
  { unfold s0. store_simpl. rewrite get_upd_eq by lia.
    rewrite get_upd_eq by lia. reflexivity. }
  assert (Lp0 : s0 Postorder = postorder) by (unfold s0; store_simpl; reflexivity).
  destruct (dfp_walk first_child next_child root root (get first_child root) l Hwalk
              (S (S (2 * (Z.to_nat root - length l)))) s0 0 0)
    as (s1 & Hrun & Htop & Hv & _ & _ & Lp & _ & Hnew);
    [lia | lia | exact Hc0 | exact Hs0 | lia | rewrite Lp0; lia |].
  replace (2 * (Z.to_nat root + 1))%nat
    with (2 * length l + S (S (2 * (Z.to_nat root - length l))))%nat by lia.
  rewrite Hrun.
  assert (Hpop : dfp_step first_child next_child root (s1, 0 + Z.of_nat (length l), 0)
                 = Ok (s1, 0 + Z.of_nat (length l), -1)).
  { unfold dfp_step. rewrite Htop, Z.eqb_refl. cbn [negb].
    rewrite Hv, Hv0, Z.eqb_refl by lia. cbn [negb bind]. reflexivity. }
  rewrite (dfp_while_step _ first_child next_child root (s1, 0 + Z.of_nat (length l), 0) _
             ltac:(cbn [snd]; lia) Hpop).
  rewrite dfp_while_done by (cbn [snd]; lia). cbn [bind].
  eexists. eexists. split; [reflexivity |].
  split; [rewrite Lp, Lp0; reflexivity |].
  intros k x Hk. rewrite <- (Hnew k x Hk). f_equal.
Qed.

(** How many times [x] occurs in [l]. *)
Definition occ (l : list Z) (x : Z) : nat := count_occ Z.eq_dec l x.

Lemma occ_app (l1 l2 : list Z) (x : Z) : occ (l1 ++ l2) x = (occ l1 x + occ l2 x)%nat.
Proof. apply count_occ_app. Qed.

Lemma occ_cons (a : Z) (l : list Z) (x : Z) :
  occ (a :: l) x = ((if Z.eq_dec a x then 1 else 0) + occ l x)%nat.
Proof. unfold occ. cbn [count_occ]. destruct (Z.eq_dec a x); reflexivity. Qed.

Lemma occ_zero (l : list Z) (x : Z) : x ∉ l -> occ l x = 0%nat.
Proof.
  intros Hx. apply count_occ_not_In. intros Hin. apply Hx, list_elem_of_In. exact Hin.
Qed.

(** Linking the vertex [j], which has no child yet and is below every
    vertex of the forest, as the first child of [p]: the walk through
    a list of siblings meets [j] once for each time it meets [p]. *)
Lemma walk_insert (fc nc : list Z) (j p : Z) :
  0 <= j < p -> p < Z.of_nat (length fc) -> j < Z.of_nat (length nc) ->
  get fc j = MULTILU_SYMBOLIC_NONE ->
  forall (bound c : Z) (l : list Z),
    walk fc nc bound c l ->
    (forall x, x ∈ l -> j < x) ->
    exists l',
      walk (upd fc p j) (upd nc j (get fc p)) bound c l'
      /\ forall x, occ l' x = (occ l x + if Z.eq_dec x j then occ l p else 0)%nat.
Proof.
  intros Hj Lf Ln Hleaf.
  induction 1 as [bound | bound c l1 l2 Hc Hw1 IH1 Hw2 IH2]; intros Habove.
  - exists []. split; [constructor |]. intros x. cbn. destruct (Z.eq_dec x j); reflexivity.
  - assert (Hcj : j < c) by (apply Habove, elem_of_app; right; left).
    destruct IH1 as (l1' & W1 & O1);
      [intros x Hx; apply Habove, elem_of_app; left; exact Hx |].
    destruct IH2 as (l2' & W2 & O2);
      [intros x Hx; apply Habove, elem_of_app; right; right; exact Hx |].
    assert (Enc : get (upd nc j (get fc p)) c = get nc c) by (apply get_upd_ne; lia).
    destruct (Z.eq_dec c p) as [-> | Hne].
    + (* [j] becomes the first child of [c] *)
      exists (([] ++ j :: l1') ++ p :: l2'). split.
      * apply walk_cons; [exact Hc | | rewrite Enc; exact W2].
        rewrite get_upd_eq by lia.
        apply walk_cons; [lia | |].
        -- rewrite get_upd_ne by lia. rewrite Hleaf. constructor.
        -- rewrite get_upd_eq by lia. exact W1.
      * intros x. cbn [app]. rewrite !occ_app, !occ_cons, !occ_app, !occ_cons, O1, O2.
        assert (H1 : occ l1 p = 0%nat).
        { apply occ_zero. intros Hin.
          pose proof (walk_below _ _ _ _ _ Hw1 p Hin). lia. }
        destruct (Z.eq_dec x j), (Z.eq_dec j x), (Z.eq_dec p x), (Z.eq_dec p p); lia.
    + exists (l1' ++ c :: l2'). split.
      * apply walk_cons; [exact Hc | | rewrite Enc; exact W2].
        rewrite get_upd_ne by lia. exact W1.
      * intros x. rewrite !occ_app, !occ_cons, O1, O2.
        destruct (Z.eq_dec x j), (Z.eq_dec c x), (Z.eq_dec c p); lia.
Qed.

(** The lists of children that [taucs_ccs_factor_lu_symbolic] builds
    from the parents of the column etree: the walk from the root [n]
    meets every column once. *)
Lemma link_children_walk (parent_ : list Z) (n : Z) (fc nc : list Z) :
  0 <= n -> n < Z.of_nat (length fc) -> n <= Z.of_nat (length nc) ->
  parents_behind n n parent_ ->
  (forall v, 0 <= v <= n -> get fc v = MULTILU_SYMBOLIC_NONE) ->
  let r := for_down (n - 1) 0 (fun i '(fc, nc) =>
             let p := get parent_ i in
             (upd fc p i, upd nc i (get fc p))) (fc, nc) in
  exists l,
    walk (fst r) (snd r) n (get (fst r) n) l
    /\ forall x, occ l x = if (0 <=? x) && (x <? n) then 1%nat else 0%nat.
Proof.
  intros Hn Lf Ln Hpar Hnone. cbv zeta. unfold for_down.
  pose proof (iter_down_inv
                (fun i (st : list Z * list Z) =>
                   length (fst st) = length fc /\ length (snd st) = length nc
                   /\ (forall v, 0 <= v <= i -> get (fst st) v = MULTILU_SYMBOLIC_NONE)
                   /\ exists l,
                        walk (fst st) (snd st) n (get (fst st) n) l
                        /\ forall x, occ l x = if (i <? x) && (x <? n) then 1%nat else 0%nat)
                (fun i '(fc, nc) =>
                   let p := get parent_ i in (upd fc p i, upd nc i (get fc p)))
                (Z.to_nat (n - 1 - 0 + 1)) (n - 1) (fc, nc)) as Hinv.
  cbn [fst snd] in Hinv. destruct Hinv as (_ & _ & _ & l & Hw & Ho).
  - split; [reflexivity |]. split; [reflexivity |].
    split; [intros v Hv; apply Hnone; lia |].
    exists []. split; [rewrite Hnone by lia; constructor |].
    intros x. cbn. destruct (Z.ltb_spec (n - 1) x), (Z.ltb_spec x n); cbn; try reflexivity.
    lia.
  - intros j [fc1 nc1] Hj (L1 & L2 & Hleaf & l & Hw & Ho). cbn [fst snd] in *.
    assert (Hp : j < get parent_ j <= n) by (apply Hpar; lia).
    set (p := get parent_ j) in *.
    rewrite !length_upd. split; [exact L1 |]. split; [exact L2 |].
    split; [intros v Hv; rewrite get_upd_ne by lia; apply Hleaf; lia |].
    assert (Hin : forall x, x ∈ l -> j < x < n).
    { intros x Hx. apply list_elem_of_In, (count_occ_In Z.eq_dec) in Hx.
      fold (occ l x) in Hx. rewrite Ho in Hx.
      destruct (Z.ltb_spec j x), (Z.ltb_spec x n); cbn in Hx; lia. }
    destruct (walk_insert fc1 nc1 j p ltac:(lia) ltac:(lia) ltac:(lia)
                (Hleaf j ltac:(lia)) n (get fc1 n) l Hw
                (fun x Hx => proj1 (Hin x Hx))) as (l' & Hw' & Ho').
    destruct (Z.eq_dec p n) as [E | Hne].
    + (* [j] becomes the first child of the root *)
      exists ([] ++ j :: l'). split.
      * rewrite E, get_upd_eq by lia.
        apply walk_cons; [lia | |].
        -- rewrite get_upd_ne by lia. rewrite (Hleaf j) by lia. constructor.
        -- rewrite get_upd_eq by lia. rewrite E in Hw'. exact Hw'.
      * intros x. cbn [app]. rewrite occ_cons, Ho', !Ho.
        destruct (Z.eq_dec j x), (Z.eq_dec x j),
          (Z.ltb_spec j x), (Z.ltb_spec x n), (Z.ltb_spec (j - 1) x),
          (Z.ltb_spec j p), (Z.ltb_spec p n); cbn; lia.
    + exists l'. split.
      * rewrite get_upd_ne by lia. exact Hw'.
      * intros x. rewrite Ho', !Ho.
        destruct (Z.eq_dec x j),
          (Z.ltb_spec j x), (Z.ltb_spec x n), (Z.ltb_spec (j - 1) x),
          (Z.ltb_spec j p), (Z.ltb_spec p n); cbn; lia.
  - exists l. replace (n - 1 - Z.of_nat (Z.to_nat (n - 1 - 0 + 1))) with (-1) in * by lia.
    split; [exact Hw |]. intros x. rewrite Ho.
    destruct (Z.ltb_spec (-1) x), (Z.leb_spec 0 x); cbn; try reflexivity; lia.
Qed.

Lemma occ_range_perm (l : list Z) (n : Z) :
  (forall x, occ l x = if (0 <=? x) && (x <? n) then 1%nat else 0%nat) ->
  l ≡ₚ seqZ 0 n.
Proof.
  intros Ho. apply NoDup_Permutation.
  - apply NoDup_ListNoDup, (proj2 (NoDup_count_occ Z.eq_dec l)). intros x. fold (occ l x). rewrite Ho.
    destruct (_ && _); lia.
  - apply NoDup_seqZ.
  - intros x. rewrite elem_of_seqZ, list_elem_of_In, (count_occ_In Z.eq_dec).
    fold (occ l x). rewrite Ho.
    destruct (Z.leb_spec 0 x), (Z.ltb_spec x n); cbn; lia.
Qed.

Lemma order_columns_get (column_order postorder desc_count_org : list Z) (n : Z)
    (cols desc : list Z) :
  n <= Z.of_nat (length cols) ->
  forall i, 0 <= i < n ->
    get (fst (for_ 0 n (fun i '(c, d) =>
                (upd c i (get column_order (get postorder i)),
                 upd d i (get desc_count_org (get postorder i)))) (cols, desc))) i
    = get column_order (get postorder i).
Proof.
  intros Hlen i Hi.
  assert (H : length (fst (for_ 0 n (fun i '(c, d) =>
                (upd c i (get column_order (get postorder i)),
                 upd d i (get desc_count_org (get postorder i)))) (cols, desc)))
              = length cols
              /\ forall k, 0 <= k < n ->
                   get (fst (for_ 0 n (fun i '(c, d) =>
                     (upd c i (get column_order (get postorder i)),
                      upd d i (get desc_count_org (get postorder i)))) (cols, desc))) k
                   = get column_order (get postorder k));
    [| apply H; exact Hi].
  apply (for_inv (fun q (st : list Z * list Z) =>
                    length (fst st) = length cols
                    /\ forall k, 0 <= k < q ->
                         get (fst st) k = get column_order (get postorder k))); [lia | |].
  - split; [reflexivity | intros; lia].
  - intros q [c d] Hq [Lc Hc]. cbn [fst] in *. rewrite length_upd.
    split; [exact Lc |]. intros k Hk. destruct (Z.eq_dec k q) as [-> | Hne].
    + apply get_upd_eq. lia.
    + rewrite get_upd_ne by lia. apply Hc. lia.
Qed.

(** The steps of [taucs_ccs_factor_lu_symbolic] up to the order of the
    columns: the postorder is a walk of the column etree that meets
    every column once, and the columns of the result are the given
    ones in that order. *)
Lemma symbolic_columns_walk (A : taucs_ccs_matrix) (column_order : list Z)
    (symbolic : taucs_multilu_symbolic) :
  0 <= ccs_n A ->
  taucs_ccs_factor_lu_symbolic A column_order = Ok symbolic ->
  exists postorder,
    postorder ≡ₚ seqZ 0 (ccs_n A)
    /\ forall (k : nat) x, postorder !! k = Some x ->
         get (columns symbolic) (Z.of_nat k) = get column_order x.
Proof.
  intros Hn Hrun. unfold taucs_ccs_factor_lu_symbolic in Hrun.
  set (n := ccs_n A) in *.
  assert (Lm : forall k, 0 <= k -> Z.of_nat (length (malloc k)) = k)
    by (intros k Hk; unfold malloc; rewrite length_replicate; lia).
  destruct (elimination_analysis A column_order _ _ _) as [[[parent_ l_size] u_size] | w |]
    eqn:Hea; cbn [bind] in Hrun; try discriminate.
  apply elimination_analysis_parents in Hea;
    [| cbn [parent etree allocate_symbolic]; rewrite Lm; fold n; lia].
  destruct Hea as [Lpar Hpar]. fold n in Hpar.
  destruct (clear_loop (malloc (n + 1)) (n + 1)) as [Lc Hc]; [rewrite Lm; lia |].
  match type of Hrun with
  | context [for_down (n - 1) 0 ?body (?fc0, ?nc0)] =>
      pose proof (link_children_walk parent_ n fc0 nc0 Hn) as Hlink;
      destruct (for_down (n - 1) 0 body (fc0, nc0)) as [fchild nchild]
  end.
  cbn [first_child next_child etree allocate_symbolic fst snd] in Hlink.
  destruct Hlink as (l & Hwalk & Ho);
    [rewrite Lc, Lm; lia | rewrite Lm; lia | exact Hpar | intros v Hv; apply Hc; lia |].
  pose proof (occ_range_perm l n Ho) as Hperm.
  assert (Ll : Z.of_nat (length l) = n).
  { rewrite Hperm, length_seqZ. lia. }
  match type of Hrun with
  | context [df_postorder fchild nchild n ?po ?dc] =>
      destruct (df_postorder_walks fchild nchild n po dc l Hn Hwalk)
        as (postorder & desc_count_org & Hdfp & Lpo & Hpo);
        [lia | apply Nat2Z.inj_le; rewrite Lm; lia |]
  end.
  rewrite Hdfp in Hrun. cbn [bind] in Hrun.
  match type of Hrun with
  | context [for_ 0 n ?body (columns ?sy, ?d)] =>
      pose proof (order_columns_get column_order postorder desc_count_org n
                    (columns sy) d) as Hcols;
      destruct (for_ 0 n body (columns sy, d)) as [cols desc_count]
  end.
  cbn [columns allocate_symbolic fst] in Hcols.
  specialize (Hcols ltac:(rewrite Lm; lia)).
  destruct (detect_supercol _ _ _ _ _ _ _ _ _) as [[sc_num sc_size] sc_parent].
  destruct (for_ 0 sc_num _ _) as [[firstcol_ind sl] su].
  apply complete_symbolic_columns in Hrun. cbn [columns] in Hrun.
  exists l. split; [exact Hperm |].
  intros k x Hk. rewrite Hrun.
  assert (Hkn : (k < length l)%nat) by (apply lookup_lt_Some in Hk; exact Hk).
  rewrite Hcols by lia. rewrite (Hpo k x Hk). reflexivity.
Qed.

(** [df_postorder] on a forest returns its postorder: when the walk
    from the root through the lists of children meets the vertices
    [l], no more than [root] of them, and [postorder] has room for
    them, the call returns, its assertion holds at every vertex, the
    stacks of [root + 1] cells are not overrun, and the first cells of
    [postorder] hold [l]: the subtree of a vertex comes before the
    vertex, and a vertex before the siblings that follow it. *)
Theorem df_postorder_is_walk (first_child next_child : list Z) (root : Z)
    (postorder desc_count l : list Z) :
  0 <= root ->
  walk first_child next_child root (get first_child root) l ->
  Z.of_nat (length l) <= root ->
  (length l <= length postorder)%nat ->
  exists postorder' desc_count',
    df_postorder first_child next_child root postorder desc_count
    = Ok (postorder', desc_count')
    /\ length postorder' = length postorder
    /\ forall (k : nat) x, l !! k = Some x -> get postorder' (Z.of_nat k) = x.
Proof. apply df_postorder_walks. Qed.

(** The columns of the result of [taucs_ccs_factor_lu_symbolic] are
    the columns of the given order, permuted: [columns[k]] is
    [column_order[postorder[k]]] for a permutation [postorder] of the
    columns 0, ..., [n - 1] (the postorder of the column etree). *)
Theorem symbolic_columns_permutation (A : taucs_ccs_matrix) (column_order : list Z)
    (symbolic : taucs_multilu_symbolic) :
  0 <= ccs_n A ->
  taucs_ccs_factor_lu_symbolic A column_order = Ok symbolic ->
  exists postorder,
    postorder ≡ₚ seqZ 0 (ccs_n A)
    /\ forall (k : nat) x, postorder !! k = Some x ->
         get (columns symbolic) (Z.of_nat k) = get column_order x.
Proof. apply symbolic_columns_walk. Qed.

(** ** The supercolumns hold every column *)

Lemma columns_before_frame (a b : list Z) (k : Z) :
  (forall j, 0 <= j < k -> get a j = get b j) ->
  columns_before a k = columns_before b k.
Proof.
  destruct (Z.le_gt_cases 0 k) as [Hk | Hk].
  - revert k Hk. apply (natlike_ind (fun k => (forall j, 0 <= j < k -> get a j = get b j) ->
                                               columns_before a k = columns_before b k)).
    + intros _. unfold columns_before. rewrite !for_empty by lia. reflexivity.
    + intros k Hk IH H. change (Z.succ k) with (k + 1) in *.
      rewrite !columns_before_succ by lia. rewrite IH by (intros j Hj; apply H; lia).
      rewrite H by lia. reflexivity.
  - intros _. unfold columns_before. rewrite !for_empty by lia. reflexivity.
Qed.

Lemma columns_before_upd (a : list Z) (f v k : Z) :
  k <= f -> columns_before (upd a f v) k = columns_before a k.
Proof.
  intros Hk. apply columns_before_frame. intros j Hj. apply get_upd_ne. lia.
Qed.

(** Before the column [col] is scanned, the fundamental supercolumns
    made so far hold the columns before it. *)
Definition sums_inv (len : nat) (col : Z) (st : store * dsc_scalars) : Prop :=
  sizes_inv len col st
  /\ (0 < col -> 0 <= fsc_num (snd st))
  /\ columns_before (fst st Sc_size) (fsc_num (snd st) + 1) = col.

Lemma dsc_close_sums (len : nat) (col f a : Z) (s s1 : store) (v v' : dsc_scalars) :
  0 <= col < Z.of_nat len ->
  sums_inv len col (s, v) ->
  s1 Sc_size = s Sc_size ->
  fsc_num v' = f ->
  (f = fsc_num v + 1 /\ a = 1) \/ (0 <= f /\ f = fsc_num v /\ a = get (s Sc_size) f + 1) ->
  sums_inv len (col + 1)
    (put_at Map_col_supercol col f (put_at Lastcol f col (put_at Sc_size f a s1)), v').
Proof.
  intros Hcol (Hsz & Hpos & Hsum) E Hv Hcase. cbn [fst snd] in *.
  split.
  { apply (dsc_close_sizes len col f a s s1 v v'); try assumption.
    destruct Hcase as [H | (_ & H1 & H2)]; [left; exact H | right; split; assumption]. }
  destruct Hsz as (Hlen & Hf & _).
  cbn [fst snd]. store_simpl. rewrite Hv, E. split.
  { intros _. destruct Hcase as [[-> _] | (H0 & _)]; lia. }
  rewrite columns_before_succ by (destruct Hcase as [[-> _] | (H0 & _)]; lia).
  rewrite columns_before_upd by lia.
  rewrite get_upd_eq by (destruct Hcase as [[-> _] | (H0 & H1 & _)]; lia).
  destruct Hcase as [[-> ->] | (H0 & -> & ->)]; [lia |].
  rewrite columns_before_succ in Hsum by lia. lia.
Qed.

Lemma dsc_column_sums (A : taucs_ccs_matrix)
    (column_order one_child l_size u_size postorder : list Z) (len : nat) (col : Z)
    (st : store * dsc_scalars) :
  get one_child 0 = 0 ->
  0 <= col < Z.of_nat len ->
  sums_inv len col st ->
  sums_inv len (col + 1)
    (dsc_column A column_order one_child l_size u_size postorder col st).
Proof.
  intros Hleaf Hcol Hinv. destruct st as [s v]. unfold dsc_column.
  match goal with
  | |- context [for_ 0 ?nnz ?body (put_at Root col col s, col)] =>
      assert (E : fst (for_ 0 nnz body (put_at Root col col s, col)) Sc_size = s Sc_size);
      [| destruct (for_ 0 nnz body (put_at Root col col s, col)) as [s1 cset1]]
  end.
  { apply (for_preserves (fun t : store * Z => fst t Sc_size = s Sc_size)).
    - cbn [fst]. store_simpl. reflexivity.
    - intros j t _ Ht. rewrite dsc_nonzero_Sc_size. exact Ht. }
  cbn [fst] in E.
  destruct (Z.eqb_spec (get one_child col) 0) as [Hone | Hone]; cbn [orb negb].
  { apply (dsc_close_sums len col _ _ s s1 v); auto. }
  assert (Hpos : 0 < col).
  { destruct (Z.eq_dec col 0) as [-> | Hne]; [contradiction | lia]. }
  assert (Hf0 : 0 <= fsc_num v) by (destruct Hinv as (_ & H & _); apply H; exact Hpos).
  destruct (get (s Sc_size) (fsc_num v) =? MULTILU_MAX_SUPERCOL_SIZE); cbn [orb negb].
  { apply (dsc_close_sums len col _ _ s s1 v); auto. }
  destruct (_ || _); cbn [fsc_num].
  - apply (dsc_close_sums len col _ _ s s1 v); auto.
  - apply (dsc_close_sums len col _ _ s s1 v); auto.
    right. split; [exact Hf0 |]. split; [reflexivity |]. rewrite E. reflexivity.
Qed.

(** The fundamental supercolumns hold the [n] columns. *)
Lemma detect_fundamental_sums (A : taucs_ccs_matrix)
    (column_order one_child l_size u_size postorder sc_size sc_parent : list Z) :
  get one_child 0 = 0 ->
  0 <= ccs_n A <= Z.of_nat (length sc_size) ->
  let s := fst (detect_fundamental A column_order one_child l_size u_size postorder
                  sc_size sc_parent) in
  let fsc := snd (detect_fundamental A column_order one_child l_size u_size postorder
                    sc_size sc_parent) in
  columns_before (s Sc_size) fsc = ccs_n A.
Proof.
  intros Hleaf Hn. unfold detect_fundamental.
  set (n := ccs_n A) in *.
  match goal with
  | |- context [for_ 0 n (dsc_column _ _ _ _ _ _) (?s3, ?v0)] =>
      assert (Hstart : sums_inv (length sc_size) 0 (s3, v0))
  end.
  { split; [| split; [intros; lia |]].
    - unfold sizes_inv. cbn [fsc_num]. split; [| split; [lia | intros; lia]].
      assert (H : forall k (t : store),
                length (for_ 0 k (fun i s => put_at Sc_parent i MULTILU_SYMBOLIC_NONE s) t
                          Sc_size) = length (t Sc_size)).
      { intros k t. apply (for_preserves (fun u : store => length (u Sc_size)
                                                          = length (t Sc_size)));
          [reflexivity |].
        intros j u _ Hu. store_simpl. exact Hu. }
      rewrite H.
      assert (H' : forall k (t : store),
                length (for_ 0 k (fun i s => put_at Sc_size i 0 s) t Sc_size)
                = length (t Sc_size)).
      { intros k t. apply (for_preserves (fun u : store => length (u Sc_size)
                                                          = length (t Sc_size)));
          [reflexivity |].
        intros j u _ Hu. store_simpl. rewrite length_upd. exact Hu. }
      rewrite H'.
      assert (H'' : forall k v (t : store),
                for_ 0 k (fun i s => put_at Firstcol i v s) t Sc_size = t Sc_size).
      { intros k v t. apply (for_preserves (fun u : store => u Sc_size = t Sc_size));
          [reflexivity |].
        intros j u _ Hu. store_simpl. exact Hu. }
      rewrite H''. store_simpl. reflexivity.
    - cbn [fst snd fsc_num]. unfold columns_before. rewrite for_empty by lia. reflexivity. }
  match goal with
  | |- context [for_ 0 n ?body ?st0] =>
      pose proof (for_inv (sums_inv (length sc_size)) 0 n body st0 ltac:(lia) Hstart
                    (fun j t Hj Ht =>
                       dsc_column_sums A column_order one_child l_size u_size postorder
                         (length sc_size) j t Hleaf ltac:(lia) Ht)) as Hend;
      destruct (for_ 0 n body st0) as [s4 v4]
  end.
  destruct Hend as (_ & _ & Hsum). cbn [fst snd] in *.
  match goal with
  | |- context [for_ 0 ?k ?body s4] =>
      assert (E : for_ 0 k body s4 Sc_size = s4 Sc_size)
  end.
  { apply (for_preserves (fun u : store => u Sc_size = s4 Sc_size)); [reflexivity |].
    intros j u _ Hu.
    destruct (negb _); destruct (_ =? j); store_simpl; exact Hu. }
  rewrite E. exact Hsum.
Qed.

(** The relaxation loop before the fundamental supercolumn [i]: the
    supercolumns closed and the one under way hold the columns of the
    fundamental supercolumns before [i]. *)
Definition relax_sums_inv (s : store) (i : Z) (st : store * Z * Z) : Prop :=
  let '(t, sc_num, cscs) := st in
  0 <= sc_num <= i
  /\ length (t Sc_size) = length (s Sc_size)
  /\ (forall k, i <= k -> get (t Sc_size) k = get (s Sc_size) k)
  /\ columns_before (t Sc_size) sc_num + cscs = columns_before (s Sc_size) i.

Lemma relax_step_sums (desc_count : list Z) (s : store) (fsc i : Z) (st : store * Z * Z) :
  fsc <= Z.of_nat (length (s Sc_size)) ->
  0 <= i < fsc ->
  relax_sums_inv s i st ->
  relax_sums_inv s (i + 1) (relax_step desc_count i st).
Proof.
  intros Hlen Hi Hinv. destruct st as [[t sc_num] cscs].
  destruct Hinv as (Hsc & Hl & Htodo & Hsum).
  unfold relax_step. pose proof (Htodo i ltac:(lia)) as Ei.
  pose proof (columns_before_succ (s Sc_size) i ltac:(lia)) as Hsucc.
  destruct (relax_closes _ _ i).
  - unfold relax_sums_inv. store_simpl. rewrite length_upd.
    split; [lia |]. split; [exact Hl |]. split.
    { intros k Hk. rewrite get_upd_ne by lia. apply Htodo. lia. }
    rewrite (columns_before_succ _ sc_num) by lia. rewrite columns_before_upd by lia.
    rewrite get_upd_eq by lia. lia.
  - unfold relax_sums_inv. store_simpl.
    split; [lia |]. split; [exact Hl |]. split.
    { intros k Hk. apply Htodo. lia. }
    lia.
Qed.

(** The supercolumns that the relaxation makes hold the columns of the
    fundamental ones. *)
Lemma relax_supercol_sums (desc_count : list Z) (s : store) (fsc : Z) :
  1 <= fsc ->
  fsc <= Z.of_nat (length (s Sc_size)) ->
  snd (relax_supercol desc_count s fsc) <= fsc ->
  columns_before (fst (relax_supercol desc_count s fsc) Sc_size)
    (snd (relax_supercol desc_count s fsc))
  = columns_before (s Sc_size) fsc.
Proof.
  intros Hfsc Hlen. unfold relax_supercol.
  assert (Hloop : relax_sums_inv s fsc (for_ 0 fsc (relax_step desc_count) (s, 0, 0))).
  { apply (for_inv (relax_sums_inv s)); [lia | |].
    - unfold relax_sums_inv. split; [lia |]. split; [reflexivity |].
      split; [reflexivity |]. unfold columns_before. rewrite !for_empty by lia. lia.
    - intros j t Hj Ht. apply (relax_step_sums desc_count s fsc); assumption. }
  destruct (for_ 0 fsc (relax_step desc_count) (s, 0, 0)) as [[t sc_num] cscs].
  destruct Hloop as (Hsc & Hl & _ & Hsum).
  cbn [fst snd]. intros Hnum.
  match goal with
  | |- context [for_ 0 ?k ?body ?u] =>
      assert (E : for_ 0 k body u Sc_size = u Sc_size)
  end.
  { apply (for_preserves (fun w : store => w Sc_size = _)); [reflexivity |].
    intros j w _ Hw. destruct (negb _); store_simpl; exact Hw. }
  rewrite E. store_simpl.
  rewrite columns_before_succ by lia. rewrite columns_before_upd by lia.
  rewrite get_upd_eq by lia. lia.
Qed.

(** Once [elimination_analysis] has returned, the rest of
    [taucs_ccs_factor_lu_symbolic] returns: the stacks of
    [df_postorder] hold the walk, its assertion holds, and so does the
    assertion of [complete_symbolic]. *)
Lemma symbolic_returns (A : taucs_ccs_matrix) (column_order parent_ l_size u_size : list Z) :
  1 <= ccs_n A -> 0 <= ccs_m A ->
  (forall c, 0 <= c < ccs_n A ->
     forall i, 0 <= i < get (ccs_colptr A) (get column_order c + 1)
                        - get (ccs_colptr A) (get column_order c) ->
       0 <= get (ccs_rowind A) (get (ccs_colptr A) (get column_order c) + i) < ccs_m A) ->
  elimination_analysis A column_order (malloc (ccs_n A + 1)) (malloc (ccs_n A + 1))
    (malloc (ccs_n A + 1)) = Ok (parent_, l_size, u_size) ->
  exists symbolic, taucs_ccs_factor_lu_symbolic A column_order = Ok symbolic.
Proof.
  intros Hn Hm Hrows Hea. unfold taucs_ccs_factor_lu_symbolic.
  set (n := ccs_n A) in *.
  assert (Lm : forall k, 0 <= k -> Z.of_nat (length (malloc k)) = k)
    by (intros k Hk; unfold malloc; rewrite length_replicate; lia).
  cbn [parent etree allocate_symbolic]. rewrite Hea. cbn [bind].
  apply elimination_analysis_parents in Hea; [| rewrite Lm; fold n; lia].
  destruct Hea as [Lpar Hpar]. fold n in Hpar.
  destruct (clear_loop (malloc (n + 1)) (n + 1)) as [Lc Hc]; [rewrite Lm; lia |].
  match goal with
  | |- context [for_down (n - 1) 0 ?body (?fc0, ?nc0)] =>
      pose proof (link_children_walk parent_ n fc0 nc0 ltac:(lia)) as Hlink;
      pose proof (link_children_before parent_ n fc0 nc0 Hn) as Hbefore;
      destruct (for_down (n - 1) 0 body (fc0, nc0)) as [fchild nchild]
  end.
  cbn [first_child next_child etree allocate_symbolic fst snd] in Hlink, Hbefore.
  destruct Hlink as (l & Hwalk & Ho);
    [rewrite Lc, Lm; lia | rewrite Lm; lia | exact Hpar | intros v Hv; apply Hc; lia |].
  assert (Hchildren : children_before n fchild).
  { apply Hbefore; [rewrite Lc, Lm; lia | exact Hpar |]. intros v Hv. apply Hc. lia. }
  pose proof (occ_range_perm l n Ho) as Hperm.
  assert (Ll : Z.of_nat (length l) = n) by (rewrite Hperm, length_seqZ; lia).
  match goal with
  | |- context [df_postorder fchild nchild n ?po ?dc] =>
      destruct (df_postorder_walks fchild nchild n po dc l ltac:(lia) Hwalk)
        as (postorder & desc_count_org & Hdfp & Lpo & Hpo);
        [lia | apply Nat2Z.inj_le; rewrite Lm; lia |]
  end.
  rewrite Hdfp. cbn [bind].
  apply (df_postorder_first_leaf fchild nchild n (length (malloc n))) in Hdfp;
    [| exact Hn | | exact Hchildren | reflexivity].
  2: { apply Nat2Z.inj_le. rewrite Lm; lia. }
  pose proof (one_child_first fchild nchild postorder n Hn Hdfp) as Hleaf.
  assert (Hpost : forall i, 0 <= i < n -> 0 <= get postorder i < n).
  { intros i Hi.
    destruct (lookup_lt_is_Some_2 l (Z.to_nat i)) as [x Hx]; [lia |].
    pose proof (Hpo _ _ Hx) as E. rewrite Z2Nat.id in E by lia. rewrite E.
    apply list_elem_of_lookup_2 in Hx. rewrite Hperm, elem_of_seqZ in Hx. lia. }
  match goal with
  | |- context [for_ 0 n ?body (columns ?sy, ?d)] =>
      pose proof (order_columns_get column_order postorder desc_count_org n
                    (columns sy) d) as Hcols;
      destruct (for_ 0 n body (columns sy, d)) as [cols desc_count]
  end.
  cbn [columns allocate_symbolic fst] in Hcols.
  specialize (Hcols ltac:(rewrite Lm; lia)).
  assert (Hrows' : forall col, 0 <= col < n ->
            forall i, 0 <= i < get (ccs_colptr A) (get cols col + 1)
                               - get (ccs_colptr A) (get cols col) ->
              0 <= get (ccs_rowind A) (get (ccs_colptr A) (get cols col) + i) < ccs_m A).
  { intros col Hcol. rewrite Hcols by exact Hcol. apply Hrows. apply Hpost. exact Hcol. }
  unfold detect_supercol.
  match goal with
  | |- context [detect_fundamental A cols ?oc l_size u_size postorder ?sz parent_] =>
      pose proof (detect_fundamental_parents A cols oc l_size u_size postorder Hn Hm
                    Hrows' Hleaf sz parent_ ltac:(rewrite Lpar, Lm; fold n; lia)) as Hfund;
      pose proof (detect_fundamental_sizes A cols oc l_size u_size postorder sz parent_)
        as Hfsz;
      pose proof (detect_fundamental_sums A cols oc l_size u_size postorder sz parent_ Hleaf)
        as Hfsum;
      destruct (detect_fundamental A cols oc l_size u_size postorder sz parent_)
        as [s1 fsc]
  end.
  cbn [fst snd] in Hfund, Hfsz, Hfsum. fold n in Hfund, Hfsum.
  cbn [supercolumn_size allocate_symbolic] in Hfsz, Hfsum.
  destruct Hfsz as [Lsz _]; [rewrite Lm; fold n; lia |].
  rewrite <- Nat2Z.inj_iff, Lm in Lsz by (fold n; lia).
  specialize (Hfsum ltac:(rewrite Lm; fold n; lia)).
  destruct Hfund as (Hfsc & Lmap & Llast & Lsp & Hpar1).
  pose proof (relax_supercol_count desc_count s1 fsc ltac:(lia) ltac:(lia) ltac:(lia) Hpar1)
    as Hcount.
  pose proof (relax_supercol_sums desc_count s1 fsc ltac:(lia) ltac:(lia)) as Hrsum.
  destruct (relax_supercol desc_count s1 fsc) as [s2 sc_num].
  cbn [fst snd] in Hcount, Hrsum. specialize (Hrsum ltac:(lia)).
  destruct (for_ 0 sc_num _ _) as [[firstcol_ind sl] su].
  match goal with
  | |- exists symbolic, complete_symbolic ?pre = Ok symbolic =>
      destruct (cs_layout pre) as [_ Hok]
  end.
  - cbn [number_supercolumns]. lia.
  - cbn [number_supercolumns start_supercolumn allocate_symbolic]. rewrite Lm; lia.
  - cbn [number_supercolumns end_supercolumn allocate_symbolic]. rewrite Lm; lia.
  - destruct Hok as (symbolic & Hsym & _).
    + cbn [number_supercolumns supercolumn_size sym_n]. rewrite Hrsum. exact Hfsum.
    + exists symbolic. exact Hsym.
Qed.

Lemma elimination_analysis_cases (A : taucs_ccs_matrix)
    (column_order parent_ l_size u_size : list Z) :
  (exists r, elimination_analysis A column_order parent_ l_size u_size = Ok r)
  \/ exists col, 0 <= col < ccs_n A
       /\ (elimination_analysis A column_order parent_ l_size u_size
           = AssertFailed (assert_column_not_empty col)
           \/ elimination_analysis A column_order parent_ l_size u_size
              = AssertFailed (assert_row_size_positive col)).
Proof.
  unfold elimination_analysis, forM.
  destruct (iterM_from _ 0 (ea_column A column_order) (ea_init A parent_ l_size u_size))
    as [[s next_row] | w |] eqn:E; cbn [bind].
  - left. eauto.
  - right. apply iterM_from_failed in E. destruct E as (j & t & Hj & Hb).
    exists j. split; [lia |]. unfold ea_column in Hb.
    destruct (negb _).
    + injection Hb as <-. left. reflexivity.
    + destruct (ea_pivot_cases A column_order j (ea_collect A j t)) as [[st' E] | E];
        rewrite E in Hb; [discriminate |].
      injection Hb as <-. right. reflexivity.
  - exfalso. revert E. apply iterM_from_no_null. intros j t. unfold ea_column.
    destruct (negb _); [discriminate |].
    destruct (ea_pivot_cases A column_order j (ea_collect A j t)) as [[st' E] | E];
      rewrite E; discriminate.
Qed.

Lemma symbolic_cases (A : taucs_ccs_matrix) (column_order : list Z) :
  1 <= ccs_n A -> 0 <= ccs_m A ->
  (forall c, 0 <= c < ccs_n A ->
     forall i, 0 <= i < get (ccs_colptr A) (get column_order c + 1)
                        - get (ccs_colptr A) (get column_order c) ->
       0 <= get (ccs_rowind A) (get (ccs_colptr A) (get column_order c) + i) < ccs_m A) ->
  (exists symbolic, taucs_ccs_factor_lu_symbolic A column_order = Ok symbolic)
  \/ exists col, 0 <= col < ccs_n A
       /\ (taucs_ccs_factor_lu_symbolic A column_order
           = AssertFailed (assert_column_not_empty col)
           \/ taucs_ccs_factor_lu_symbolic A column_order
              = AssertFailed (assert_row_size_positive col)).
Proof.
  intros Hn Hm Hrows.
  destruct (elimination_analysis_cases A column_order (malloc (ccs_n A + 1))
              (malloc (ccs_n A + 1)) (malloc (ccs_n A + 1)))
    as [[[[parent_ l_size] u_size] Hea] | (col & Hcol & Hea)].
  - left. apply (symbolic_returns A column_order parent_ l_size u_size); assumption.
  - right. exists col. split; [exact Hcol |].
    unfold taucs_ccs_factor_lu_symbolic. cbn [parent etree allocate_symbolic].
    destruct Hea as [-> | ->]; [left | right]; reflexivity.
Qed.

(** The symbolic factorization of a matrix with a column, whose stored
    rows are rows of the matrix, returns a structure or stops at one of
    the two assertions of the elimination analysis, on a column without
    an entry or on a pivot row without one: the depth-first walk has
    room on its stacks and numbers every column, the sizes of the
    supercolumns add up to the number of columns, and nothing is read
    through a null pointer. *)
Theorem symbolic_returns_or_singular (A : taucs_ccs_matrix) (column_order : list Z) :
  1 <= ccs_n A -> 0 <= ccs_m A ->
  (forall c, 0 <= c < ccs_n A ->
     forall i, 0 <= i < get (ccs_colptr A) (get column_order c + 1)
                        - get (ccs_colptr A) (get column_order c) ->
       0 <= get (ccs_rowind A) (get (ccs_colptr A) (get column_order c) + i) < ccs_m A) ->
  (exists symbolic, taucs_ccs_factor_lu_symbolic A column_order = Ok symbolic)
  \/ exists col, 0 <= col < ccs_n A
       /\ (taucs_ccs_factor_lu_symbolic A column_order
           = AssertFailed (assert_column_not_empty col)
           \/ taucs_ccs_factor_lu_symbolic A column_order
              = AssertFailed (assert_row_size_positive col)).
Proof. apply symbolic_cases. Qed.

End Multilu.

(** * Worked inputs *)

(** ** The diagonal matrix diag(2, 3, 5, 7) *)

Definition diag4 : taucs_ccs_matrix Z :=
  {| ccs_m := 4; ccs_n := 4; ccs_flags := 0;
     ccs_colptr := [0; 1; 2; 3; 4];
     ccs_rowind := [0; 1; 2; 3];
     ccs_values := [2; 3; 5; 7] |}.

(** The outcome the specification expects for [diag4]: four
    supercolumns, each of one column. *)
Definition diag4_four_singletons (garbage : Z) : Prop :=
  exists symbolic,
    taucs_ccs_factor_lu_symbolic garbage Z diag4 [0; 1; 2; 3] = Ok symbolic
    /\ number_supercolumns symbolic = 4
    /\ forall s, 0 <= s < 4 -> get garbage (supercolumn_size symbolic) s = 1.

Lemma diag4_not_four_singletons : ~ diag4_four_singletons 0.
Proof.
  intros (symbolic & Hrun & Hnum & _).
  vm_compute in Hrun. injection Hrun as <-. discriminate Hnum.
Qed.

(** Claim C4, as the code has it.  On diag(2, 3, 5, 7) with the column
    order 0, 1, 2, 3 the symbolic factorization yields one supercolumn
    of four columns: the four columns are roots of the column etree, so
    none of them closes a relaxed supercolumn and the relaxation pass
    puts them together. *)
Theorem diag4_one_supercolumn (garbage : Z) :
  exists symbolic,
    taucs_ccs_factor_lu_symbolic garbage Z diag4 [0; 1; 2; 3] = Ok symbolic
    /\ number_supercolumns symbolic = 1
    /\ get garbage (supercolumn_size symbolic) 0 = 4
    /\ get garbage (parent (etree symbolic)) 0 = MULTILU_SYMBOLIC_NONE.
Proof.
  eexists. split; [vm_compute; reflexivity |].
  split; [reflexivity |]. split; reflexivity.
Qed.

(** ** An arrow matrix: columns 0 and 1 are children of column 2 *)

Definition arrow3 : taucs_ccs_matrix Z :=
  {| ccs_m := 3; ccs_n := 3; ccs_flags := 0;
     ccs_colptr := [0; 1; 2; 5];
     ccs_rowind := [0; 1; 0; 1; 2];
     ccs_values := [1; 1; 1; 1; 1] |}.

(** The store after the fundamental supercolumns of [arrow3] are found:
    three supercolumns, the first two children of the third. *)
Definition arrow3_fundamental : store :=
  fst (detect_fundamental 0 Z arrow3 [0; 1; 2] [0; 0; 0] [1; 1; 1] [3; 3; 1] [0; 1; 2]
         (malloc 0 4) (malloc 0 4)).

(** The rule as the specification words it: a supercolumn with a parent
    lies in the relaxed supercolumn of its parent exactly when the last
    column of the parent has at least [MULTILU_RELAX_RULE_SIZE]
    descendants. *)
Definition relax_rule_spec (garbage : Z) (desc_count : list Z) (s s' : store) (fsc : Z)
  : Prop :=
  forall i, 0 <= i < fsc ->
    get garbage (s Sc_parent) i <> MULTILU_SYMBOLIC_NONE ->
    (get garbage (s' Map_col_supercol) i
     = get garbage (s' Map_col_supercol) (get garbage (s Sc_parent) i)
     <-> get garbage desc_count (get garbage (s Lastcol) (get garbage (s Sc_parent) i))
         >= MULTILU_RELAX_RULE_SIZE).

(** With three descendants at the last column of the parent the first
    supercolumn is merged with its parent. *)
Lemma relax_rule_spec_fails :
  ~ relax_rule_spec 0 [1; 1; 3] arrow3_fundamental
      (fst (relax_supercol 0 [1; 1; 3] arrow3_fundamental 3)) 3.
Proof.
  intros H. specialize (H 0 ltac:(lia)).
  assert (Hp : get 0 (arrow3_fundamental Sc_parent) 0 <> MULTILU_SYMBOLIC_NONE)
    by (vm_compute; discriminate).
  destruct (H Hp) as [Hmerged _].
  assert (Hsame : get 0 (fst (relax_supercol 0 [1; 1; 3] arrow3_fundamental 3)
                           Map_col_supercol) 0
                  = get 0 (fst (relax_supercol 0 [1; 1; 3] arrow3_fundamental 3)
                             Map_col_supercol)
                      (get 0 (arrow3_fundamental Sc_parent) 0))
    by (vm_compute; reflexivity).
  specialize (Hmerged Hsame). vm_compute in Hmerged. apply Hmerged. reflexivity.
Qed.

Lemma relax_supercol_rule_witness :
  relax_rule 0 [1; 1; 30] arrow3_fundamental
    (fst (relax_supercol 0 [1; 1; 30] arrow3_fundamental 3)) 3.
Proof.
  apply (relax_supercol_rule 0 [1; 1; 30] arrow3_fundamental 3).
  - vm_compute. discriminate.
  - vm_compute. discriminate.
  - intros j Hj.
    assert (Hc : j = 0 \/ j = 1 \/ j = 2) by lia.
    destruct Hc as [-> | [-> | ->]]; vm_compute; auto.
Defined.

(** On [arrow3], with thirty descendants counted at the last column,
    [detect_supercol] finds three relaxed supercolumns, and the parent
    of the first is the third. *)
Lemma arrow3_parent_above :
  0 < get 0 (snd (detect_supercol 0 Z arrow3 [0; 1; 2] [0; 0; 0] [1; 1; 30]
                    [1; 1; 1] [3; 3; 1] [0; 1; 2] (malloc 0 4) (malloc 0 4))) 0 < 3.
Proof.
  apply (detect_supercol_parent_above 0 Z arrow3 [0; 1; 2] [0; 0; 0] [1; 1; 30]
           [1; 1; 1] [3; 3; 1] [0; 1; 2] (malloc 0 4) (malloc 0 4)).
  - vm_compute. discriminate.
  - vm_compute. discriminate.
  - intros col Hcol.
    assert (Hc : col = 0 \/ col = 1 \/ col = 2) by (change (0 <= col < 3) in Hcol; lia).
    destruct Hc as [-> | [-> | ->]]; intros i Hi.
    + assert (i = 0) as -> by (change (0 <= i < 1) in Hi; lia). vm_compute. split; discriminate || reflexivity.
    + assert (i = 0) as -> by (change (0 <= i < 1) in Hi; lia). vm_compute. split; discriminate || reflexivity.
    + assert (Hi' : i = 0 \/ i = 1 \/ i = 2) by (change (0 <= i < 3) in Hi; lia).
      destruct Hi' as [-> | [-> | ->]]; vm_compute; split; discriminate || reflexivity.
  - reflexivity.
  - vm_compute. discriminate.
  - vm_compute. split; [discriminate | reflexivity].
  - vm_compute. discriminate.
Qed.

(** ** A supercolumn etree of three supercolumns *)

(** The symbolic structure handed to [complete_symbolic] for three
    supercolumns of one column each, the first two children of the
    third; the arrays it fills are not written yet. *)
Definition three_supercolumns : taucs_multilu_symbolic :=
  {| sym_n := 3;
     columns := [0; 1; 2; 0];
     number_supercolumns := 3;
     start_supercolumn := malloc 0 4;
     end_supercolumn := malloc 0 4;
     supercolumn_size := [1; 1; 1; 0];
     supercolumn_covered_columns := malloc 0 4;
     sym_l_size := [1; 1; 1; 0];
     sym_u_size := [3; 3; 1; 0];
     etree := {| first_root := 0;
                 parent := [2; 2; -1; 0];
                 first_child := malloc 0 4;
                 next_child := malloc 0 4;
                 first_desc_index := malloc 0 4;
                 last_desc_index := malloc 0 4 |} |}.

Definition three_supercolumns_completed : taucs_multilu_symbolic :=
  match complete_symbolic 0 three_supercolumns with
  | Ok symbolic => symbolic
  | _ => three_supercolumns
  end.


(** ** Empty columns *)

(** A 2 x 2 matrix whose second column is empty. *)
Definition empty_column2 : taucs_ccs_matrix Z :=
  {| ccs_m := 2; ccs_n := 2; ccs_flags := 0;
     ccs_colptr := [0; 1; 1];
     ccs_rowind := [0];
     ccs_values := [1] |}.

Lemma elimination_analysis_empty_column_witness :
  elimination_analysis 0 Z diag4 [0; 1; 2; 3] (malloc 0 5) (malloc 0 5) (malloc 0 5)
  <> AssertFailed (assert_column_not_empty 0)
  /\ exists w,
       elimination_analysis 0 Z empty_column2 [0; 1] (malloc 0 3) (malloc 0 3) (malloc 0 3)
       = AssertFailed w.
Proof.
  split.
  - apply (proj1 (elimination_analysis_empty_column 0 Z diag4 [0; 1; 2; 3]
                    (malloc 0 5) (malloc 0 5) (malloc 0 5))).
    + intros j Hj. change (0 <= j < 4) in Hj.
      assert (Hc : j = 0 \/ j = 1 \/ j = 2 \/ j = 3) by lia.
      destruct Hc as [-> | [-> | [-> | ->]]]; reflexivity.
    + intros col Hcol. change (0 <= col < 4) in Hcol.
      assert (Hc : col = 0 \/ col = 1 \/ col = 2 \/ col = 3) by lia.
      destruct Hc as [-> | [-> | [-> | ->]]]; vm_compute; split; discriminate || reflexivity.
  - apply (proj2 (elimination_analysis_empty_column 0 Z empty_column2 [0; 1]
                    (malloc 0 3) (malloc 0 3) (malloc 0 3)) 1).
    + vm_compute. split; [discriminate | reflexivity].
    + vm_compute. discriminate.
Defined.

(** ** A supercolumn the numeric factorization skips *)

(** A symbolic structure of one supercolumn whose bound [l_size] is
    zero: the sequential loop skips it and its block is never
    allocated. *)
Definition skipped_supercolumn : taucs_multilu_symbolic :=
  {| sym_n := 1;
     columns := [0];
     number_supercolumns := 1;
     start_supercolumn := [0];
     end_supercolumn := [0];
     supercolumn_size := [1];
     supercolumn_covered_columns := [1];
     sym_l_size := [0];
     sym_u_size := [1];
     etree := {| first_root := 0;
                 parent := [-1];
                 first_child := [-1];
                 next_child := [-1];
                 first_desc_index := [-1];
                 last_desc_index := [-1] |} |}.

(** A structurally singular matrix of order 21: the columns 0 to 19
    hold their diagonal entry, the column 20 holds the rows 0 to 19, the
    row 20 is empty. *)
Definition singular21 : taucs_ccs_matrix Z :=
  {| ccs_m := 21; ccs_n := 21; ccs_flags := 0;
     ccs_colptr := seqZ 0 21 ++ [40];
     ccs_rowind := seqZ 0 20 ++ seqZ 0 20;
     ccs_values := replicate 40 1 |}.

(** The symbolic factorization of [singular21] ends with a supercolumn
    whose [l_size] is zero. *)
Lemma singular21_l_size (garbage : Z) :
  exists symbolic,
    taucs_ccs_factor_lu_symbolic garbage Z singular21 (seqZ 0 21) = Ok symbolic
    /\ number_supercolumns symbolic = 21
    /\ get garbage (sym_l_size symbolic) 20 = 0.
Proof.
  eexists. split; [vm_compute; reflexivity |]. split; reflexivity.
Qed.

Definition singular21_symbolic : taucs_multilu_symbolic :=
  match taucs_ccs_factor_lu_symbolic 0 Z singular21 (seqZ 0 21) with
  | Ok symbolic => symbolic
  | _ => skipped_supercolumn
  end.

(** The first of the 21 supercolumns of [singular21] has its parent
    behind it. *)
Lemma symbolic_parent_above_witness :
  0 < get 0 (parent (etree singular21_symbolic)) 0
  < number_supercolumns singular21_symbolic.
Proof.
  apply (symbolic_parent_above 0 Z singular21 (seqZ 0 21) singular21_symbolic).
  - vm_compute. discriminate.
  - vm_compute. discriminate.
  - vm_compute. reflexivity.
  - intros col _ i _. change (ccs_m Z singular21) with 21.
    apply (get_Forall 0 (fun v => 0 <= v < 21)); [lia |].
    vm_compute. repeat constructor; discriminate.
  - vm_compute. split; [discriminate | reflexivity].
  - vm_compute. discriminate.
Defined.

Section NumericFailure.

Variable garbage : Z.
Variable T : Type.
Variables tgarbage taucs_zero : T.
Variable taucs_add : T -> T -> T.
Variable taucs_double : Type.
Variable thresh_below_one : taucs_double -> bool.
Variable taucs_LU :
  bool -> list T -> Z -> Z -> Z -> taucs_double -> list Z -> list Z -> list T * list Z.
Variable taucs_UnitLowerRightTriSolve :
  bool -> Z -> Z -> list T -> Z -> list T -> Z -> list T.
Variable taucs_CaddMABT :
  bool -> Z -> Z -> Z -> matrix_ref T -> matrix_ref T -> matrix_ref T -> list T.
Variable taucs_SwapLines : list T -> Z -> Z -> list Z -> Z -> Z -> list T.
Variable taucs_ccs_transpose : taucs_ccs_matrix T -> taucs_ccs_matrix T.
Variable TAUCS_SCALAR_KINDS : Z.
Variable taucs_malloc_ok : Z -> Z -> bool.
Variable uninit : Z -> bool * bool.

(** Whatever the matrix, the threshold and the dense kernels, the
    numeric factorization of [skipped_supercolumn] on one processor
    ends in the scan: it finds the block missing, frees the factor, and
    freeing the missing block dereferences the null pointer. *)
Lemma numeric_skipped_supercolumn_null_deref (A : taucs_ccs_matrix T) (th : taucs_double) :
  taucs_ccs_factor_lu_numeric_maxdepth garbage T tgarbage taucs_zero taucs_add
    taucs_double thresh_below_one taucs_LU taucs_UnitLowerRightTriSolve taucs_CaddMABT
    taucs_SwapLines taucs_ccs_transpose TAUCS_SCALAR_KINDS taucs_malloc_ok uninit
    A (Some skipped_supercolumn) th 1
  = NullDeref.
Proof.
  apply numeric_missing_block with
    (ctx := multilu_context_create garbage T taucs_double taucs_ccs_transpose
              A skipped_supercolumn th 1
              (allocate_factor T (ccs_m T A) (ccs_n T A) 1
                 (Z.land (ccs_flags T A) TAUCS_SCALAR_KINDS)))
    (i := 0).
  - lia.
  - discriminate.
  - reflexivity.
  - simpl. lia.
  - reflexivity.
Qed.

End NumericFailure.

(** ** One supercolumn of a dense 2 x 2 matrix *)

Definition dense2 : taucs_ccs_matrix Z :=
  {| ccs_m := 2; ccs_n := 2; ccs_flags := 0;
     ccs_colptr := [0; 2; 4];
     ccs_rowind := [0; 1; 0; 1];
     ccs_values := [2; 1; 1; 3] |}.

(** Two supercolumns of one column, the first the child of the second. *)
Definition two_supercolumns : taucs_multilu_symbolic :=
  {| sym_n := 2;
     columns := [0; 1];
     number_supercolumns := 2;
     start_supercolumn := [0; 1];
     end_supercolumn := [0; 1];
     supercolumn_size := [1; 1];
     supercolumn_covered_columns := [1; 2];
     sym_l_size := [2; 1];
     sym_u_size := [2; 1];
     etree := {| first_root := 1;
                 parent := [1; -1];
                 first_child := [-1; 0];
                 next_child := [-1; -1];
                 first_desc_index := [-1; 0];
                 last_desc_index := [-1; 0] |} |}.

(** Dense kernels that leave their arrays as they find them; the column
    map does not depend on what the kernels compute. *)
Definition LU_kept (_ : bool) (a : list Z) (_ _ _ : Z) (_ : Z) (_ rows : list Z)
  : list Z * list Z := (a, rows).
Definition TriSolve_kept (_ : bool) (_ _ : Z) (_ : list Z) (_ : Z) (b : list Z) (_ : Z)
  : list Z := b.
Definition CaddMABT_kept (_ : bool) (_ _ _ : Z) (_ _ c : matrix_ref Z) : list Z :=
  mr_data Z c.
Definition SwapLines_kept (a : list Z) (_ _ : Z) (_ : list Z) (_ _ : Z) : list Z := a.

(** [dense2] is symmetric: it is its own transpose. *)
Definition dense2_context : multilu_context Z Z :=
  multilu_context_create 0 Z Z (fun A => A) dense2 two_supercolumns 1 1
    (allocate_factor Z 2 2 2 0).

(** The context when [factorize_supercolumn] is called for supercolumn 0. *)
Definition dense2_focused : multilu_context Z Z :=
  match allocate_factor_block 0 Z 0 0 Z (fun _ _ => true) dense2_context 0 with
  | Ok ctx =>
      match focus_supercolumn_from_A 0 Z 0 Z.add Z ctx 0 with
      | Ok ctx => ctx
      | _ => dense2_context
      end
  | _ => dense2_context
  end.

Definition dense2_factorized : multilu_context Z Z * list Z :=
  match factorize_supercolumn 0 Z 0 0 Z.add Z (fun _ => false) LU_kept TriSolve_kept
          CaddMABT_kept SwapLines_kept (fun _ _ => true) dense2_focused 0
          (ctx_map_cols Z Z dense2_focused) false false with
  | Ok r => r
  | _ => (dense2_focused, [])
  end.

Definition no_block : multilu_factor_block Z :=
  {| valid := 0; row_pivots_number := 0; col_pivots_number := 0; pivot_rows := [];
     pivot_cols := []; non_pivot_rows_number := 0; non_pivot_cols_number := 0;
     non_pivot_rows := 0; non_pivot_cols := 0; fb_l_size := 0; LU1 := []; L2 := 0;
     Ut2 := []; contrib_block := None |}.

Definition block0 (ctx : multilu_context Z Z) : multilu_factor_block Z :=
  default no_block (block_ptr Z Z ctx 0).

(** The same supercolumn on two processors: it is the only child of
    the supercolumn 1, and its non-pivot column 1, a column of the
    parent, is moved to the front. *)
Definition dense2_context2 : multilu_context Z Z :=
  multilu_context_create 0 Z Z (fun A => A) dense2 two_supercolumns 1 2
    (allocate_factor Z 2 2 2 0).

Definition dense2_focused2 : multilu_context Z Z :=
  match allocate_factor_block 0 Z 0 0 Z (fun _ _ => true) dense2_context2 0 with
  | Ok ctx =>
      match focus_supercolumn_from_A 0 Z 0 Z.add Z ctx 0 with
      | Ok ctx => ctx
      | _ => dense2_context2
      end
  | _ => dense2_context2
  end.

Definition dense2_factorized2 : multilu_context Z Z * list Z :=
  match factorize_supercolumn 0 Z 0 0 Z.add Z (fun _ => false) LU_kept TriSolve_kept
          CaddMABT_kept SwapLines_kept (fun _ _ => true) dense2_focused2 0
          [-1; -1] false false with
  | Ok r => r
  | _ => (dense2_focused2, [])
  end.

Lemma dense2_parallel_ready : parallel_ready 0 Z Z dense2_focused2 0 2.
Proof.
  split; [| split].
  - intros r p _.
    apply (get_Forall 0 (fun v => 0 <= v < 2)); [lia |].
    vm_compute. repeat constructor; discriminate.
  - intros c b cb Hb Hcb.
    pose proof (block_ptr_in_range _ _ _ _ _ Hb) as Hc.
    change (0 <= c < 2) in Hc.
    assert (Hc' : c = 0 \/ c = 1) by lia.
    destruct Hc' as [-> | ->]; vm_compute in Hb; [| discriminate].
    injection Hb as <-. discriminate.
  - intros j Hj. change (0 <= j < 1) in Hj. assert (j = 0) as -> by lia.
    split; [vm_compute; split; [discriminate | reflexivity] |].
    intros j' Hj'. lia.
Qed.

(** The supercolumn 0 of [dense2] has one non-pivot column, the column
    1: the map is written at 1 and reset, on one processor and on
    two. *)
Lemma factorize_supercolumn_map_cols_witness :
  (non_pivot_cols_number Z (block0 (fst dense2_factorized)) = 1
   /\ Forall (fun v => v = -1) (snd dense2_factorized)
   /\ length (snd dense2_factorized) = length (ctx_map_cols Z Z dense2_focused))
  /\ (non_pivot_cols_number Z (block0 (fst dense2_factorized2)) = 1
      /\ Forall (fun v => v = -1) (snd dense2_factorized2)
      /\ length (snd dense2_factorized2) = 2%nat).
Proof.
  split; (split; [reflexivity |]).
  - apply (factorize_supercolumn_map_cols 0 Z 0 0 Z.add Z (fun _ => false) LU_kept
             TriSolve_kept CaddMABT_kept SwapLines_kept (fun _ _ => true)
             dense2_focused (fst dense2_factorized) 0
             (ctx_map_cols Z Z dense2_focused) (snd dense2_factorized) false false
             (block0 (fst dense2_factorized))).
    + vm_compute. repeat constructor.
    + vm_compute. discriminate.
    + intros b Hb. vm_compute in Hb. injection Hb as <-.
      split; [reflexivity |]. intros _. vm_compute. discriminate.
    + intros Hp. vm_compute in Hp. discriminate.
    + vm_compute. reflexivity.
    + vm_compute. reflexivity.
    + intros _. vm_compute. discriminate.
  - apply (factorize_supercolumn_map_cols 0 Z 0 0 Z.add Z (fun _ => false) LU_kept
             TriSolve_kept CaddMABT_kept SwapLines_kept (fun _ _ => true)
             dense2_focused2 (fst dense2_factorized2) 0
             [-1; -1] (snd dense2_factorized2) false false
             (block0 (fst dense2_factorized2))).
    + repeat constructor.
    + vm_compute. discriminate.
    + intros b Hb. vm_compute in Hb. injection Hb as <-.
      split; [reflexivity |]. intros _. vm_compute. discriminate.
    + intros _. exact dense2_parallel_ready.
    + vm_compute. reflexivity.
    + vm_compute. reflexivity.
    + intros _. vm_compute. discriminate.
Defined.

(** ** Solving with an exact factor over the integers *)

(** The entry [(i, j)] of a dense matrix handed to a kernel. *)
Definition entry (A : matrix_ref Z) (i j : Z) : Z :=
  getT Z 0 (mr_data Z A) (mr_off Z A + i + j * mr_ld Z A).

Definition cell (x : list Z) (i : Z) : Z := getT Z 0 x i.

(** [sum over j in [lo, lo + len) of f j]. *)
Definition sum_over (lo len : Z) (f : Z -> Z) : Z :=
  fold_left (fun acc j => acc + f j) (seqZ lo len) 0.

(** Forward substitution with a unit lower triangle, on one column. *)
Definition lower_unit_col (m : Z) (L : matrix_ref Z) (b : list Z) : list Z :=
  fold_left (fun x i =>
               updT Z x i (cell x i - sum_over 0 i (fun j => entry L i j * cell x j)))
    (seqZ 0 m) b.

(** Back substitution with an upper triangle, on one column. *)
Definition upper_col (m : Z) (U : matrix_ref Z) (b : list Z) : list Z :=
  fold_left (fun x k =>
               let i := m - 1 - k in
               updT Z x i
                 ((cell x i - sum_over (i + 1) (m - 1 - i) (fun j => entry U i j * cell x j))
                  / entry U i i))
    (seqZ 0 m) b.

(** [c - A b] and [c - A^T b], on one column. *)
Definition sub_AB_col (m kk : Z) (A : matrix_ref Z) (b col : list Z) : list Z :=
  fold_left (fun x i =>
               updT Z x i (cell x i - sum_over 0 kk (fun j => entry A i j * cell b j)))
    (seqZ 0 m) col.

Definition sub_ATB_col (m kk : Z) (A : matrix_ref Z) (b col : list Z) : list Z :=
  fold_left (fun x i =>
               updT Z x i (cell x i - sum_over 0 kk (fun j => entry A j i * cell b j)))
    (seqZ 0 m) col.

Definition UnitLowerLeftTriSolve_Z (m _ : Z) (L : matrix_ref Z) (cols : list (list Z))
  : list (list Z) := map (lower_unit_col m L) cols.
Definition UpperLeftTriSolve_Z (m _ : Z) (U : matrix_ref Z) (cols : list (list Z))
  : list (list Z) := map (upper_col m U) cols.
Definition CaddMAB_Z (m _ kk : Z) (A : matrix_ref Z) (Bs Cs : list (list Z))
  : list (list Z) := zip_with (sub_AB_col m kk A) Bs Cs.
Definition CaddMATB_Z (m _ kk : Z) (A : matrix_ref Z) (Bs Cs : list (list Z))
  : list (list Z) := zip_with (sub_ATB_col m kk A) Bs Cs.

Lemma length_fold_updT (f : list Z -> Z -> Z) (g : Z -> Z) (l : list Z) :
  forall x, length (fold_left (fun x i => updT Z x (g i) (f x i)) l x) = length x.
Proof.
  induction l as [| i l IH]; intros x; simpl; [reflexivity |].
  rewrite IH. apply length_updT.
Qed.

Lemma UnitLowerLeftTriSolve_Z_local : column_local1 Z UnitLowerLeftTriSolve_Z.
Proof.
  intros m n L cols _ _ _. split; [reflexivity |].
  intros col _. apply (length_fold_updT _ (fun i => i)).
Qed.

Lemma UpperLeftTriSolve_Z_local : column_local1 Z UpperLeftTriSolve_Z.
Proof.
  intros m n L cols _ _ _. split; [reflexivity |].
  intros col _. apply (length_fold_updT _ (fun k => m - 1 - k)).
Qed.

Lemma CaddMAB_Z_local : column_local2 Z CaddMAB_Z.
Proof.
  intros m n kk A Bs Cs _ _ _ _ _ _. split; [reflexivity |].
  intros b col _ _. apply (length_fold_updT _ (fun i => i)).
Qed.

Lemma CaddMATB_Z_local : column_local2 Z CaddMATB_Z.
Proof.
  intros m n kk A Bs Cs _ _ _ _ _ _. split; [reflexivity |].
  intros b col _ _. apply (length_fold_updT _ (fun i => i)).
Qed.

(** The factor of [[1, 2], [3, 7]]: one block, [L = [[1, 0], [3, 1]]]
    and [U = [[1, 2], [0, 1]]] packed in [LU1] by columns. *)
Definition lu2_block : multilu_factor_block Z :=
  {| valid := 1; row_pivots_number := 2; col_pivots_number := 2;
     pivot_rows := [0; 1]; pivot_cols := [0; 1];
     non_pivot_rows_number := 0; non_pivot_cols_number := 0;
     non_pivot_rows := 2; non_pivot_cols := 2; fb_l_size := 2;
     LU1 := [1; 3; 2; 1]; L2 := 2; Ut2 := []; contrib_block := None |}.

Definition lu2 : taucs_multilu_factor Z :=
  {| num_blocks := 1; blocks := [Some lu2_block]; F_m := 2; F_n := 2; F_type := 0 |}.

(** Two right-hand sides, [A (1, 2)] and [A (1, 1)], and an [X] to
    fill. *)
Definition two_rhs : memory Z :=
  fun b => match b with
           | Buf_X => [0; 0; 0; 0]
           | Buf_B => [5; 17; 3; 10]
           | _ => []
           end.

Definition solve_many_Z := multilu_solve_many 0 Z 0 UnitLowerLeftTriSolve_Z
                             UpperLeftTriSolve_Z CaddMAB_Z CaddMATB_Z.

Definition solve_Z := multilu_solve 0 Z 0 UnitLowerLeftTriSolve_Z
                        UpperLeftTriSolve_Z CaddMAB_Z CaddMATB_Z.


(** On the same factor and right-hand sides the solve returns and [B]
    is as it was. *)
Lemma multilu_solve_many_keeps_B_witness :
  exists mem', solve_many_Z lu2 2 2 2 two_rhs = Ok mem'
               /\ mem' Buf_B = two_rhs Buf_B.
Proof.
  destruct (multilu_solve_many_keeps_B 0 Z 0 UnitLowerLeftTriSolve_Z UpperLeftTriSolve_Z
              CaddMAB_Z CaddMATB_Z lu2 2 2 2 two_rhs) as [Hkeep Htotal].
  destruct Htotal as [mem' Hrun].
  - intros i Hi. change (0 <= i < 1) in Hi. assert (i = 0) as -> by lia.
    exists lu2_block. reflexivity.
  - exists mem'. split; [exact Hrun | apply Hkeep; exact Hrun].
Defined.

(** ** The numeric factorization of a singular matrix *)

(** The transpose of [singular21]: the column [j] holds the rows [j] and
    20, the column 20 is empty. *)
Definition singular21_t : taucs_ccs_matrix Z :=
  {| ccs_m := 21; ccs_n := 21; ccs_flags := 0;
     ccs_colptr := map (fun j => 2 * j) (seqZ 0 21) ++ [40];
     ccs_rowind := flat_map (fun j => [j; 20]) (seqZ 0 20);
     ccs_values := replicate 40 1 |}.

Definition numeric_Z (A At : taucs_ccs_matrix Z) (symbolic : taucs_multilu_symbolic)
    (np : Z) : result (option (taucs_multilu_factor Z)) :=
  taucs_ccs_factor_lu_numeric_maxdepth 0 Z 0 0 Z.add Z (fun _ => false) LU_kept
    TriSolve_kept CaddMABT_kept SwapLines_kept (fun _ => At) 0 (fun _ _ => true)
    (fun _ => (false, false)) A (Some symbolic) 1 np.

(** The symbolic analysis of [singular21] gives the last supercolumn no
    row, and the numeric factorization on one processor does not return
    the null pointer. *)
Lemma numeric_missing_block_never_returns_witness :
  exists symbolic,
    taucs_ccs_factor_lu_symbolic 0 Z singular21 (seqZ 0 21) = Ok symbolic
    /\ numeric_Z singular21 singular21_t symbolic 1 <> Ok None.
Proof.
  eexists. split; [vm_compute; reflexivity |].
  apply (numeric_missing_block_never_returns 0 Z 0 0 Z.add Z (fun _ => false) LU_kept
           TriSolve_kept CaddMABT_kept SwapLines_kept (fun _ => singular21_t) 0
           (fun _ _ => true) (fun _ => (false, false)) singular21 _ 1 1 20 None).
  - vm_compute. split; [discriminate | reflexivity].
  - right. vm_compute. reflexivity.
Defined.

(** ** Examples: the helpers *)


(** In the sets [0 -> 1 -> 2] the representative of 0 is 2, and the
    find makes 0 and 1 point to it. *)
Lemma uf_find_representative_witness :
  snd (uf_find 0 [1; 2; 2] 0) = 2
  /\ get 0 (fst (uf_find 0 [1; 2; 2] 0)) 0 = 2
  /\ get 0 (fst (uf_find 0 [1; 2; 2] 0)) 1 = 2.
Proof.
  assert (Hpath : uf_path 0 [1; 2; 2] 0 2 [0; 1]).
  { apply uf_path_link; [vm_compute; split; [discriminate | reflexivity]
                        | vm_compute; discriminate |].
    apply (uf_path_link 0 [1; 2; 2] 1 2 []);
      [vm_compute; split; [discriminate | reflexivity] | vm_compute; discriminate |].
    apply (uf_path_root 0 [1; 2; 2] 2). reflexivity. }
  destruct (uf_find_representative 0 [1; 2; 2] 0 2 [0; 1] Hpath)
    as (Hr & _ & Hmem & _ & _).
  split; [exact Hr |].
  split; apply Hmem; [left | right; left].
Defined.

Lemma uf_find_make_sets_witness :
  uf_find 0 (uf_make_sets 3) 1 = (uf_make_sets 3, 1).
Proof. apply (uf_find_make_sets 0 3 1). lia. Defined.

Lemma uf_union_find_witness :
  uf_find 0 (fst (uf_union [0; 1; 2] 0 1)) 0 = (fst (uf_union [0; 1; 2] 0 1), 1)
  /\ snd (uf_union [0; 1; 2] 0 1) = 1.
Proof.
  apply (uf_union_find 0 [0; 1; 2] 0 1).
  - vm_compute. split; [discriminate | reflexivity].
  - discriminate.
  - reflexivity.
Defined.


(** ** Examples: the symbolic factorization *)

Lemma complete_symbolic_layout_witness :
  exists symbolic',
    complete_symbolic 0 three_supercolumns = Ok symbolic'
    /\ number_supercolumns symbolic' = 3
    /\ supercolumn_size symbolic' = [1; 1; 1; 0]
    /\ forall i, 0 <= i < 3 ->
         get 0 (start_supercolumn symbolic') i = columns_before 0 [1; 1; 1; 0] i
         /\ get 0 (end_supercolumn symbolic') i
            = columns_before 0 [1; 1; 1; 0] i + get 0 [1; 1; 1; 0] i - 1.
Proof.
  apply (complete_symbolic_layout 0 three_supercolumns).
  - vm_compute. discriminate.
  - vm_compute. discriminate.
  - vm_compute. discriminate.
  - vm_compute. reflexivity.
Defined.

Lemma three_supercolumns_parents (i : Z) :
  0 <= i < 3 ->
  get 0 (parent (etree three_supercolumns)) i = MULTILU_SYMBOLIC_NONE
  \/ i < get 0 (parent (etree three_supercolumns)) i < 3.
Proof.
  intros Hi. assert (Hc : i = 0 \/ i = 1 \/ i = 2) by lia.
  destruct Hc as [-> | [-> | ->]]; [right | right | left]; vm_compute;
    try reflexivity; split; reflexivity.
Qed.

(** The root of [three_supercolumns] is the supercolumn 2, its first
    child is 1 and the next one 0. *)
Lemma complete_symbolic_child_lists_witness :
  first_root (etree three_supercolumns_completed)
  = last_with 0 (parent (etree three_supercolumns)) MULTILU_SYMBOLIC_NONE 3
  /\ (forall p, 0 <= p < 3 ->
        get 0 (first_child (etree three_supercolumns_completed)) p
        = last_with 0 (parent (etree three_supercolumns)) p 3)
  /\ (forall i, 0 <= i < 3 ->
        get 0 (next_child (etree three_supercolumns_completed)) i
        = last_with 0 (parent (etree three_supercolumns))
            (get 0 (parent (etree three_supercolumns)) i) i).
Proof.
  apply (complete_symbolic_child_lists 0 three_supercolumns three_supercolumns_completed).
  - vm_compute. discriminate.
  - vm_compute. discriminate.
  - intros i Hi. change (number_supercolumns three_supercolumns) with 3 in *.
    destruct (three_supercolumns_parents i Hi) as [E | E]; [left; exact E | right; lia].
  - vm_compute. reflexivity.
Defined.

(** The root of [three_supercolumns] covers its column and the columns
    of its two children. *)
Lemma complete_symbolic_covered_columns_witness :
  get 0 (supercolumn_covered_columns three_supercolumns_completed) 2
  = get 0 (supercolumn_size three_supercolumns) 2
    + children_cover 0 (parent (etree three_supercolumns))
        (supercolumn_covered_columns three_supercolumns_completed) 2 3.
Proof.
  apply (complete_symbolic_covered_columns 0 three_supercolumns three_supercolumns_completed).
  - vm_compute. discriminate.
  - intros i Hi. apply three_supercolumns_parents. exact Hi.
  - vm_compute. reflexivity.
  - vm_compute. split; [discriminate | reflexivity].
Defined.

Definition diag4_analysis : list Z * list Z * list Z :=
  match elimination_analysis 0 Z diag4 [0; 1; 2; 3] (malloc 0 5) (malloc 0 5) (malloc 0 5) with
  | Ok r => r
  | _ => ([], [], [])
  end.

(** The first column of [diag4] has the root for its parent and one
    entry in its row of [U]. *)
Lemma elimination_analysis_bounds_witness :
  0 < get 0 (fst (fst diag4_analysis)) 0 <= ccs_n Z diag4
  /\ 1 <= get 0 (snd diag4_analysis) 0.
Proof.
  apply (elimination_analysis_bounds 0 Z diag4 [0; 1; 2; 3] (malloc 0 5) (malloc 0 5)
           (malloc 0 5) (fst (fst diag4_analysis)) (snd (fst diag4_analysis))
           (snd diag4_analysis)).
  - vm_compute. discriminate.
  - vm_compute. discriminate.
  - vm_compute. reflexivity.
  - vm_compute. split; [discriminate | reflexivity].
Defined.

(** The tree of two columns, the column 0 the sibling of the column 1
    under the root 2: the postorder starts at the leaf 1. *)
Lemma df_postorder_starts_at_leaf_witness :
  df_postorder 0 [-1; -1; 1] [-1; 0; -1] 2 (malloc 0 2) (malloc 0 2) = Ok ([1; 0], [1; 1])
  /\ get 0 [-1; -1; 1] (get 0 [1; 0] 0) = MULTILU_SYMBOLIC_NONE.
Proof.
  assert (Hrun : df_postorder 0 [-1; -1; 1] [-1; 0; -1] 2 (malloc 0 2) (malloc 0 2)
                 = Ok ([1; 0], [1; 1])) by (vm_compute; reflexivity).
  split; [exact Hrun |].
  apply (df_postorder_starts_at_leaf 0 [-1; -1; 1] [-1; 0; -1] 2 (malloc 0 2) (malloc 0 2)
           [1; 0] [1; 1]).
  - lia.
  - vm_compute. lia.
  - split; [| vm_compute; discriminate].
    intros v Hv. assert (Hc : v = 0 \/ v = 1 \/ v = 2) by lia.
    destruct Hc as [-> | [-> | ->]]; [left | left | right]; vm_compute;
      try reflexivity; split; [discriminate | reflexivity].
  - exact Hrun.
Defined.

Lemma singular21_rows (col i : Z) :
  0 <= get 0 (ccs_rowind Z singular21)
         (get 0 (ccs_colptr Z singular21) (get 0 (columns singular21_symbolic) col) + i)
  < ccs_m Z singular21.
Proof.
  change (ccs_m Z singular21) with 21.
  apply (get_Forall 0 (fun v => 0 <= v < 21)); [lia |].
  vm_compute. repeat constructor; discriminate.
Qed.

(** The 21 supercolumns of [singular21] are its 21 columns. *)
Lemma symbolic_supercolumns_tile_witness :
  1 <= number_supercolumns singular21_symbolic <= ccs_n Z singular21
  /\ columns_before 0 (supercolumn_size singular21_symbolic)
       (number_supercolumns singular21_symbolic) = ccs_n Z singular21
  /\ forall i, 0 <= i < number_supercolumns singular21_symbolic ->
       get 0 (start_supercolumn singular21_symbolic) i
       = columns_before 0 (supercolumn_size singular21_symbolic) i
       /\ get 0 (end_supercolumn singular21_symbolic) i
          = columns_before 0 (supercolumn_size singular21_symbolic) i
            + get 0 (supercolumn_size singular21_symbolic) i - 1.
Proof.
  apply (symbolic_supercolumns_tile 0 Z singular21 (seqZ 0 21) singular21_symbolic).
  - vm_compute. discriminate.
  - vm_compute. discriminate.
  - vm_compute. reflexivity.
  - intros col _ i _. apply singular21_rows.
Defined.

(** The last of the 21 supercolumns of [singular21] is the root. *)
Lemma symbolic_last_is_root_witness :
  1 <= number_supercolumns singular21_symbolic
  /\ get 0 (parent (etree singular21_symbolic)) (number_supercolumns singular21_symbolic - 1)
     = MULTILU_SYMBOLIC_NONE
  /\ first_root (etree singular21_symbolic) = number_supercolumns singular21_symbolic - 1
  /\ first_root (etree singular21_symbolic) <> MULTILU_SYMBOLIC_NONE.
Proof.
  apply (symbolic_last_is_root 0 Z singular21 (seqZ 0 21) singular21_symbolic).
  - vm_compute. discriminate.
  - vm_compute. discriminate.
  - vm_compute. reflexivity.
  - intros col _ i _. apply singular21_rows.
Defined.

(** The first supercolumn of [singular21] has a column. *)
Lemma symbolic_supercolumns_nonempty_witness :
  1 <= get 0 (supercolumn_size singular21_symbolic) 0
  /\ get 0 (start_supercolumn singular21_symbolic) 0
     <= get 0 (end_supercolumn singular21_symbolic) 0.
Proof.
  apply (symbolic_supercolumns_nonempty 0 Z singular21 (seqZ 0 21) singular21_symbolic).
  - vm_compute. discriminate.
  - vm_compute. discriminate.
  - vm_compute. reflexivity.
  - intros col _ i _. apply singular21_rows.
  - vm_compute. split; [discriminate | reflexivity].
Defined.

(** The tree of two columns, both children of the root 2: the walk
    from the root meets the column 1, then the column 0, and that is
    the postorder. *)
Lemma df_postorder_is_walk_witness :
  exists postorder' desc_count',
    df_postorder 0 [-1; -1; 1] [-1; 0; -1] 2 (malloc 0 2) (malloc 0 2)
    = Ok (postorder', desc_count')
    /\ length postorder' = length (malloc 0 2)
    /\ forall (k : nat) x, [1; 0] !! k = Some x -> get 0 postorder' (Z.of_nat k) = x.
Proof.
  apply (df_postorder_is_walk 0 [-1; -1; 1] [-1; 0; -1] 2 (malloc 0 2) (malloc 0 2) [1; 0]).
  - lia.
  - apply (walk_cons 0 [-1; -1; 1] [-1; 0; -1] 2 1 [] [0]); [lia | apply walk_none |].
    apply (walk_cons 0 [-1; -1; 1] [-1; 0; -1] 2 0 [] []); [lia | apply walk_none ..].
  - vm_compute. discriminate.
  - vm_compute. lia.
Defined.

(** ** Examples: the numeric factorization of [dense2] *)

(** The factor of [dense2] on its two supercolumns of one column. *)
Definition dense2_factor : taucs_multilu_factor Z :=
  match numeric_Z dense2 dense2 two_supercolumns 1 with
  | Ok (Some F) => F
  | _ => lu2
  end.

Lemma dense2_factor_run :
  taucs_ccs_factor_lu_numeric_maxdepth 0 Z 0 0 Z.add Z (fun _ => false) LU_kept
    TriSolve_kept CaddMABT_kept SwapLines_kept (fun _ => dense2) 0 (fun _ _ => true)
    (fun _ => (false, false)) dense2 (Some two_supercolumns) 1 1
  = Ok (Some dense2_factor).
Proof. vm_compute. reflexivity. Qed.

Lemma numeric_factor_complete_witness :
  num_blocks Z dense2_factor = number_supercolumns two_supercolumns
  /\ forall i, 0 <= i < num_blocks Z dense2_factor ->
       exists b, block_of Z dense2_factor i = Ok b /\ valid Z b <> 0.
Proof.
  apply (numeric_factor_complete 0 Z 0 0 Z.add Z (fun _ => false) LU_kept TriSolve_kept
           CaddMABT_kept SwapLines_kept (fun _ => dense2) 0 (fun _ _ => true)
           (fun _ => (false, false)) dense2 two_supercolumns 1 1 dense2_factor).
  exact dense2_factor_run.
Defined.

Lemma numeric_factor_pivots_witness :
  F_m Z dense2_factor = ccs_m Z dense2 /\ F_n Z dense2_factor = ccs_n Z dense2
  /\ (forall i, 0 <= i < num_blocks Z dense2_factor ->
        exists b, block_of Z dense2_factor i = Ok b
                  /\ block_pivots_ok Z (get 0 (supercolumn_size two_supercolumns) i) b)
  /\ pivots_below (block_pivots Z dense2_factor (col_pivots_number Z))
       (Z.to_nat (num_blocks Z dense2_factor))
     = columns_before 0 (supercolumn_size two_supercolumns)
         (number_supercolumns two_supercolumns).
Proof.
  apply (numeric_factor_pivots 0 Z 0 0 Z.add Z (fun _ => false) LU_kept TriSolve_kept
           CaddMABT_kept SwapLines_kept (fun _ => dense2) 0 (fun _ _ => true)
           (fun _ => (false, false)) dense2 two_supercolumns 1 1 dense2_factor).
  exact dense2_factor_run.
Defined.


(** When the allocation of [LU1] for the second supercolumn fails, the
    numeric factorization of [dense2] returns the null pointer. *)
Definition LU1_of_1_fails (i k : Z) : bool := negb ((i =? 1) && (k =? 2)).


(** ** Examples: the two factorizations of [dense2], one after the other *)

Definition dense2_symbolic : taucs_multilu_symbolic :=
  match taucs_ccs_factor_lu_symbolic 0 Z dense2 [0; 1] with
  | Ok symbolic => symbolic
  | _ => two_supercolumns
  end.

Definition dense2_lu : taucs_multilu_factor Z :=
  match numeric_Z dense2 dense2 dense2_symbolic 1 with
  | Ok (Some F) => F
  | _ => lu2
  end.

(** The symbolic factorization of [dense2] makes one supercolumn of its
    two columns, and the block of the factor has two pivot columns. *)
Lemma factor_lu_pivot_columns_witness :
  1 <= num_blocks Z dense2_lu <= F_n Z dense2_lu
  /\ num_blocks Z dense2_lu = number_supercolumns dense2_symbolic
  /\ F_m Z dense2_lu = ccs_m Z dense2 /\ F_n Z dense2_lu = ccs_n Z dense2
  /\ pivots_below (block_pivots Z dense2_lu (col_pivots_number Z))
       (Z.to_nat (num_blocks Z dense2_lu)) = F_n Z dense2_lu
  /\ pivots_below (block_pivots Z dense2_lu (row_pivots_number Z))
       (Z.to_nat (num_blocks Z dense2_lu)) <= F_n Z dense2_lu
  /\ forall i, 0 <= i < num_blocks Z dense2_lu ->
       exists b, block_of Z dense2_lu i = Ok b
                 /\ 1 <= row_pivots_number Z b <= col_pivots_number Z b.
Proof.
  apply (factor_lu_pivot_columns 0 Z 0 0 Z.add Z (fun _ => false) LU_kept TriSolve_kept
           CaddMABT_kept SwapLines_kept (fun _ => dense2) 0 (fun _ _ => true)
           (fun _ => (false, false)) dense2 [0; 1] dense2_symbolic 1 1 dense2_lu).
  - vm_compute. discriminate.
  - vm_compute. discriminate.
  - vm_compute. reflexivity.
  - intros col _ i _. change (ccs_m Z dense2) with 2.
    apply (get_Forall 0 (fun v => 0 <= v < 2)); [lia |].
    vm_compute. repeat constructor; discriminate.
  - vm_compute. reflexivity.
Defined.

(** The first block of the factor of [dense2] starts with the
    column 0. *)
Lemma numeric_factor_pivot_columns_witness :
  exists b, block_of Z dense2_factor 0 = Ok b
            /\ col_pivots_number Z b = get 0 (supercolumn_size two_supercolumns) 0
            /\ col_pivots_number Z b <= Z.of_nat (length (pivot_cols Z b))
            /\ forall k, 0 <= k < col_pivots_number Z b ->
                 get 0 (pivot_cols Z b) k
                 = get 0 (columns two_supercolumns)
                     (get 0 (start_supercolumn two_supercolumns) 0 + k).
Proof.
  apply (numeric_factor_pivot_columns 0 Z 0 0 Z.add Z (fun _ => false) LU_kept
           TriSolve_kept CaddMABT_kept SwapLines_kept (fun _ => dense2) 0 (fun _ _ => true)
           (fun _ => (false, false)) dense2 two_supercolumns 1 1 dense2_factor).
  - intros i Hi. change (number_supercolumns two_supercolumns) with 2 in Hi.
    assert (Hc : i = 0 \/ i = 1) by lia.
    destruct Hc as [-> | ->]; vm_compute; discriminate.
  - exact dense2_factor_run.
  - vm_compute. split; [discriminate | reflexivity].
Defined.

(** The columns of the symbolic structure of [dense2] are its two
    columns. *)
Lemma symbolic_columns_permutation_witness :
  exists postorder,
    postorder ≡ₚ seqZ 0 (ccs_n Z dense2)
    /\ forall (k : nat) x, postorder !! k = Some x ->
         get 0 (columns dense2_symbolic) (Z.of_nat k) = get 0 [0; 1] x.
Proof.
  apply (symbolic_columns_permutation 0 Z dense2 [0; 1] dense2_symbolic).
  - vm_compute. discriminate.
  - vm_compute. reflexivity.
Defined.

Lemma dense2_rows (c i : Z) :
  0 <= get 0 (ccs_rowind Z dense2) (get 0 (ccs_colptr Z dense2) (get 0 [0; 1] c) + i)
  < ccs_m Z dense2.
Proof.
  change (ccs_m Z dense2) with 2.
  apply (get_Forall 0 (fun v => 0 <= v < 2)); [lia |].
  vm_compute. repeat constructor; discriminate.
Qed.

(** The symbolic factorization of [dense2] returns or stops at an
    assertion of the elimination analysis. *)
Lemma symbolic_returns_or_singular_witness :
  (exists symbolic, taucs_ccs_factor_lu_symbolic 0 Z dense2 [0; 1] = Ok symbolic)
  \/ exists col, 0 <= col < ccs_n Z dense2
       /\ (taucs_ccs_factor_lu_symbolic 0 Z dense2 [0; 1]
           = AssertFailed (assert_column_not_empty col)
           \/ taucs_ccs_factor_lu_symbolic 0 Z dense2 [0; 1]
              = AssertFailed (assert_row_size_positive col)).
Proof.
  apply (symbolic_returns_or_singular 0 Z dense2 [0; 1]).
  - vm_compute. discriminate.
  - vm_compute. discriminate.
  - intros c _ i _. apply dense2_rows.
Defined.
